(** * code-scanner-server: the definition catalogue pipeline

    A shallow embedding of [src/index.ts]: cyclomatic complexity over a
    tree-sitter syntax tree, extraction of definitions and of the
    parent/child hierarchy, the filter engine with ancestor closure, the
    scan loop and the three renderers. *)

From Stdlib Require Import ZArith Lia Ascii String Sorted Permutation.
From stdpp Require Import base tactics option list strings gmap sets pretty.

Local Open Scope string_scope.
Local Open Scope list_scope.
Local Open Scope Z_scope.

(** ** JavaScript values used by the program *)

(** [x ? .. : ..] and [if (x)] on an optional string: [undefined] and the
    empty string are falsy. *)
Definition truthy (s : option string) : bool :=
  match s with
  | Some s => negb (String.eqb s EmptyString)
  | None => false
  end.

(** The string a truthy optional string holds. *)
Definition nonEmptyString (s : option string) : option string :=
  match s with
  | Some s => if String.eqb s EmptyString then None else Some s
  | None => None
  end.

(** [Array.prototype.includes] on an array of strings. *)
Definition includes (l : list string) (x : string) : bool :=
  bool_decide (x ∈ l).

(** ** Syntax trees (the part of tree-sitter's [SyntaxNode] the program reads) *)

Module Parser.

Record Point := { row : Z; column : Z }.

#[local] Unset Elimination Schemes.

Inductive SyntaxNode := mkNode {
  type : string;
  text : string;
  startPosition : Point;
  endPosition : Point;
  (** the field name under which the node hangs in its parent, if any *)
  fieldName : option string;
  children : list SyntaxNode
}.

#[local] Set Elimination Schemes.

(** [node.childForFieldName(f)]: the first child stored under field [f]. *)
Definition childForFieldName (node : SyntaxNode) (f : string) : option SyntaxNode :=
  List.find (fun c => bool_decide (fieldName c = Some f)) (children node).

(** All nodes of a subtree, in the order [traverse] visits them. *)
Fixpoint subtree (node : SyntaxNode) : list SyntaxNode :=
  node :: flat_map subtree (children node).

(** Positions are ordered by row, then by column. *)
Definition point_lt (a b : Point) : bool :=
  (row a <? row b) || ((row a =? row b) && (column a <? column b)).

Definition point_le (a b : Point) : bool :=
  (row a <? row b) || ((row a =? row b) && (column a <=? column b)).

(** [node.descendantForPosition(p)], the smallest node that spans [p],
    together with the way back up: the result lists the node found, then
    its [parent], the parent of that, and so on up to [node]. In each
    node the library takes the first child that ends after [p], and
    descends into it when it starts at or before [p]. *)
Fixpoint descendantPath (p : Point) (node : SyntaxNode) (above : list SyntaxNode)
    : list SyntaxNode :=
  let fix scan (cs : list SyntaxNode) : list SyntaxNode :=
    match cs with
    | [] => node :: above
    | child :: cs' =>
        if point_le (endPosition child) p then scan cs'
        else if point_lt p (startPosition child) then node :: above
        else descendantPath p child (node :: above)
    end in
  scan (children node).

(** A child lies inside its parent. *)
Fixpoint well_formed (node : SyntaxNode) : bool :=
  forallb (fun child =>
             point_le (startPosition node) (startPosition child)
             && point_le (endPosition child) (endPosition node)
             && well_formed child)
          (children node).

Record QueryCapture := { name : string; node : SyntaxNode }.

Record QueryMatch := { captures : list QueryCapture }.

(** The grammars the program imports. *)
Inductive Language :=
| JavaScript | TypeScript_typescript | TypeScript_tsx
| CSharp | Php | Css | Python.

End Parser.

(** The parser and the pattern queries of tree-sitter: a native library,
    taken as an interface. [None] is a thrown exception. *)
Class TreeSitter := {
  Query : Type;
  (** [parser.setLanguage(language)]; [Some m] when it throws [m] *)
  setLanguage : Parser.Language -> option string;
  (** [parser.parse(code).rootNode] *)
  parse : Parser.Language -> string -> option Parser.SyntaxNode;
  (** [new Parser.Query(language, queryStr)] *)
  newQuery : Parser.Language -> string -> option Query;
  (** [query.matches(node)] *)
  Query_matches : Query -> Parser.SyntaxNode -> option (list Parser.QueryMatch);
  (** [query.captures(node)] *)
  Query_captures : Query -> Parser.SyntaxNode -> option (list Parser.QueryCapture)
}.

(** The built-ins of Node.js the program calls whose result depends on
    the platform or on Unicode tables. *)
Class Host := {
  (** [path.extname(p)] *)
  extname : string -> string;
  (** [path.resolve(p)] *)
  resolve : string -> string;
  (** [path.relative(from, to)] *)
  relative : string -> string -> string;
  (** [await fs.readFile(p, 'utf-8')]: the content, or the message of the
      error thrown *)
  readFile : string -> string + string;
  (** [s.toLowerCase()], [s.toUpperCase()], [s.trim()] *)
  toLowerCase : string -> string;
  toUpperCase : string -> string;
  trim : string -> string
}.

(** ** calculateComplexity *)

Definition decisionPointTypes : list string :=
  [ "if_statement"; "while_statement"; "for_statement"; "for_in_statement";
    "switch_case"; "case_statement"; "switch_default";
    "conditional_expression";
    "binary_expression";
    "boolean_operator";
    "catch_clause";
    "foreach_statement";
    "case_clause" ].

(** The body of [traverse] before it recurses: the update of the captured
    [complexity] counter for one node. *)
Definition visit (currentNode : Parser.SyntaxNode) (complexity : Z) : Z :=
  if includes decisionPointTypes (Parser.type currentNode) then
    if String.eqb (Parser.type currentNode) "binary_expression"
       || String.eqb (Parser.type currentNode) "boolean_operator"
    then
      let operator := Parser.text <$> Parser.childForFieldName currentNode "operator" in
      if bool_decide (operator = Some "&&") || bool_decide (operator = Some "||")
         || bool_decide (operator = Some "and") || bool_decide (operator = Some "or")
      then complexity + 1
      else complexity
    else complexity + 1
  else complexity.

(** [traverse], with the counter it closes over passed in and out. *)
Fixpoint traverse (currentNode : Parser.SyntaxNode) (complexity : Z) : Z :=
  fold_left (fun c child => traverse child c)
            (Parser.children currentNode)
            (visit currentNode complexity).

Definition calculateComplexity (node : option Parser.SyntaxNode) : Z :=
  match node with
  | None => 1
  | Some node => traverse node 1
  end.

(** ** The data model *)

(** The interfaces [Parameter] and [Definition]; both names are keywords
    here, hence [Param] and [Def]. *)
Record Param := {
  param_name : string;
  param_type : option string
}.

Record Def := {
  id : option string;
  type : string;
  name : string;
  startLine : Z;
  endLine : Z;
  modifier : option string;
  dataType : option string;
  value : option string;
  parentId : option string;
  children : option (list string);
  parameters : option (list Param);
  returnType : option string;
  complexity : option Z;
  parameterCount : option Z;
  loc : option Z;
  calls : option (list string)
}.

Record FilterOptions := {
  includeTypes : option (list string);
  excludeTypes : option (list string);
  includeModifiers : option (list string);
  excludeModifiers : option (list string);
  namePattern : option string;
  excludeNamePattern : option string;
  includePaths : option (list string);
  excludePaths : option (list string);
  maxComplexity : option Z;
  minComplexity : option Z;
  maxParameters : option Z;
  minParameters : option Z
}.

(** [{}], the default of [performScan]. *)
Definition noFilter : FilterOptions :=
  {| includeTypes := None; excludeTypes := None;
     includeModifiers := None; excludeModifiers := None;
     namePattern := None; excludeNamePattern := None;
     includePaths := None; excludePaths := None;
     maxComplexity := None; minComplexity := None;
     maxParameters := None; minParameters := None |}.

(** ** The regular expressions of the host language

    [RegExp] is a built-in of the JavaScript engine, not code of the
    program: the filter is written against this interface, and every
    theorem about it holds for any engine. *)
Class RegExpEngine := {
  RegExp : Type;
  (** [new RegExp(p)]; [None] when the constructor throws *)
  newRegExp : string -> option RegExp;
  (** [regex.test(s)], for a regex without the [g] flag *)
  test : RegExp -> string -> bool;
  (** [s.replace(regex, r)] *)
  replace : string -> RegExp -> string -> string;
  (** a regular expression literal [/source/flags] *)
  literal : string -> string -> RegExp;
  (** [s.match(regex)] for a regex without the [g] flag: the match and
      its groups, [None] for [null] *)
  exec : RegExp -> string -> option (list (option string))
}.

(** ** String helpers *)

(** [s.split(c)] for a one-character separator: empty pieces are kept. *)
Fixpoint split (c : ascii) (s : string) : list string :=
  match s with
  | EmptyString => [EmptyString]
  | String a s' =>
      if Ascii.eqb a c then EmptyString :: split c s'
      else match split c s' with
           | x :: xs => String a x :: xs
           | [] => [String a EmptyString]
           end
  end.

(** [a.pop()] read as a value: the last element, [undefined] on [[]]. *)
Definition pop_value {A} (l : list A) : option A := last l.

(** [a.some(p)] *)
Definition some {A} (p : A -> bool) (l : list A) : bool := existsb p l.

(** [o && o.length > 0] on an optional array. *)
Definition nonEmpty {A} (o : option (list A)) : bool :=
  match o with
  | Some (_ :: _) => true
  | _ => false
  end.

Definition optList {A} (o : option (list A)) : list A := default [] o.

(** [a.sort(cmp)]: the engine's sort is stable, so it is the insertion of
    each element before the first later element it does not have to
    follow. *)
Section Sort.
Context {A : Type} (cmp : A -> A -> Z).

Fixpoint sort_insert (x : A) (l : list A) : list A :=
  match l with
  | [] => [x]
  | y :: l' => if 0 <? cmp x y then y :: sort_insert x l' else x :: y :: l'
  end.

Definition sort (l : list A) : list A := foldr sort_insert [] l.
End Sort.

(** Field assignments [def.children = c] and [def.parentId = p]. *)
Definition set_children (c : option (list string)) (def : Def) : Def :=
  {| id := id def; type := type def; name := name def;
     startLine := startLine def; endLine := endLine def;
     modifier := modifier def; dataType := dataType def; value := value def;
     parentId := parentId def; children := c;
     parameters := parameters def; returnType := returnType def;
     complexity := complexity def; parameterCount := parameterCount def;
     loc := loc def; calls := calls def |}.

Definition set_parentId (p : option string) (def : Def) : Def :=
  {| id := id def; type := type def; name := name def;
     startLine := startLine def; endLine := endLine def;
     modifier := modifier def; dataType := dataType def; value := value def;
     parentId := p; children := children def;
     parameters := parameters def; returnType := returnType def;
     complexity := complexity def; parameterCount := parameterCount def;
     loc := loc def; calls := calls def |}.

(** ** applyFiltersToDefinitions: the selection *)

Definition isMeta (def : Def) : bool :=
  String.eqb (type def) "error" || String.eqb (type def) "metadata".

(** [def.name.split(' ').pop() || def.name] *)
Definition lastToken (name : string) : string :=
  match pop_value (split " " name) with
  | Some t => if truthy (Some t) then t else name
  | None => name
  end.

(** [def.modifier?.split(' ') || []] *)
Definition defModifiers (def : Def) : list string :=
  match modifier def with
  | Some m => split " " m
  | None => []
  end.

Record ClosureState := {
  entriesToInclude : gset string;
  processedForParents : gset string;
  (** the array [itemsToAdd] as a stack, its last element first: [pop]
      takes the head and [push] conses *)
  itemsToAdd : list Def
}.

Section Filter.
Context `{RegExpEngine}.

Definition typeRejects (fo : FilterOptions) (def : Def) : bool :=
  (nonEmpty (includeTypes fo) && negb (includes (optList (includeTypes fo)) (type def)))
  || (nonEmpty (excludeTypes fo) && includes (optList (excludeTypes fo)) (type def)).

Definition includeModifiersRejects (fo : FilterOptions) (def : Def) : bool :=
  nonEmpty (includeModifiers fo)
  && (negb (truthy (modifier def))
      || negb (some (fun incMod => includes (defModifiers def) incMod)
                    (optList (includeModifiers fo)))).

Definition excludeModifiersRejects (fo : FilterOptions) (def : Def) : bool :=
  nonEmpty (excludeModifiers fo)
  && (truthy (modifier def)
      && some (fun exMod => includes (defModifiers def) exMod)
              (optList (excludeModifiers fo))).

(** The [try] block of [namePattern]; the [catch] returns [false] from
    the filter callback. *)
Definition namePatternRejects (fo : FilterOptions) (def : Def) : bool :=
  match nonEmptyString (namePattern fo) with
  | Some pattern =>
      match newRegExp pattern with
      | Some regex =>
          negb (test regex (lastToken (name def))) && negb (test regex (name def))
      | None => true
      end
  | None => false
  end.

(** The [try] block of [excludeNamePattern]; the [catch] only warns. *)
Definition excludeNamePatternRejects (fo : FilterOptions) (def : Def) : bool :=
  match nonEmptyString (excludeNamePattern fo) with
  | Some pattern =>
      match newRegExp pattern with
      | Some regex =>
          test regex (lastToken (name def)) || test regex (name def)
      | None => false
      end
  | None => false
  end.

Definition below (bound : option Z) (metric : option Z) : bool :=
  match bound with
  | Some b => match metric with Some m => m <? b | None => true end
  | None => false
  end.

Definition above (bound : option Z) (metric : option Z) : bool :=
  match bound with
  | Some b => match metric with Some m => b <? m | None => true end
  | None => false
  end.

(** The callback of [nonMetaEntries.filter], one early [return false]
    after the other. *)
Definition basicFilter (fo : FilterOptions) (def : Def) : bool :=
  if nonEmpty (includeTypes fo) && negb (includes (optList (includeTypes fo)) (type def))
  then false else
  if nonEmpty (excludeTypes fo) && includes (optList (excludeTypes fo)) (type def)
  then false else
  if includeModifiersRejects fo def then false else
  if excludeModifiersRejects fo def then false else
  if namePatternRejects fo def then false else
  if excludeNamePatternRejects fo def then false else
  if below (minComplexity fo) (complexity def) then false else
  if above (maxComplexity fo) (complexity def) then false else
  if below (minParameters fo) (parameterCount def) then false else
  if above (maxParameters fo) (parameterCount def) then false else
  true.

Definition metaEntries (definitionsCopy : list Def) : list Def :=
  List.filter isMeta definitionsCopy.

Definition nonMetaEntries (definitionsCopy : list Def) : list Def :=
  List.filter (fun def => negb (isMeta def)) definitionsCopy.

Definition basicFilteredEntries (definitionsCopy : list Def) (fo : FilterOptions) : list Def :=
  List.filter (basicFilter fo) (nonMetaEntries definitionsCopy).

(** [new Set(a.map(def => def.id))], as the set of the ids that are
    strings: [undefined] is never looked up. *)
Definition idSet (l : list Def) : gset string :=
  list_to_set (omap id l).

(** The test on a parent inside the closure loop: [true] when the loop
    [continue]s without adding it. A throw of either [new RegExp] lands
    in the [catch], after which the parent is added. *)
Definition parentExcluded (fo : FilterOptions) (parent : Def) : bool :=
  match nonEmptyString (excludeNamePattern fo) with
  | Some pattern =>
      match newRegExp pattern with
      | None => false
      | Some regex =>
          let nameWithoutModifier :=
            match nonEmptyString (modifier parent) with
            | Some m =>
                match newRegExp ("^" +:+ m +:+ "\s+") with
                | Some strip => Some (replace (name parent) strip EmptyString)
                | None => None
                end
            | None => Some (name parent)
            end in
          match nameWithoutModifier with
          | None => false
          | Some n => test regex n || test regex (name parent)
          end
      end
  | None => false
  end.

(** [definitionsCopy.find(p => p.id === i)] *)
Definition findById (definitionsCopy : list Def) (i : string) : option Def :=
  List.find (fun p => bool_decide (id p = Some i)) definitionsCopy.

(** One iteration of [while (itemsToAdd.length > 0)]; [None] when the
    loop condition fails. *)
Definition closureStep (definitionsCopy : list Def) (fo : FilterOptions)
    (st : ClosureState) : option ClosureState :=
  match itemsToAdd st with
  | [] => None
  | current :: rest =>
      let continue processed :=
        Some {| entriesToInclude := entriesToInclude st;
                processedForParents := processed;
                itemsToAdd := rest |} in
      match nonEmptyString (id current) with
      | None => continue (processedForParents st)
      | Some currentId =>
          if bool_decide (currentId ∈ processedForParents st)
          then continue (processedForParents st)
          else
            let processed := {[ currentId ]} ∪ processedForParents st in
            match nonEmptyString (parentId current) with
            | None => continue processed
            | Some parentId =>
                if bool_decide (parentId ∈ entriesToInclude st)
                then continue processed
                else
                  match findById definitionsCopy parentId with
                  | None => continue processed
                  | Some parent =>
                      match nonEmptyString (id parent) with
                      | None => continue processed
                      | Some parentsId =>
                          if parentExcluded fo parent then continue processed
                          else Some {| entriesToInclude :=
                                         {[ parentsId ]} ∪ entriesToInclude st;
                                       processedForParents := processed;
                                       itemsToAdd := parent :: rest |}
                      end
                  end
            end
      end
  end.

Fixpoint closureLoop (fuel : nat) (definitionsCopy : list Def) (fo : FilterOptions)
    (st : ClosureState) : ClosureState :=
  match fuel with
  | O => st
  | S fuel =>
      match closureStep definitionsCopy fo st with
      | None => st
      | Some st' => closureLoop fuel definitionsCopy fo st'
      end
  end.

Definition closureStart (definitionsCopy : list Def) (fo : FilterOptions) : ClosureState :=
  {| entriesToInclude := idSet (basicFilteredEntries definitionsCopy fo);
     processedForParents := ∅;
     itemsToAdd := rev (basicFilteredEntries definitionsCopy fo) |}.

(** Every iteration pops one item, and pushes one only together with an
    id that was not yet included: the loop ends within this many steps
    ([closure_terminates]). *)
Definition closureFuel (definitionsCopy : list Def) (st : ClosureState) : nat :=
  (length (itemsToAdd st) + length definitionsCopy)%nat.

Definition closure (definitionsCopy : list Def) (fo : FilterOptions) : ClosureState :=
  closureLoop (closureFuel definitionsCopy (closureStart definitionsCopy fo))
              definitionsCopy fo (closureStart definitionsCopy fo).

(** The final value of [entriesToInclude]. *)
Definition survivorIds (definitions : list Def) (fo : FilterOptions) : gset string :=
  entriesToInclude (closure definitions fo).

(** The callback of step 5, [def.id && entriesToInclude.has(def.id)]. *)
Definition included (ids : gset string) (def : Def) : bool :=
  match nonEmptyString (id def) with
  | Some i => bool_decide (i ∈ ids)
  | None => false
  end.

(** The body of [result.forEach] in step 6. *)
Definition rebuild (finalIds : gset string) (def : Def) : Def :=
  let def :=
    match children def with
    | Some c =>
        set_children
          (Some (List.filter (fun childId => bool_decide (childId ∈ finalIds)) c)) def
    | None => def
    end in
  match nonEmptyString (parentId def) with
  | Some p => if bool_decide (p ∈ finalIds) then def else set_parentId None def
  | None => def
  end.

(** [(a, b) => a.startLine - b.startLine] *)
Definition byStartLine (a b : Def) : Z := startLine a - startLine b.

(** The function on values. [JSON.parse(JSON.stringify(definitions))]
    yields records equal to the ones read, so the copy is the list
    itself here (the copy as fresh objects is in [Heap] below).
    [metaEntries] and [result] hold the objects of [definitionsCopy]
    themselves: an entry that is in both is seen rebuilt in both
    places. *)
Definition applyFiltersToDefinitions (definitions : list Def) (fo : FilterOptions) : list Def :=
  match definitions with
  | [] => []
  | _ =>
      let definitionsCopy := definitions in
      let ids := survivorIds definitionsCopy fo in
      let result := List.filter (included ids) definitionsCopy in
      let finalIds := idSet result in
      let seen def := if included ids def then rebuild finalIds def else def in
      sort byStartLine (map seen (metaEntries definitionsCopy) ++ map (rebuild finalIds) result)
  end.

End Filter.

(** ** applyFiltersToDefinitions on objects

    The same function with the objects it reads and writes made explicit:
    a heap of [Definition] objects addressed by reference, arrays as lists
    of references. Allocation appends to the heap. *)
Module Heap.
Section Heap.
Context `{RegExpEngine}.

Definition deref (h : list Def) (refs : list nat) : list Def :=
  omap (fun r => h !! r) refs.

(** [JSON.parse(JSON.stringify(definitions))]: one fresh object per
    element, holding what was read. *)
Definition deepCopy (h : list Def) (definitions : list nat) : list Def * list nat :=
  let read := deref h definitions in
  (h ++ read, seq (length h) (length read)).

Definition holds (h : list Def) (p : Def -> bool) (r : nat) : bool :=
  from_option p false (h !! r).

(** [result.forEach(def => { def.children = ..; def.parentId = .. })] *)
Definition forEach_rebuild (finalIds : gset string) (h : list Def) (result : list nat)
    : list Def :=
  fold_left (fun h r =>
               match h !! r with
               | Some def => <[r := rebuild finalIds def]> h
               | None => h
               end)
            result h.

Definition byStartLine_ref (h : list Def) (a b : nat) : Z :=
  from_option startLine 0 (h !! a) - from_option startLine 0 (h !! b).

Definition applyFiltersToDefinitions (h : list Def) (definitions : list nat)
    (fo : FilterOptions) : list Def * list nat :=
  match definitions with
  | [] => (h, [])
  | _ =>
      let '(h, definitionsCopy) := deepCopy h definitions in
      let metaEntries := List.filter (holds h isMeta) definitionsCopy in
      let ids := survivorIds (deref h definitionsCopy) fo in
      let result := List.filter (holds h (included ids)) definitionsCopy in
      let finalIds := idSet (deref h result) in
      let h := forEach_rebuild finalIds h result in
      (h, sort (byStartLine_ref h) (metaEntries ++ result))
  end.

End Heap.
End Heap.

(** ** parseCodeWithTreeSitter *)

Definition languageMap : list (string * Parser.Language) :=
  [ (".js", Parser.JavaScript);
    (".jsx", Parser.JavaScript);
    (".ts", Parser.TypeScript_typescript);
    (".tsx", Parser.TypeScript_tsx);
    (".cs", Parser.CSharp);
    (".php", Parser.Php);
    (".css", Parser.Css);
    (".py", Parser.Python) ].

Definition queries : list (string * list (string * string)) :=
  [
  (".js",
    [
      ("function", "
			(function_declaration
				name: (identifier) @name
				parameters: (formal_parameters
					(formal_parameter
						name: (identifier) @param_name
						)*
				) @params
			) @function");
      ("method", "
			(method_definition
				name: (property_identifier) @name
				parameters: (formal_parameters
					(formal_parameter
						name: (identifier) @param_name
						)*
				) @params
			) @method");
      ("class", "(class_declaration name: (identifier) @name) @class");
      ("variable", "
		    [
		      (lexical_declaration (variable_declarator name: (identifier) @name value: (_)? @value))
		      (variable_declaration (variable_declarator name: (identifier) @name value: (_)? @value))
		    ] @variable");
      ("property", "(public_field_definition name: (property_identifier) @name value: (_)? @value) @property");
      ("enum", EmptyString);
      ("enumMember", EmptyString);
      ("call", "(call_expression function: [ (identifier) @call_name (member_expression property: (property_identifier) @call_name) ] ) @call")
    ]);
  (".ts",
    [
      ("function", "(function_declaration name: (_) @name) @function");
      ("method", "(method_definition name: (_) @name) @method");
      ("class", "(class_declaration name: (_) @name) @class");
      ("interface", "(interface_declaration name: (_) @name) @interface");
      ("variable", "
		    [
		      (lexical_declaration (variable_declarator name: (identifier) @name type: (_)? @dataType value: (_)? @value))
		      (variable_declaration (variable_declarator name: (identifier) @name type: (_)? @dataType value: (_)? @value))
		    ] @variable");
      ("property", "
		    [
		      (property_signature name: (property_identifier) @name type: (_) @dataType) ;; Interface/Type Property
		      (public_field_definition name: (property_identifier) @name type: (_)? @dataType value: (_)? @value) ;; Class Field
		    ] @property");
      ("enum", "(enum_declaration name: (identifier) @name) @enum");
      ("enumMember", "(enum_assignment name: (property_identifier) @name value: (_)? @value) @enumMember");
      ("call", "
		  (call_expression
		    function: [
		      (identifier) @call_name ;; Direct function call: myFunc()
		      (member_expression property: (property_identifier) @call_name) ;; Member call: obj.method(), console.log()
		      (super) @call_name ;; super() call
		      (non_null_expression expression: (member_expression property: (property_identifier) @call_name)) ;; Optional chaining call: obj?.method()
		    ]
		  ) @call")
    ]);
  (".cs",
    [
      ("class", "(class_declaration (modifier)* @modifier name: (identifier) @name) @class");
      ("method", "(method_declaration (modifier)* @modifier name: (identifier) @name) @method");
      ("namespace", "(namespace_declaration name: (_) @name) @namespace");
      ("variable", "
		    (local_declaration_statement
		      (variable_declaration
		        type: (_) @dataType
		        (variable_declarator identifier: (identifier) @name (= (equals_value_clause value: (_) @value))?)
		      )
		    ) @variable");
      ("property", "(field_declaration (modifier)* @modifier (variable_declaration type: (_) @dataType (variable_declarator (identifier) @name))) @property");
      ("enum", "(enum_declaration (modifier)* @modifier name: (identifier) @name) @enum");
      ("enumMember", "(enum_member_declaration name: (identifier) @name (= (equals_value_clause value: (_) @value))?) @enumMember");
      ("call", "(invocation_expression expression: [ (identifier_name) @call_name (member_access_expression name: (identifier_name) @call_name) ] ) @call")
    ]);
  (".php",
    [
      ("function", "
			(function_definition
				(visibility_modifier)? @modifier
				return_type: (_)? @return_type
				name: (name) @name
				parameters: (formal_parameters
					(parameter_declaration
						type: (_)? @param_type
						name: (variable_name) @param_name
					)*
				)? @params
			) @function");
      ("class", "(class_declaration (modifier)* @modifier name: (name) @name) @class");
      ("method", "
			(method_declaration
				(member_modifier)* @modifier
				function_definition
					return_type: (_)? @return_type
					name: (name) @name
					parameters: (formal_parameters
						(parameter_declaration
							type: (_)? @param_type
							name: (variable_name) @param_name
						)*
					)? @params
				) @method");
      ("namespace", "(namespace_definition name: (namespace_name) @name) @namespace");
      ("variable", EmptyString);
      ("property", "
		    (property_declaration
		      (member_modifier)* @modifier
		      type: (_)? @dataType
		      (property_element name: (variable_name) @name value: (_)? @value)
		    ) @property");
      ("enum", "(enum_declaration name: (name) @name) @enum");
      ("enumMember", "(enum_case name: (name) @name value: (_)? @value) @enumMember");
      ("call", "(function_call_expression function: [ (name) @call_name (qualified_name) @call_name ] ) @call")
    ]);
  (".css", []);
  (".py",
    [
      ("function", "
			(function_definition
			  name: (identifier) @name
			  parameters: (parameters . (_)* @params)? ;; Captures params block
			) @function");
      ("method", "
			(function_definition
			  name: (identifier) @name
			  parameters: (parameters . (_)* @params)?
			) @method");
      ("class", "(class_definition name: (identifier) @name) @class");
      ("decorator", "(decorator [ (identifier) @name (dotted_name) @name ]) @decorator");
      ("variable", "
			[
			  (module (expression_statement (assignment left: (identifier) @name right: (_) @value)))
			  (class_definition body: (block (expression_statement (assignment left: (identifier) @name right: (_) @value))))
			] @variable");
      ("call", "(call function: [ (identifier) @call_name (attribute name: (identifier) @call_name) ] ) @call")
    ])
  ].

(** [o[k]] on an object kept as its list of entries. *)
Definition lookupKey {A} (o : list (string * A)) (k : string) : option A :=
  snd <$> List.find (fun e => String.eqb (fst e) k) o.

(** [o[k] = v]: a known key keeps its place, a new one goes last. *)
Fixpoint setKey {A} (o : list (string * A)) (k : string) (v : A) : list (string * A) :=
  match o with
  | [] => [(k, v)]
  | (k', v') :: o' =>
      if String.eqb k' k then (k, v) :: o' else (k', v') :: setKey o' k v
  end.

Definition strlen (s : string) : Z := Z.of_nat (String.length s).

(** [s.substring(a, b)]: both ends are clamped to the string and swapped
    when out of order. *)
Definition substring (s : string) (a b : Z) : string :=
  let clamp x := Z.to_nat (Z.max 0 (Z.min x (strlen s))) in
  let lo := Nat.min (clamp a) (clamp b) in
  let hi := Nat.max (clamp a) (clamp b) in
  String.substring lo (hi - lo) s.

(** [s.slice(1, -1)] *)
Definition slice_1_m1 (s : string) : string :=
  String.substring 1 (String.length s - 2) s.

(** [s.indexOf(t)], [None] for [-1]. *)
Definition indexOf (s t : string) : option nat := String.index 0 t s.

(** [a[i]] on an array, [undefined] out of range. *)
Definition at_index {A} (l : list A) (i : Z) : option A :=
  if i <? 0 then None else l !! Z.to_nat i.

Definition newline : ascii := "010"%char.

(** [new Set(..)] filled with [add], read back with [Array.from]: the
    elements in the order they were first added. *)
Definition Set_add (s : list string) (x : string) : list string :=
  if includes s x then s else s ++ [x].

Definition errorDefinition (name : string) : Def :=
  {| id := None; type := "error"; name := name; startLine := 0; endLine := 0;
     modifier := None; dataType := None; value := None; parentId := None;
     children := None; parameters := None; returnType := None;
     complexity := None; parameterCount := None; loc := None; calls := None |}.

(** What the branch for methods and functions computes. *)
Record CallableParts := {
  cp_complexity : Z;
  cp_parameters : option (list Param);
  cp_parameterCount : Z;
  cp_calls : option (list string);
  cp_returnType : option string
}.

Record ExtractState := {
  definitions : list Def;
  idCounter : nat
}.

Definition plausibleParentTypes : list string :=
  [ "class"; "namespace"; "interface"; "enum"; "method"; "function" ].

Section Extraction.
Context `{RegExpEngine} `{TreeSitter} `{Host}.

(** [match.captures.find(c => c.name === n)?.node] *)
Definition captureNode (m : Parser.QueryMatch) (n : string) : option Parser.SyntaxNode :=
  Parser.node <$> List.find (fun c => String.eqb (Parser.name c) n) (Parser.captures m).

(** The signature heuristic; [None] when [sourceLines[startPos.row]] is
    [undefined] and the call on it throws. *)
Definition signatureOf (code : string) (definitionNode : Parser.SyntaxNode) : option string :=
  let startPos := Parser.startPosition definitionNode in
  let endPos := Parser.endPosition definitionNode in
  let sourceLines := split newline code in
  let signature :=
    if Parser.row startPos =? Parser.row endPos then
      (fun line => substring line (Parser.column startPos) (Parser.column endPos))
        <$> at_index sourceLines (Parser.row startPos)
    else
      Some match indexOf (Parser.text definitionNode) "{" with
           | Some openingBraceIndex =>
               trim (substring (Parser.text definitionNode) 0 (Z.of_nat openingBraceIndex))
           | None =>
               trim (hd EmptyString (split newline (Parser.text definitionNode)))
           end in
  (fun signature => trim (replace signature (literal "\s+" "g") " ")) <$> signature.

(** The loop over [paramCaptures]; [paramMatch] is the pair carried
    along. *)
Fixpoint parametersOfCaptures (paramCaptures : list Parser.QueryCapture)
    (paramMatch : option string * option string) (parameters : list Param) : list Param :=
  match paramCaptures with
  | [] => parameters
  | capture :: rest =>
      let paramMatch :=
        if String.eqb (Parser.name capture) "param_name"
        then (Some (Parser.text (Parser.node capture)), snd paramMatch)
        else if String.eqb (Parser.name capture) "param_type"
        then (fst paramMatch, Some (Parser.text (Parser.node capture)))
        else paramMatch in
      match nonEmptyString (fst paramMatch) with
      | Some n =>
          parametersOfCaptures rest (None, None)
            (parameters ++ [{| param_name := n; param_type := snd paramMatch |}])
      | None => parametersOfCaptures rest paramMatch parameters
      end
  end.

(** The fallback that reads the text of the parameter block. *)
Definition parametersOfText (paramsText : string) : list Param :=
  let paramList := split "," (slice_1_m1 paramsText) in
  List.filter (fun p => truthy (Some (param_name p)))
    (map (fun p =>
            let trimmed := trim p in
            match exec (literal "^(\S+)\s+(\$\S+|\S+)" EmptyString) trimmed with
            | Some typeMatch =>
                {| param_name := default EmptyString (mjoin (typeMatch !! 2%nat));
                   param_type := mjoin (typeMatch !! 1%nat) |}
            | None => {| param_name := trimmed; param_type := None |}
            end)
         paramList).

(** The names collected from [callMatches], in the order of the set. *)
Definition calledNames (callMatches : list Parser.QueryMatch) : list string :=
  fold_left (fun calledNames callMatch =>
               match captureNode callMatch "call_name" with
               | Some callNameNode => Set_add calledNames (Parser.text callNameNode)
               | None => calledNames
               end)
            callMatches [].

(** The [try]/[catch] around the call query: what [definition.calls] is
    afterwards. *)
Definition callsOf (language : Parser.Language) (langQueries : list (string * string))
    (definitionNode : Parser.SyntaxNode) : option (list string) :=
  match nonEmptyString (lookupKey langQueries "call") with
  | Some callQueryStr =>
      match newQuery language callQueryStr with
      | Some callQuery =>
          match Query_matches callQuery definitionNode with
          | Some callMatches =>
              match calledNames callMatches with
              | [] => None
              | names => Some names
              end
          | None => None
          end
      | None => None
      end
  | None => None
  end.

(** The branch [if (['method', 'function'].includes(defType))]; [None]
    when an exception leaves it. *)
Definition callableParts (language : Parser.Language) (langQueries : list (string * string))
    (query : Query) (code : string) (m : Parser.QueryMatch)
    (definitionNode : Parser.SyntaxNode) : option CallableParts :=
  let complexity := calculateComplexity (Some definitionNode) in
  signature ← signatureOf code definitionNode;
  let returnTypeOf :=
    match captureNode m "return_type" with
    | Some returnTypeNode => Some (Parser.text returnTypeNode)
    | None =>
        match exec (literal ":\s*(\w+)\s*\{?$" EmptyString) signature with
        | Some returnTypeMatch => mjoin (returnTypeMatch !! 1%nat)
        | None => None
        end
    end in
  match captureNode m "params" with
  | Some paramsNode =>
      paramCaptures ← Query_captures query paramsNode;
      let captured := parametersOfCaptures paramCaptures (None, None) [] in
      let parameters :=
        if bool_decide (captured = []) && (2 <? strlen (Parser.text paramsNode))
        then parametersOfText (Parser.text paramsNode)
        else captured in
      Some {| cp_complexity := complexity;
              cp_parameters := Some parameters;
              cp_parameterCount := Z.of_nat (length parameters);
              cp_calls := callsOf language langQueries definitionNode;
              cp_returnType := returnTypeOf |}
  | None =>
      Some {| cp_complexity := complexity;
              cp_parameters := None;
              cp_parameterCount := 0;
              cp_calls := None;
              cp_returnType := returnTypeOf |}
  end.

(** [generateId()] *)
Definition generateId (idCounter : nat) : string := "def-" +:+ pretty idCounter.

(** The body of [for (const match of matches)]. The flag is [true] when
    an exception leaves the body, which ends the loop. *)
Definition processMatch (language : Parser.Language) (langQueries : list (string * string))
    (query : Query) (code : string) (defType : string) (m : Parser.QueryMatch)
    (st : ExtractState) : ExtractState * bool :=
  match captureNode m "name", captureNode m defType with
  | Some nameNode, Some definitionNode =>
      let generated := {| definitions := definitions st; idCounter := S (idCounter st) |} in
      let definition (parts : option CallableParts) :=
        {| id := Some (generateId (idCounter st));
           type := defType;
           name := Parser.text nameNode;
           startLine := Parser.row (Parser.startPosition definitionNode) + 1;
           endLine := Parser.row (Parser.endPosition definitionNode) + 1;
           loc := Some (Parser.row (Parser.endPosition definitionNode)
                        - Parser.row (Parser.startPosition definitionNode) + 1);
           modifier := Parser.text <$> captureNode m "modifier";
           dataType := Parser.text <$> captureNode m "dataType";
           value := Parser.text <$> captureNode m "value";
           returnType :=
             match parts with
             | Some parts => cp_returnType parts
             | None => Parser.text <$> captureNode m "return_type"
             end;
           children := Some [];
           parameterCount := Some (from_option cp_parameterCount 0 parts);
           complexity := Some (from_option cp_complexity 1 parts);
           parentId := None;
           parameters := parts ≫= cp_parameters;
           calls := parts ≫= cp_calls |} in
      if includes ["method"; "function"] defType then
        match callableParts language langQueries query code m definitionNode with
        | Some parts =>
            ({| definitions := definitions st ++ [definition (Some parts)];
                idCounter := S (idCounter st) |}, false)
        | None => (generated, true)
        end
      else
        ({| definitions := definitions st ++ [definition None];
            idCounter := S (idCounter st) |}, false)
  | _, _ => (st, false)
  end.

Fixpoint forMatches (language : Parser.Language) (langQueries : list (string * string))
    (query : Query) (code : string) (defType : string)
    (matches : list Parser.QueryMatch) (st : ExtractState) : ExtractState :=
  match matches with
  | [] => st
  | m :: rest =>
      let '(st, thrown) := processMatch language langQueries query code defType m st in
      if thrown then st
      else forMatches language langQueries query code defType rest st
  end.

(** The body of [for (const defType in langQueries)], with its [try]
    and [catch]. *)
Definition forDefType (language : Parser.Language) (langQueries : list (string * string))
    (code : string) (rootNode : Parser.SyntaxNode)
    (st : ExtractState) (entry : string * string) : ExtractState :=
  match nonEmptyString (Some (snd entry)) with
  | None => st
  | Some queryStr =>
      match newQuery language queryStr with
      | None => st
      | Some query =>
          match Query_matches query rootNode with
          | None => st
          | Some matches =>
              forMatches language langQueries query code (fst entry) matches st
          end
      end
  end.

Definition extractDefinitions (language : Parser.Language)
    (langQueries : list (string * string)) (code : string)
    (rootNode : Parser.SyntaxNode) : list Def :=
  definitions
    (fold_left (forDefType language langQueries code rootNode) langQueries
               {| definitions := []; idCounter := 0 |}).

(** The callback of [definitions.find] in the parent search. *)
Definition isParentOf (def : Def) (potentialParentNode : Parser.SyntaxNode) (p : Def) : bool :=
  negb (bool_decide (id p = id def))
  && (startLine p =? Parser.row (Parser.startPosition potentialParentNode) + 1)
  && (endLine p =? Parser.row (Parser.endPosition potentialParentNode) + 1)
  && includes plausibleParentTypes (type p).

(** [while (potentialParentNode) { .. }] over the chain of [parent]s:
    the index of the definition found, [None] for [undefined]. *)
Fixpoint findParent (definitions : list Def) (def : Def)
    (ancestors : list Parser.SyntaxNode) : option nat :=
  match ancestors with
  | [] => None
  | potentialParentNode :: outer =>
      match list_find (fun p => isParentOf def potentialParentNode p = true) definitions with
      | Some (j, _) => Some j
      | None => findParent definitions def outer
      end
  end.

(** The nodes [node.parent], [node.parent.parent], .. for the node at
    the start line of [def]. *)
Definition ancestorsOf (rootNode : Parser.SyntaxNode) (def : Def) : list Parser.SyntaxNode :=
  tail (Parser.descendantPath
          {| Parser.row := startLine def - 1; Parser.column := 0 |} rootNode []).

(** The callback of [definitions.forEach], on the element at index [i];
    the objects of the array are updated in place. *)
Definition linkParent (rootNode : Parser.SyntaxNode) (definitions : list Def) (i : nat)
    : list Def :=
  match definitions !! i with
  | None => definitions
  | Some def =>
      match findParent definitions def (ancestorsOf rootNode def) with
      | None => definitions
      | Some j =>
          match definitions !! j with
          | None => definitions
          | Some parent =>
              let definitions := <[i := set_parentId (id parent) def]> definitions in
              match definitions !! j with
              | None => definitions
              | Some parent =>
                  let pushed :=
                    match nonEmptyString (id def) with
                    | Some defId => [defId]
                    | None => []
                    end in
                  <[j := set_children (Some (optList (children parent) ++ pushed)) parent]>
                    definitions
              end
          end
      end
  end.

Definition linkParents (rootNode : Parser.SyntaxNode) (definitions : list Def) : list Def :=
  fold_left (linkParent rootNode) (seq 0 (length definitions)) definitions.

(** [parseCodeWithTreeSitter(code, filePath)]: the array returned, or
    the message of the exception that leaves the function. *)
Definition parseCodeWithTreeSitter (code : string) (filePath : string) : list Def + string :=
  let fileExt := toLowerCase (extname filePath) in
  match lookupKey languageMap fileExt with
  | None => inl [errorDefinition "Unsupported file type"]
  | Some language =>
      match setLanguage language with
      | Some message => inr message
      | None =>
          match parse language code with
          | None =>
              if String.eqb (resolve filePath) (resolve "src/index.ts")
              then inl [errorDefinition ("Failed to parse self (" +:+ filePath +:+ ")")]
              else inl [errorDefinition ("Failed to parse " +:+ filePath)]
          | Some rootNode =>
              match lookupKey queries fileExt with
              | None => inl [errorDefinition "No queries defined for file type"]
              | Some langQueries =>
                  inl (linkParents rootNode
                         (extractDefinitions language langQueries code rootNode))
              end
          end
      end
  end.

End Extraction.

(** ** performScan, from the list of files on *)

(** [s.replace(/\\/g, '/')] *)
Fixpoint backslashesToSlashes (s : string) : string :=
  match s with
  | EmptyString => EmptyString
  | String a s' =>
      String (if Ascii.eqb a "\"%char then "/"%char else a) (backslashesToSlashes s')
  end.

Section Scan.
Context `{RegExpEngine} `{TreeSitter} `{Host}.

(** The body of the loop that parses: [results[absoluteFilePath] = ..]. *)
Definition parseFile (results : list (string * list Def)) (absoluteFilePath : string)
    : list (string * list Def) :=
  match readFile absoluteFilePath with
  | inl content =>
      match parseCodeWithTreeSitter content absoluteFilePath with
      | inl definitions =>
          if (0 <? length definitions)%nat
          then setKey results absoluteFilePath definitions
          else results
      | inr message =>
          setKey results absoluteFilePath
                 [errorDefinition ("Failed to read/parse: " +:+ message)]
      end
  | inr message =>
      setKey results absoluteFilePath
             [errorDefinition ("Failed to read/parse: " +:+ message)]
  end.

(** The body of the loop that filters: a file is kept only if a
    definition other than an error is left. *)
Definition filterFile (targetDir : string) (filterOptions : FilterOptions)
    (filteredResults : list (string * list Def)) (entry : string * list Def)
    : list (string * list Def) :=
  let filteredDefs := applyFiltersToDefinitions (snd entry) filterOptions in
  let hasRealDefinitions :=
    some (fun def => negb (String.eqb (type def) "error")) filteredDefs in
  if hasRealDefinitions
  then setKey filteredResults
              (backslashesToSlashes (relative targetDir (fst entry))) filteredDefs
  else filteredResults.

(** [filteredResults], the map handed to the renderers. *)
Definition scanFiles (targetDir : string) (filesToFilter : list string)
    (filterOptions : FilterOptions) : list (string * list Def) :=
  fold_left (filterFile targetDir filterOptions)
            (fold_left parseFile filesToFilter [])
            [].

End Scan.

(** ** The renderers *)

Inductive DetailLevel := minimal | standard | detailed.

Inductive OutputFormat := xml | markdown | json.

(** What [xmlbuilder2] is given: elements with attributes, strings or
    numbers, before the document is printed. *)
Inductive AttrValue :=
| AttrString (s : string)
| AttrNumber (n : Z).

#[local] Unset Elimination Schemes.

Inductive XmlElement :=
| Element (tag : string) (attrs : list (string * AttrValue)) (content : list XmlElement).

(** What [JSON.stringify] is given. *)
Inductive Json :=
| JString (s : string)
| JNumber (n : Z)
| JArray (items : list Json)
| JObject (fields : list (string * Json)).

#[local] Set Elimination Schemes.

(** [if (v) o.k = v] for an optional string. *)
Definition whenTruthy {A} (v : option string) (f : string -> A) : list A :=
  match nonEmptyString v with
  | Some s => [f s]
  | None => []
  end.

(** [def.value && def.type !== 'variable' && def.type !== 'property'] *)
Definition shownValue (def : Def) : option string :=
  if negb (String.eqb (type def) "variable") && negb (String.eqb (type def) "property")
  then nonEmptyString (value def)
  else None.

(** [def.children.forEach(childId => { const child = definitions.find(..);
    if (child) .. })]: the children that are found, in stored order. *)
Definition childrenOf (definitions : list Def) (def : Def) : list Def :=
  omap (findById definitions) (optList (children def)).

(** [definitions.filter(def => !def.parentId)] *)
Definition topLevelDefs (definitions : list Def) : list Def :=
  List.filter (fun def => negb (truthy (parentId def))) definitions.

(** [s.repeat(n)] *)
Fixpoint repeat_string (s : string) (n : nat) : string :=
  match n with
  | O => EmptyString
  | S n => s +:+ repeat_string s n
  end.

(** [a.join(sep)] *)
Definition join (sep : string) (l : list string) : string := String.concat sep l.

(** The default order of [a.sort()] on strings. *)
Definition byCodeUnits (a b : string) : Z :=
  match String.compare a b with
  | Gt => 1
  | Eq => 0
  | Lt => -1
  end.

Section Renderers.
Context `{Host}.

(** *** XML *)

Definition xmlAttributes (detailLevel : DetailLevel) (def : Def) : list (string * AttrValue) :=
  [ ("type", AttrString (type def)); ("name", AttrString (name def)) ]
  ++ match detailLevel with
     | minimal => []
     | _ =>
         [ ("startLine", AttrNumber (startLine def));
           ("endLine", AttrNumber (endLine def)) ]
         ++ whenTruthy (modifier def) (fun m => ("modifier", AttrString m))
     end
  ++ match detailLevel with
     | detailed =>
         whenTruthy (dataType def) (fun t => ("dataType", AttrString t))
         ++ whenTruthy (shownValue def) (fun v => ("value", AttrString v))
         ++ whenTruthy (returnType def) (fun t => ("returnType", AttrString t))
     | _ => []
     end.

Definition xmlParameters (detailLevel : DetailLevel) (def : Def) : list XmlElement :=
  match detailLevel, parameters def with
  | detailed, Some (p :: ps) =>
      [ Element "Parameters" []
          (map (fun param =>
                  Element "Parameter"
                    ([("name", AttrString (param_name param))]
                     ++ whenTruthy (param_type param) (fun t => ("type", AttrString t)))
                    [])
               (p :: ps)) ]
  | _, _ => []
  end.

Definition xmlCalls (detailLevel : DetailLevel) (def : Def) : list XmlElement :=
  match detailLevel, calls def with
  | detailed, Some (c :: cs) =>
      [ Element "Calls" []
          (map (fun callName => Element "Call" [("name", AttrString callName)] [])
               (c :: cs)) ]
  | _, _ => []
  end.

(** [renderDefinition] of [formatResultsXML]: the element appended to
    [parentElement]. [fuel] bounds the depth of the recursion; [None]
    when it runs out. *)
Fixpoint renderDefinitionXML (fuel : nat) (detailLevel : DetailLevel)
    (definitions : list Def) (def : Def) : option XmlElement :=
  match fuel with
  | O => None
  | S fuel =>
      nested ← mapM (renderDefinitionXML fuel detailLevel definitions)
                    (childrenOf definitions def);
      Some (Element "Definition" (xmlAttributes detailLevel def)
              (xmlParameters detailLevel def ++ xmlCalls detailLevel def ++ nested))
  end.

Definition formatResultsXML (fuel : nat) (results : list (string * list Def))
    (detailLevel : DetailLevel) : option XmlElement :=
  files ← mapM (fun entry =>
                  rendered ← mapM (renderDefinitionXML fuel detailLevel (snd entry))
                                  (topLevelDefs (snd entry));
                  Some (Element "File" [("path", AttrString (fst entry))] rendered))
               results;
  Some (Element "CodeScanResults" [] files).

(** *** JSON *)

Definition jsonParameter (param : Param) : Json :=
  JObject ([("name", JString (param_name param))]
           ++ from_option (fun t => [("type", JString t)]) [] (param_type param)).

Definition jsonFields (detailLevel : DetailLevel) (def : Def) : list (string * Json) :=
  [ ("type", JString (type def)); ("name", JString (name def));
    ("startLine", JNumber (startLine def)); ("endLine", JNumber (endLine def)) ]
  ++ whenTruthy (modifier def) (fun m => ("modifier", JString m))
  ++ match detailLevel with
     | detailed =>
         whenTruthy (dataType def) (fun t => ("dataType", JString t))
         ++ whenTruthy (shownValue def) (fun v => ("value", JString v))
         ++ match parameters def with
            | Some (p :: ps) => [("parameters", JArray (map jsonParameter (p :: ps)))]
            | _ => []
            end
         ++ whenTruthy (returnType def) (fun t => ("returnType", JString t))
         ++ match calls def with
            | Some (c :: cs) => [("calls", JArray (map JString (c :: cs)))]
            | _ => []
            end
     | _ => []
     end.

(** [createDefinitionObject] *)
Fixpoint createDefinitionObject (fuel : nat) (detailLevel : DetailLevel)
    (allDefs : list Def) (def : Def) : option Json :=
  match fuel with
  | O => None
  | S fuel =>
      match detailLevel with
      | minimal =>
          Some (JObject [ ("type", JString (type def)); ("name", JString (name def)) ])
      | _ =>
          match children def with
          | Some (c :: cs) =>
              nested ← mapM (createDefinitionObject fuel detailLevel allDefs)
                            (childrenOf allDefs def);
              Some (JObject (jsonFields detailLevel def ++ [("children", JArray nested)]))
          | _ => Some (JObject (jsonFields detailLevel def))
          end
      end
  end.

Definition formatResultsJSON (fuel : nat) (results : list (string * list Def))
    (detailLevel : DetailLevel) : option Json :=
  output ← mapM (fun entry =>
                   objects ← mapM (createDefinitionObject fuel detailLevel (snd entry))
                                  (topLevelDefs (snd entry));
                   Some (fst entry, JArray objects))
                results;
  Some (JObject output).

(** *** Markdown *)

Definition lineInfo (def : Def) : string :=
  "(Lines: " +:+ pretty (startLine def) +:+ "-" +:+ pretty (endLine def) +:+ ")".

Definition modifierText (def : Def) : string :=
  match nonEmptyString (modifier def) with
  | Some m => " [`" +:+ m +:+ "`]"
  | None => EmptyString
  end.

Definition markdownDetails (def : Def) : list string :=
  whenTruthy (dataType def) (fun t => "DataType: `" +:+ t +:+ "`")
  ++ whenTruthy (shownValue def)
       (fun v => "Value: `" +:+ substring v 0 50
                 +:+ (if 50 <? strlen v then "..." else EmptyString) +:+ "`")
  ++ match parameters def with
     | Some (p :: ps) =>
         [ "Params: "
           +:+ join ", "
                 (map (fun p => "`" +:+ param_name p
                                +:+ match nonEmptyString (param_type p) with
                                    | Some t => ": " +:+ t
                                    | None => EmptyString
                                    end
                                +:+ "`")
                      (p :: ps)) ]
     | _ => []
     end
  ++ whenTruthy (returnType def) (fun t => "Returns: `" +:+ t +:+ "`")
  ++ match calls def with
     | Some (c :: cs) => [ "Calls: `" +:+ join "`, `" (c :: cs) +:+ "`" ]
     | _ => []
     end.

(** The text of one bullet, with its line break. *)
Definition markdownLine (detailLevel : DetailLevel) (indent : nat) (def : Def) : string :=
  let head :=
    repeat_string "  " indent +:+ "- **" +:+ toUpperCase (type def) +:+ "**: `"
    +:+ name def +:+ "`" in
  match detailLevel with
  | minimal => head
  | standard => head +:+ " " +:+ lineInfo def +:+ modifierText def
  | detailed =>
      head +:+ " " +:+ lineInfo def +:+ modifierText def
      +:+ match markdownDetails def with
          | [] => EmptyString
          | details => " { " +:+ join "; " details +:+ " }"
          end
  end
  +:+ String newline EmptyString.

(** [renderDefinition] of [formatResultsMarkdown], as the pieces it
    concatenates. *)
Fixpoint renderDefinitionMarkdown (fuel : nat) (detailLevel : DetailLevel)
    (definitions : list Def) (indent : nat) (def : Def) : option (list string) :=
  match fuel with
  | O => None
  | S fuel =>
      nested ← mapM (renderDefinitionMarkdown fuel detailLevel definitions (S indent))
                    (childrenOf definitions def);
      Some (markdownLine detailLevel indent def :: concat nested)
  end.

Definition markdownFile (fuel : nat) (detailLevel : DetailLevel) (directoryPath : string)
    (results : list (string * list Def)) (filePath : string) : option (list string) :=
  let relativeFilePath := backslashesToSlashes (relative directoryPath filePath) in
  let definitions := default [] (lookupKey results filePath) in
  let topLevel := topLevelDefs definitions in
  body ←
    match topLevel, definitions with
    | [], _ :: _ =>
        rendered ← mapM (renderDefinitionMarkdown fuel detailLevel definitions 1) definitions;
        Some (("  *(No top-level definitions found, listing all)*"
                 +:+ String newline EmptyString) :: concat rendered)
    | _, _ =>
        rendered ← mapM (renderDefinitionMarkdown fuel detailLevel definitions 0) topLevel;
        Some (concat rendered)
    end;
  Some (("## File: `" +:+ relativeFilePath +:+ "`" +:+ String newline (String newline EmptyString))
          :: body ++ [String newline EmptyString]).

Definition markdownMetadata (results : list (string * list Def)) : list string :=
  match lookupKey results "metadata" with
  | Some (m :: ms) =>
      ("## Metadata" +:+ String newline (String newline EmptyString))
        :: map (fun meta => "- **" +:+ type meta +:+ "**: " +:+ name meta
                            +:+ String newline EmptyString)
               (m :: ms)
        ++ [String newline EmptyString]
  | _ => []
  end.

(** The pieces appended to [md], in order. *)
Definition markdownPieces (fuel : nat) (results : list (string * list Def))
    (detailLevel : DetailLevel) (directoryPath : string) : option (list string) :=
  let filePaths := sort byCodeUnits (map fst results) in
  files ← mapM (markdownFile fuel detailLevel directoryPath results) filePaths;
  Some (("# Code Scan Results for " +:+ directoryPath
           +:+ String newline (String newline EmptyString))
          :: concat files ++ markdownMetadata results).

Definition formatResultsMarkdown (fuel : nat) (results : list (string * list Def))
    (detailLevel : DetailLevel) (directoryPath : string) : option string :=
  join EmptyString <$> markdownPieces fuel results detailLevel directoryPath.

End Renderers.

(** The text [performScan] returns, before the libraries print it. *)
Inductive ScanOutput :=
| XmlDocument (root : XmlElement)
| JsonValue (output : Json)
| MarkdownText (md : string).

Section PerformScan.
Context `{RegExpEngine} `{TreeSitter} `{Host}.

(** The [switch (outputFormat)]. *)
Definition formatResults (fuel : nat) (filteredResults : list (string * list Def))
    (outputFormat : OutputFormat) (detailLevel : DetailLevel) (directory : string)
    : option ScanOutput :=
  match outputFormat with
  | xml => XmlDocument <$> formatResultsXML fuel filteredResults detailLevel
  | json => JsonValue <$> formatResultsJSON fuel filteredResults detailLevel
  | markdown => MarkdownText <$> formatResultsMarkdown fuel filteredResults detailLevel directory
  end.

(** [performScan], once the files to parse are known. *)
Definition performScan (fuel : nat) (directory targetDir : string)
    (filesToFilter : list string) (outputFormat : OutputFormat)
    (detailLevel : DetailLevel) (filterOptions : FilterOptions) : option ScanOutput :=
  formatResults fuel (scanFiles targetDir filesToFilter filterOptions)
                outputFormat detailLevel directory.

End PerformScan.

(** ** updateParentChildRelationships *)

(** [new Map(definitions.map((def, index) => [def.id, index]))]: the
    entries are set one after the other, so of two definitions with one
    id the later one stays. Only strings are looked up, so an entry
    whose key is [undefined] is left out. *)
Definition idToIndexMap (definitions : list Def) : gmap string nat :=
  fold_left (fun m entry =>
               match fst entry with
               | Some i => <[ i := snd entry ]> m
               | None => m
               end)
            (imap (fun index def => (id def, index)) definitions)
            ∅.

(** The callback of the second [definitions.forEach], on the element at
    [index]; [None] when [definitions[parentIndex]] is [undefined] and
    reading its [children] throws. *)
Definition relinkStep (idToIndexMap : gmap string nat) (definitions : list Def)
    (index : nat) : option (list Def) :=
  match definitions !! index with
  | None => Some definitions
  | Some def =>
      match nonEmptyString (parentId def) with
      | Some parentId =>
          match idToIndexMap !! parentId with
          | Some parentIndex =>
              parent ← definitions !! parentIndex;
              let ensured := optList (children parent) in
              let pushed :=
                match nonEmptyString (id def) with
                | Some defId =>
                    if includes ensured defId then ensured else ensured ++ [defId]
                | None => ensured
                end in
              Some (<[ parentIndex := set_children (Some pushed) parent ]> definitions)
          | None => Some (<[ index := set_parentId None def ]> definitions)
          end
      | None => Some definitions
      end
  end.

(** [updateParentChildRelationships(definitions)], on an array: the
    array after the two loops, which is the array returned. *)
Definition updateParentChildRelationships (definitions : list Def) : option (list Def) :=
  let idToIndexMap := idToIndexMap definitions in
  let definitions := map (set_children (Some [])) definitions in
  fold_left (fun state index =>
               definitions ← state; relinkStep idToIndexMap definitions index)
            (seq 0 (length definitions))
            (Some definitions).

(** ** escapeRegExp *)

(** The characters of the class [[.*+?^${}()|[\]\\]]. *)
Definition regExpSpecials : list ascii :=
  [ "."; "*"; "+"; "?"; "^"; "$"; "{"; "}"; "("; ")"; "|"; "["; "]"; "\" ]%char.

(** [string.replace(/[.*+?^${}()|[\]\\]/g, '\\$&')]: every character of
    the class is replaced by a backslash and itself. The characters of
    the class are ASCII, so the bytes of a UTF-8 string are treated as
    the code units of the JavaScript string are. *)
Fixpoint escapeRegExp (s : string) : string :=
  match s with
  | EmptyString => EmptyString
  | String c s' =>
      if bool_decide (c ∈ regExpSpecials)
      then String "\" (String c (escapeRegExp s'))
      else String c (escapeRegExp s')
  end.

(** ** The options of the command line *)

(** [s.includes(t)] *)
Definition string_includes (s t : string) : bool :=
  match indexOf s t with
  | Some _ => true
  | None => false
  end.

(** [values.flatMap(t => t.includes(',') ? t.split(',') : t)] *)
Definition commaSeparated (values : list string) : list string :=
  flat_map (fun t => if string_includes t "," then split "," t else [t]) values.

(** What [yargs] hands to [runCli] of the options that make the filter;
    an option that is not given is [undefined]. *)
Record CliArguments := {
  argv_include_types : option (list string);
  argv_exclude_types : option (list string);
  argv_include_modifiers : option (list string);
  argv_exclude_modifiers : option (list string);
  argv_name_pattern : option string;
  argv_exclude_name_pattern : option string;
  argv_include_paths : option (list string);
  argv_exclude_paths : option (list string)
}.

(** The [filterOptions] that [runCli] builds. *)
Definition cliFilterOptions (argv : CliArguments) : FilterOptions :=
  {| includeTypes := commaSeparated <$> argv_include_types argv;
     excludeTypes := commaSeparated <$> argv_exclude_types argv;
     includeModifiers := commaSeparated <$> argv_include_modifiers argv;
     excludeModifiers := commaSeparated <$> argv_exclude_modifiers argv;
     namePattern := nonEmptyString (argv_name_pattern argv);
     excludeNamePattern := nonEmptyString (argv_exclude_name_pattern argv);
     includePaths := commaSeparated <$> argv_include_paths argv;
     excludePaths := commaSeparated <$> argv_exclude_paths argv;
     maxComplexity := None; minComplexity := None;
     maxParameters := None; minParameters := None |}.

(** ** performScan, up to the list of files *)

(** What [performScan] reads of the result of [fs.stat]. *)
Inductive Stats :=
| IsFile          (* [stats.isFile()] *)
| IsDirectory     (* [stats.isDirectory()], and not a file *)
| IsOther.        (* neither *)

(** The file system and the libraries behind file discovery. *)
Class FileSystem := {
  (** [process.cwd()] *)
  cwd : string;
  (** [path.resolve(a, b)] *)
  resolveFrom : string -> string -> string;
  (** [path.join(a, b)] *)
  joinPath : string -> string -> string;
  (** [path.normalize(p)] *)
  normalize : string -> string;
  (** [await fs.access(p)] resolves *)
  access : string -> bool;
  (** [await fs.stat(p)]; [None] when it rejects *)
  stat : string -> option Stats;
  (** [await findUp(name, { cwd })] *)
  findUp : string -> string -> option string;
  (** [ig.ignores(p)] for the [ig] that [ignore()] makes of the texts
      added to it, in order: the answer, or the message of the
      exception *)
  ignores : list string -> string -> bool + string;
  (** [await fg(patterns, { dot: true, onlyFiles: true, absolute: true,
      cwd, ignore: ['**/node_modules/**', '**/.git/**'] })]; [None] when
      it rejects *)
  fg : list string -> option string -> option (list string);
  (** [minimatch(p, pattern, { dot: true })]: the answer, or the message
      of the exception (the library throws on a pattern that is too
      long) *)
  minimatch : string -> string -> bool + string
}.

(** [files.add(f)] on a [Set] kept as the list of its elements in
    insertion order. *)
Definition setAdd (files : list string) (f : string) : list string :=
  if includes files f then files else files ++ [f].

(** [new Set(values)] *)
Definition setOf (values : list string) : list string :=
  fold_left setAdd values [].

Section Discovery.
Context `{Host} `{FileSystem}.

(** The texts that [getIgnoreFilter] adds to [ig]. *)
Definition ignoreRules (gitignorePath : option string) : list string :=
  match nonEmptyString gitignorePath with
  | Some p =>
      match readFile p with
      | inl gitignoreContent => [gitignoreContent]
      | inr _ => []
      end
  | None => []
  end
  ++ [ "node_modules/"; ".git/" ].

(** [getIgnoreFilter(gitignorePath)], applied to [filePath]. *)
Definition getIgnoreFilter (gitignorePath : option string) (filePath : string)
    : bool + string :=
  match ignores (ignoreRules gitignorePath) filePath with
  | inl ignored => inl (negb ignored)
  | inr message => inr message
  end.

(** [found.forEach(f => files.add(path.normalize(f)))] *)
Definition addAll (files found : list string) : list string :=
  fold_left (fun files f => setAdd files (normalize f)) found files.

(** The [catch (statError)] of the restrictive loop. *)
Definition globFallback (targetDir : string) (files : list string) (includePath : string)
    : list string :=
  if string_includes includePath "*" || string_includes includePath "?" then
    match fg [backslashesToSlashes (joinPath targetDir includePath)] (Some targetDir) with
    | Some globMatches => addAll files globMatches
    | None => files
    end
  else files.

(** The body of [for (const includePath of filterOptions.includePaths)]
    in restrictive mode. *)
Definition includeRestrictive (targetDir : string) (files : list string)
    (includePath : string) : list string :=
  let absoluteIncludePath := resolveFrom targetDir includePath in
  match stat absoluteIncludePath with
  | Some IsFile => setAdd files (normalize absoluteIncludePath)
  | Some IsDirectory =>
      match fg [backslashesToSlashes (joinPath absoluteIncludePath "**/*")] None with
      | Some dirFiles => addAll files dirFiles
      | None => globFallback targetDir files includePath
      end
  | Some IsOther => files
  | None => globFallback targetDir files includePath
  end.

(** The body of [for (const includePath of nonGlobIncludes)]. *)
Definition includeAdditive (targetDir : string) (files : list string)
    (includePath : string) : list string :=
  let absoluteIncludePath := resolveFrom targetDir includePath in
  match stat absoluteIncludePath with
  | Some IsFile => setAdd files (normalize absoluteIncludePath)
  | Some IsDirectory =>
      match fg [backslashesToSlashes (joinPath absoluteIncludePath "**/*")] None with
      | Some dirFiles => addAll files dirFiles
      | None => files
      end
  | _ => files
  end.

(** File discovery: the set [files], or the message of the error
    thrown. *)
Definition discoverFiles (targetDir : string) (filePatterns : list string)
    (filterOptions : FilterOptions) : list string + string :=
  match includePaths filterOptions with
  | Some (p :: ps) => inl (fold_left (includeRestrictive targetDir) (p :: ps) [])
  | _ =>
      let combinedPatterns := setOf filePatterns in
      let globPatterns :=
        map (fun p => backslashesToSlashes (joinPath targetDir p)) combinedPatterns in
      match fg globPatterns (Some targetDir) with
      | Some globMatches =>
          let files := setOf (addAll [] globMatches) in
          let nonGlobIncludes :=
            List.filter (fun p => negb (string_includes p "*")
                                  && negb (string_includes p "?"))
                        (optList (includePaths filterOptions)) in
          inl (fold_left (includeAdditive targetDir) nonGlobIncludes files)
      | None => inr "File globbing failed."
      end
  end.

(** [xs.filter(keep)] for a callback that can throw. *)
Fixpoint filterThrowing (keep : string -> bool + string) (xs : list string)
    : list string + string :=
  match xs with
  | [] => inl []
  | x :: rest =>
      match keep x with
      | inl b =>
          match filterThrowing keep rest with
          | inl kept => inl (if b then x :: kept else kept)
          | inr message => inr message
          end
      | inr message => inr message
      end
  end.

(** [xs.some(test)] for a callback that can throw. *)
Fixpoint someThrowing (test : string -> bool + string) (xs : list string)
    : bool + string :=
  match xs with
  | [] => inl false
  | x :: rest =>
      match test x with
      | inl true => inl true
      | inl false => someThrowing test rest
      | inr message => inr message
      end
  end.

(** The callback of the [excludePaths] filter. *)
Definition notExcluded (targetDir : string) (excludePatterns : list string)
    (absPath : string) : bool + string :=
  let relativePath := backslashesToSlashes (relative targetDir absPath) in
  match someThrowing (fun pattern => minimatch relativePath pattern) excludePatterns with
  | inl isExcluded => inl (negb isExcluded)
  | inr message => inr message
  end.

(** [path.resolve(process.cwd(), directory)] *)
Definition targetDirOf (directory : string) : string := resolveFrom cwd directory.

(** [performScan] up to the parsing loop: the final [filesToFilter], or
    the message of the error thrown. *)
Definition filesToFilter (directory : string) (filePatterns : list string)
    (filterOptions : FilterOptions) : list string + string :=
  let targetDir := targetDirOf directory in
  if access targetDir then
    let gitignorePath := findUp ".gitignore" targetDir in
    let ignoreFilter := getIgnoreFilter gitignorePath in
    match discoverFiles targetDir filePatterns filterOptions with
    | inl files =>
        match filterThrowing
                (fun absPath =>
                   ignoreFilter (backslashesToSlashes (relative targetDir absPath)))
                files with
        | inl filesToFilter =>
            let excludePatterns := optList (excludePaths filterOptions) in
            if (0 <? length excludePatterns)%nat then
              filterThrowing (notExcluded targetDir excludePatterns) filesToFilter
            else inl filesToFilter
        | inr message => inr message
        end
    | inr message => inr message
    end
  else inr ("Directory not found: " +:+ targetDir).

End Discovery.

Section WholeScan.
Context `{RegExpEngine} `{TreeSitter} `{Host} `{FileSystem}.

(** [performScan(directory, filePatterns, outputFormat, detailLevel,
    filterOptions)]: the output, or the message of the error thrown;
    [None] when the recursion of a renderer is deeper than [fuel]. *)
Definition performScanOf (fuel : nat) (directory : string) (filePatterns : list string)
    (outputFormat : OutputFormat) (detailLevel : DetailLevel)
    (filterOptions : FilterOptions) : option (ScanOutput + string) :=
  match filesToFilter directory filePatterns filterOptions with
  | inl files =>
      inl <$> performScan fuel directory (targetDirOf directory) files
                          outputFormat detailLevel filterOptions
  | inr message => Some (inr message)
  end.

End WholeScan.

(** ** A small world for the examples

    Instances of the three interfaces, large enough for the sources the
    examples below scan. *)
Module Example.

(** *** Regular expressions without metacharacters

    A pattern in which no character is special matches the strings that
    contain it. Patterns with a special character are outside this
    engine, which rejects them; the examples use one such pattern, a
    lone opening parenthesis, which JavaScript rejects as well. The
    regular expression literals of the program are not interpreted:
    they match nothing. *)
Definition metacharacters : list ascii :=
  [ "\"; "^"; "$"; "."; "|"; "?"; "*"; "+"; "("; ")"; "["; "]"; "{"; "}" ]%char.

Definition plain (pattern : string) : bool :=
  forallb (fun c => negb (bool_decide (c ∈ metacharacters))) (list_ascii_of_string pattern).

Definition occursIn (pattern s : string) : bool :=
  match String.index 0 pattern s with
  | Some _ => true
  | None => false
  end.

Definition replaceFirst (s pattern r : string) : string :=
  match String.index 0 pattern s with
  | Some i =>
      String.substring 0 i s +:+ r
      +:+ String.substring (i + String.length pattern)
                           (String.length s - (i + String.length pattern)) s
  | None => s
  end.

Definition literalEngine : RegExpEngine :=
  {| RegExp := option string;
     newRegExp p := if plain p then Some (Some p) else None;
     test regex s := from_option (fun p => occursIn p s) false regex;
     replace s regex r := from_option (fun p => replaceFirst s p r) s regex;
     literal _ _ := None;
     exec _ _ := None |}.

(** *** Paths, files and strings *)

Fixpoint fromLast (c : ascii) (s : string) : option string :=
  match s with
  | EmptyString => None
  | String a s' =>
      match fromLast c s' with
      | Some t => Some t
      | None => if Ascii.eqb a c then Some s else None
      end
  end.

Definition basename (p : string) : string := default p (last (split "/" p)).

Definition extnameOf (p : string) : string :=
  match fromLast "." (basename p) with
  | Some ext => if String.eqb ext (basename p) then EmptyString else ext
  | None => EmptyString
  end.

Definition lower (a : ascii) : ascii :=
  let n := nat_of_ascii a in
  if ((65 <=? n) && (n <=? 90))%nat then ascii_of_nat (n + 32) else a.

Definition upper (a : ascii) : ascii :=
  let n := nat_of_ascii a in
  if ((97 <=? n) && (n <=? 122))%nat then ascii_of_nat (n - 32) else a.

Fixpoint mapString (f : ascii -> ascii) (s : string) : string :=
  match s with
  | EmptyString => EmptyString
  | String a s' => String (f a) (mapString f s')
  end.

Definition isSpace (a : ascii) : bool :=
  let n := nat_of_ascii a in ((n =? 32) || ((9 <=? n) && (n <=? 13)))%nat.

Fixpoint trimStart (s : string) : string :=
  match s with
  | String a s' => if isSpace a then trimStart s' else s
  | EmptyString => EmptyString
  end.

Definition trimBoth (s : string) : string :=
  String.rev (trimStart (String.rev (trimStart s))).

(** The files of the examples. *)
Definition twoClasses : string :=
  "class A { } class B {" +:+ String newline ("}" +:+ String newline EmptyString).

Definition files : list (string * string) :=
  [ ("/work/two.js", twoClasses);
    ("/work/notes.txt", "remember the milk");
    ("/work/view.jsx", twoClasses) ].

Definition stripPrefix (from to : string) : string :=
  if String.prefix (from +:+ "/") to
  then String.substring (String.length from + 1)
                        (String.length to - (String.length from + 1)) to
  else to.

Definition host : Host :=
  {| extname := extnameOf;
     resolve p := if String.prefix "/" p then p else "/work/" +:+ p;
     relative := stripPrefix;
     readFile p :=
       match lookupKey files p with
       | Some content => inl content
       | None => inr ("ENOENT: no such file or directory, open '" +:+ p +:+ "'")
       end;
     toLowerCase := mapString lower;
     toUpperCase := mapString upper;
     trim := trimBoth |}.

(** *** Syntax trees and queries *)

Definition leaf (type text : string) (r1 c1 r2 c2 : Z) (field : option string)
    : Parser.SyntaxNode :=
  Parser.mkNode type text {| Parser.row := r1; Parser.column := c1 |}
                {| Parser.row := r2; Parser.column := c2 |} field [].

Definition inner (type text : string) (r1 c1 r2 c2 : Z) (field : option string)
    (children : list Parser.SyntaxNode) : Parser.SyntaxNode :=
  Parser.mkNode type text {| Parser.row := r1; Parser.column := c1 |}
                {| Parser.row := r2; Parser.column := c2 |} field children.

(** The tree of [twoClasses]: both classes start on the first line, the
    second one ends on the second line. *)
Definition classA : Parser.SyntaxNode :=
  inner "class_declaration" "class A { }" 0 0 0 11 None
    [ leaf "class" "class" 0 0 0 5 None;
      leaf "identifier" "A" 0 6 0 7 (Some "name");
      inner "class_body" "{ }" 0 8 0 11 (Some "body")
        [ leaf "{" "{" 0 8 0 9 None; leaf "}" "}" 0 10 0 11 None ] ].

Definition classB : Parser.SyntaxNode :=
  inner "class_declaration" ("class B {" +:+ String newline "}") 0 12 1 1 None
    [ leaf "class" "class" 0 12 0 17 None;
      leaf "identifier" "B" 0 18 0 19 (Some "name");
      inner "class_body" ("{" +:+ String newline "}") 0 20 1 1 (Some "body")
        [ leaf "{" "{" 0 20 0 21 None; leaf "}" "}" 1 0 1 1 None ] ].

Definition twoClassesTree : Parser.SyntaxNode :=
  inner "program" twoClasses 0 0 2 0 None [ classA; classB ].

Definition trees : list (string * Parser.SyntaxNode) :=
  [ (twoClasses, twoClassesTree) ].

(** The query for classes: every [class_declaration] of the subtree,
    captured with its [name] child. *)
Definition classMatches (node : Parser.SyntaxNode) : list Parser.QueryMatch :=
  omap (fun n =>
          if String.eqb (Parser.type n) "class_declaration" then
            (fun nameNode =>
               {| Parser.captures :=
                    [ {| Parser.name := "class"; Parser.node := n |};
                      {| Parser.name := "name"; Parser.node := nameNode |} ] |})
              <$> Parser.childForFieldName n "name"
          else None)
       (Parser.subtree node).

Definition classQuery : string :=
  "(class_declaration name: (identifier) @name) @class".

(** A parser that knows the sources of the examples and throws on any
    other text; of the queries it runs the one for classes, the others
    find nothing in these sources. *)
Definition treeSitter : TreeSitter :=
  {| Query := string;
     setLanguage _ := None;
     parse _ code := lookupKey trees code;
     newQuery _ queryStr := Some queryStr;
     Query_matches query node :=
       Some (if String.eqb query classQuery then classMatches node else []);
     Query_captures _ _ := Some [] |}.

(** *** Lists of definitions *)

Definition plainDef (i type name : string) (startLine endLine : Z)
    (parent : option string) (children : list string) : Def :=
  {| id := Some i; type := type; name := name;
     startLine := startLine; endLine := endLine;
     modifier := None; dataType := None; value := None;
     parentId := parent; children := Some children;
     parameters := None; returnType := None;
     complexity := Some 1; parameterCount := Some 0;
     loc := Some (endLine - startLine + 1); calls := None |}.

(** A method in a class in a namespace. *)
Definition nsN : Def := plainDef "def-0" "namespace" "N" 1 10 None ["def-1"].
Definition classC : Def := plainDef "def-1" "class" "C" 2 9 (Some "def-0") ["def-2"].
Definition methodM : Def := plainDef "def-2" "method" "m" 3 4 (Some "def-1") [].
Definition nested : list Def := [nsN; classC; methodM].

Definition onlyMethods : FilterOptions :=
  {| includeTypes := Some ["method"]; excludeTypes := None;
     includeModifiers := None; excludeModifiers := None;
     namePattern := None; excludeNamePattern := None;
     includePaths := None; excludePaths := None;
     maxComplexity := None; minComplexity := None;
     maxParameters := None; minParameters := None |}.

Definition onlyMethodsNotC : FilterOptions :=
  {| includeTypes := Some ["method"]; excludeTypes := None;
     includeModifiers := None; excludeModifiers := None;
     namePattern := None; excludeNamePattern := Some "C";
     includePaths := None; excludePaths := None;
     maxComplexity := None; minComplexity := None;
     maxParameters := None; minParameters := None |}.

(** The depth of a definition of [nested] below the deepest one. *)
Definition height (d : Def) : nat :=
  if String.eqb (name d) "N" then 2 else if String.eqb (name d) "C" then 1 else 0.

(** A filtered map with one file. *)
Definition scanned : list (string * list Def) := [("a.ts", nested)].

(** What the pipeline returns for [twoClasses]
    ([parseCodeWithTreeSitter_twoClasses]): the class [B], on lines 1 to
    2, is given the class [A], on line 1, as its parent. *)
Definition classADefinition : Def :=
  {| id := Some "def-0"; type := "class"; name := "A"; startLine := 1; endLine := 1;
     modifier := None; dataType := None; value := None; parentId := None;
     children := Some ["def-1"]; parameters := None; returnType := None;
     complexity := Some 1; parameterCount := Some 0; loc := Some 1; calls := None |}.

Definition classBDefinition : Def :=
  {| id := Some "def-1"; type := "class"; name := "B"; startLine := 1; endLine := 2;
     modifier := None; dataType := None; value := None; parentId := Some "def-0";
     children := Some []; parameters := None; returnType := None;
     complexity := Some 1; parameterCount := Some 0; loc := Some 2; calls := None |}.

End Example.

(** *** Two classes on one line *)
Module ExampleOneLine.

Definition oneLine : string :=
  "class A { } class B { }" +:+ String newline EmptyString.

Definition classB : Parser.SyntaxNode :=
  Example.inner "class_declaration" "class B { }" 0 12 0 23 None
    [ Example.leaf "class" "class" 0 12 0 17 None;
      Example.leaf "identifier" "B" 0 18 0 19 (Some "name");
      Example.inner "class_body" "{ }" 0 20 0 23 (Some "body")
        [ Example.leaf "{" "{" 0 20 0 21 None; Example.leaf "}" "}" 0 22 0 23 None ] ].

Definition oneLineTree : Parser.SyntaxNode :=
  Example.inner "program" oneLine 0 0 1 0 None [ Example.classA; classB ].

(** The parser of the examples, for this source. *)
Definition treeSitter : TreeSitter :=
  {| Query := string;
     setLanguage _ := None;
     parse _ code := lookupKey [ (oneLine, oneLineTree) ] code;
     newQuery _ queryStr := Some queryStr;
     Query_matches query node :=
       Some (if String.eqb query Example.classQuery then Example.classMatches node else []);
     Query_captures _ _ := Some [] |}.

(** What the pipeline returns for [oneLine]: each class is the parent
    of the other. *)
Definition classADefinition : Def :=
  {| id := Some "def-0"; type := "class"; name := "A"; startLine := 1; endLine := 1;
     modifier := None; dataType := None; value := None; parentId := Some "def-1";
     children := Some ["def-1"]; parameters := None; returnType := None;
     complexity := Some 1; parameterCount := Some 0; loc := Some 1; calls := None |}.

Definition classBDefinition : Def :=
  {| id := Some "def-1"; type := "class"; name := "B"; startLine := 1; endLine := 1;
     modifier := None; dataType := None; value := None; parentId := Some "def-0";
     children := Some ["def-0"]; parameters := None; returnType := None;
     complexity := Some 1; parameterCount := Some 0; loc := Some 1; calls := None |}.

Definition scanned : list (string * list Def) :=
  [ ("/work/one.js", [classADefinition; classBDefinition]) ].

End ExampleOneLine.

(** *** A directory with the files of the examples *)
Module ExampleFiles.

(** The directory [/work] holds the files of [Example.files] and no
    [.gitignore]. Paths are joined with a slash and are in normal form
    already; a glob finds every file of the directory, whatever the
    patterns; an ignore rule ignores the paths that start with it, and
    an exclude pattern matches the path equal to it. *)
Definition fileSystem : FileSystem :=
  {| cwd := "/";
     resolveFrom a b := if String.prefix "/" b then b else a +:+ "/" +:+ b;
     joinPath a b := a +:+ "/" +:+ b;
     normalize p := p;
     access p := String.eqb p "/work";
     stat p :=
       if String.eqb p "/work" then Some IsDirectory
       else match lookupKey Example.files p with
            | Some _ => Some IsFile
            | None => None
            end;
     findUp _ _ := None;
     ignores rules p := inl (existsb (fun rule => String.prefix rule p) rules);
     fg _ _ := Some (map fst Example.files);
     minimatch p pattern := inl (String.eqb p pattern) |}.

Definition withoutNotes : FilterOptions :=
  {| includeTypes := None; excludeTypes := None;
     includeModifiers := None; excludeModifiers := None;
     namePattern := None; excludeNamePattern := None;
     includePaths := None; excludePaths := Some ["notes.txt"];
     maxComplexity := None; minComplexity := None;
     maxParameters := None; minParameters := None |}.

End ExampleFiles.

(** *** Exclusion by name *)
Module ExampleExclusion.

(** Methods only, and no name in which a [Z] occurs. *)
Definition onlyMethodsNotZ : FilterOptions :=
  {| includeTypes := Some ["method"]; excludeTypes := None;
     includeModifiers := None; excludeModifiers := None;
     namePattern := None; excludeNamePattern := Some "Z";
     includePaths := None; excludePaths := None;
     maxComplexity := None; minComplexity := None;
     maxParameters := None; minParameters := None |}.

(** The class of [Example.nested] with a modifier that does not make a
    regular expression. *)
Definition classWithModifier : Def :=
  {| id := Some "def-1"; type := "class"; name := "C"; startLine := 2; endLine := 9;
     modifier := Some "("; dataType := None; value := None;
     parentId := Some "def-0"; children := Some ["def-2"];
     parameters := None; returnType := None;
     complexity := Some 1; parameterCount := Some 0; loc := Some 8; calls := None |}.

Definition nestedWithModifier : list Def :=
  [Example.nsN; classWithModifier; Example.methodM].

End ExampleExclusion.

(** * The vocabulary of the properties *)

(** ** Decision points *)

(** The node types the properties call logical AND/OR nodes. *)
Definition logicalNodeTypes : list string := [ "binary_expression"; "boolean_operator" ].

(** The other decision points: conditionals, loops, the arms of a switch
    or match, the ternary operator, catch clauses. *)
Definition branchNodeTypes : list string :=
  [ "if_statement"; "while_statement"; "for_statement"; "for_in_statement";
    "foreach_statement";
    "switch_case"; "case_statement"; "switch_default"; "case_clause";
    "conditional_expression";
    "catch_clause" ].

Definition operatorOf (node : Parser.SyntaxNode) : option string :=
  Parser.text <$> Parser.childForFieldName node "operator".

Definition andOrOperators : list string := [ "&&"; "||"; "and"; "or" ].

(** What a node adds to the count: a logical node counts when its
    operator is AND or OR, any other node when it is a branch. *)
Definition isDecisionPoint (node : Parser.SyntaxNode) : bool :=
  if includes logicalNodeTypes (Parser.type node)
  then from_option (includes andOrOperators) false (operatorOf node)
  else includes branchNodeTypes (Parser.type node).

Definition decisionPoints (node : Parser.SyntaxNode) : nat :=
  length (List.filter isDecisionPoint (Parser.subtree node)).

(** ** Lists of definitions *)

(** Ids identify: the non-empty ids of the list are pairwise distinct. *)
Definition uniqueIds (definitions : list Def) : Prop :=
  NoDup (omap (fun d => nonEmptyString (id d)) definitions).

(** A definition without its links. *)
Definition unlinked (d : Def) : Def := set_parentId None (set_children None d).

(** Equal but for [parentId] and [children]. *)
Definition sameButLinks (a b : Def) : Prop := unlinked a = unlinked b.

(** [p] is what the closure loop finds for [d.parentId]. *)
Definition parentOf (definitions : list Def) (d p : Def) : Prop :=
  exists pid, nonEmptyString (parentId d) = Some pid /\ findById definitions pid = Some p.

(** The ancestors along the pre-filter chain. *)
Inductive ancestorOf (definitions : list Def) : Def -> Def -> Prop :=
| ancestor_parent d p : parentOf definitions d p -> ancestorOf definitions d p
| ancestor_further d p a :
    parentOf definitions d p -> ancestorOf definitions p a -> ancestorOf definitions d a.

(** The definitions a renderer is meant to show: the roots and, from
    each one shown, the children it lists that the list holds. *)
Inductive reachable (definitions : list Def) : Def -> Prop :=
| reachable_root d : In d (topLevelDefs definitions) -> reachable definitions d
| reachable_child p d :
    reachable definitions p -> In d (childrenOf definitions p) -> reachable definitions d.

(** The links of [definitions] nest at most [depth] deep: a rank below
    [depth] decreases from every definition to the children it lists. *)
Definition nestsWithin (depth : nat) (definitions : list Def) : Prop :=
  exists rank : Def -> nat,
    (forall d, In d definitions -> (rank d < depth)%nat)
    /\ (forall p d, In p definitions -> In d (childrenOf definitions p) ->
                    (rank d < rank p)%nat).

(** ** The filter *)

Section FilterVocabulary.
Context `{RegExpEngine}.
Variable definitions : list Def.
Variable fo : FilterOptions.

(** [d] is kept by the selection: its id is in the final
    [entriesToInclude], so step 5 keeps it. *)
Definition survives (d : Def) : Prop :=
  In d definitions /\ included (survivorIds definitions fo) d = true.

(** The ancestors reached before the walk meets a parent that the
    exclusion test rejects. *)
Inductive keptAncestorOf : Def -> Def -> Prop :=
| kept_parent d p :
    parentOf definitions d p -> parentExcluded fo p = false -> keptAncestorOf d p
| kept_further d p a :
    parentOf definitions d p -> parentExcluded fo p = false -> keptAncestorOf p a ->
    keptAncestorOf d a.

(** [result] of step 5 and [finalIds] of step 6. *)
Definition keptEntries : list Def :=
  List.filter (included (survivorIds definitions fo)) definitions.

Definition finalIds : gset string := idSet keptEntries.

(** The list that is sorted in step 8. *)
Definition unsorted : list Def :=
  map (fun def => if included (survivorIds definitions fo) def
                  then rebuild finalIds def else def)
      (metaEntries definitions)
  ++ map (rebuild finalIds) keptEntries.

(** The number of steps the closure loop has left: the items on the
    stack and the ids not yet included. *)
Definition closureMeasure (st : ClosureState) : nat :=
  (length (itemsToAdd st) + size (idSet definitions ∖ entriesToInclude st))%nat.

(** What holds of the state of the closure loop whenever its condition
    is tested. *)
Record closureInv (st : ClosureState) : Prop := {
  inv_stack : forall d, In d (itemsToAdd st) -> In d definitions;
  inv_pending : forall i, i ∈ entriesToInclude st -> i <> EmptyString ->
    (exists d, In d (itemsToAdd st) /\ id d = Some i) \/ i ∈ processedForParents st;
  inv_processed : forall i d pid p,
    i ∈ processedForParents st -> In d definitions -> id d = Some i ->
    nonEmptyString (parentId d) = Some pid ->
    findById definitions pid = Some p -> parentExcluded fo p = false ->
    pid ∈ entriesToInclude st;
  inv_origin : forall i, i ∈ entriesToInclude st ->
    i ∈ idSet (basicFilteredEntries definitions fo)
    \/ exists p, findById definitions i = Some p /\ parentExcluded fo p = false;
  inv_basic : idSet (basicFilteredEntries definitions fo) ⊆ entriesToInclude st
}.

End FilterVocabulary.

(** [fo] with [excludeNamePattern] left out. *)
Definition withoutExcludeNamePattern (fo : FilterOptions) : FilterOptions :=
  {| includeTypes := includeTypes fo; excludeTypes := excludeTypes fo;
     includeModifiers := includeModifiers fo; excludeModifiers := excludeModifiers fo;
     namePattern := namePattern fo; excludeNamePattern := None;
     includePaths := includePaths fo; excludePaths := excludePaths fo;
     maxComplexity := maxComplexity fo; minComplexity := minComplexity fo;
     maxParameters := maxParameters fo; minParameters := minParameters fo |}.

(** A comparison by a numeric key, as [byStartLine] is. *)
Definition byKey {A} (key : A -> Z) (a b : A) : Z := key a - key b.

(** On the heap, [refs] point at the values [vals]. *)
Definition pointsTo (h : list Def) (refs : list nat) (vals : list Def) : Prop :=
  Forall2 (fun r v => h !! r = Some v) refs vals.

(** ** The syntax tree *)

(** [node] covers the position [p]: it starts at or before [p] and ends
    after it. *)
Definition spans (p : Parser.Point) (node : Parser.SyntaxNode) : Prop :=
  Parser.point_le (Parser.startPosition node) p = true
  /\ Parser.point_le (Parser.endPosition node) p = false.

(** [path] is [rest] with, below it, nodes that cover [p] and lie in the
    subtrees of [kids]. *)
Definition pathBelow (p : Parser.Point) (kids : list Parser.SyntaxNode)
    (path rest : list Parser.SyntaxNode) : Prop :=
  exists below,
    path = below ++ rest
    /\ Forall (spans p) below
    /\ Forall (fun x => exists c, In c kids /\ In x (Parser.subtree c)) below
    /\ (below <> [] -> exists child, In child kids /\ spans p child).

(** The [parentId] the linking loop gives to [d0]. *)
Definition linkedParentId (rootNode : Parser.SyntaxNode) (defs0 : list Def) (d0 : Def)
    : option string :=
  match findParent defs0 d0 (ancestorsOf rootNode d0) with
  | Some j => from_option id (parentId d0) (defs0 !! j)
  | None => parentId d0
  end.

(** ** Extraction *)

(** The names of a list in the order of first occurrence. *)
Fixpoint firstSeen (l : list string) : list string :=
  match l with
  | [] => []
  | x :: l' => x :: List.filter (fun y => negb (String.eqb y x)) (firstSeen l')
  end.

(** The callee named by one match of the call query. *)
Definition calleeName (callMatch : Parser.QueryMatch) : option string :=
  Parser.text <$> captureNode callMatch "call_name".

(** What extraction leaves in every definition it pushes. *)
Definition extracted (d : Def) : Prop :=
  parentId d = None /\ children d = Some []
  /\ (exists c, complexity d = Some c /\ 1 <= c)
  /\ isMeta d = false.

(** The ids handed out so far: increasing counter values. *)
Definition idsBelow (defs : list Def) (counter : nat) : Prop :=
  exists ns, map id defs = map (fun n => Some (generateId n)) ns
             /\ StronglySorted lt ns /\ Forall (fun n => (n < counter)%nat) ns.

Definition extractInv (defTypes : list string) (st : ExtractState) : Prop :=
  Forall extracted (definitions st)
  /\ Forall (fun d => In (type d) defTypes) (definitions st)
  /\ idsBelow (definitions st) (idCounter st).

Section PipelineVocabulary.
Context `{RegExpEngine} `{TreeSitter} `{Host}.

(** The two ways [parseCodeWithTreeSitter] returns. *)
Inductive parsed (code filePath : string) (out : list Def) : Prop :=
| parsed_error (n : string) :
    out = [errorDefinition n] -> parsed code filePath out
| parsed_definitions (language : Parser.Language) (rootNode : Parser.SyntaxNode)
    (langQueries : list (string * string)) :
    lookupKey languageMap (toLowerCase (extname filePath)) = Some language ->
    parse language code = Some rootNode ->
    lookupKey queries (toLowerCase (extname filePath)) = Some langQueries ->
    out = linkParents rootNode (extractDefinitions language langQueries code rootNode) ->
    parsed code filePath out.

(** What the scan holds for a file after parsing it. *)
Definition fileDefinitions (absoluteFilePath : string) : list Def :=
  match readFile absoluteFilePath with
  | inl content =>
      match parseCodeWithTreeSitter content absoluteFilePath with
      | inl definitions => definitions
      | inr message => [errorDefinition ("Failed to read/parse: " +:+ message)]
      end
  | inr message => [errorDefinition ("Failed to read/parse: " +:+ message)]
  end.

(** [filteredDefs.some(def => def.type !== 'error')] *)
Definition hasRealDefinitions (filteredDefs : list Def) : bool :=
  some (fun def => negb (String.eqb (type def) "error")) filteredDefs.

(** The key of a file in the output. *)
Definition outputKey (targetDir absoluteFilePath : string) : string :=
  backslashesToSlashes (relative targetDir absoluteFilePath).

End PipelineVocabulary.

(** One step of a loop that sets keys of an object. *)
Definition setEntry {A V} (g : A -> option (string * V)) (o : list (string * V)) (a : A)
    : list (string * V) :=
  match g a with
  | Some (k, v) => setKey o k v
  | None => o
  end.

(** ** Documents *)

(** All elements of a document, all values of a JSON value. *)
Fixpoint xmlElements (e : XmlElement) : list XmlElement :=
  match e with
  | Element _ _ content => e :: flat_map xmlElements content
  end.

Fixpoint jsonValues (v : Json) : list Json :=
  v :: match v with
       | JArray items => flat_map jsonValues items
       | JObject fields => flat_map (fun field => jsonValues (snd field)) fields
       | _ => []
       end.

(** ** The survivors of the filter *)

Section SurvivorVocabulary.
Context `{RegExpEngine}.
Variable definitions : list Def.
Variable fo : FilterOptions.

(** [d] is a match: it passes the basic filter and carries an id. *)
Definition selected (d : Def) : Prop :=
  In d (basicFilteredEntries definitions fo) /\ is_Some (nonEmptyString (id d)).

(** [d] is a match, or an ancestor that the walk reaches from one. *)
Definition justified (d : Def) : Prop :=
  selected d \/ exists b, selected b /\ keptAncestorOf definitions fo b d.

(** What holds of the closure loop besides [closureInv]: nothing is on
    the stack or among the ids included without a match below it. *)
Record closureSound (st : ClosureState) : Prop := {
  sound_stack : forall x, In x (itemsToAdd st) ->
    In x (basicFilteredEntries definitions fo)
    \/ exists b, selected b /\ keptAncestorOf definitions fo b x;
  sound_included : forall i, i ∈ entriesToInclude st -> i <> EmptyString ->
    exists d, In d definitions /\ id d = Some i /\ justified d;
  sound_basic : idSet (basicFilteredEntries definitions fo) ⊆ entriesToInclude st
}.

End SurvivorVocabulary.

(** ** The links of the hierarchy *)

(** [if (def.id) parent.children.push(def.id)]: what one definition adds
    to the children of its parent. *)
Definition pushedId (def : Def) : list string :=
  match nonEmptyString (id def) with
  | Some defId => [defId]
  | None => []
  end.

(** The ids that the definitions of [processed] push to the definition
    at index [k] of [defs0], in their order. *)
Definition linkedChildren (rootNode : Parser.SyntaxNode) (defs0 processed : list Def)
    (k : nat) : list string :=
  flat_map (fun d0 =>
              if bool_decide (findParent defs0 d0 (ancestorsOf rootNode d0) = Some k)
              then pushedId d0 else [])
           processed.

(** The links of a list are consistent: ids are distinct and present, a
    definition is listed by the definition its [parentId] names and by
    no other, once, and every id listed and every parent named is the id
    of a definition of the list. *)
Record consistentLinks (out : list Def) : Prop := {
  links_ids : uniqueIds out /\ Forall (fun d => is_Some (nonEmptyString (id d))) out;
  links_both : forall c p ci, In c out -> In p out -> id c = Some ci ->
    (parentId c = id p <-> ci ∈ optList (children p));
  links_once : forall p, In p out -> NoDup (optList (children p));
  links_children : forall p ci, In p out -> ci ∈ optList (children p) ->
    exists c, In c out /\ id c = Some ci;
  links_parent : forall c pid, In c out -> parentId c = Some pid ->
    exists p, In p out /\ id p = Some pid
}.

(** ** Relinking *)

(** The [parentId] that [updateParentChildRelationships] leaves: the one
    given when it names an id of the list, none otherwise. *)
Definition keptParentId (M : gmap string nat) (d : Def) : option string :=
  match nonEmptyString (parentId d) with
  | Some pid => if M !! pid is Some _ then parentId d else None
  | None => parentId d
  end.

(** What [d] adds to the children of the definition at index [j]. *)
Definition contribution (M : gmap string nat) (j : nat) (d : Def) : list string :=
  match nonEmptyString (parentId d) with
  | Some pid => if bool_decide (M !! pid = Some j) then pushedId d else []
  | None => []
  end.

(** The children of the definition at index [j] once the definitions of
    [processed] have been visited. *)
Definition relinkedChildren (M : gmap string nat) (processed : list Def) (j : nat)
    : list string :=
  firstSeen (flat_map (contribution M j) processed).

(** What holds of the array after the first [a] elements of [defs0] have
    been visited. *)
Definition relinked (defs0 : list Def) (a : nat) (cur : list Def) : Prop :=
  Forall2 sameButLinks defs0 cur
  /\ forall k d0 d, defs0 !! k = Some d0 -> cur !! k = Some d ->
       parentId d = (if bool_decide (k < a)%nat
                     then keptParentId (idToIndexMap defs0) d0 else parentId d0)
       /\ children d = Some (relinkedChildren (idToIndexMap defs0) (take a defs0) k).

(** ** Strings *)

(** The characters of a string. *)
Definition chars (s : string) : list ascii := list_ascii_of_string s.

(** The string that a pattern matches literally, when it is made of
    plain characters and of escaped characters of the class only. *)
Fixpoint readLiteral (pattern : string) : option string :=
  match pattern with
  | EmptyString => Some EmptyString
  | String c rest =>
      if Ascii.eqb c "\" then
        match rest with
        | String c' rest' =>
            if bool_decide (c' ∈ regExpSpecials) then String c' <$> readLiteral rest'
            else None
        | EmptyString => None
        end
      else if bool_decide (c ∈ regExpSpecials) then None
      else String c <$> readLiteral rest
  end.

(** ** Filtered lists *)

(** The rank of a definition of a filtered list: the one of the
    definition of [definitions] that carries its id. *)
Definition rankOf (definitions : list Def) (rank : Def -> nat) (e : Def) : nat :=
  match nonEmptyString (id e) with
  | Some i => from_option rank 0%nat (findById definitions i)
  | None => 0%nat
  end.

(** ** Definitions on the same lines *)

(** [a] and [b] start on the same line and end on the same line. *)
Definition sameSpan (a b : Def) : Prop :=
  startLine a = startLine b /\ endLine a = endLine b.

(** What the parent search asks of a candidate, apart from its id. *)
Definition matchesNode (node : Parser.SyntaxNode) (p : Def) : Prop :=
  startLine p = Parser.row (Parser.startPosition node) + 1
  /\ endLine p = Parser.row (Parser.endPosition node) + 1
  /\ In (type p) plausibleParentTypes.

(** ** Names and the exclusion pattern *)

Section ExclusionVocabulary.
Context `{RegExpEngine}.
Variable definitions : list Def.
Variable fo : FilterOptions.

(** [p] is the parent of [d]: the definition of the list whose id
    [d.parentId] is. *)
Definition parentIn (d p : Def) : Prop :=
  In p definitions /\ is_Some (nonEmptyString (parentId d)) /\ parentId d = id p.

(** [excludeNamePattern] is given, is a valid regular expression and
    matches [s]. *)
Definition excludePatternMatches (s : string) : Prop :=
  exists pattern regex,
    nonEmptyString (excludeNamePattern fo) = Some pattern
    /\ newRegExp pattern = Some regex
    /\ test regex s = true.

(** The name of [p] without its modifier: the name itself when [p] has
    no modifier, otherwise the name less the modifier and the white
    space after it at its start; [None] when the modifier does not make
    a regular expression. *)
Definition nameWithoutModifier (p : Def) : option string :=
  match nonEmptyString (modifier p) with
  | Some m =>
      (fun strip => replace (name p) strip EmptyString)
        <$> newRegExp ("^" +:+ m +:+ "\s+")
  | None => Some (name p)
  end.

(** The pattern matches the name of [p], in full or without the
    modifier. *)
Definition nameMatched (p : Def) : Prop :=
  exists n, nameWithoutModifier p = Some n
            /\ (excludePatternMatches n \/ excludePatternMatches (name p)).

(** The pattern matches the name of [p] neither in full nor without
    the modifier. *)
Definition nameUnmatched (p : Def) : Prop :=
  ~ excludePatternMatches (name p)
  /\ forall n, nameWithoutModifier p = Some n -> ~ excludePatternMatches n.

(** The ancestors of [d] up to which no name is matched. *)
Inductive unmatchedAncestorOf : Def -> Def -> Prop :=
| unmatched_parent d p :
    parentIn d p -> nameUnmatched p -> unmatchedAncestorOf d p
| unmatched_further d p a :
    parentIn d p -> nameUnmatched p -> unmatchedAncestorOf p a ->
    unmatchedAncestorOf d a.

End ExclusionVocabulary.

(** ** Error and metadata entries *)

(** [d] is an error or a metadata entry. *)
Definition isErrorOrMetadata (d : Def) : Prop :=
  type d = "error" \/ type d = "metadata".

#[global] Instance isErrorOrMetadata_dec d : Decision (isErrorOrMetadata d).
Proof. unfold isErrorOrMetadata. apply _. Defined.

(** The error and metadata entries of a list, in the order of the
    list. *)
Definition errorAndMetadataEntries (definitions : list Def) : list Def :=
  List.filter (fun d => bool_decide (isErrorOrMetadata d)) definitions.

(** ** What a renderer is to show *)

(** [d] has no parent. *)
Definition isRoot (d : Def) : Prop := nonEmptyString (parentId d) = None.

(** The roots of a list, in stored order. *)
Definition roots (defs : list Def) : list Def :=
  List.filter (fun d => bool_decide (isRoot d)) defs.

(** The definition that the id [i] names: the first one of the list that
    carries it. *)
Definition named (defs : list Def) (i : string) : option Def :=
  head (List.filter (fun d => bool_decide (id d = Some i)) defs).

(** The children of [d]: the definitions that the ids of [d.children]
    name, in stored order; an id that names nothing is passed over. *)
Definition namedChildren (defs : list Def) (d : Def) : list Def :=
  flat_map (fun i => match named defs i with
                     | Some c => [c]
                     | None => []
                     end)
           (optList (children d)).

(** [d] is [depth] levels below a root. *)
Inductive fromRoot (defs : list Def) : nat -> Def -> Prop :=
| fromRoot_root d : In d defs -> isRoot d -> fromRoot defs 0 d
| fromRoot_child depth p d :
    fromRoot defs depth p -> In d (namedChildren defs p) -> fromRoot defs (S depth) d.

(** The outline below [d]: [d] at its depth, then the outlines of its
    children one level deeper, in stored order; [None] when the
    hierarchy below [d] is deeper than [fuel]. *)
Fixpoint outlineFrom (fuel : nat) (defs : list Def) (depth : nat) (d : Def)
    : option (list (nat * Def)) :=
  match fuel with
  | O => None
  | S fuel =>
      below ← mapM (outlineFrom fuel defs (S depth)) (namedChildren defs d);
      Some ((depth, d) :: concat below)
  end.

(** The outline of a list: the outlines of its roots, in stored order. *)
Definition outline (fuel : nat) (defs : list Def) : option (list (nat * Def)) :=
  below ← mapM (outlineFrom fuel defs 0) (roots defs);
  Some (concat below).

(** The [Definition] elements of a document in document order, each
    with its depth and its attributes. *)
Fixpoint xmlOutline (depth : nat) (e : XmlElement)
    : list (nat * list (string * AttrValue)) :=
  match e with
  | Element tag attrs content =>
      if String.eqb tag "Definition"
      then (depth, attrs) :: flat_map (xmlOutline (S depth)) content
      else []
  end.

(** The objects of a JSON value in document order, each with its depth
    and its fields other than [children], through which it descends. *)
Fixpoint jsonOutline (depth : nat) (v : Json) : list (nat * list (string * Json)) :=
  match v with
  | JObject fields =>
      (depth, List.filter (fun field => negb (String.eqb (fst field) "children")) fields)
      :: flat_map (fun field =>
                     if String.eqb (fst field) "children" then
                       match snd field with
                       | JArray items => flat_map (jsonOutline (S depth)) items
                       | _ => []
                       end
                     else [])
                  fields
  | _ => []
  end.

(** * Proofs *)

(** ** Lists *)

Lemma filter_none {A} (f : A -> bool) (l : list A) :
  (forall x, In x l -> f x = false) -> List.filter f l = [].
Proof.
  induction l as [|x l IH]; intros Hf; simpl; [done|].
  rewrite (Hf x) by (by left). apply IH. intros y Hy. apply Hf. by right.
Qed.

Lemma filter_twice {A} (f : A -> bool) (l : list A) :
  List.filter f (List.filter f l) = List.filter f l.
Proof.
  induction l as [|x l IH]; simpl; [done|].
  destruct (f x) eqn:E; simpl; rewrite ?E, IH; done.
Qed.

Lemma lookupKey_In {A} (o : list (string * A)) k v :
  lookupKey o k = Some v -> In (k, v) o.
Proof.
  unfold lookupKey. destruct (List.find _ o) as [[k' v']|] eqn:Hf; [|discriminate].
  apply List.find_some in Hf as [Hin Hk]. cbn in Hk. apply String.eqb_eq in Hk as ->.
  by intros [= <-].
Qed.

Lemma lookupKey_is_Some {A} (o : list (string * A)) k :
  In k (map fst o) -> is_Some (lookupKey o k).
Proof.
  intros Hk. apply List.in_map_iff in Hk as ([k' v] & <- & Hin). unfold lookupKey.
  destruct (List.find _ o) eqn:Hf; [by eexists|].
  eapply List.find_none in Hf; [|exact Hin]. cbn in Hf. by rewrite String.eqb_refl in Hf.
Qed.

(** ** Cyclomatic complexity *)

(** Induction on a syntax tree, with the hypothesis for every child. *)
Lemma SyntaxNode_ind (P : Parser.SyntaxNode -> Prop) :
  (forall ty tx s e f cs, Forall P cs -> P (Parser.mkNode ty tx s e f cs)) ->
  forall node, P node.
Proof.
  intros step. fix IH 1. intros [ty tx s e f cs]. apply step.
  induction cs as [|c cs IHcs]; constructor; [apply IH | exact IHcs].
Qed.

Lemma includes_true l x : includes l x = true <-> x ∈ l.
Proof. unfold includes. apply bool_decide_eq_true. Qed.

Lemma includes_false l x : includes l x = false <-> x ∉ l.
Proof. unfold includes. apply bool_decide_eq_false. Qed.

Lemma visit_spec node c :
  visit node c = c + (if isDecisionPoint node then 1 else 0).
Proof.
  unfold visit, isDecisionPoint, operatorOf.
  destruct (includes logicalNodeTypes (Parser.type node)) eqn:Hlog.
  - apply includes_true in Hlog.
    assert (Hty : Parser.type node = "binary_expression"
                  \/ Parser.type node = "boolean_operator").
    { unfold logicalNodeTypes in Hlog. set_solver. }
    assert (Hin : includes decisionPointTypes (Parser.type node) = true).
    { apply includes_true. unfold decisionPointTypes. destruct Hty as [-> | ->]; set_solver. }
    rewrite Hin.
    assert (Heq : String.eqb (Parser.type node) "binary_expression"
                  || String.eqb (Parser.type node) "boolean_operator" = true).
    { destruct Hty as [-> | ->]; reflexivity. }
    rewrite Heq.
    destruct (Parser.text <$> Parser.childForFieldName node "operator") as [op|]; simpl.
    + destruct (includes andOrOperators op) eqn:Hop.
      * apply includes_true in Hop. unfold andOrOperators in Hop.
        assert (op = "&&" \/ op = "||" \/ op = "and" \/ op = "or") as Hc by set_solver.
        destruct Hc as [-> | [-> | [-> | ->]]]; reflexivity.
      * apply includes_false in Hop. unfold andOrOperators in Hop.
        repeat rewrite bool_decide_eq_false_2; [simpl; lia | | | |];
          intros [= ->]; apply Hop; set_solver.
    + simpl. lia.
  - assert (Hne : String.eqb (Parser.type node) "binary_expression"
                  || String.eqb (Parser.type node) "boolean_operator" = false).
    { apply includes_false in Hlog. unfold logicalNodeTypes in Hlog.
      apply orb_false_iff. split; apply String.eqb_neq; intros E; apply Hlog; rewrite E; set_solver. }
    rewrite Hne.
    destruct (includes branchNodeTypes (Parser.type node)) eqn:Hbr.
    + assert (Hin : includes decisionPointTypes (Parser.type node) = true).
      { apply includes_true. apply includes_true in Hbr.
        unfold branchNodeTypes in Hbr. unfold decisionPointTypes.
        set_solver. }
      rewrite Hin. reflexivity.
    + assert (Hin : includes decisionPointTypes (Parser.type node) = false).
      { apply includes_false. apply includes_false in Hbr. apply includes_false in Hlog.
        unfold branchNodeTypes in Hbr. unfold logicalNodeTypes in Hlog.
        unfold decisionPointTypes. set_solver. }
      rewrite Hin. lia.
Qed.

Lemma traverse_children_spec cs :
  Forall (fun child => forall c, traverse child c = c + Z.of_nat (decisionPoints child)) cs ->
  forall c,
    fold_left (fun c child => traverse child c) cs c
    = c + Z.of_nat (length (List.filter isDecisionPoint (flat_map Parser.subtree cs))).
Proof.
  induction 1 as [|child cs Hchild _ IH]; intros c; simpl.
  - lia.
  - rewrite IH, Hchild. unfold decisionPoints.
    rewrite List.filter_app, length_app. lia.
Qed.

Lemma traverse_spec node c :
  traverse node c = c + Z.of_nat (decisionPoints node).
Proof.
  revert c. induction node as [ty tx s e f cs IH] using SyntaxNode_ind. intros c.
  cbn [traverse Parser.children].
  rewrite (traverse_children_spec cs IH), visit_spec.
  unfold decisionPoints. cbn [Parser.subtree Parser.children List.filter].
  destruct (isDecisionPoint _); cbn [length]; lia.
Qed.

Lemma decisionPointTypes_split t :
  includes decisionPointTypes t = includes logicalNodeTypes t || includes branchNodeTypes t.
Proof.
  apply eq_true_iff_eq. rewrite orb_true_iff, !includes_true.
  unfold decisionPointTypes, logicalNodeTypes, branchNodeTypes. set_solver.
Qed.

(** C6: the node types that are counted are the logical ones and the
    branches. A [binary_expression] or [boolean_operator] node adds one
    exactly when its operator is one of [&&], [||], [and], [or], and
    nothing with any other operator; every other decision point adds one
    for each occurrence; no other node adds anything. So a traversal adds
    the number of such nodes of the subtree to the count. *)
Theorem logical_operators_counted (node : Parser.SyntaxNode) (c : Z) :
  includes decisionPointTypes (Parser.type node)
  = includes logicalNodeTypes (Parser.type node)
    || includes branchNodeTypes (Parser.type node)
  /\ visit node c = c + (if isDecisionPoint node then 1 else 0)
  /\ traverse node c = c + Z.of_nat (decisionPoints node)
  /\ calculateComplexity (Some node) = 1 + Z.of_nat (decisionPoints node).
Proof.
  split; [apply decisionPointTypes_split|].
  split; [apply visit_spec|].
  split; [apply traverse_spec|].
  cbn. apply traverse_spec.
Qed.

Lemma calculateComplexity_floor node : 1 <= calculateComplexity node.
Proof.
  destruct node as [node|]; cbn; [|lia]. rewrite traverse_spec. lia.
Qed.

Lemma calculateComplexity_straight node :
  (forall n, In n (Parser.subtree node) -> isDecisionPoint n = false) ->
  calculateComplexity (Some node) = 1.
Proof.
  intros Hnone. cbn. rewrite traverse_spec. unfold decisionPoints.
  rewrite filter_none by done. reflexivity.
Qed.

(** ** The filter: ancestor closure *)

Lemma nonEmptyString_Some o s : nonEmptyString o = Some s -> o = Some s /\ s <> EmptyString.
Proof.
  destruct o as [t|]; simpl; [|discriminate].
  destruct (String.eqb_spec t EmptyString); [discriminate|].
  intros [= ->]. auto.
Qed.

Lemma nonEmptyString_of_Some s : s <> EmptyString -> nonEmptyString (Some s) = Some s.
Proof.
  intros Hs. simpl. destruct (String.eqb_spec s EmptyString); congruence.
Qed.

Lemma elem_of_idSet l i : i ∈ idSet l <-> exists d, In d l /\ id d = Some i.
Proof.
  unfold idSet. rewrite elem_of_list_to_set, list_elem_of_omap.
  split; intros (d & Hd & E); exists d; split; auto; by apply list_elem_of_In.
Qed.

Lemma size_list_to_set_le (l : list string) :
  (size (list_to_set l : gset string) <= length l)%nat.
Proof.
  induction l as [|x l IH].
  - rewrite list_to_set_nil, size_empty. reflexivity.
  - rewrite list_to_set_cons, size_union_alt, size_singleton. cbn [length].
    pose proof (subseteq_size (list_to_set l ∖ {[x]}) (list_to_set l : gset string)) as Hle.
    specialize (Hle ltac:(set_solver)). lia.
Qed.

Lemma length_omap_le {A B} (f : A -> option B) (l : list A) :
  (length (omap f l) <= length l)%nat.
Proof.
  induction l as [|x l IH]; cbn [omap list_omap length]; [lia|].
  destruct (f x); cbn [length]; lia.
Qed.

Lemma size_idSet l : (size (idSet l) <= length l)%nat.
Proof.
  unfold idSet. pose proof (size_list_to_set_le (omap id l)).
  pose proof (length_omap_le id l). lia.
Qed.

Lemma uniqueIds_eq definitions d1 d2 i :
  uniqueIds definitions -> In d1 definitions -> In d2 definitions ->
  nonEmptyString (id d1) = Some i -> id d2 = Some i -> d1 = d2.
Proof.
  unfold uniqueIds. intros Hnd H1 H2 E1 E2.
  assert (E2' : nonEmptyString (id d2) = Some i).
  { rewrite E2. apply nonEmptyString_of_Some. by apply nonEmptyString_Some in E1 as [_ ?]. }
  clear E2. induction definitions as [|d l IH]; [destruct H1|].
  cbn [omap list_omap] in Hnd.
  assert (Hmem : forall x, In x l -> nonEmptyString (id x) = Some i ->
                           i ∈ omap (fun d => nonEmptyString (id d)) l).
  { intros x Hx Ex. apply list_elem_of_omap. exists x. split; [by apply list_elem_of_In | done]. }
  destruct H1 as [-> | H1], H2 as [-> | H2]; [done | | |].
  - rewrite E1 in Hnd. apply NoDup_cons in Hnd as [Hni _]. destruct Hni. eauto.
  - rewrite E2' in Hnd. apply NoDup_cons in Hnd as [Hni _]. destruct Hni. eauto.
  - apply IH; auto. destruct (nonEmptyString (id d)); [by apply NoDup_cons in Hnd as [_ ?] | done].
Qed.

Section ClosureProofs.
Context `{RegExpEngine}.
Variable definitionsCopy : list Def.
Variable fo : FilterOptions.

Lemma findById_Some i p :
  findById definitionsCopy i = Some p -> In p definitionsCopy /\ id p = Some i.
Proof.
  unfold findById. intros Hf. apply List.find_some in Hf as [Hin Hb].
  apply bool_decide_eq_true in Hb. auto.
Qed.

Lemma findById_unique p i :
  uniqueIds definitionsCopy -> In p definitionsCopy ->
  nonEmptyString (id p) = Some i -> findById definitionsCopy i = Some p.
Proof.
  intros Hu Hin Hid. unfold findById.
  destruct (List.find _ definitionsCopy) as [q|] eqn:Hf.
  - apply List.find_some in Hf as [Hq Hb]. apply bool_decide_eq_true in Hb.
    f_equal. symmetry. eapply uniqueIds_eq; eauto.
  - exfalso. eapply List.find_none in Hf; [|exact Hin].
    apply bool_decide_eq_false in Hf. apply nonEmptyString_Some in Hid as [? _]. auto.
Qed.

Lemma closureStep_measure st st' :
  closureStep definitionsCopy fo st = Some st' ->
  (closureMeasure definitionsCopy st' < closureMeasure definitionsCopy st)%nat.
Proof.
  unfold closureStep, closureMeasure.
  destruct (itemsToAdd st) as [|current rest]; [discriminate|].
  repeat first
    [ match goal with
      | |- context [match nonEmptyString ?x with _ => _ end] =>
          let E := fresh "E" in destruct (nonEmptyString x) eqn:E
      | |- context [if bool_decide ?P then _ else _] =>
          let E := fresh "E" in destruct (bool_decide P) eqn:E
      | |- context [match findById ?a ?b with _ => _ end] =>
          let E := fresh "E" in destruct (findById a b) eqn:E
      | |- context [if parentExcluded ?a ?b then _ else _] =>
          let E := fresh "E" in destruct (parentExcluded a b) eqn:E
      end ];
    intros [= <-]; simpl; try lia.
  (* the push *)
  match goal with
  | Hf : findById _ ?pid = Some ?p, Hn : nonEmptyString (id ?p) = Some ?s,
    Hb : bool_decide (?pid ∈ _) = false |- _ =>
      apply findById_Some in Hf as [Hin Hid];
      apply nonEmptyString_Some in Hn as [Hn _];
      apply bool_decide_eq_false in Hb;
      assert (s = pid) as -> by congruence;
      assert (Hmem : pid ∈ idSet definitionsCopy) by (apply elem_of_idSet; eauto)
  end.
  match goal with
  | |- context [size (?D ∖ ({[?x]} ∪ ?I))] =>
      assert (Hsub : D ∖ ({[x]} ∪ I) ⊂ D ∖ I) by set_solver;
      apply subset_size in Hsub; lia
  end.
Qed.

Lemma closureStep_None st :
  closureStep definitionsCopy fo st = None <-> itemsToAdd st = [].
Proof.
  unfold closureStep. destruct (itemsToAdd st) as [|current rest]; [tauto|].
  split; [|discriminate].
  repeat first
    [ match goal with
      | |- context [match nonEmptyString ?x with _ => _ end] =>
          destruct (nonEmptyString x)
      | |- context [if bool_decide ?P then _ else _] =>
          destruct (bool_decide P)
      | |- context [match findById ?a ?b with _ => _ end] =>
          destruct (findById a b)
      | |- context [if parentExcluded ?a ?b then _ else _] =>
          destruct (parentExcluded a b)
      end ]; discriminate.
Qed.

Lemma closureLoop_done fuel st :
  (closureMeasure definitionsCopy st <= fuel)%nat ->
  itemsToAdd (closureLoop fuel definitionsCopy fo st) = [].
Proof.
  revert st. induction fuel as [|fuel IH]; intros st Hm; simpl.
  - unfold closureMeasure in Hm. destruct (itemsToAdd st); [reflexivity | simpl in Hm; lia].
  - destruct (closureStep definitionsCopy fo st) as [st'|] eqn:Hs.
    + apply IH. apply closureStep_measure in Hs. lia.
    + by apply closureStep_None.
Qed.

Lemma closure_terminates : itemsToAdd (closure definitionsCopy fo) = [].
Proof.
  unfold closure. apply closureLoop_done.
  unfold closureMeasure, closureFuel.
  pose proof (size_idSet definitionsCopy).
  pose proof (subseteq_size (idSet definitionsCopy
                               ∖ entriesToInclude (closureStart definitionsCopy fo))
                            (idSet definitionsCopy)) as Hle.
  specialize (Hle ltac:(set_solver)). lia.
Qed.

Lemma basicFilteredEntries_In d :
  In d (basicFilteredEntries definitionsCopy fo) ->
  In d definitionsCopy /\ isMeta d = false /\ basicFilter fo d = true.
Proof.
  unfold basicFilteredEntries, nonMetaEntries.
  rewrite !List.filter_In. intros [[Hin Hm] Hb].
  apply negb_true_iff in Hm. auto.
Qed.

Lemma closureStart_inv : closureInv definitionsCopy fo (closureStart definitionsCopy fo).
Proof.
  split; cbn [closureStart entriesToInclude processedForParents itemsToAdd].
  - intros d Hd. apply List.in_rev in Hd. by apply basicFilteredEntries_In in Hd as [? _].
  - intros i Hi _. left. apply elem_of_idSet in Hi as (d & Hd & E).
    exists d. split; [by apply -> List.in_rev | done].
  - intros i d pid p Hi. set_solver.
  - intros i Hi. by left.
  - done.
Qed.

Lemma closureStep_inv st st' :
  uniqueIds definitionsCopy ->
  closureInv definitionsCopy fo st -> closureStep definitionsCopy fo st = Some st' -> closureInv definitionsCopy fo st'.
Proof.
  intros Hu [Hstack Hpend Hproc Horig Hbasic].
  unfold closureStep.
  destruct (itemsToAdd st) as [|current rest] eqn:Hitems; [discriminate|].
  assert (Hcur : In current definitionsCopy) by (apply Hstack; by left).
  assert (Hrest : forall d, In d rest -> In d definitionsCopy)
    by (intros d Hd; apply Hstack; by right).
  destruct (nonEmptyString (id current)) as [cid|] eqn:Hcid.
  2: { intros [= <-]. split; cbn; auto.
       intros i Hi Hne. destruct (Hpend i Hi Hne) as [(d & [<- | Hd] & E) | Hp]; eauto.
       rewrite E in Hcid. rewrite nonEmptyString_of_Some in Hcid by done. discriminate. }
  pose proof (nonEmptyString_Some _ _ Hcid) as [Eid Hcne].
  destruct (bool_decide (cid ∈ processedForParents st)) eqn:Hdone.
  { apply bool_decide_eq_true in Hdone. intros [= <-]. split; cbn; auto.
    intros i Hi Hne. destruct (Hpend i Hi Hne) as [(d & [<- | Hd] & E) | Hp]; eauto.
    right. congruence. }
  apply bool_decide_eq_false in Hdone.
  (* what holds whenever [current] is marked and nothing is added *)
  assert (Hskip :
    (forall pid p, nonEmptyString (parentId current) = Some pid ->
                   findById definitionsCopy pid = Some p -> parentExcluded fo p = false ->
                   pid ∈ entriesToInclude st) ->
    closureInv definitionsCopy fo {| entriesToInclude := entriesToInclude st;
                  processedForParents := {[cid]} ∪ processedForParents st;
                  itemsToAdd := rest |}).
  { intros Hpar. split; cbn; auto.
    - intros i Hi Hne. destruct (Hpend i Hi Hne) as [(d & [<- | Hd] & E) | Hp]; eauto.
      + right. assert (i = cid) as -> by congruence. set_solver.
      + right. set_solver.
    - intros i d pid p Hi Hd E Hpid Hf Hex.
      apply elem_of_union in Hi as [Hi | Hi]; [|eauto].
      apply elem_of_singleton in Hi as ->.
      assert (current = d) as <- by (eapply uniqueIds_eq; eauto). eauto. }
  destruct (nonEmptyString (parentId current)) as [pid|] eqn:Hpid.
  2: { intros [= <-]. apply Hskip. discriminate. }
  destruct (bool_decide (pid ∈ entriesToInclude st)) eqn:Hinc.
  { apply bool_decide_eq_true in Hinc. intros [= <-]. apply Hskip. by intros ? ? [= <-]. }
  apply bool_decide_eq_false in Hinc.
  destruct (findById definitionsCopy pid) as [parent|] eqn:Hfind.
  2: { intros [= <-]. apply Hskip. intros ? ? [= <-]. congruence. }
  pose proof (findById_Some _ _ Hfind) as [Hpin Hpidp].
  pose proof (nonEmptyString_Some _ _ Hpid) as [_ Hpne].
  rewrite Hpidp, (nonEmptyString_of_Some _ Hpne).
  destruct (parentExcluded fo parent) eqn:Hex.
  { intros [= <-]. apply Hskip. intros ? ? [= <-]. congruence. }
  intros [= <-]. split; cbn.
  - intros d [<- | Hd]; auto.
  - intros i Hi Hne. apply elem_of_union in Hi as [Hi | Hi].
    + apply elem_of_singleton in Hi as ->. left. exists parent. auto.
    + destruct (Hpend i Hi Hne) as [(d & [<- | Hd] & E) | Hp]; eauto.
      * right. assert (i = cid) as -> by congruence. set_solver.
      * right. set_solver.
  - intros i d pid' p Hi Hd E Hpid' Hf Hex'.
    apply elem_of_union in Hi as [Hi | Hi]; [|set_solver].
    apply elem_of_singleton in Hi as ->.
    assert (current = d) as <- by (eapply uniqueIds_eq; eauto).
    assert (pid' = pid) as -> by congruence. set_solver.
  - intros i Hi. apply elem_of_union in Hi as [Hi | Hi]; [|eauto].
    apply elem_of_singleton in Hi as ->. right. eauto.
  - set_solver.
Qed.

Lemma closureLoop_inv fuel st :
  uniqueIds definitionsCopy ->
  closureInv definitionsCopy fo st -> closureInv definitionsCopy fo (closureLoop fuel definitionsCopy fo st).
Proof.
  intros Hu. revert st. induction fuel as [|fuel IH]; intros st Hinv; simpl; [done|].
  destruct (closureStep definitionsCopy fo st) as [st'|] eqn:Hs; [|done].
  apply IH. eapply closureStep_inv; eauto.
Qed.

Lemma closure_inv : uniqueIds definitionsCopy -> closureInv definitionsCopy fo (closure definitionsCopy fo).
Proof. intros Hu. apply closureLoop_inv; [done | apply closureStart_inv]. Qed.

Lemma survives_parent d p :
  uniqueIds definitionsCopy ->
  survives definitionsCopy fo d -> parentOf definitionsCopy d p -> parentExcluded fo p = false -> survives definitionsCopy fo p.
Proof.
  intros Hu [Hd Hinc] (pid & Hpid & Hf) Hex.
  pose proof (closure_inv Hu) as [_ Hpend Hproc _ _].
  pose proof closure_terminates as Hnil.
  unfold included in Hinc.
  destruct (nonEmptyString (id d)) as [i|] eqn:Hi; [|discriminate].
  apply bool_decide_eq_true in Hinc.
  pose proof (nonEmptyString_Some _ _ Hi) as [Eid Hne].
  destruct (Hpend i Hinc Hne) as [(x & Hx & _) | Hp]; [by rewrite Hnil in Hx|].
  pose proof (Hproc i d pid p Hp Hd Eid Hpid Hf Hex) as Hin.
  pose proof (findById_Some _ _ Hf) as [Hpin Hpidp].
  split; [done|]. unfold included. rewrite Hpidp.
  rewrite nonEmptyString_of_Some by (by apply nonEmptyString_Some in Hpid as [_ ?]).
  by apply bool_decide_eq_true.
Qed.

Lemma survives_excluded_basic p :
  uniqueIds definitionsCopy ->
  survives definitionsCopy fo p -> parentExcluded fo p = true ->
  In p (basicFilteredEntries definitionsCopy fo).
Proof.
  intros Hu [Hp Hinc] Hex.
  pose proof (closure_inv Hu) as [_ _ _ Horig _].
  unfold included in Hinc.
  destruct (nonEmptyString (id p)) as [i|] eqn:Hi; [|discriminate].
  apply bool_decide_eq_true in Hinc.
  destruct (Horig i Hinc) as [Hb | (q & Hq & Hqex)].
  - apply elem_of_idSet in Hb as (b & Hb & Eb).
    pose proof (basicFilteredEntries_In _ Hb) as (Hbin & _).
    assert (p = b) as -> by (eapply uniqueIds_eq; eauto). done.
  - rewrite (findById_unique p i Hu Hp Hi) in Hq. congruence.
Qed.

End ClosureProofs.

Section ClosureTermination.
Context `{RegExpEngine}.

(** Once the stack is empty, further iterations change nothing. *)
Lemma closureLoop_stable fuel extra definitions fo st :
  itemsToAdd (closureLoop fuel definitions fo st) = [] ->
  closureLoop (fuel + extra) definitions fo st = closureLoop fuel definitions fo st.
Proof.
  revert st. induction fuel as [|fuel IH]; intros st Hdone; cbn [closureLoop Nat.add] in *.
  - apply (closureStep_None definitions fo) in Hdone. destruct extra; cbn [closureLoop]; [done|].
    by rewrite Hdone.
  - destruct (closureStep definitions fo st) as [st'|]; [by apply IH | done].
Qed.

(** X1: the loop that adds parents ends, for every list and every
    configuration, also when the parent links of the list form a cycle:
    after at most as many iterations as there are basic survivors and
    definitions the stack is empty and the loop condition fails, and
    [closure] is the state the loop ends in, whatever larger bound is
    given. *)
Theorem closure_loop_terminates (definitions : list Def) (fo : FilterOptions) :
  itemsToAdd (closure definitions fo) = []
  /\ closureStep definitions fo (closure definitions fo) = None
  /\ (forall fuel,
        (closureFuel definitions (closureStart definitions fo) <= fuel)%nat ->
        closureLoop fuel definitions fo (closureStart definitions fo)
        = closure definitions fo).
Proof.
  pose proof (closure_terminates definitions fo) as Hdone.
  split; [done|]. split; [by apply (closureStep_None definitions fo)|].
  intros fuel Hfuel. unfold closure in *.
  replace fuel
    with (closureFuel definitions (closureStart definitions fo)
          + (fuel - closureFuel definitions (closureStart definitions fo)))%nat by lia.
  by apply closureLoop_stable.
Qed.

End ClosureTermination.

(** ** The conditions of the filter *)

Section FilterConditions.
Context `{RegExpEngine}.

Lemma basicFilter_conjunction fo def :
  basicFilter fo def
  = negb (typeRejects fo def)
    && negb (includeModifiersRejects fo def)
    && negb (excludeModifiersRejects fo def)
    && negb (namePatternRejects fo def)
    && negb (excludeNamePatternRejects fo def)
    && negb (below (minComplexity fo) (complexity def))
    && negb (above (maxComplexity fo) (complexity def))
    && negb (below (minParameters fo) (parameterCount def))
    && negb (above (maxParameters fo) (parameterCount def)).
Proof.
  unfold basicFilter, typeRejects.
  repeat match goal with
         | |- context [if ?c then false else _] => destruct c; cbn; try reflexivity
         end.
Qed.

Lemma basicFilter_exclude_rejects fo def :
  excludeNamePatternRejects fo def = true -> basicFilter fo def = false.
Proof.
  intros E. rewrite basicFilter_conjunction, E. cbn.
  by rewrite !andb_false_r.
Qed.

(** C3: when [namePattern] is not a valid regular expression no
    definition passes the basic filter, so the basic survivor set is
    empty; when [excludeNamePattern] is not valid its condition rejects
    nothing, in the basic filter and in the closure alike, and the filter
    is the one of the same options without that pattern; in every case
    the basic filter is the conjunction of its conditions. *)
Theorem invalid_patterns (fo : FilterOptions) :
  (forall pattern, nonEmptyString (namePattern fo) = Some pattern ->
     newRegExp pattern = None ->
     (forall def, basicFilter fo def = false)
     /\ forall definitions, basicFilteredEntries definitions fo = [])
  /\ (forall pattern, nonEmptyString (excludeNamePattern fo) = Some pattern ->
        newRegExp pattern = None ->
        forall def,
          excludeNamePatternRejects fo def = false
          /\ parentExcluded fo def = false
          /\ basicFilter fo def = basicFilter (withoutExcludeNamePattern fo) def)
  /\ (forall def,
        basicFilter fo def
        = negb (typeRejects fo def)
          && negb (includeModifiersRejects fo def)
          && negb (excludeModifiersRejects fo def)
          && negb (namePatternRejects fo def)
          && negb (excludeNamePatternRejects fo def)
          && negb (below (minComplexity fo) (complexity def))
          && negb (above (maxComplexity fo) (complexity def))
          && negb (below (minParameters fo) (parameterCount def))
          && negb (above (maxParameters fo) (parameterCount def))).
Proof.
  split; [|split].
  - intros pattern Hpat Hre.
    assert (Hrej : forall def, basicFilter fo def = false).
    { intros def. rewrite basicFilter_conjunction.
      unfold namePatternRejects at 1. rewrite Hpat, Hre. cbn.
      by rewrite !andb_false_r. }
    split; [exact Hrej|]. intros definitions. unfold basicFilteredEntries.
    apply filter_none. intros def _. apply Hrej.
  - intros pattern Hpat Hre def.
    assert (Hopen : excludeNamePatternRejects fo def = false).
    { unfold excludeNamePatternRejects. by rewrite Hpat, Hre. }
    split; [exact Hopen|]. split.
    + unfold parentExcluded. by rewrite Hpat, Hre.
    + rewrite !basicFilter_conjunction, Hopen. reflexivity.
  - apply basicFilter_conjunction.
Qed.

End FilterConditions.

(** ** Ancestor closure and the names that are matched *)

Section ExclusionProofs.
Context `{RegExpEngine}.

Lemma parentIn_parentOf definitions d p :
  uniqueIds definitions -> parentIn definitions d p -> parentOf definitions d p.
Proof.
  intros Hu (Hp & [pid Hpid] & E). exists pid. split; [done|].
  apply findById_unique; [done | done |]. by rewrite <- E.
Qed.

(** The closure accepts a parent whose name is not matched. *)
Lemma nameUnmatched_accepted fo p : nameUnmatched fo p -> parentExcluded fo p = false.
Proof.
  intros [Hfull Hbare]. unfold parentExcluded.
  destruct (nonEmptyString (excludeNamePattern fo)) as [pattern|] eqn:Hpat; [|done].
  destruct (newRegExp pattern) as [regex|] eqn:Hre; [|done].
  assert (Hno : forall s, ~ excludePatternMatches fo s -> test regex s = false).
  { intros s Hs. destruct (test regex s) eqn:E; [|done].
    destruct Hs. by exists pattern, regex. }
  cbv zeta. unfold nameWithoutModifier in Hbare.
  destruct (nonEmptyString (modifier p)) as [m|].
  - destruct (newRegExp ("^" +:+ m +:+ "\s+")) as [strip|]; [|done].
    rewrite (Hno _ (Hbare _ eq_refl)), (Hno _ Hfull). done.
  - rewrite (Hno _ Hfull). done.
Qed.

(** It rejects a parent whose name is matched. *)
Lemma nameMatched_rejected fo p : nameMatched fo p -> parentExcluded fo p = true.
Proof.
  intros (n & Hn & Hm). unfold parentExcluded.
  assert (Hyes : exists pattern regex,
            nonEmptyString (excludeNamePattern fo) = Some pattern
            /\ newRegExp pattern = Some regex
            /\ (test regex n = true \/ test regex (name p) = true)).
  { destruct Hm as [(pattern & regex & ? & ? & ?) | (pattern & regex & ? & ? & ?)];
      exists pattern, regex; auto. }
  destruct Hyes as (pattern & regex & -> & -> & Ht). cbv zeta.
  unfold nameWithoutModifier in Hn.
  destruct (nonEmptyString (modifier p)) as [m|].
  - destruct (newRegExp ("^" +:+ m +:+ "\s+")) as [strip|]; [|discriminate].
    injection Hn as <-. destruct Ht as [-> | ->]; [done | apply orb_true_r].
  - injection Hn as <-. destruct Ht as [-> | ->]; [done | apply orb_true_r].
Qed.

Lemma unmatchedAncestorOf_kept definitions fo d a :
  uniqueIds definitions ->
  unmatchedAncestorOf definitions fo d a -> keptAncestorOf definitions fo d a.
Proof.
  intros Hu. induction 1 as [d p Hp Hn | d p a Hp Hn _ IH].
  - apply kept_parent; [by apply parentIn_parentOf | by apply nameUnmatched_accepted].
  - eapply kept_further; [by apply parentIn_parentOf | by apply nameUnmatched_accepted
                         | exact IH].
Qed.

(** C1 (as amended): in a list whose ids are distinct, whenever [d]
    survives, so does every ancestor [a] of [d] along the pre-filter
    [parentId] chain such that the pattern matches the name of no
    definition from the parent of [d] up to [a], in full or without its
    modifier, whatever is excluded on the chains of other survivors; a
    parent whose name the pattern matches, in full or without its
    modifier, is never added by the closure: it survives only as a
    basic survivor; and a definition whose full name a valid pattern
    matches does not survive. The last two hold when the modifier of the
    definition, if it has one, makes a regular expression. *)
Theorem ancestor_closure (definitions : list Def) (fo : FilterOptions) :
  uniqueIds definitions ->
  (forall d a, survives definitions fo d -> unmatchedAncestorOf definitions fo d a ->
               survives definitions fo a)
  /\ (forall p, survives definitions fo p -> nameMatched fo p ->
                In p (basicFilteredEntries definitions fo))
  /\ (forall p, excludePatternMatches fo (name p) -> is_Some (nameWithoutModifier p) ->
                ~ survives definitions fo p).
Proof.
  intros Hu. split; [|split].
  - intros d a Hd Hchain. apply unmatchedAncestorOf_kept in Hchain; [|done].
    induction Hchain as [d p Hp Hex | d p a Hp Hex _ IH].
    + eapply survives_parent; eauto.
    + apply IH. eapply survives_parent; eauto.
  - intros p Hp Hm. apply survives_excluded_basic; [done | done |].
    by apply nameMatched_rejected.
  - intros p Hfull [n Hn] Hp.
    assert (Hex : parentExcluded fo p = true).
    { apply nameMatched_rejected. exists n. auto. }
    pose proof (survives_excluded_basic _ _ _ Hu Hp Hex) as Hb.
    apply basicFilteredEntries_In in Hb as (_ & _ & Hb).
    rewrite basicFilter_exclude_rejects in Hb; [discriminate|].
    destruct Hfull as (pattern & regex & Hpat & Hre & Htest).
    unfold excludeNamePatternRejects. rewrite Hpat, Hre, Htest. apply orb_true_r.
Qed.

End ExclusionProofs.

(** ** The sort *)

Section SortProofs.
Context {A : Type} (key : A -> Z).

Lemma sort_insert_Permutation (cmp : A -> A -> Z) x l :
  Permutation (sort_insert cmp x l) (x :: l).
Proof.
  induction l as [|y l IH]; simpl; [done|].
  destruct (0 <? cmp x y); [|done].
  rewrite IH. apply perm_swap.
Qed.

Lemma sort_Permutation (cmp : A -> A -> Z) l : Permutation (sort cmp l) l.
Proof.
  induction l as [|x l IH]; simpl; [done|].
  rewrite sort_insert_Permutation. by constructor.
Qed.

Lemma sort_In (cmp : A -> A -> Z) l x : In x (sort cmp l) <-> In x l.
Proof.
  split; apply Permutation_in; [|symmetry]; apply sort_Permutation.
Qed.

Lemma sort_insert_sorted x l :
  StronglySorted (fun a b => key a <= key b) l ->
  StronglySorted (fun a b => key a <= key b) (sort_insert (byKey key) x l).
Proof.
  induction 1 as [|y l Hl IH Hy]; simpl.
  - repeat constructor.
  - unfold byKey at 1. destruct (0 <? key x - key y) eqn:E.
    + apply Z.ltb_lt in E. constructor; [done|].
      apply List.Forall_forall. intros z Hz.
      apply (Permutation_in _ (sort_insert_Permutation (byKey key) x l)) in Hz as [<- | Hz]; [lia|].
      rewrite List.Forall_forall in Hy. by apply Hy.
    + apply Z.ltb_ge in E. constructor; [by constructor|].
      constructor; [lia|]. eapply Forall_impl; [exact Hy | simpl; intros; lia].
Qed.

Lemma sort_sorted l : StronglySorted (fun a b => key a <= key b) (sort (byKey key) l).
Proof.
  induction l as [|x l IH]; simpl; [constructor | by apply sort_insert_sorted].
Qed.

Lemma sort_insert_stable k x l :
  List.filter (fun a => key a =? k) (sort_insert (byKey key) x l)
  = List.filter (fun a => key a =? k) (x :: l).
Proof.
  induction l as [|y l IH]; simpl; [done|].
  unfold byKey at 1. destruct (0 <? key x - key y) eqn:E; [|done].
  apply Z.ltb_lt in E. simpl in *. rewrite IH.
  destruct (key x =? k) eqn:Ex, (key y =? k) eqn:Ey; try done.
  apply Z.eqb_eq in Ex, Ey. lia.
Qed.

Lemma sort_stable k l :
  List.filter (fun a => key a =? k) (sort (byKey key) l) = List.filter (fun a => key a =? k) l.
Proof.
  induction l as [|x l IH]; [done|].
  cbn [sort foldr]. rewrite sort_insert_stable. simpl. fold (sort (byKey key) l). by rewrite IH.
Qed.

End SortProofs.

(** ** The final list *)

Lemma id_rebuild F d : id (rebuild F d) = id d.
Proof.
  unfold rebuild. destruct (children d) eqn:Ec; cbn;
    destruct (nonEmptyString (parentId d)) as [p|];
    try destruct (bool_decide (p ∈ F)); cbn; rewrite ?Ec; reflexivity.
Qed.

Lemma type_rebuild F d : type (rebuild F d) = type d.
Proof.
  unfold rebuild. destruct (children d) eqn:Ec; cbn;
    destruct (nonEmptyString (parentId d)) as [p|];
    try destruct (bool_decide (p ∈ F)); cbn; rewrite ?Ec; reflexivity.
Qed.

Lemma startLine_rebuild F d : startLine (rebuild F d) = startLine d.
Proof.
  unfold rebuild. destruct (children d) eqn:Ec; cbn;
    destruct (nonEmptyString (parentId d)) as [p|];
    try destruct (bool_decide (p ∈ F)); cbn; rewrite ?Ec; reflexivity.
Qed.

Lemma isMeta_rebuild F d : isMeta (rebuild F d) = isMeta d.
Proof. unfold isMeta. by rewrite type_rebuild. Qed.

Lemma children_rebuild F d :
  children (rebuild F d)
  = List.filter (fun childId => bool_decide (childId ∈ F)) <$> children d.
Proof.
  unfold rebuild. destruct (children d) eqn:Ec; cbn;
    destruct (nonEmptyString (parentId d)) as [p|];
    try destruct (bool_decide (p ∈ F)); cbn; rewrite ?Ec; reflexivity.
Qed.

Lemma parentId_rebuild F d :
  parentId (rebuild F d)
  = match nonEmptyString (parentId d) with
    | Some p => if bool_decide (p ∈ F) then parentId d else None
    | None => parentId d
    end.
Proof.
  unfold rebuild. destruct (children d) eqn:Ec; cbn;
    destruct (nonEmptyString (parentId d)) as [p|];
    try destruct (bool_decide (p ∈ F)); cbn; rewrite ?Ec; reflexivity.
Qed.

Section FinalList.
Context `{RegExpEngine}.
Variable definitions : list Def.
Variable fo : FilterOptions.

Lemma applyFiltersToDefinitions_unsorted :
  applyFiltersToDefinitions definitions fo = sort byStartLine (unsorted definitions fo).
Proof.
  unfold applyFiltersToDefinitions, unsorted, finalIds, keptEntries.
  destruct definitions; reflexivity.
Qed.

Lemma keptEntries_survives d : In d (keptEntries definitions fo) <-> survives definitions fo d.
Proof. unfold keptEntries, survives. apply List.filter_In. Qed.

Lemma finalIds_present i :
  i ∈ (finalIds definitions fo) ->
  exists e, In e (applyFiltersToDefinitions definitions fo) /\ id e = Some i.
Proof.
  intros Hi. apply elem_of_idSet in Hi as (r & Hr & E).
  exists (rebuild (finalIds definitions fo) r). rewrite id_rebuild. split; [|done].
  rewrite applyFiltersToDefinitions_unsorted, sort_In. unfold unsorted.
  apply List.in_or_app. right. by apply List.in_map.
Qed.

Lemma survivor_materialised d :
  survives definitions fo d ->
  In (rebuild (finalIds definitions fo) d) (applyFiltersToDefinitions definitions fo).
Proof.
  intros Hd. rewrite applyFiltersToDefinitions_unsorted, sort_In. unfold unsorted.
  apply List.in_or_app. right. apply List.in_map. by apply keptEntries_survives.
Qed.

Lemma final_nonMeta_origin d' :
  In d' (applyFiltersToDefinitions definitions fo) -> isMeta d' = false ->
  exists d, survives definitions fo d /\ d' = rebuild (finalIds definitions fo) d.
Proof.
  rewrite applyFiltersToDefinitions_unsorted, sort_In. unfold unsorted.
  intros Hin Hm. apply List.in_app_or in Hin as [Hin | Hin];
    apply List.in_map_iff in Hin as (d & <- & Hd).
  - exfalso. apply List.filter_In in Hd as [_ Hd].
    destruct (included _ d); [rewrite isMeta_rebuild in Hm|]; congruence.
  - exists d. split; [by apply keptEntries_survives | done].
Qed.

Lemma final_meta_entries :
  (forall m, In m definitions -> isMeta m = true -> nonEmptyString (id m) = None) ->
  Permutation (List.filter isMeta (applyFiltersToDefinitions definitions fo))
              (metaEntries definitions).
Proof.
  intros Hnoid. rewrite applyFiltersToDefinitions_unsorted.
  assert (Hperm : forall (l1 l2 : list Def), Permutation l1 l2 ->
            Permutation (List.filter isMeta l1) (List.filter isMeta l2)).
  { induction 1; simpl; repeat destruct (isMeta _); eauto using Permutation. }
  rewrite (Hperm _ _ (sort_Permutation byStartLine (unsorted definitions fo))).
  unfold unsorted. rewrite List.filter_app.
  assert (E1 : map (fun def => if included (survivorIds definitions fo) def
                               then rebuild (finalIds definitions fo) def else def)
                   (metaEntries definitions) = metaEntries definitions).
  { rewrite <- (List.map_id (metaEntries definitions)) at 2.
    apply List.map_ext_in. intros m Hm. apply List.filter_In in Hm as [Hm1 Hm2].
    unfold included. by rewrite (Hnoid m Hm1 Hm2). }
  assert (E2 : List.filter isMeta (map (rebuild (finalIds definitions fo)) (keptEntries definitions fo)) = []).
  { apply filter_none. intros x Hx.
    apply List.in_map_iff in Hx as (d & <- & Hd).
    rewrite isMeta_rebuild. apply List.filter_In in Hd as [Hd1 Hd2].
    destruct (isMeta d) eqn:Hm; [|done].
    unfold included in Hd2. by rewrite (Hnoid d Hd1 Hm) in Hd2. }
  rewrite E1, E2, List.app_nil_r.
  unfold metaEntries. by rewrite filter_twice.
Qed.

End FinalList.

(** ** The final list, against the list given *)

Lemma isMeta_isErrorOrMetadata d : isMeta d = bool_decide (isErrorOrMetadata d).
Proof.
  unfold isMeta, isErrorOrMetadata.
  destruct (String.eqb (type d) "error") eqn:E1.
  - apply String.eqb_eq in E1. cbn. rewrite bool_decide_eq_true_2; [done | by left].
  - destruct (String.eqb (type d) "metadata") eqn:E2; cbn.
    + apply String.eqb_eq in E2. rewrite bool_decide_eq_true_2; [done | by right].
    + apply String.eqb_neq in E1, E2. rewrite bool_decide_eq_false_2; [done|].
      by intros [? | ?].
Qed.

Lemma metaEntries_errorAndMetadataEntries l : metaEntries l = errorAndMetadataEntries l.
Proof.
  unfold metaEntries, errorAndMetadataEntries. apply List.filter_ext.
  apply isMeta_isErrorOrMetadata.
Qed.

Section FinalListAgainstInput.
Context `{RegExpEngine}.
Variable definitions : list Def.
Variable fo : FilterOptions.
Hypothesis no_id :
  forall m, In m definitions -> isErrorOrMetadata m -> nonEmptyString (id m) = None.

Lemma no_id_isMeta m : In m definitions -> isMeta m = true -> nonEmptyString (id m) = None.
Proof.
  intros Hm E. apply no_id; [done|].
  rewrite isMeta_isErrorOrMetadata in E. by apply bool_decide_eq_true in E.
Qed.

(** Before the sort the list is the error and metadata entries of the
    list given, as they are, and then the survivors rebuilt. *)
Lemma unsorted_against_input :
  unsorted definitions fo
  = errorAndMetadataEntries definitions
    ++ map (rebuild (finalIds definitions fo)) (keptEntries definitions fo).
Proof.
  unfold unsorted. f_equal. rewrite <- metaEntries_errorAndMetadataEntries.
  rewrite <- (List.map_id (metaEntries definitions)) at 2.
  apply List.map_ext_in. intros m Hm. apply List.filter_In in Hm as [Hm1 Hm2].
  unfold included. by rewrite (no_id_isMeta m Hm1 Hm2).
Qed.

Lemma final_errorAndMetadataEntries :
  Permutation (errorAndMetadataEntries (applyFiltersToDefinitions definitions fo))
              (errorAndMetadataEntries definitions).
Proof.
  rewrite <- !metaEntries_errorAndMetadataEntries.
  apply (final_meta_entries definitions fo). intros m. apply no_id_isMeta.
Qed.

End FinalListAgainstInput.

Section FinalListTheorem.
Context `{RegExpEngine}.

(** C7: in the list [applyFiltersToDefinitions] returns, for every
    filter configuration: the ids of [finalIds] are ids of definitions of
    the list; an entry that is not an error or metadata entry is a
    survivor rebuilt, and every survivor is there; the children of a
    rebuilt definition are the ones it listed whose ids are in
    [finalIds], in their order; its [parentId] is kept when the parent is
    in [finalIds] and cleared otherwise; when the error and metadata
    entries of the list given carry no id, as the ones the pipeline
    makes, the list returned holds them as they were, each as often as
    the list given; and the list is sorted by [startLine], entries with
    the same [startLine] staying in the order they had: the error and
    metadata entries of the list given first and in their order, then
    the survivors in the order of the list given. *)
Theorem filtered_list_consistent (definitions : list Def) (fo : FilterOptions) :
  let final := applyFiltersToDefinitions definitions fo in
  let ids := finalIds definitions fo in
  (forall i, i ∈ ids <-> exists d, survives definitions fo d /\ id d = Some i)
  /\ (forall i, i ∈ ids -> exists e, In e final /\ id e = Some i)
  /\ (forall e, In e final -> ~ isErrorOrMetadata e ->
                exists d, survives definitions fo d /\ e = rebuild ids d)
  /\ (forall d, survives definitions fo d -> In (rebuild ids d) final)
  /\ (forall d, children (rebuild ids d)
                = List.filter (fun childId => bool_decide (childId ∈ ids)) <$> children d)
  /\ (forall d p, nonEmptyString (parentId d) = Some p ->
                  parentId (rebuild ids d)
                  = if bool_decide (p ∈ ids) then parentId d else None)
  /\ ((forall m, In m definitions -> isErrorOrMetadata m -> nonEmptyString (id m) = None) ->
      Permutation (errorAndMetadataEntries final) (errorAndMetadataEntries definitions)
      /\ forall line,
           List.filter (fun e => startLine e =? line) final
           = List.filter (fun e => startLine e =? line)
               (errorAndMetadataEntries definitions
                ++ map (rebuild ids) (keptEntries definitions fo)))
  /\ StronglySorted (fun a b => startLine a <= startLine b) final
  /\ (forall line, List.filter (fun e => startLine e =? line) final
                   = List.filter (fun e => startLine e =? line) (unsorted definitions fo)).
Proof.
  cbv zeta. repeat split.
  - intros Hi. apply elem_of_idSet in Hi as (d & Hd & E).
    exists d. split; [by apply keptEntries_survives | done].
  - intros (d & Hd & E). apply elem_of_idSet. exists d.
    split; [by apply keptEntries_survives | done].
  - apply finalIds_present.
  - intros e He Hne. apply final_nonMeta_origin; [done|].
    rewrite isMeta_isErrorOrMetadata. by apply bool_decide_eq_false.
  - apply survivor_materialised.
  - intros d. apply children_rebuild.
  - intros d p Hp. by rewrite parentId_rebuild, Hp.
  - by apply final_errorAndMetadataEntries.
  - intros line. rewrite applyFiltersToDefinitions_unsorted, (sort_stable startLine).
    by rewrite unsorted_against_input.
  - rewrite applyFiltersToDefinitions_unsorted. apply (sort_sorted startLine).
  - intros line. rewrite applyFiltersToDefinitions_unsorted. apply (sort_stable startLine).
Qed.

End FinalListTheorem.

(** ** The filter on the heap *)

Section HeapProofs.
Context `{RegExpEngine}.

Lemma forEach_rebuild_length F result h :
  length (Heap.forEach_rebuild F h result) = length h.
Proof.
  unfold Heap.forEach_rebuild. revert h.
  induction result as [|r result IH]; intros h; simpl; [done|].
  rewrite IH. destruct (h !! r); [by rewrite length_insert | done].
Qed.

Lemma forEach_rebuild_other F result h r :
  ~ In r result -> Heap.forEach_rebuild F h result !! r = h !! r.
Proof.
  unfold Heap.forEach_rebuild. revert h.
  induction result as [|r' result IH]; intros h Hr; simpl; [done|].
  rewrite IH by (intros ?; apply Hr; by right).
  destruct (h !! r'); [|done].
  apply list_lookup_insert_ne. intros ->. apply Hr. by left.
Qed.

Lemma forEach_rebuild_at F result h r :
  List.NoDup result -> In r result ->
  Heap.forEach_rebuild F h result !! r = rebuild F <$> h !! r.
Proof.
  unfold Heap.forEach_rebuild. revert h.
  induction result as [|r' result IH]; intros h Hnd Hr; [destruct Hr|].
  apply List.NoDup_cons_iff in Hnd as [Hni Hnd]. simpl.
  destruct Hr as [-> | Hr].
  - pose proof (forEach_rebuild_other F result) as Ho. unfold Heap.forEach_rebuild in Ho.
    rewrite Ho by done.
    destruct (h !! r) as [d|] eqn:E; [|by rewrite E].
    rewrite list_lookup_insert_eq by (by eapply lookup_lt_Some). done.
  - rewrite IH by done.
    destruct (h !! r') as [d|] eqn:E; [|done].
    rewrite list_lookup_insert_ne; [done|]. intros ->. done.
Qed.

(** The call leaves every object that existed before it as it was. *)
Lemma applyFilters_frame h definitions fo r :
  (r < length h)%nat ->
  (Heap.applyFiltersToDefinitions h definitions fo).1 !! r = h !! r.
Proof.
  intros Hr. unfold Heap.applyFiltersToDefinitions.
  destruct definitions as [|r0 rest]; [done|].
  unfold Heap.deepCopy. cbn [fst].
  set (read := Heap.deref h (r0 :: rest)).
  rewrite forEach_rebuild_other.
  - by apply lookup_app_l.
  - intros Hin. apply List.filter_In in Hin as [Hin _].
    apply List.in_seq in Hin. lia.
Qed.

Lemma pointsTo_deref h refs vals : pointsTo h refs vals -> Heap.deref h refs = vals.
Proof.
  unfold Heap.deref. induction 1 as [|r v refs vals Hr _ IH]; cbn [omap list_omap]; [done|].
  rewrite Hr. cbn. by rewrite IH.
Qed.

Lemma pointsTo_copy h vals : pointsTo (h ++ vals) (seq (length h) (length vals)) vals.
Proof.
  unfold pointsTo. revert h. induction vals as [|v vals IH]; intros h; cbn [length seq].
  - constructor.
  - constructor.
    + rewrite lookup_app_r by lia. by rewrite Nat.sub_diag.
    + specialize (IH (h ++ [v])). rewrite <- List.app_assoc, length_app in IH.
      cbn [length] in IH. by rewrite Nat.add_1_r in IH.
Qed.

Lemma pointsTo_filter h p refs vals :
  pointsTo h refs vals ->
  pointsTo h (List.filter (Heap.holds h p) refs) (List.filter p vals).
Proof.
  unfold pointsTo. induction 1 as [|r v refs vals Hr _ IH]; simpl; [constructor|].
  unfold Heap.holds at 1. rewrite Hr. cbn.
  destruct (p v); [by constructor | done].
Qed.

Lemma pointsTo_app h refs1 vals1 refs2 vals2 :
  pointsTo h refs1 vals1 -> pointsTo h refs2 vals2 ->
  pointsTo h (refs1 ++ refs2) (vals1 ++ vals2).
Proof. apply Forall2_app. Qed.

Lemma pointsTo_sort h refs vals :
  pointsTo h refs vals ->
  pointsTo h (sort (Heap.byStartLine_ref h) refs) (sort byStartLine vals).
Proof.
  unfold pointsTo. induction 1 as [|r v refs vals Hr _ IH]; cbn [sort foldr]; [constructor|].
  fold (sort (Heap.byStartLine_ref h) refs). fold (sort byStartLine vals).
  induction IH as [|r' v' refs' vals' Hr' Htail IH']; simpl; [by repeat constructor|].
  unfold Heap.byStartLine_ref at 1, byStartLine at 1. rewrite Hr, Hr'. cbn.
  destruct (0 <? startLine v - startLine v').
  - constructor; [done | exact IH'].
  - constructor; [done|]. constructor; [done | assumption].
Qed.

Lemma pointsTo_rebuilt F h result (inc : Def -> bool) refs vals :
  List.NoDup result ->
  pointsTo h refs vals ->
  (forall r v, In r refs -> h !! r = Some v -> (In r result <-> inc v = true)) ->
  pointsTo (Heap.forEach_rebuild F h result) refs
           (map (fun v => if inc v then rebuild F v else v) vals).
Proof.
  intros Hnd Hpt. unfold pointsTo.
  induction Hpt as [|r v refs vals Hr _ IH]; intros Hinc; simpl; constructor.
  - destruct (inc v) eqn:E.
    + rewrite forEach_rebuild_at, Hr; [done | done |].
      apply (Hinc r v); [by left | done | done].
    + rewrite forEach_rebuild_other; [done|].
      intros Hin. apply (Hinc r v) in Hin; [congruence | by left | done].
  - apply IH. intros r' v' Hr'. apply Hinc. by right.
Qed.

Lemma NoDup_filter_seq (p : nat -> bool) a n : List.NoDup (List.filter p (seq a n)).
Proof. apply List.NoDup_filter, List.seq_NoDup. Qed.

(** On a heap, the function returns references to the very values the
    function on values computes from what the input array points at. *)
Lemma applyFilters_refines h definitions fo :
  pointsTo (Heap.applyFiltersToDefinitions h definitions fo).1
           (Heap.applyFiltersToDefinitions h definitions fo).2
           (applyFiltersToDefinitions (Heap.deref h definitions) fo).
Proof.
  unfold Heap.applyFiltersToDefinitions.
  destruct definitions as [|r0 rest]; [constructor|].
  set (refs := r0 :: rest). unfold Heap.deepCopy.
  set (vals := Heap.deref h refs).
  set (h1 := h ++ vals). set (copy := seq (length h) (length vals)).
  pose proof (pointsTo_copy h vals) as Hcopy. fold h1 copy in Hcopy.
  rewrite (pointsTo_deref _ _ _ Hcopy).
  set (ids := survivorIds vals fo).
  set (result := List.filter (Heap.holds h1 (included ids)) copy).
  pose proof (pointsTo_filter h1 (included ids) _ _ Hcopy) as Hres. fold result in Hres.
  rewrite (pointsTo_deref _ _ _ Hres).
  cbn [fst snd].
  rewrite applyFiltersToDefinitions_unsorted. unfold unsorted, keptEntries, finalIds, keptEntries.
  fold ids. set (F := idSet (List.filter (included ids) vals)).
  set (h2 := Heap.forEach_rebuild F h1 result).
  assert (Hnd : List.NoDup result) by apply NoDup_filter_seq.
  assert (Hmem : forall r v, h1 !! r = Some v -> In r copy ->
                             (In r result <-> included ids v = true)).
  { intros r v Hr Hc. unfold result. rewrite List.filter_In. unfold Heap.holds. rewrite Hr. cbn.
    tauto. }
  assert (Hsorted : pointsTo h2
            (List.filter (Heap.holds h1 isMeta) copy ++ result)
            (map (fun def => if included ids def then rebuild F def else def)
                 (metaEntries vals)
             ++ map (rebuild F) (List.filter (included ids) vals))).
  { apply pointsTo_app.
    - apply pointsTo_rebuilt; [done | by apply pointsTo_filter |].
      intros r v Hin Hr. apply Hmem; [done|]. by apply List.filter_In in Hin as [? _].
    - assert (E : map (rebuild F) (List.filter (included ids) vals)
                  = map (fun v => if included ids v then rebuild F v else v)
                        (List.filter (included ids) vals)).
      { apply List.map_ext_in. intros v Hv. apply List.filter_In in Hv as [_ ->]. done. }
      rewrite E. apply pointsTo_rebuilt; [done | done |].
      intros r v Hin Hr. apply Hmem; [done|]. by apply List.filter_In in Hin as [? _]. }
  by apply pointsTo_sort.
Qed.

End HeapProofs.

Section HeapTheorem.
Context `{RegExpEngine}.

(** C10: the call changes no object that existed before it. Every
    reference that was valid, and so every element of the input array,
    points after the call at the value it pointed at before; the
    references returned are to objects allocated by the call; and these
    objects hold what the function on values returns for the values of
    the input. *)
Theorem input_not_mutated (h : list Def) (definitions : list nat) (fo : FilterOptions) :
  let after := (Heap.applyFiltersToDefinitions h definitions fo).1 in
  let result := (Heap.applyFiltersToDefinitions h definitions fo).2 in
  (forall r, (r < length h)%nat -> after !! r = h !! r)
  /\ (forall r def, In r definitions -> h !! r = Some def -> after !! r = Some def)
  /\ (forall r, In r result -> (length h <= r)%nat)
  /\ pointsTo after result (applyFiltersToDefinitions (Heap.deref h definitions) fo).
Proof.
  cbv zeta. split; [|split; [|split]].
  - intros r Hr. by apply applyFilters_frame.
  - intros r def _ Hr. rewrite applyFilters_frame; [done|]. by eapply lookup_lt_Some.
  - intros r. unfold Heap.applyFiltersToDefinitions.
    destruct definitions as [|r0 rest]; [intros []|].
    unfold Heap.deepCopy. cbn [snd]. rewrite sort_In. intros Hin.
    apply List.in_app_or in Hin as [Hin | Hin];
      apply List.filter_In in Hin as [Hin _]; apply List.in_seq in Hin; lia.
  - apply applyFilters_refines.
Qed.

End HeapTheorem.

(** ** The syntax tree walk *)

Lemma point_le_trans a b c :
  Parser.point_le a b = true -> Parser.point_le b c = true -> Parser.point_le a c = true.
Proof. unfold Parser.point_le. intros; lia. Qed.

Lemma point_le_lt_trans a b c :
  Parser.point_le b a = false -> Parser.point_le b c = true -> Parser.point_le c a = false.
Proof. unfold Parser.point_le. intros; lia. Qed.

Lemma point_lt_le a b : Parser.point_lt a b = false -> Parser.point_le b a = true.
Proof. unfold Parser.point_le, Parser.point_lt. intros; lia. Qed.

Lemma spans_rows p node :
  spans p node ->
  Parser.row (Parser.startPosition node) <= Parser.row p
  /\ Parser.row p <= Parser.row (Parser.endPosition node).
Proof. unfold spans, Parser.point_le. intros [? ?]; lia. Qed.

Lemma well_formed_children node child :
  Parser.well_formed node = true -> In child (Parser.children node) ->
  Parser.point_le (Parser.startPosition node) (Parser.startPosition child) = true
  /\ Parser.point_le (Parser.endPosition child) (Parser.endPosition node) = true
  /\ Parser.well_formed child = true.
Proof.
  destruct node as [ty tx s e f cs]. cbn [Parser.well_formed Parser.children].
  rewrite forallb_forall. intros Hwf Hin. specialize (Hwf child Hin).
  apply andb_true_iff in Hwf as [Hwf ?]. apply andb_true_iff in Hwf as [? ?]. auto.
Qed.

Lemma subtree_self node : In node (Parser.subtree node).
Proof. destruct node; by left. Qed.

Lemma subtree_child node child x :
  In child (Parser.children node) -> In x (Parser.subtree child) -> In x (Parser.subtree node).
Proof.
  intros Hc Hx. destruct node as [ty tx s e f cs]. cbn in *. right.
  apply List.in_flat_map. eauto.
Qed.

(** A node of a well-formed subtree lies inside the root of the subtree
    and is well formed itself. *)
Lemma subtree_inside node :
  Parser.well_formed node = true ->
  forall x, In x (Parser.subtree node) ->
    Parser.point_le (Parser.startPosition node) (Parser.startPosition x) = true
    /\ Parser.point_le (Parser.endPosition x) (Parser.endPosition node) = true
    /\ Parser.well_formed x = true.
Proof.
  induction node as [ty tx s e f cs IH] using SyntaxNode_ind. intros Hwf x Hx.
  cbn [Parser.subtree Parser.children] in Hx. destruct Hx as [<- | Hx].
  - unfold Parser.point_le. repeat split; try lia. done.
  - apply List.in_flat_map in Hx as (c & Hc & Hx).
    rewrite List.Forall_forall in IH.
    pose proof (well_formed_children _ c Hwf Hc) as (Hs & He & Hwc).
    destruct (IH c Hc Hwc x Hx) as (Hs' & He' & Hwx).
    cbn in Hs, He. cbn. eauto using point_le_trans.
Qed.

Lemma scan_spec p node above kids cs :
  Forall (fun child => forall above,
            pathBelow p (Parser.children child)
                      (Parser.descendantPath p child above) (child :: above)) cs ->
  (forall c, In c cs -> In c kids) ->
  pathBelow p kids
    ((fix scan (cs : list Parser.SyntaxNode) : list Parser.SyntaxNode :=
        match cs with
        | [] => node :: above
        | child :: cs' =>
            if Parser.point_le (Parser.endPosition child) p then scan cs'
            else if Parser.point_lt p (Parser.startPosition child) then node :: above
            else Parser.descendantPath p child (node :: above)
        end) cs)
    (node :: above).
Proof.
  induction 1 as [|child cs' Hchild _ IHcs]; intros Hsub.
  - exists []. repeat split; [constructor | constructor | done].
  - destruct (Parser.point_le (Parser.endPosition child) p) eqn:Eend.
    + apply IHcs. intros c Hc. apply Hsub. by right.
    + destruct (Parser.point_lt p (Parser.startPosition child)) eqn:Estart.
      * exists []. repeat split; [constructor | constructor | done].
      * destruct (Hchild (node :: above)) as (below & -> & Hspans & Hin & _).
        assert (Hc : spans p child) by (split; [by apply point_lt_le | done]).
        assert (Hk : In child kids) by (apply Hsub; by left).
        exists (below ++ [child]). rewrite <- List.app_assoc. repeat split.
        -- apply Forall_app. split; [done | constructor; [exact Hc | constructor]].
        -- apply Forall_app. split.
           ++ eapply Forall_impl; [exact Hin|]. intros x (c & Hc1 & Hc2).
              exists child. split; [done|]. eapply subtree_child; eauto.
           ++ constructor; [|constructor].
              exists child. split; [done | apply subtree_self].
        -- intros _. exists child. done.
Qed.

Lemma descendantPath_spec p node above :
  pathBelow p (Parser.children node) (Parser.descendantPath p node above) (node :: above).
Proof.
  revert above. induction node as [ty tx s e f cs IH] using SyntaxNode_ind. intros above.
  cbn [Parser.descendantPath Parser.children]. by apply scan_spec.
Qed.

(** Every node above the one found at [p] covers the rows of [p]. *)
Lemma ancestors_cover p rootNode A :
  Parser.well_formed rootNode = true ->
  In A (tail (Parser.descendantPath p rootNode [])) ->
  In A (Parser.subtree rootNode)
  /\ Parser.row (Parser.startPosition A) <= Parser.row p
  /\ Parser.row p <= Parser.row (Parser.endPosition A).
Proof.
  intros Hwf HA.
  destruct (descendantPath_spec p rootNode []) as (below & Hpath & Hspans & Hin & Hchild).
  rewrite Hpath in HA.
  destruct below as [|found below]; [destruct HA|]. cbn in HA.
  apply List.in_app_or in HA as [HA | [<- | []]].
  - rewrite List.Forall_forall in Hspans, Hin.
    split; [|apply spans_rows, Hspans; by right].
    destruct (Hin A ltac:(by right)) as (c & Hc & Hx). eapply subtree_child; eauto.
  - split; [apply subtree_self|].
    destruct (Hchild ltac:(done)) as (child & Hc & Hs).
    pose proof (well_formed_children _ _ Hwf Hc) as (Hs1 & He1 & _).
    destruct Hs as [Hs2 He2].
    apply (spans_rows p). split.
    + eapply point_le_trans; eauto.
    + eapply point_le_lt_trans; eauto.
Qed.

(** ** Linking parents *)

Lemma sameButLinks_refl a : sameButLinks a a.
Proof. reflexivity. Qed.

Lemma sameButLinks_trans a b c : sameButLinks a b -> sameButLinks b c -> sameButLinks a c.
Proof. unfold sameButLinks. congruence. Qed.

Lemma sameButLinks_set_parentId p d : sameButLinks d (set_parentId p d).
Proof. reflexivity. Qed.

Lemma sameButLinks_set_children c d : sameButLinks d (set_children c d).
Proof. reflexivity. Qed.

Lemma sameButLinks_fields a b :
  sameButLinks a b ->
  id a = id b /\ type a = type b /\ startLine a = startLine b /\ endLine a = endLine b
  /\ complexity a = complexity b /\ calls a = calls b /\ name a = name b.
Proof.
  unfold sameButLinks. intros E.
  repeat split;
    [ apply (f_equal id) in E | apply (f_equal type) in E | apply (f_equal startLine) in E
    | apply (f_equal endLine) in E | apply (f_equal complexity) in E
    | apply (f_equal calls) in E | apply (f_equal name) in E ]; exact E.
Qed.

Section Linking.
Context `{RegExpEngine} `{TreeSitter} `{Host}.
Variable rootNode : Parser.SyntaxNode.

Lemma isParentOf_sameButLinks d d' A p p' :
  sameButLinks d d' -> sameButLinks p p' -> isParentOf d A p = isParentOf d' A p'.
Proof.
  intros Hd Hp. apply sameButLinks_fields in Hd as (Ed & _).
  apply sameButLinks_fields in Hp as (Ep & Et & Es & Ee & _).
  unfold isParentOf. by rewrite Ed, Ep, Et, Es, Ee.
Qed.

Lemma list_find_index_ext {A B} (P : A -> Prop) (Q : B -> Prop)
    `{forall x, Decision (P x)} `{forall y, Decision (Q y)} (R : A -> B -> Prop) l l' :
  (forall x y, R x y -> (P x <-> Q y)) ->
  Forall2 R l l' ->
  fst <$> list_find P l = fst <$> list_find Q l'.
Proof.
  intros HR. induction 1 as [|x y l l' Hxy _ IH]; [done|].
  cbn [list_find]. specialize (HR x y Hxy).
  destruct (decide (P x)), (decide (Q y)); try tauto; try done.
  destruct (list_find P l) as [[i a]|], (list_find Q l') as [[j b]|];
    cbn in *; congruence.
Qed.

Lemma findParent_ext defs defs' d d' ancestors :
  Forall2 sameButLinks defs defs' -> sameButLinks d d' ->
  findParent defs d ancestors = findParent defs' d' ancestors.
Proof.
  intros Hdefs Hd. induction ancestors as [|A outer IH]; [done|].
  cbn [findParent].
  assert (Hf : fst <$> list_find (fun p => isParentOf d A p = true) defs
               = fst <$> list_find (fun p => isParentOf d' A p = true) defs').
  { apply (list_find_index_ext _ _ sameButLinks); [|done].
    intros x y Hxy. by rewrite (isParentOf_sameButLinks d d' A x y Hd Hxy). }
  rewrite IH.
  destruct (list_find _ defs) as [[i a]|], (list_find _ defs') as [[j b]|];
    cbn in Hf; congruence.
Qed.

Lemma ancestorsOf_sameButLinks d d' :
  sameButLinks d d' -> ancestorsOf rootNode d = ancestorsOf rootNode d'.
Proof.
  intros Hd. apply sameButLinks_fields in Hd as (_ & _ & Es & _).
  unfold ancestorsOf. by rewrite Es.
Qed.

(** What [findParent] returns: the first definition of the list that
    matches the first ancestor that any definition matches. *)
Lemma findParent_Some defs d ancestors j :
  findParent defs d ancestors = Some j ->
  exists p pre A post,
    defs !! j = Some p
    /\ ancestors = pre ++ A :: post
    /\ (forall A' q, In A' pre -> In q defs -> isParentOf d A' q = false)
    /\ isParentOf d A p = true
    /\ (forall j' q, (j' < j)%nat -> defs !! j' = Some q -> isParentOf d A q = false).
Proof.
  induction ancestors as [|A outer IH]; [discriminate|].
  cbn [findParent].
  destruct (list_find _ defs) as [[i p]|] eqn:Hf.
  - intros [= <-]. apply list_find_Some in Hf as (Hp & HA & Hbefore).
    exists p, [], A, outer. repeat split; auto.
    + intros A' q [].
    + intros j' q Hlt Hq. specialize (Hbefore j' q Hq Hlt).
      by destruct (isParentOf d A q).
  - intros Hj. destruct (IH Hj) as (p & pre & A0 & post & Hp & -> & Hpre & HA & Hfirst).
    exists p, (A :: pre), A0, post. repeat split; auto.
    intros A' q [<- | HA'] Hq; [|by apply Hpre].
    apply list_find_None in Hf. rewrite Forall_forall in Hf.
    specialize (Hf q ltac:(by apply list_elem_of_In)).
    by destruct (isParentOf d A q).
Qed.

Lemma findParent_None defs d ancestors :
  findParent defs d ancestors = None ->
  forall A q, In A ancestors -> In q defs -> isParentOf d A q = false.
Proof.
  induction ancestors as [|A outer IH]; [intros _ ? ? []|].
  cbn [findParent].
  destruct (list_find _ defs) as [[i p]|] eqn:Hf; [discriminate|].
  intros Hn A' q [<- | HA'] Hq; [|by apply IH].
  apply list_find_None in Hf. rewrite Forall_forall in Hf.
  specialize (Hf q ltac:(by apply list_elem_of_In)).
  by destruct (isParentOf d A q).
Qed.

Lemma linkParent_spec defs0 defs i :
  Forall2 sameButLinks defs0 defs ->
  Forall2 sameButLinks defs0 (linkParent rootNode defs i)
  /\ (forall k d0 d d', defs0 !! k = Some d0 -> defs !! k = Some d ->
        linkParent rootNode defs i !! k = Some d' ->
        parentId d' = if bool_decide (k = i) then
                        match findParent defs0 d0 (ancestorsOf rootNode d0) with
                        | Some j => from_option id (parentId d) (defs0 !! j)
                        | None => parentId d
                        end
                      else parentId d).
Proof.
  intros Hshape. unfold linkParent.
  destruct (defs !! i) as [def|] eqn:Hi.
  2: { split; [done|]. intros k d0 d d' Hk0 Hd Hd'.
       case_bool_decide; [congruence | congruence]. }
  pose proof (Forall2_lookup_r _ _ _ _ _ Hshape Hi) as (def0 & Hi0 & Hsame).
  rewrite <- (findParent_ext defs0 defs def0 def _ Hshape Hsame).
  rewrite <- (ancestorsOf_sameButLinks def0 def Hsame).
  destruct (findParent defs0 def0 (ancestorsOf rootNode def0)) as [j|] eqn:Hfind.
  2: { split; [done|]. intros k d0 d d' Hk0 Hd Hd'.
       case_bool_decide as Hk; [|congruence].
       subst k. assert (d0 = def0) as -> by congruence. rewrite Hfind. congruence. }
  destruct (defs !! j) as [parent|] eqn:Hj.
  2: { split; [done|]. intros k d0 d d' Hk0 Hd Hd'.
       assert (Hj0 : defs0 !! j = None).
       { apply lookup_ge_None. apply lookup_ge_None in Hj.
         by rewrite (Forall2_length _ _ _ Hshape). }
       case_bool_decide as Hk; [|congruence].
       subst k. assert (d0 = def0) as -> by congruence. rewrite Hfind, Hj0. cbn. congruence. }
  pose proof (Forall2_lookup_r _ _ _ _ _ Hshape Hj) as (parent0 & Hj0 & Hpsame).
  assert (Hlti : (i < length defs)%nat) by (by eapply lookup_lt_Some).
  assert (Hltj : (j < length defs)%nat) by (by eapply lookup_lt_Some).
  set (defs1 := <[i := set_parentId (id parent) def]> defs).
  assert (Hshape1 : Forall2 sameButLinks defs0 defs1).
  { unfold defs1. rewrite <- (list_insert_id defs0 i def0 Hi0).
    apply Forall2_insert; [done|].
    eapply sameButLinks_trans; [exact Hsame | apply sameButLinks_set_parentId]. }
  destruct (defs1 !! j) as [parent1|] eqn:Hj1.
  2: { apply lookup_ge_None in Hj1. unfold defs1 in Hj1. rewrite length_insert in Hj1. lia. }
  pose proof (Forall2_lookup_r _ _ _ _ _ Hshape1 Hj1) as (parent0' & Hj0' & Hpsame1).
  split.
  - rewrite <- (list_insert_id defs0 j parent0' Hj0').
    apply Forall2_insert; [done|].
    eapply sameButLinks_trans; [exact Hpsame1 | apply sameButLinks_set_children].
  - intros k d0 d d' Hk0 Hd Hd'.
    assert (Eid : id parent = id parent0).
    { apply sameButLinks_fields in Hpsame as (E & _). done. }
    assert (Hpar1 : forall x, defs1 !! k = Some x ->
              parentId x = if bool_decide (k = i) then id parent0 else parentId d).
    { intros x Hx. unfold defs1 in Hx. case_bool_decide as Hk.
      - subst k. rewrite list_lookup_insert_eq in Hx by done.
        injection Hx as <-. cbn. done.
      - rewrite list_lookup_insert_ne in Hx by done. congruence. }
    assert (Hd1 : parentId d' = if bool_decide (k = i) then id parent0 else parentId d).
    { destruct (decide (k = j)) as [-> | Hkj].
      - rewrite list_lookup_insert_eq in Hd' by (unfold defs1; by rewrite length_insert).
        injection Hd' as <-. cbn. by apply Hpar1.
      - rewrite list_lookup_insert_ne in Hd' by done. by apply Hpar1. }
    rewrite Hd1. case_bool_decide as Hk; [|done].
    subst k. assert (d0 = def0) as -> by congruence. rewrite Hfind, Hj0. done.
Qed.

Lemma linkParents_fold defs0 n a cur :
  Forall2 sameButLinks defs0 cur ->
  (forall k d0 d, defs0 !! k = Some d0 -> cur !! k = Some d ->
     parentId d = if bool_decide (k < a)%nat then linkedParentId rootNode defs0 d0 else parentId d0) ->
  let out := fold_left (linkParent rootNode) (seq a n) cur in
  Forall2 sameButLinks defs0 out
  /\ (forall k d0 d, defs0 !! k = Some d0 -> out !! k = Some d ->
        parentId d = if bool_decide (k < a + n)%nat
                     then linkedParentId rootNode defs0 d0 else parentId d0).
Proof.
  revert a cur. induction n as [|n IH]; intros a cur Hshape Hpar; cbn [seq fold_left].
  - rewrite Nat.add_0_r. done.
  - destruct (linkParent_spec defs0 cur a Hshape) as [Hshape' Hstep].
    replace (a + S n)%nat with (S a + n)%nat by lia.
    apply IH; [done|].
    intros k d0 d' Hk0 Hd'.
    destruct (cur !! k) as [d|] eqn:Hd.
    2: { apply lookup_ge_None in Hd. apply lookup_lt_Some in Hk0.
         rewrite <- (Forall2_length _ _ _ Hshape) in Hd. lia. }
    rewrite (Hstep k d0 d d' Hk0 Hd Hd'), (Hpar k d0 d Hk0 Hd).
    unfold linkedParentId.
    repeat case_bool_decide; try lia; try done.
Qed.

Lemma linkParents_spec defs0 :
  Forall2 sameButLinks defs0 (linkParents rootNode defs0)
  /\ (forall k d0 d, defs0 !! k = Some d0 -> linkParents rootNode defs0 !! k = Some d ->
        parentId d = linkedParentId rootNode defs0 d0).
Proof.
  unfold linkParents.
  destruct (linkParents_fold defs0 (length defs0) 0 defs0) as [Hshape Hpar].
  - apply Forall2_same_length_lookup_2; [done|]. intros i x y Hx Hy.
    assert (x = y) as -> by congruence. apply sameButLinks_refl.
  - intros k d0 d Hk0 Hd. case_bool_decide; [lia | congruence].
  - split; [done|]. intros k d0 d Hk0 Hd. rewrite (Hpar k d0 d Hk0 Hd).
    apply lookup_lt_Some in Hk0. case_bool_decide; [done | lia].
Qed.

(** The parent link of a definition of the linked list, when the list
    started without links. *)
Lemma linkParents_parent defs0 d pid :
  Forall (fun d0 => parentId d0 = None) defs0 ->
  In d (linkParents rootNode defs0) -> parentId d = Some pid ->
  exists p pre A post,
    In p (linkParents rootNode defs0)
    /\ id p = Some pid
    /\ ancestorsOf rootNode d = pre ++ A :: post
    /\ (forall A' q, In A' pre -> In q (linkParents rootNode defs0) ->
                     isParentOf d A' q = false)
    /\ isParentOf d A p = true.
Proof.
  intros Hfresh Hd Hpid.
  destruct (linkParents_spec defs0) as [Hshape Hpar].
  apply list_elem_of_In, list_elem_of_lookup in Hd as [k Hk].
  pose proof (Forall2_lookup_r _ _ _ _ _ Hshape Hk) as (d0 & Hk0 & Hsame).
  rewrite (Hpar k d0 d Hk0 Hk) in Hpid. unfold linkedParentId in Hpid.
  assert (Hnone : parentId d0 = None).
  { rewrite Forall_forall in Hfresh. apply Hfresh. by eapply list_elem_of_lookup_2. }
  destruct (findParent defs0 d0 (ancestorsOf rootNode d0)) as [j|] eqn:Hfind;
    [|congruence].
  destruct (findParent_Some _ _ _ _ Hfind) as (p0 & pre & A & post & Hj & Hanc & Hpre & HA & _).
  rewrite Hj in Hpid. cbn in Hpid.
  pose proof (Forall2_lookup_l _ _ _ _ _ Hshape Hj) as (p & Hjp & Hpsame).
  exists p, pre, A, post. repeat split.
  - eapply list_elem_of_In, list_elem_of_lookup_2; eauto.
  - apply sameButLinks_fields in Hpsame as (E & _). congruence.
  - by rewrite <- (ancestorsOf_sameButLinks d0 d Hsame).
  - intros A' q HA' Hq.
    apply list_elem_of_In, list_elem_of_lookup in Hq as [m Hm].
    pose proof (Forall2_lookup_r _ _ _ _ _ Hshape Hm) as (q0 & Hm0 & Hqsame).
    rewrite <- (isParentOf_sameButLinks d0 d A' q0 q Hsame Hqsame).
    apply Hpre; [done|]. eapply list_elem_of_In, list_elem_of_lookup_2; eauto.
  - by rewrite <- (isParentOf_sameButLinks d0 d A p0 p Hsame Hpsame).
Qed.

End Linking.

(** ** Extraction *)

Lemma generateId_inj n m : generateId n = generateId m -> n = m.
Proof.
  unfold generateId. intros E. apply (inj (String.append "def-")) in E.
  by apply (inj pretty) in E.
Qed.

Lemma generateId_nonEmpty n : nonEmptyString (Some (generateId n)) = Some (generateId n).
Proof. reflexivity. Qed.

Lemma filter_and {A} (f g : A -> bool) l :
  List.filter f (List.filter g l) = List.filter (fun y => g y && f y) l.
Proof.
  induction l as [|x l IH]; simpl; [done|].
  destruct (g x) eqn:Eg; simpl; [destruct (f x) eqn:Ef|]; rewrite IH; done.
Qed.

Lemma includes_app l1 l2 x : includes (l1 ++ l2) x = includes l1 x || includes l2 x.
Proof.
  unfold includes. apply eq_true_iff_eq.
  rewrite orb_true_iff, !bool_decide_eq_true, elem_of_app. done.
Qed.

Lemma includes_singleton x y : includes [x] y = String.eqb y x.
Proof.
  unfold includes. apply eq_true_iff_eq.
  rewrite bool_decide_eq_true, String.eqb_eq, list_elem_of_singleton. done.
Qed.

Lemma fold_Set_add l acc :
  fold_left Set_add l acc
  = acc ++ List.filter (fun y => negb (includes acc y)) (firstSeen l).
Proof.
  revert acc. induction l as [|x l IH]; intros acc; cbn [fold_left firstSeen].
  - cbn. by rewrite List.app_nil_r.
  - rewrite IH. unfold Set_add. cbn [List.filter].
    destruct (includes acc x) eqn:Ex; cbn [negb].
    + f_equal. rewrite filter_and. apply List.filter_ext_in. intros y _.
      destruct (String.eqb_spec y x) as [-> | Hne]; cbn; [by rewrite Ex | done].
    + rewrite <- List.app_assoc. cbn. f_equal. f_equal.
      rewrite filter_and. apply List.filter_ext. intros y.
      rewrite includes_app, includes_singleton, negb_orb.
      apply andb_comm.
Qed.

Lemma firstSeen_In l x : In x (firstSeen l) <-> In x l.
Proof.
  induction l as [|y l IH]; cbn; [done|].
  rewrite List.filter_In, IH, negb_true_iff, String.eqb_neq.
  destruct (String.eqb_spec x y); intuition congruence.
Qed.

Lemma firstSeen_NoDup l : List.NoDup (firstSeen l).
Proof.
  induction l as [|y l IH]; cbn; constructor.
  - rewrite List.filter_In, negb_true_iff, String.eqb_neq. tauto.
  - by apply List.NoDup_filter.
Qed.

Section ExtractionProofs.
Context `{RegExpEngine} `{TreeSitter} `{Host}.

Lemma calledNames_firstSeen callMatches :
  calledNames callMatches = firstSeen (omap calleeName callMatches).
Proof.
  unfold calledNames.
  assert (E : forall acc,
    fold_left (fun calledNames callMatch =>
                 match captureNode callMatch "call_name" with
                 | Some callNameNode => Set_add calledNames (Parser.text callNameNode)
                 | None => calledNames
                 end) callMatches acc
    = fold_left Set_add (omap calleeName callMatches) acc).
  { induction callMatches as [|m ms IH]; intros acc; cbn [fold_left omap list_omap]; [done|].
    unfold calleeName at 1. destruct (captureNode m "call_name"); cbn; apply IH. }
  rewrite E, fold_Set_add. cbn.
  rewrite <- (List.filter_ext (fun _ => true)) by done.
  clear. induction (firstSeen _) as [|x l IH]; cbn; congruence.
Qed.

Lemma callsOf_unfold language langQueries definitionNode :
  callsOf language langQueries definitionNode
  = (callQueryStr ← nonEmptyString (lookupKey langQueries "call");
     callQuery ← newQuery language callQueryStr;
     callMatches ← Query_matches callQuery definitionNode;
     match firstSeen (omap calleeName callMatches) with
     | [] => None
     | names => Some names
     end).
Proof.
  unfold callsOf. destruct (nonEmptyString _) as [q|]; cbn; [|done].
  destruct (newQuery language q) as [cq|]; cbn; [|done].
  destruct (Query_matches cq definitionNode) as [ms|]; cbn; [|done].
  by rewrite calledNames_firstSeen.
Qed.

Lemma idsBelow_push defs counter d :
  idsBelow defs counter -> id d = Some (generateId counter) ->
  idsBelow (defs ++ [d]) (S counter).
Proof.
  intros (ns & Hmap & Hsorted & Hlt) Hid.
  exists (ns ++ [counter]). rewrite !List.map_app, Hmap. cbn. rewrite Hid. repeat split.
  - clear Hmap. induction Hsorted as [|n ns Hs IH Hn]; cbn.
    + repeat constructor.
    + apply Forall_cons in Hlt as [Hn1 Hlt]. constructor; [by apply IH|].
      apply Forall_app. split; [done | by repeat constructor].
  - apply Forall_app. split; [|repeat constructor; lia].
    eapply Forall_impl; [exact Hlt|]. cbn. lia.
Qed.

Lemma idsBelow_mono defs counter : idsBelow defs counter -> idsBelow defs (S counter).
Proof.
  intros (ns & Hmap & Hsorted & Hlt). exists ns. repeat split; auto.
  eapply Forall_impl; [exact Hlt|]. cbn. lia.
Qed.

Lemma idsBelow_uniqueIds defs counter : idsBelow defs counter -> uniqueIds defs.
Proof.
  intros (ns & Hmap & Hsorted & _). unfold uniqueIds.
  assert (E : omap (fun d => nonEmptyString (id d)) defs = map generateId ns).
  { clear Hsorted. revert ns Hmap. induction defs as [|d defs IH]; intros [|n ns] Hmap;
      try discriminate; [done|].
    cbn in Hmap. injection Hmap as Hd Hmap. cbn [omap list_omap map].
    rewrite Hd, generateId_nonEmpty. cbn. f_equal. by apply IH. }
  rewrite E. apply NoDup_fmap_2; [intros n m; apply generateId_inj|].
  clear E Hmap. induction Hsorted as [|n ns Hs IH Hn]; constructor; [|done].
  intros Hin. rewrite Forall_forall in Hn. specialize (Hn n Hin). lia.
Qed.

Lemma processMatch_inv language langQueries query code defType m st defTypes :
  String.eqb defType "error" || String.eqb defType "metadata" = false ->
  In defType defTypes ->
  extractInv defTypes st ->
  extractInv defTypes (processMatch language langQueries query code defType m st).1.
Proof.
  intros Hty Hin (Hex & Htys & Hids). unfold processMatch.
  destruct (captureNode m "name") as [nameNode|]; [|done].
  destruct (captureNode m defType) as [definitionNode|]; [|done].
  destruct (includes ["method"; "function"] defType).
  - destruct (callableParts _ _ _ _ _ _) as [parts|] eqn:Hparts; cbn.
    + split; [|split].
      * apply Forall_app. split; [done|]. repeat constructor; cbn; [|done].
        exists (cp_complexity parts). split; [done|].
        unfold callableParts in Hparts.
        destruct (signatureOf code definitionNode); cbn in Hparts; [|discriminate].
        destruct (captureNode m "params"); cbn in Hparts.
        -- destruct (Query_captures query _); cbn in Hparts; [|discriminate].
           injection Hparts as <-. cbn. apply (calculateComplexity_floor (Some _)).
        -- injection Hparts as <-. cbn. apply (calculateComplexity_floor (Some _)).
      * apply Forall_app. split; [done | by repeat constructor].
      * by apply idsBelow_push.
    + split; [done|]. split; [done|]. by apply idsBelow_mono.
  - cbn. split; [|split].
    + apply Forall_app. split; [done|]. repeat constructor; cbn; [|done].
      exists 1. done.
    + apply Forall_app. split; [done | by repeat constructor].
    + by apply idsBelow_push.
Qed.

Lemma forMatches_inv language langQueries query code defType matches st defTypes :
  String.eqb defType "error" || String.eqb defType "metadata" = false ->
  In defType defTypes ->
  extractInv defTypes st ->
  extractInv defTypes (forMatches language langQueries query code defType matches st).
Proof.
  intros Hty Hin. revert st. induction matches as [|m rest IH]; intros st Hinv; cbn; [done|].
  pose proof (processMatch_inv language langQueries query code defType m st _ Hty Hin Hinv) as Hstep.
  destruct (processMatch _ _ _ _ _ _ _) as [st' thrown]. cbn in Hstep.
  destruct thrown; [done | by apply IH].
Qed.

Lemma forDefType_inv language langQueries code rootNode st entry defTypes :
  String.eqb (fst entry) "error" || String.eqb (fst entry) "metadata" = false ->
  In (fst entry) defTypes ->
  extractInv defTypes st ->
  extractInv defTypes (forDefType language langQueries code rootNode st entry).
Proof.
  intros Hty Hin Hinv. unfold forDefType.
  destruct (nonEmptyString _); [|done].
  destruct (newQuery _ _); [|done].
  destruct (Query_matches _ _); [|done].
  by apply forMatches_inv.
Qed.

Lemma extractDefinitions_inv language langQueries code rootNode :
  Forall (fun entry => String.eqb (fst entry) "error"
                       || String.eqb (fst entry) "metadata" = false) langQueries ->
  extractInv (map fst langQueries)
    (fold_left (forDefType language langQueries code rootNode) langQueries
               {| definitions := []; idCounter := 0 |}).
Proof.
  intros Hne.
  assert (Hgen : forall entries st,
    Forall (fun entry => String.eqb (fst entry) "error"
                         || String.eqb (fst entry) "metadata" = false
                         /\ In (fst entry) (map fst langQueries)) entries ->
    extractInv (map fst langQueries) st ->
    extractInv (map fst langQueries)
               (fold_left (forDefType language langQueries code rootNode) entries st)).
  { induction entries as [|e es IH]; intros st Hes Hinv; cbn; [done|].
    apply Forall_cons in Hes as [[He1 He2] Hes]. apply IH; [done|].
    by apply forDefType_inv. }
  apply Hgen.
  - apply Forall_forall. intros e He. rewrite Forall_forall in Hne. split; [by apply Hne|].
    apply List.in_map. by apply list_elem_of_In.
  - repeat split; try constructor. exists []. repeat split; constructor.
Qed.

End ExtractionProofs.

Section CallsTheorem.
Context `{RegExpEngine} `{TreeSitter} `{Host}.

Lemma firstSeen_nil l : firstSeen l = [] -> l = [].
Proof. by destruct l. Qed.

Lemma callableParts_params language langQueries query code m definitionNode
    paramsNode signature paramCaptures :
  captureNode m "params" = Some paramsNode ->
  signatureOf code definitionNode = Some signature ->
  Query_captures query paramsNode = Some paramCaptures ->
  exists parts,
    callableParts language langQueries query code m definitionNode = Some parts
    /\ cp_complexity parts = calculateComplexity (Some definitionNode)
    /\ cp_calls parts = callsOf language langQueries definitionNode
    /\ is_Some (cp_parameters parts).
Proof.
  intros Hparams Hsig Hcap. unfold callableParts. rewrite Hsig, Hparams. cbn.
  rewrite Hcap. cbn. eexists. split; [reflexivity|]. cbn. eauto.
Qed.

Lemma callableParts_complexity language langQueries query code m definitionNode parts :
  callableParts language langQueries query code m definitionNode = Some parts ->
  cp_complexity parts = calculateComplexity (Some definitionNode).
Proof.
  unfold callableParts.
  destruct (signatureOf code definitionNode); cbn; [|discriminate].
  destruct (captureNode m "params"); cbn.
  - destruct (Query_captures query _); cbn; [|discriminate]. by intros [= <-].
  - by intros [= <-].
Qed.

(** C8: for a method or function whose match binds a parameter block,
    the [calls] field, when present, is a non-empty list without
    duplicates: the callee names of the matches of the call query in the
    definition's own node, in the order they are first seen; the field is
    absent when the matches name no callee; a call query that throws,
    when it is built or when it is run, leaves the field absent; and the
    definition is pushed, with its id, kind, name, lines, complexity and
    parameters, whatever the call query did. *)
Theorem calls_field (language : Parser.Language) (langQueries : list (string * string))
    (definitionNode : Parser.SyntaxNode) :
  (forall names, callsOf language langQueries definitionNode = Some names ->
     names <> [] /\ List.NoDup names
     /\ exists callQueryStr callQuery callMatches,
          nonEmptyString (lookupKey langQueries "call") = Some callQueryStr
          /\ newQuery language callQueryStr = Some callQuery
          /\ Query_matches callQuery definitionNode = Some callMatches
          /\ names = firstSeen (omap calleeName callMatches))
  /\ (forall callQueryStr callQuery callMatches,
        nonEmptyString (lookupKey langQueries "call") = Some callQueryStr ->
        newQuery language callQueryStr = Some callQuery ->
        Query_matches callQuery definitionNode = Some callMatches ->
        omap calleeName callMatches = [] ->
        callsOf language langQueries definitionNode = None)
  /\ (forall callQueryStr,
        nonEmptyString (lookupKey langQueries "call") = Some callQueryStr ->
        newQuery language callQueryStr = None
        \/ (exists callQuery, newQuery language callQueryStr = Some callQuery
                              /\ Query_matches callQuery definitionNode = None) ->
        callsOf language langQueries definitionNode = None)
  /\ (forall query code defType m st nameNode paramsNode signature paramCaptures,
        includes ["method"; "function"] defType = true ->
        captureNode m "name" = Some nameNode ->
        captureNode m defType = Some definitionNode ->
        captureNode m "params" = Some paramsNode ->
        signatureOf code definitionNode = Some signature ->
        Query_captures query paramsNode = Some paramCaptures ->
        exists d,
          processMatch language langQueries query code defType m st
          = ({| definitions := definitions st ++ [d]; idCounter := S (idCounter st) |},
             false)
          /\ calls d = callsOf language langQueries definitionNode
          /\ id d = Some (generateId (idCounter st))
          /\ type d = defType
          /\ name d = Parser.text nameNode
          /\ startLine d = Parser.row (Parser.startPosition definitionNode) + 1
          /\ endLine d = Parser.row (Parser.endPosition definitionNode) + 1
          /\ complexity d = Some (calculateComplexity (Some definitionNode))
          /\ is_Some (parameters d)).
Proof.
  split; [|split; [|split]].
  - intros names. rewrite callsOf_unfold.
    destruct (nonEmptyString _) as [callQueryStr|] eqn:Hq; cbn; [|discriminate].
    destruct (newQuery language callQueryStr) as [callQuery|] eqn:Hnew; cbn; [|discriminate].
    destruct (Query_matches callQuery definitionNode) as [callMatches|] eqn:Hm;
      cbn; [|discriminate].
    destruct (firstSeen _) as [|x l] eqn:Hfs; [discriminate|]. intros [= <-].
    split; [done|]. split; [rewrite <- Hfs; apply firstSeen_NoDup|].
    exists callQueryStr, callQuery, callMatches. auto.
  - intros callQueryStr callQuery callMatches Hq Hnew Hmatches Hnone.
    rewrite callsOf_unfold, Hq. cbn. rewrite Hnew. cbn. rewrite Hmatches. cbn.
    by rewrite Hnone.
  - intros callQueryStr Hq Hthrow. rewrite callsOf_unfold, Hq. cbn.
    destruct Hthrow as [-> | (callQuery & -> & Hm)]; cbn; [done|]. by rewrite Hm.
  - intros query code defType m st nameNode paramsNode signature paramCaptures
           Hcallable Hname Hnode Hparams Hsig Hcap.
    destruct (callableParts_params language langQueries query code m definitionNode
                paramsNode signature paramCaptures Hparams Hsig Hcap)
      as (parts & Hparts & Hcx & Hcalls & Hps).
    unfold processMatch. rewrite Hname, Hnode, Hcallable, Hparts.
    eexists. split; [reflexivity|]. cbn. rewrite Hcx, Hcalls. repeat split; auto.
Qed.

End CallsTheorem.

(** ** The per-file pipeline *)

Lemma queries_no_error ext langQueries :
  lookupKey queries ext = Some langQueries ->
  Forall (fun entry => String.eqb (fst entry) "error"
                       || String.eqb (fst entry) "metadata" = false) langQueries.
Proof.
  unfold lookupKey, queries. cbn [List.find fst snd].
  repeat (destruct (String.eqb _ ext);
          [ intros [= <-]; repeat constructor | ]).
  discriminate.
Qed.

Section Pipeline.
Context `{RegExpEngine} `{TreeSitter} `{Host}.

Lemma parseCodeWithTreeSitter_parsed code filePath out :
  parseCodeWithTreeSitter code filePath = inl out -> parsed code filePath out.
Proof.
  unfold parseCodeWithTreeSitter.
  destruct (lookupKey languageMap _) as [language|] eqn:Hlang.
  2: { intros [= <-]. by eapply parsed_error. }
  destruct (setLanguage language); [discriminate|].
  destruct (parse language code) as [rootNode|] eqn:Hparse.
  2: { destruct (String.eqb _ _); intros [= <-]; by eapply parsed_error. }
  destruct (lookupKey queries _) as [langQueries|] eqn:Hq.
  2: { intros [= <-]. by eapply parsed_error. }
  intros [= <-]. by eapply parsed_definitions.
Qed.

Lemma extractDefinitions_extractInv language langQueries code rootNode ext :
  lookupKey queries ext = Some langQueries ->
  Forall extracted (extractDefinitions language langQueries code rootNode)
  /\ uniqueIds (extractDefinitions language langQueries code rootNode)
  /\ Forall (fun d => is_Some (nonEmptyString (id d)))
            (extractDefinitions language langQueries code rootNode).
Proof.
  intros Hq. apply queries_no_error in Hq.
  destruct (extractDefinitions_inv language langQueries code rootNode Hq) as (Hex & _ & Hids).
  unfold extractDefinitions. split; [done|]. split; [by eapply idsBelow_uniqueIds|].
  clear Hex. destruct Hids as (ns & Hmap & _).
  revert ns Hmap. generalize (definitions
    (fold_left (forDefType language langQueries code rootNode) langQueries
               {| definitions := []; idCounter := 0 |})).
  induction l as [|d defs IH]; intros [|n ns] Hmap; try discriminate; constructor.
  - cbn in Hmap. injection Hmap as Hd _. rewrite Hd, generateId_nonEmpty. eauto.
  - cbn in Hmap. injection Hmap as _ Hmap. by eapply IH.
Qed.

Lemma isParentOf_true d A p :
  isParentOf d A p = true ->
  id p <> id d
  /\ startLine p = Parser.row (Parser.startPosition A) + 1
  /\ endLine p = Parser.row (Parser.endPosition A) + 1
  /\ In (type p) plausibleParentTypes.
Proof.
  unfold isParentOf. rewrite !andb_true_iff, negb_true_iff, bool_decide_eq_false.
  rewrite !Z.eqb_eq, includes_true, list_elem_of_In. tauto.
Qed.

(** The parent that the pipeline finds. A definition [d] that is given a
    parent is given a definition [p] of the list, another one, of a
    container kind, whose line span is the span of the first node, above
    the node found at column 0 of the start line of [d], that any other
    such definition matches. The span of [p] covers the start line of
    [d]; it covers the end line of [d] when a node inside the matched one
    ends on that line. The search does not start at the node of [d]
    itself, so nothing more holds of the end line. *)
Theorem hierarchy_soundness (code filePath : string) (out : list Def)
    (language : Parser.Language) (rootNode : Parser.SyntaxNode) :
  parseCodeWithTreeSitter code filePath = inl out ->
  lookupKey languageMap (toLowerCase (extname filePath)) = Some language ->
  parse language code = Some rootNode ->
  Parser.well_formed rootNode = true ->
  forall d pid, In d out -> parentId d = Some pid ->
    exists p pre A post,
      In p out /\ id p = Some pid /\ id p <> id d
      /\ ancestorsOf rootNode d = pre ++ A :: post
      /\ (forall A' q, In A' pre -> In q out -> isParentOf d A' q = false)
      /\ startLine p = Parser.row (Parser.startPosition A) + 1
      /\ endLine p = Parser.row (Parser.endPosition A) + 1
      /\ In (type p) plausibleParentTypes
      /\ startLine p <= startLine d <= endLine p
      /\ (forall D, In D (Parser.subtree A) ->
                    endLine d = Parser.row (Parser.endPosition D) + 1 ->
                    endLine d <= endLine p).
Proof.
  intros Hparse Hlang Hroot Hwf d pid Hd Hpid.
  apply parseCodeWithTreeSitter_parsed in Hparse
    as [n -> | language' rootNode' langQueries Hlang' Hroot' Hq ->].
  { destruct Hd as [<- | []]. discriminate. }
  assert (language' = language) as -> by congruence.
  assert (rootNode' = rootNode) as -> by congruence.
  destruct (extractDefinitions_extractInv language langQueries code rootNode _ Hq)
    as (Hex & _ & _).
  assert (Hfresh : Forall (fun d0 => parentId d0 = None)
                          (extractDefinitions language langQueries code rootNode)).
  { eapply Forall_impl; [exact Hex|]. by intros d0 (? & _). }
  destruct (linkParents_parent rootNode _ d pid Hfresh Hd Hpid)
    as (p & pre & A & post & Hp & Hidp & Hanc & Hpre & HA).
  apply isParentOf_true in HA as (Hne & Hs & He & Hty).
  assert (HAin : In A (ancestorsOf rootNode d)).
  { rewrite Hanc. apply List.in_or_app. right. by left. }
  unfold ancestorsOf in HAin.
  apply (ancestors_cover _ rootNode A Hwf) in HAin as (Hsub & Hrow1 & Hrow2).
  cbn [Parser.row] in Hrow1, Hrow2.
  exists p, pre, A, post. repeat split; auto; try lia.
  intros D HD HDend.
  destruct (subtree_inside rootNode Hwf A Hsub) as (_ & _ & HwfA).
  destruct (subtree_inside A HwfA D HD) as (_ & Hend & _).
  unfold Parser.point_le in Hend. lia.
Qed.

(** The lists the pipeline returns have distinct ids, and their error
    entries carry none. *)
Lemma parseCodeWithTreeSitter_wellFormed code filePath out :
  parseCodeWithTreeSitter code filePath = inl out ->
  uniqueIds out
  /\ (forall m, In m out -> isMeta m = true -> nonEmptyString (id m) = None)
  /\ (forall d, In d out ->
        d = errorDefinition (name d) \/ exists c, complexity d = Some c /\ 1 <= c).
Proof.
  intros Hparse.
  apply parseCodeWithTreeSitter_parsed in Hparse
    as [n -> | language rootNode langQueries Hlang Hroot Hq ->].
  { split; [|split].
    - unfold uniqueIds. cbn. constructor.
    - by intros m [<- | []] _.
    - intros d [<- | []]. by left. }
  destruct (extractDefinitions_extractInv language langQueries code rootNode _ Hq)
    as (Hex & Hu & _).
  destruct (linkParents_spec rootNode (extractDefinitions language langQueries code rootNode))
    as [Hshape _].
  split; [|split].
  - unfold uniqueIds in *.
    assert (E : omap (fun d => nonEmptyString (id d))
                     (linkParents rootNode
                        (extractDefinitions language langQueries code rootNode))
                = omap (fun d => nonEmptyString (id d))
                       (extractDefinitions language langQueries code rootNode)).
    { clear Hu Hex. induction Hshape as [|a b l l' Hab _ IH]; [done|].
      cbn [omap list_omap]. apply sameButLinks_fields in Hab as (-> & _). by rewrite IH. }
    by rewrite E.
  - intros m Hm Hmeta. exfalso.
    apply list_elem_of_In, list_elem_of_lookup in Hm as [k Hk].
    pose proof (Forall2_lookup_r _ _ _ _ _ Hshape Hk) as (m0 & Hk0 & Hsame).
    rewrite Forall_forall in Hex.
    destruct (Hex m0 ltac:(by eapply list_elem_of_lookup_2)) as (_ & _ & _ & Hnm).
    apply sameButLinks_fields in Hsame as (_ & Et & _).
    unfold isMeta in *. congruence.
  - intros d Hd. right.
    apply list_elem_of_In, list_elem_of_lookup in Hd as [k Hk].
    pose proof (Forall2_lookup_r _ _ _ _ _ Hshape Hk) as (d0 & Hk0 & Hsame).
    rewrite Forall_forall in Hex.
    destruct (Hex d0 ltac:(by eapply list_elem_of_lookup_2)) as (_ & _ & (c & Hc & Hle) & _).
    apply sameButLinks_fields in Hsame as (_ & _ & _ & _ & Ec & _).
    exists c. split; [congruence | done].
Qed.

End Pipeline.

Section ComplexityTheorem.
Context `{RegExpEngine} `{TreeSitter} `{Host}.

(** C5: the complexity computed for a subtree, or for no node at all, is
    at least 1; it is exactly 1 when no node of the subtree is a decision
    point, that is a conditional, a loop, an arm of a switch or match, a
    ternary, a catch clause or an AND/OR operator. The [complexity] of a
    method or function that extraction pushes is the one computed for
    its node, so it is 1 when the node holds no decision point, and every
    definition that the per-file pipeline returns, an error entry apart,
    has a complexity of at least 1. *)
Theorem complexity_floor (definitionNode : Parser.SyntaxNode) :
  1 <= calculateComplexity (Some definitionNode)
  /\ calculateComplexity None = 1
  /\ ((forall n, In n (Parser.subtree definitionNode) -> isDecisionPoint n = false) ->
      calculateComplexity (Some definitionNode) = 1)
  /\ (forall language langQueries query code defType m st,
        includes ["method"; "function"] defType = true ->
        captureNode m defType = Some definitionNode ->
        let st' := (processMatch language langQueries query code defType m st).1 in
        definitions st' = definitions st
        \/ exists d,
             definitions st' = definitions st ++ [d]
             /\ complexity d = Some (calculateComplexity (Some definitionNode))
             /\ ((forall n, In n (Parser.subtree definitionNode) ->
                            isDecisionPoint n = false) ->
                 complexity d = Some 1))
  /\ (forall code filePath out d,
        parseCodeWithTreeSitter code filePath = inl out -> In d out ->
        d = errorDefinition (name d) \/ exists c, complexity d = Some c /\ 1 <= c).
Proof.
  split; [apply calculateComplexity_floor|]. split; [reflexivity|].
  split; [apply calculateComplexity_straight|]. split.
  - intros language langQueries query code defType m st Hcallable Hnode. cbv zeta.
    unfold processMatch. rewrite Hnode.
    destruct (captureNode m "name") as [nameNode|]; [|by left].
    rewrite Hcallable.
    destruct (callableParts language langQueries query code m definitionNode)
      as [parts|] eqn:Hparts; [|by left].
    right. eexists. split; [reflexivity|]. cbn.
    rewrite (callableParts_complexity _ _ _ _ _ _ _ Hparts).
    split; [reflexivity|]. intros Hnone. by rewrite calculateComplexity_straight.
  - intros code filePath out d Hparse Hd.
    by apply (parseCodeWithTreeSitter_wellFormed code filePath out Hparse).
Qed.

End ComplexityTheorem.

Section PipelineTheorems.
Context `{RegExpEngine} `{TreeSitter} `{Host}.

(** X2: the ids of the definitions that the per-file pipeline returns
    are pairwise distinct, and its error entries carry no id. *)
Theorem pipeline_ids_distinct (code filePath : string) (out : list Def) :
  parseCodeWithTreeSitter code filePath = inl out ->
  uniqueIds out
  /\ (forall m, In m out -> isMeta m = true -> nonEmptyString (id m) = None).
Proof.
  intros Hparse.
  destruct (parseCodeWithTreeSitter_wellFormed code filePath out Hparse) as (Hu & Hmeta & _).
  auto.
Qed.

(** X3: the loop that links parents changes [parentId] and [children]
    and nothing else: the list keeps its length and its order, and every
    definition its other fields. *)
Theorem linking_changes_links_only (rootNode : Parser.SyntaxNode) (definitions : list Def) :
  Forall2 sameButLinks definitions (linkParents rootNode definitions)
  /\ length (linkParents rootNode definitions) = length definitions
  /\ map id (linkParents rootNode definitions) = map id definitions
  /\ map name (linkParents rootNode definitions) = map name definitions
  /\ map startLine (linkParents rootNode definitions) = map startLine definitions
  /\ map endLine (linkParents rootNode definitions) = map endLine definitions.
Proof.
  destruct (linkParents_spec rootNode definitions) as [Hshape _].
  split; [done|]. split; [symmetry; by eapply Forall2_length|].
  assert (Hfield : forall {A} (f : Def -> A),
            (forall a b, sameButLinks a b -> f a = f b) ->
            map f (linkParents rootNode definitions) = map f definitions).
  { intros A f Hf. induction Hshape as [|a b l l' Hab _ IH]; [done|].
    cbn [map]. by rewrite (Hf a b Hab), IH. }
  repeat split; apply Hfield; intros a b Hab;
    apply sameButLinks_fields in Hab as (? & ? & ? & ? & ? & ? & ?); done.
Qed.

(** X4: the extensions [.jsx] and [.tsx] have a grammar in [languageMap]
    and no entry in [queries], so a file with one of them that parses
    yields the error definition for a missing query set. *)
Theorem jsx_tsx_without_queries (code filePath : string) :
  lookupKey languageMap ".jsx" = Some Parser.JavaScript
  /\ lookupKey languageMap ".tsx" = Some Parser.TypeScript_tsx
  /\ lookupKey queries ".jsx" = None
  /\ lookupKey queries ".tsx" = None
  /\ (forall language rootNode,
        In (toLowerCase (extname filePath)) [".jsx"; ".tsx"] ->
        lookupKey languageMap (toLowerCase (extname filePath)) = Some language ->
        setLanguage language = None ->
        parse language code = Some rootNode ->
        parseCodeWithTreeSitter code filePath
        = inl [errorDefinition "No queries defined for file type"]).
Proof.
  split; [reflexivity|]. split; [reflexivity|].
  split; [reflexivity|]. split; [reflexivity|].
  intros language rootNode Hext Hlang Hset Hparse. unfold parseCodeWithTreeSitter.
  rewrite Hlang, Hset, Hparse.
  destruct Hext as [<- | [<- | []]]; reflexivity.
Qed.

End PipelineTheorems.

(** ** Objects as lists of entries *)

Lemma setKey_In {A} (o : list (string * A)) k v k' v' :
  In (k', v') (setKey o k v) -> (k', v') = (k, v) \/ In (k', v') o.
Proof.
  induction o as [|[k0 v0] o IH]; cbn.
  - intros [E | []]. by left.
  - destruct (String.eqb k0 k).
    + intros [E | Hin]; [by left | right; by right].
    + intros [E | Hin]; [right; by left|].
      destruct (IH Hin); [by left | right; by right].
Qed.

Lemma lookupKey_setKey {A} (o : list (string * A)) k v k' :
  lookupKey (setKey o k v) k' = if String.eqb k k' then Some v else lookupKey o k'.
Proof.
  unfold lookupKey. induction o as [|[k0 v0] o IH]; cbn.
  - destruct (String.eqb k k'); done.
  - destruct (String.eqb_spec k0 k) as [-> | Hne]; cbn.
    + destruct (String.eqb k k'); done.
    + destruct (String.eqb_spec k0 k') as [-> | Hne']; cbn.
      * destruct (String.eqb_spec k k'); [congruence | done].
      * exact IH.
Qed.

Section SetKeyFold.
Context {A V : Type} (g : A -> option (string * V)).

Lemma fold_setEntry_In l o k v :
  In (k, v) (fold_left (setEntry g) l o) ->
  In (k, v) o \/ exists a, In a l /\ g a = Some (k, v).
Proof.
  revert o. induction l as [|a l IH]; intros o; cbn; [by left|].
  intros Hin. destruct (IH _ Hin) as [Ho | (a' & Ha' & Hg)].
  - unfold setEntry in Ho. destruct (g a) as [[k0 v0]|] eqn:Hg; [|by left].
    apply setKey_In in Ho as [E | Ho]; [|by left].
    right. exists a. split; [by left | congruence].
  - right. exists a'. split; [by right | done].
Qed.


Lemma fold_setEntry_lookup_None l o k :
  (forall a v, In a l -> g a <> Some (k, v)) -> lookupKey o k = None ->
  lookupKey (fold_left (setEntry g) l o) k = None.
Proof.
  revert o. induction l as [|a l IH]; intros o Hno Ho; cbn; [done|].
  apply IH; [intros a' v' Ha'; apply Hno; by right|].
  unfold setEntry. destruct (g a) as [[k0 v0]|] eqn:Hg; [|done].
  rewrite lookupKey_setKey. destruct (String.eqb_spec k0 k) as [-> | Hne]; [|done].
  destruct (Hno a v0); [by left | done].
Qed.

End SetKeyFold.

Section ScanProofs.
Context `{RegExpEngine} `{TreeSitter} `{Host}.

Lemma parseFile_setEntry results absoluteFilePath :
  parseFile results absoluteFilePath
  = setEntry (fun f => match fileDefinitions f with
                       | [] => None
                       | definitions => Some (f, definitions)
                       end) results absoluteFilePath.
Proof.
  unfold parseFile, setEntry, fileDefinitions.
  destruct (readFile absoluteFilePath) as [content | message]; [|done].
  destruct (parseCodeWithTreeSitter content absoluteFilePath) as [[|d defs] | message]; done.
Qed.

Lemma filterFile_setEntry targetDir fo filteredResults entry :
  filterFile targetDir fo filteredResults entry
  = setEntry (fun entry =>
                if hasRealDefinitions (applyFiltersToDefinitions (snd entry) fo)
                then Some (outputKey targetDir (fst entry),
                           applyFiltersToDefinitions (snd entry) fo)
                else None) filteredResults entry.
Proof.
  unfold filterFile, setEntry, hasRealDefinitions, outputKey.
  by destruct (some _ _).
Qed.

Lemma fold_left_ext {A B} (f g : A -> B -> A) l a :
  (forall a b, f a b = g a b) -> fold_left f l a = fold_left g l a.
Proof. intros E. revert a. induction l as [|b l IH]; intros a; cbn; [done|]. by rewrite E, IH. Qed.

(** Every entry of the output is the filtered list of one of the files,
    and holds a definition that is not an error. *)
Lemma scanFiles_In targetDir files fo k defs :
  In (k, defs) (scanFiles targetDir files fo) ->
  exists f, In f files /\ k = outputKey targetDir f
            /\ defs = applyFiltersToDefinitions (fileDefinitions f) fo
            /\ hasRealDefinitions defs = true.
Proof.
  unfold scanFiles.
  rewrite (fold_left_ext _ _ _ _ (filterFile_setEntry targetDir fo)).
  rewrite (fold_left_ext _ _ files _ parseFile_setEntry).
  intros Hin. apply fold_setEntry_In in Hin as [[] | ([f fdefs] & Hentry & Hg)].
  apply fold_setEntry_In in Hentry as [[] | (f' & Hf' & Hg')].
  destruct (fileDefinitions f') as [|d ds] eqn:Hfd; [discriminate|].
  injection Hg' as -> <-. cbn [fst snd] in Hg.
  destruct (hasRealDefinitions _) eqn:Hreal; [|discriminate].
  injection Hg as <- <-. exists f. rewrite Hfd. auto.
Qed.


Lemma applyFilters_error n fo :
  applyFiltersToDefinitions [errorDefinition n] fo = [errorDefinition n].
Proof. reflexivity. Qed.


End ScanProofs.

(** ** Rendering *)

Lemma XmlElement_ind (P : XmlElement -> Prop) :
  (forall tag attrs content, Forall P content -> P (Element tag attrs content)) ->
  forall e, P e.
Proof.
  intros step. fix IH 1. intros [tag attrs content]. apply step.
  induction content as [|c content IHc]; constructor; [apply IH | exact IHc].
Qed.

Lemma Json_ind (P : Json -> Prop) :
  (forall s, P (JString s)) -> (forall n, P (JNumber n)) ->
  (forall items, Forall P items -> P (JArray items)) ->
  (forall fields, Forall (fun field => P (snd field)) fields -> P (JObject fields)) ->
  forall v, P v.
Proof.
  intros Hs Hn Ha Ho. fix IH 1. intros [s | n | items | fields]; [apply Hs | apply Hn | |].
  - apply Ha. induction items as [|c items IHc]; constructor; [apply IH | exact IHc].
  - apply Ho. induction fields as [|[k c] fields IHc]; constructor; [apply IH | exact IHc].
Qed.

Lemma xmlElements_self e : In e (xmlElements e).
Proof. destruct e. by left. Qed.

Lemma xmlElements_trans a b c :
  In a (xmlElements b) -> In b (xmlElements c) -> In a (xmlElements c).
Proof.
  intros Hab. induction c as [tag attrs content IH] using XmlElement_ind.
  cbn [xmlElements]. intros [<- | Hb]; [exact Hab|]. right.
  apply List.in_flat_map in Hb as (x & Hx & Hb). apply List.in_flat_map.
  exists x. split; [done|]. rewrite List.Forall_forall in IH. by apply IH.
Qed.

Lemma jsonValues_self v : In v (jsonValues v).
Proof. destruct v; by left. Qed.

Lemma jsonValues_trans a b c :
  In a (jsonValues b) -> In b (jsonValues c) -> In a (jsonValues c).
Proof.
  intros Hab. induction c as [s | n | items IH | fields IH] using Json_ind;
    cbn [jsonValues]; (intros [<- | Hb]; [exact Hab|]); try done; right.
  - apply List.in_flat_map in Hb as (x & Hx & Hb). apply List.in_flat_map.
    exists x. split; [done|]. rewrite List.Forall_forall in IH. by apply IH.
  - apply List.in_flat_map in Hb as (x & Hx & Hb). apply List.in_flat_map.
    exists x. split; [done|]. rewrite List.Forall_forall in IH. by apply IH.
Qed.

Lemma childrenOf_In definitions p d :
  In d (childrenOf definitions p) ->
  In d definitions /\ exists c cs, children p = Some (c :: cs).
Proof.
  unfold childrenOf. intros Hd.
  apply list_elem_of_In, list_elem_of_omap in Hd as (c & Hc & Hf).
  split; [by apply findById_Some in Hf as [? _]|].
  destruct (children p) as [[|c' cs]|]; cbn in Hc; [by apply elem_of_nil in Hc | eauto |
                                                     by apply elem_of_nil in Hc].
Qed.

Lemma topLevelDefs_In definitions d :
  In d (topLevelDefs definitions) -> In d definitions.
Proof. unfold topLevelDefs. rewrite List.filter_In. tauto. Qed.

Lemma reachable_In definitions d : reachable definitions d -> In d definitions.
Proof.
  induction 1 as [d Hd | p d _ _ Hd]; [by apply topLevelDefs_In|].
  by apply childrenOf_In in Hd as [? _].
Qed.

(** A [mapM] over a list succeeds when it does on each element. *)
Lemma mapM_success {A B} (f : A -> option B) (l : list A) :
  (forall x, In x l -> is_Some (f x)) -> exists k, mapM f l = Some k.
Proof.
  intros Hf. apply (mapM_is_Some_2 f). apply Forall_forall.
  intros x Hx. apply Hf. by apply list_elem_of_In.
Qed.

Lemma mapM_In {A B} (f : A -> option B) (l : list A) k x :
  mapM f l = Some k -> In x l -> exists y, f x = Some y /\ In y k.
Proof.
  intros Hm Hx. apply mapM_Some_1 in Hm.
  apply list_elem_of_In, list_elem_of_lookup in Hx as [i Hi].
  destruct (Forall2_lookup_l _ _ _ _ _ Hm Hi) as (y & Hy & Hfy).
  exists y. split; [done|]. eapply list_elem_of_In, list_elem_of_lookup_2; eauto.
Qed.

Section RenderProofs.
Context `{Host}.
Variable detailLevel : DetailLevel.
Variable definitions : list Def.
Variable rank : Def -> nat.
Hypothesis rank_children :
  forall p d, In p definitions -> In d (childrenOf definitions p) -> (rank d < rank p)%nat.

(** *** XML *)

Lemma renderDefinitionXML_success fuel d :
  In d definitions -> (rank d < fuel)%nat ->
  is_Some (renderDefinitionXML fuel detailLevel definitions d).
Proof.
  revert d. induction fuel as [|fuel IH]; intros d Hd Hr; [lia|].
  cbn [renderDefinitionXML].
  destruct (mapM_success (renderDefinitionXML fuel detailLevel definitions)
              (childrenOf definitions d)) as [nested ->]; [|by eexists].
  intros c Hc. pose proof (rank_children d c Hd Hc).
  apply IH; [by apply childrenOf_In in Hc as [? _] | lia].
Qed.

Lemma renderDefinitionXML_shape fuel d e :
  renderDefinitionXML fuel detailLevel definitions d = Some e ->
  exists fuel' nested,
    fuel = S fuel'
    /\ mapM (renderDefinitionXML fuel' detailLevel definitions) (childrenOf definitions d)
       = Some nested
    /\ e = Element "Definition" (xmlAttributes detailLevel d)
             (xmlParameters detailLevel d ++ xmlCalls detailLevel d ++ nested).
Proof.
  destruct fuel as [|fuel]; [discriminate|]. cbn [renderDefinitionXML].
  destruct (mapM _ _) as [nested|] eqn:Hm; [|discriminate].
  intros [= <-]. eauto.
Qed.

Lemma renderDefinitionXML_child fuel p e d :
  renderDefinitionXML fuel detailLevel definitions p = Some e ->
  In d (childrenOf definitions p) ->
  exists fuel' e', renderDefinitionXML fuel' detailLevel definitions d = Some e'
                   /\ In e' (xmlElements e).
Proof.
  intros Hp Hd. apply renderDefinitionXML_shape in Hp as (fuel' & nested & -> & Hm & ->).
  destruct (mapM_In _ _ _ _ Hm Hd) as (e' & He' & Hin).
  exists fuel', e'. split; [done|]. cbn [xmlElements]. right.
  apply List.in_flat_map. exists e'. split; [|apply xmlElements_self].
  apply List.in_or_app. right. apply List.in_or_app. by right.
Qed.

(** *** JSON *)

Lemma createDefinitionObject_success fuel d :
  In d definitions -> (rank d < fuel)%nat ->
  is_Some (createDefinitionObject fuel detailLevel definitions d).
Proof.
  revert d. induction fuel as [|fuel IH]; intros d Hd Hr; [lia|].
  cbn [createDefinitionObject].
  assert (Hnested : exists nested,
            mapM (createDefinitionObject fuel detailLevel definitions)
                 (childrenOf definitions d) = Some nested).
  { apply mapM_success. intros x Hx. pose proof (rank_children d x Hd Hx).
    apply IH; [by apply childrenOf_In in Hx as [? _] | lia]. }
  destruct Hnested as [nested Hn].
  destruct detailLevel; [by eexists | |];
    (destruct (children d) as [[|c cs]|]; [by eexists | | by eexists]);
    rewrite Hn; by eexists.
Qed.

Lemma createDefinitionObject_child fuel p v d :
  detailLevel <> minimal ->
  createDefinitionObject fuel detailLevel definitions p = Some v ->
  In d (childrenOf definitions p) ->
  exists fuel' v', createDefinitionObject fuel' detailLevel definitions d = Some v'
                   /\ In v' (jsonValues v).
Proof.
  intros Hdetail Hp Hd. destruct fuel as [|fuel]; [discriminate|].
  cbn [createDefinitionObject] in Hp.
  pose proof (childrenOf_In _ _ _ Hd) as (_ & c & cs & Hcs). rewrite Hcs in Hp.
  assert (Hm : exists nested,
            mapM (createDefinitionObject fuel detailLevel definitions)
                 (childrenOf definitions p) = Some nested
            /\ v = JObject (jsonFields detailLevel p ++ [("children", JArray nested)])).
  { destruct detailLevel; [done | |];
      (destruct (mapM _ _) as [nested|]; [|discriminate]); cbn in Hp;
      injection Hp as <-; eauto. }
  destruct Hm as (nested & Hm & ->).
  destruct (mapM_In _ _ _ _ Hm Hd) as (v' & Hv' & Hin).
  exists fuel, v'. split; [done|]. cbn [jsonValues]. right.
  apply List.in_flat_map. exists ("children", JArray nested). split.
  - apply List.in_or_app. right. by left.
  - cbn [snd jsonValues]. right. apply List.in_flat_map.
    exists v'. split; [done | apply jsonValues_self].
Qed.

(** *** Markdown *)

Lemma renderDefinitionMarkdown_success fuel indent d :
  In d definitions -> (rank d < fuel)%nat ->
  is_Some (renderDefinitionMarkdown fuel detailLevel definitions indent d).
Proof.
  revert indent d. induction fuel as [|fuel IH]; intros indent d Hd Hr; [lia|].
  cbn [renderDefinitionMarkdown].
  destruct (mapM_success (renderDefinitionMarkdown fuel detailLevel definitions (S indent))
              (childrenOf definitions d)) as [nested ->]; [|by eexists].
  intros c Hc. pose proof (rank_children d c Hd Hc).
  apply IH; [by apply childrenOf_In in Hc as [? _] | lia].
Qed.

(** The lines of a definition and of what is below it are among the
    pieces of every rendering that contains its own. *)
Lemma renderDefinitionMarkdown_head fuel indent d pieces :
  renderDefinitionMarkdown fuel detailLevel definitions indent d = Some pieces ->
  In (markdownLine detailLevel indent d) pieces.
Proof.
  destruct fuel as [|fuel]; [discriminate|]. cbn [renderDefinitionMarkdown].
  destruct (mapM _ _); [|discriminate]. intros [= <-]. by left.
Qed.

Lemma renderDefinitionMarkdown_child fuel indent p pieces d :
  renderDefinitionMarkdown fuel detailLevel definitions indent p = Some pieces ->
  In d (childrenOf definitions p) ->
  exists fuel' pieces',
    renderDefinitionMarkdown fuel' detailLevel definitions (S indent) d = Some pieces'
    /\ (forall x, In x pieces' -> In x pieces).
Proof.
  intros Hp Hd. destruct fuel as [|fuel]; [discriminate|].
  cbn [renderDefinitionMarkdown] in Hp.
  destruct (mapM _ _) as [nested|] eqn:Hm; [|discriminate]. injection Hp as <-.
  destruct (mapM_In _ _ _ _ Hm Hd) as (pieces' & Hp' & Hin).
  exists fuel, pieces'. split; [done|]. intros x Hx. right.
  apply List.in_concat. eauto.
Qed.

End RenderProofs.

Section FormatProofs.
Context `{Host}.

Lemma mapM_map {A B} (f : A -> option B) (g : A -> B) (l : list A) :
  (forall x, In x l -> f x = Some (g x)) -> mapM f l = Some (map g l).
Proof.
  intros Hf. apply mapM_Some_2.
  induction l as [|x l IH]; cbn; constructor; [apply Hf; by left|].
  apply IH. intros y Hy. apply Hf. by right.
Qed.

Lemma formatResultsXML_reachable fuel results detailLevel :
  (forall path defs, In (path, defs) results -> nestsWithin fuel defs) ->
  exists doc,
    formatResultsXML fuel results detailLevel = Some doc
    /\ forall path defs d, In (path, defs) results -> reachable defs d ->
         exists fuel' e, renderDefinitionXML fuel' detailLevel defs d = Some e
                         /\ In e (xmlElements doc).
Proof.
  intros Hnest. unfold formatResultsXML.
  destruct (mapM_success
              (fun entry : string * list Def =>
                 rendered ← mapM (renderDefinitionXML fuel detailLevel (snd entry))
                                 (topLevelDefs (snd entry));
                 Some (Element "File" [("path", AttrString (fst entry))] rendered))
              results) as [files Hfiles].
  { intros [path defs] Hin. cbn [fst snd].
    destruct (Hnest path defs Hin) as (rank & Hbound & Hrank).
    destruct (mapM_success (renderDefinitionXML fuel detailLevel defs) (topLevelDefs defs))
      as [rendered ->]; [|by eexists].
    intros r Hr. apply topLevelDefs_In in Hr.
    eapply renderDefinitionXML_success; eauto. }
  rewrite Hfiles. cbn. eexists. split; [reflexivity|].
  intros path defs d Hin Hd.
  destruct (mapM_In _ _ _ _ Hfiles Hin) as (file & Hfile & Hfin). cbn [fst snd] in Hfile.
  destruct (mapM _ (topLevelDefs defs)) as [rendered|] eqn:Hrendered; [|discriminate].
  cbn in Hfile. injection Hfile as <-.
  induction Hd as [d Hd | p d Hp IH Hd].
  - destruct (mapM_In _ _ _ _ Hrendered Hd) as (e & He & Hein).
    exists fuel, e. split; [done|]. cbn [xmlElements]. right.
    apply List.in_flat_map. eexists. split; [exact Hfin|].
    cbn [xmlElements]. right. apply List.in_flat_map.
    exists e. split; [done | apply xmlElements_self].
  - destruct IH as (fuel' & e & He & Hein).
    destruct (renderDefinitionXML_child _ _ _ _ _ _ He Hd) as (fuel'' & e' & He' & Hin').
    exists fuel'', e'. split; [done|]. eapply xmlElements_trans; eauto.
Qed.

Lemma formatResultsJSON_reachable fuel results detailLevel :
  detailLevel <> minimal ->
  (forall path defs, In (path, defs) results -> nestsWithin fuel defs) ->
  exists output,
    formatResultsJSON fuel results detailLevel = Some output
    /\ forall path defs d, In (path, defs) results -> reachable defs d ->
         exists fuel' v, createDefinitionObject fuel' detailLevel defs d = Some v
                         /\ In v (jsonValues output).
Proof.
  intros Hdetail Hnest. unfold formatResultsJSON.
  destruct (mapM_success
              (fun entry : string * list Def =>
                 objects ← mapM (createDefinitionObject fuel detailLevel (snd entry))
                                (topLevelDefs (snd entry));
                 Some (fst entry, JArray objects))
              results) as [files Hfiles].
  { intros [path defs] Hin. cbn [fst snd].
    destruct (Hnest path defs Hin) as (rank & Hbound & Hrank).
    destruct (mapM_success (createDefinitionObject fuel detailLevel defs) (topLevelDefs defs))
      as [rendered ->]; [|by eexists].
    intros r Hr. apply topLevelDefs_In in Hr.
    eapply createDefinitionObject_success; eauto. }
  rewrite Hfiles. cbn. eexists. split; [reflexivity|].
  intros path defs d Hin Hd.
  destruct (mapM_In _ _ _ _ Hfiles Hin) as (file & Hfile & Hfin). cbn [fst snd] in Hfile.
  destruct (mapM _ (topLevelDefs defs)) as [rendered|] eqn:Hrendered; [|discriminate].
  cbn in Hfile. injection Hfile as <-.
  induction Hd as [d Hd | p d Hp IH Hd].
  - destruct (mapM_In _ _ _ _ Hrendered Hd) as (e & He & Hein).
    exists fuel, e. split; [done|]. cbn [jsonValues]. right.
    apply List.in_flat_map. eexists. split; [exact Hfin|].
    cbn [snd jsonValues]. right. apply List.in_flat_map.
    exists e. split; [done | apply jsonValues_self].
  - destruct IH as (fuel' & e & He & Hein).
    destruct (createDefinitionObject_child _ _ _ _ _ _ Hdetail He Hd)
      as (fuel'' & e' & He' & Hin').
    exists fuel'', e'. split; [done|]. eapply jsonValues_trans; eauto.
Qed.

(** At the minimal level the JSON renderer returns before it looks at
    the children: the output lists the roots alone. *)
Lemma formatResultsJSON_minimal fuel results :
  (forall path defs, In (path, defs) results -> nestsWithin fuel defs) ->
  formatResultsJSON fuel results minimal
  = Some (JObject
            (map (fun entry =>
                    (fst entry,
                     JArray (map (fun def => JObject [ ("type", JString (type def));
                                                       ("name", JString (name def)) ])
                                 (topLevelDefs (snd entry)))))
                 results)).
Proof.
  intros Hnest. unfold formatResultsJSON.
  erewrite mapM_map; [reflexivity|].
  intros [path defs] Hin. cbn [fst snd].
  erewrite mapM_map; [reflexivity|].
  intros r Hr. apply topLevelDefs_In in Hr.
  destruct (Hnest path defs Hin) as (rank & Hbound & _).
  specialize (Hbound r Hr). destruct fuel; [lia | reflexivity].
Qed.

Lemma markdownPieces_reachable fuel results detailLevel directoryPath :
  (forall path defs, In (path, defs) results -> nestsWithin fuel defs) ->
  exists pieces,
    markdownPieces fuel results detailLevel directoryPath = Some pieces
    /\ forall path defs, lookupKey results path = Some defs ->
         (forall d, (topLevelDefs defs <> [] \/ defs = []) -> reachable defs d ->
                    exists indent, In (markdownLine detailLevel indent d) pieces)
         /\ (forall d, topLevelDefs defs = [] -> In d defs ->
                       In (markdownLine detailLevel 1 d) pieces).
Proof.
  intros Hnest. unfold markdownPieces.
  set (filePaths := sort byCodeUnits (map fst results)).
  assert (Hkeys : forall k, In k filePaths <-> In k (map fst results)).
  { intros k. apply sort_In. }
  destruct (mapM_success (markdownFile fuel detailLevel directoryPath results) filePaths)
    as [files Hfiles].
  { intros filePath Hfp. apply Hkeys in Hfp.
    destruct (lookupKey_is_Some results filePath Hfp) as [defs Hdefs].
    pose proof (lookupKey_In _ _ _ Hdefs) as Hin.
    destruct (Hnest filePath defs Hin) as (rank & Hbound & Hrank).
    unfold markdownFile. rewrite Hdefs. cbn [default from_option]. unfold Datatypes.id.
    assert (Hall : forall indent l, (forall x, In x l -> In x defs) ->
              exists rendered,
                mapM (renderDefinitionMarkdown fuel detailLevel defs indent) l = Some rendered).
    { intros indent l Hl. apply mapM_success. intros x Hx.
      eapply renderDefinitionMarkdown_success; eauto. }
    destruct (topLevelDefs defs) as [|r rs] eqn:Htop.
    - destruct defs as [|d ds]; [by eexists|]. cbv beta iota.
      destruct (Hall 1%nat (d :: ds)) as [rendered ->]; [done | by eexists].
    - cbv beta iota.
      destruct (Hall 0%nat (r :: rs)) as [rendered ->]; [|by eexists].
      intros x Hx. apply topLevelDefs_In. by rewrite Htop. }
  rewrite Hfiles. cbn. eexists. split; [reflexivity|].
  intros path defs Hdefs.
  pose proof (lookupKey_In _ _ _ Hdefs) as Hin.
  assert (Hpath : In path filePaths).
  { apply Hkeys. apply List.in_map_iff. by exists (path, defs). }
  destruct (mapM_In _ _ _ _ Hfiles Hpath) as (pieces & Hpieces & Hpin).
  assert (Hsub : forall x, In x pieces ->
            In x (("# Code Scan Results for " +:+ directoryPath
                   +:+ String newline (String newline EmptyString))
                  :: concat files ++ markdownMetadata results)).
  { intros x Hx. right. apply List.in_or_app. left. apply List.in_concat. eauto. }
  unfold markdownFile in Hpieces. rewrite Hdefs in Hpieces.
  cbn [default from_option] in Hpieces. unfold Datatypes.id in Hpieces.
  split.
  - intros d Hroots Hd.
    assert (Hbody : exists rendered,
              mapM (renderDefinitionMarkdown fuel detailLevel defs 0) (topLevelDefs defs)
              = Some rendered
              /\ forall x, In x (concat rendered) -> In x pieces).
    { destruct (topLevelDefs defs) as [|r rs] eqn:Htop.
      - destruct Hroots as [? | ->]; [done|]. exists []. split; [done|]. intros x [].
      - destruct (mapM _ (r :: rs)) as [rendered|]; [|discriminate].
        cbn in Hpieces. injection Hpieces as <-. exists rendered. split; [done|].
        intros x Hx. right. apply List.in_or_app. by left. }
    destruct Hbody as (rendered & Hrendered & Hbody).
    assert (Hstrong : exists fuel' indent ps,
              renderDefinitionMarkdown fuel' detailLevel defs indent d = Some ps
              /\ forall x, In x ps -> In x pieces).
    { induction Hd as [d Hd | p d Hp IH Hd].
      - destruct (mapM_In _ _ _ _ Hrendered Hd) as (ps & Hps & Hpsin).
        exists fuel, 0%nat, ps. split; [done|]. intros x Hx. apply Hbody.
        apply List.in_concat. eauto.
      - destruct IH as (fuel' & indent & ps & Hps & Hpsin).
        destruct (renderDefinitionMarkdown_child _ _ _ _ _ _ _ Hps Hd)
          as (fuel'' & ps' & Hps' & Hsub').
        exists fuel'', (S indent), ps'. split; [done|]. auto. }
    destruct Hstrong as (fuel' & indent & ps & Hps & Hpsin).
    exists indent. apply Hsub, Hpsin. by eapply renderDefinitionMarkdown_head.
  - intros d Htop Hd. rewrite Htop in Hpieces.
    destruct defs as [|d0 ds]; [destruct Hd|].
    destruct (mapM _ (d0 :: ds)) as [rendered|] eqn:Hrendered; [|discriminate].
    cbn in Hpieces. injection Hpieces as <-.
    destruct (mapM_In _ _ _ _ Hrendered Hd) as (ps & Hps & Hpsin).
    apply Hsub. right. right. apply List.in_or_app. left.
    apply List.in_concat. exists ps. split; [done|].
    by eapply renderDefinitionMarkdown_head.
Qed.

End FormatProofs.

(** ** Rendering from the roots *)

Lemma topLevelDefs_roots defs : topLevelDefs defs = roots defs.
Proof.
  unfold topLevelDefs, roots. apply List.filter_ext. intros d. unfold isRoot.
  destruct (parentId d) as [s|]; cbn [truthy nonEmptyString negb].
  - destruct (String.eqb s EmptyString); cbn [negb].
    + by rewrite bool_decide_eq_true_2.
    + by rewrite bool_decide_eq_false_2.
  - by rewrite bool_decide_eq_true_2.
Qed.

Lemma findById_named defs i : findById defs i = named defs i.
Proof.
  unfold findById, named. induction defs as [|d defs IH]; [done|].
  cbn [List.find List.filter]. by destruct (bool_decide (id d = Some i)).
Qed.

Lemma childrenOf_namedChildren defs d : childrenOf defs d = namedChildren defs d.
Proof.
  unfold childrenOf, namedChildren.
  induction (optList (children d)) as [|i l IH]; [done|].
  cbn [omap list_omap flat_map]. rewrite findById_named, IH.
  by destruct (named defs i).
Qed.

(** Two traversals that agree on every element agree on the list. *)
Lemma mapM_fmap_eq {A B C D} (f : A -> option B) (g : A -> option C)
    (h : B -> D) (h' : C -> D) (l : list A) :
  (forall x, In x l -> h <$> f x = h' <$> g x) ->
  map h <$> mapM f l = map h' <$> mapM g l.
Proof.
  induction l as [|x l IH]; intros Hl; [done|].
  specialize (IH (fun y Hy => Hl y (or_intror Hy))).
  specialize (Hl x (or_introl eq_refl)).
  cbn. destruct (f x) as [b|], (g x) as [c|]; cbn in Hl |- *; try done.
  injection Hl as Hl.
  destruct (mapM f l) as [bs|], (mapM g l) as [cs|]; cbn in IH |- *; try done.
  injection IH as IH. by rewrite Hl, IH.
Qed.

Lemma mapM_exists {A B} (f : A -> option B) (P : A -> B -> Prop) (l : list A) :
  (forall x, In x l -> exists y, f x = Some y /\ P x y) ->
  exists k, mapM f l = Some k /\ Forall2 P l k.
Proof.
  induction l as [|x l IH]; intros Hl; [by exists []|].
  destruct (Hl x (or_introl eq_refl)) as (y & Hy & Hp).
  destruct (IH (fun z Hz => Hl z (or_intror Hz))) as (k & Hk & Hall).
  exists (y :: k). split; [|by constructor]. cbn. by rewrite Hy, Hk.
Qed.

Lemma concat_map_map {A B} (F : A -> B) (ls : list (list A)) :
  concat (map (map F) ls) = map F (concat ls).
Proof.
  induction ls as [|l ls IH]; [done|]. cbn. by rewrite IH, List.map_app.
Qed.

Lemma flat_map_concat_map {A B} (f : A -> list B) (l : list A) :
  flat_map f l = concat (map f l).
Proof. induction l as [|x l IH]; [done|]. cbn. by rewrite IH. Qed.

Section Depth.
Variable defs : list Def.
Hypothesis links : consistentLinks defs.

Lemma namedChildren_facts p c :
  In p defs -> In c (namedChildren defs p) ->
  In c defs /\ parentId c = id p /\ is_Some (nonEmptyString (id p)).
Proof.
  pose proof links as [[Hu Hids] Hboth _ _ _].
  intros Hp Hc. rewrite <- childrenOf_namedChildren in Hc. unfold childrenOf in Hc.
  apply list_elem_of_In, list_elem_of_omap in Hc as (ci & Hci & Hf).
  apply findById_Some in Hf as [Hcin Hcid].
  split; [done|]. split.
  - by apply (Hboth c p ci).
  - rewrite Forall_forall in Hids. by apply Hids, list_elem_of_In.
Qed.

Lemma fromRoot_In depth d : fromRoot defs depth d -> In d defs.
Proof.
  induction 1 as [d Hd _ | depth p d _ Hp Hd]; [done|].
  by apply (namedChildren_facts p d).
Qed.

(** A definition is at one depth. *)
Lemma fromRoot_depth n m d : fromRoot defs n d -> fromRoot defs m d -> n = m.
Proof.
  pose proof links as [[Hu Hids] _ _ _ _].
  intros Hn. revert m. induction Hn as [d Hd Hroot | n p d Hp IH Hd]; intros m Hm.
  - destruct Hm as [d _ _ | m p d Hp Hd']; [done|].
    destruct (namedChildren_facts p d (fromRoot_In _ _ Hp) Hd') as (_ & E & [i Hi]).
    unfold isRoot in Hroot. rewrite E, Hi in Hroot. discriminate.
  - destruct Hm as [d _ Hroot | m p' d Hp' Hd'].
    + destruct (namedChildren_facts p d (fromRoot_In _ _ Hp) Hd) as (_ & E & [i Hi]).
      unfold isRoot in Hroot. rewrite E, Hi in Hroot. discriminate.
    + f_equal. apply IH.
      destruct (namedChildren_facts p d (fromRoot_In _ _ Hp) Hd) as (_ & E & [i Hi]).
      destruct (namedChildren_facts p' d (fromRoot_In _ _ Hp') Hd') as (_ & E' & _).
      assert (p = p') as ->; [|done].
      eapply uniqueIds_eq; [exact Hu | by eapply fromRoot_In | by eapply fromRoot_In
                           | exact Hi |].
      rewrite <- E', E. by apply nonEmptyString_Some in Hi as [? _].
Qed.

(** The way down from a root to a definition. *)
Lemma fromRoot_path n d :
  fromRoot defs n d ->
  exists l, length l = S n /\ forall i x, l !! i = Some x -> fromRoot defs i x.
Proof.
  induction 1 as [d Hd Hroot | n p d Hp (l & Hlen & Hl) Hd].
  - exists [d]. split; [done|]. intros [|i] x; cbn; [|done].
    intros [= <-]. by constructor.
  - exists (l ++ [d]). split; [rewrite length_app; cbn; lia|].
    intros i x Hi. apply lookup_app_Some in Hi as [Hi | [Hge Hi]]; [by apply Hl|].
    rewrite Hlen in Hi, Hge.
    destruct (i - S n)%nat as [|k] eqn:E; cbn in Hi; [|done].
    injection Hi as <-. replace i with (S n) by lia. by econstructor.
Qed.

Lemma fromRoot_lt n d : fromRoot defs n d -> (n < length defs)%nat.
Proof.
  intros Hn. destruct (fromRoot_path n d Hn) as (l & Hlen & Hl).
  assert (Hnd : NoDup l).
  { apply NoDup_alt. intros i j x Hi Hj.
    eapply fromRoot_depth; [by apply Hl | by apply Hl]. }
  assert (Hsub : l ⊆ defs).
  { intros x Hx. apply list_elem_of_lookup in Hx as [i Hi].
    apply list_elem_of_In. eapply fromRoot_In. by apply Hl. }
  pose proof (submseteq_length _ _ (NoDup_submseteq _ _ Hnd Hsub)). lia.
Qed.

(** The outline below a definition that hangs below a root is there
    when the depth allowed is the length of the list. *)
Lemma outlineFrom_success fuel n k d :
  fromRoot defs n d -> (length defs <= n + fuel)%nat ->
  is_Some (outlineFrom fuel defs k d).
Proof.
  revert n k d. induction fuel as [|fuel IH]; intros n k d Hn Hlen.
  - pose proof (fromRoot_lt n d Hn). lia.
  - cbn [outlineFrom].
    destruct (mapM_success (outlineFrom fuel defs (S k)) (namedChildren defs d))
      as [below ->]; [|by eexists].
    intros c Hc. apply (IH (S n)); [by econstructor | lia].
Qed.

End Depth.

(** What an outline holds. *)
Lemma outlineFrom_head fuel defs k d o :
  outlineFrom fuel defs k d = Some o -> exists rest, o = (k, d) :: rest.
Proof.
  destruct fuel as [|fuel]; [discriminate|]. cbn [outlineFrom].
  destruct (mapM _ _) as [below|]; [|discriminate]. intros [= <-]. eauto.
Qed.

Lemma outlineFrom_sound fuel defs k d o :
  outlineFrom fuel defs k d = Some o -> fromRoot defs k d ->
  forall depth x, In (depth, x) o -> fromRoot defs depth x.
Proof.
  revert k d o. induction fuel as [|fuel IH]; intros k d o; [discriminate|].
  cbn [outlineFrom]. destruct (mapM _ _) as [below|] eqn:Hm; [|discriminate].
  intros [= <-] Hd depth x [[= <- <-] | Hx]; [done|].
  apply List.in_concat in Hx as (oc & Hoc & Hx).
  apply mapM_Some_1 in Hm.
  apply list_elem_of_In, list_elem_of_lookup in Hoc as [i Hi].
  destruct (Forall2_lookup_r _ _ _ _ _ Hm Hi) as (c & Hc & Hoc).
  eapply IH; [exact Hoc | | exact Hx].
  econstructor; [exact Hd|]. by eapply list_elem_of_In, list_elem_of_lookup_2.
Qed.

Lemma outlineFrom_children fuel defs k d o n p c :
  outlineFrom fuel defs k d = Some o -> In (n, p) o -> In c (namedChildren defs p) ->
  In (S n, c) o.
Proof.
  revert k d o. induction fuel as [|fuel IH]; intros k d o; [discriminate|].
  cbn [outlineFrom]. destruct (mapM _ _) as [below|] eqn:Hm; [|discriminate].
  intros [= <-] [[= <- <-] | Hp] Hc; right; apply List.in_concat.
  - destruct (mapM_In _ _ _ _ Hm Hc) as (oc & Hoc & Hin).
    exists oc. split; [done|].
    destruct (outlineFrom_head _ _ _ _ _ Hoc) as [rest ->]. by left.
  - apply List.in_concat in Hp as (oc & Hoc & Hp).
    exists oc. split; [done|].
    pose proof Hm as Hm'. apply mapM_Some_1 in Hm'.
    apply list_elem_of_In, list_elem_of_lookup in Hoc as [i Hi].
    destruct (Forall2_lookup_r _ _ _ _ _ Hm' Hi) as (c' & Hc' & Hoc).
    by eapply IH.
Qed.

(** The outline of a list holds the definitions below a root, each at
    its depth. *)
Lemma outline_fromRoot fuel defs o :
  outline fuel defs = Some o ->
  forall depth d, In (depth, d) o <-> fromRoot defs depth d.
Proof.
  unfold outline. destruct (mapM _ _) as [os|] eqn:Hm; [|discriminate].
  cbn. intros [= <-] depth d. split.
  - intros Hd. apply List.in_concat in Hd as (oc & Hoc & Hd).
    pose proof Hm as Hm'. apply mapM_Some_1 in Hm'.
    apply list_elem_of_In, list_elem_of_lookup in Hoc as [i Hi].
    destruct (Forall2_lookup_r _ _ _ _ _ Hm' Hi) as (r & Hr & Hoc).
    eapply outlineFrom_sound; [exact Hoc | | exact Hd].
    apply list_elem_of_lookup_2, list_elem_of_In in Hr.
    unfold roots in Hr. apply List.filter_In in Hr as [Hin Hroot].
    apply bool_decide_eq_true in Hroot. by constructor.
  - induction 1 as [d Hd Hroot | n p d _ IH Hd].
    + assert (Hr : In d (roots defs)).
      { unfold roots. apply List.filter_In. split; [done | by apply bool_decide_eq_true]. }
      destruct (mapM_In _ _ _ _ Hm Hr) as (oc & Hoc & Hin).
      apply List.in_concat. exists oc. split; [done|].
      destruct (outlineFrom_head _ _ _ _ _ Hoc) as [rest ->]. by left.
    + apply List.in_concat in IH as (oc & Hoc & Hp).
      apply List.in_concat. exists oc. split; [done|].
      pose proof Hm as Hm'. apply mapM_Some_1 in Hm'.
      apply list_elem_of_In, list_elem_of_lookup in Hoc as [i Hi].
      destruct (Forall2_lookup_r _ _ _ _ _ Hm' Hi) as (r & Hr & Hoc).
      by eapply outlineFrom_children.
Qed.

Lemma outline_success fuel defs :
  consistentLinks defs -> (length defs <= fuel)%nat -> is_Some (outline fuel defs).
Proof.
  intros Hlinks Hlen. unfold outline.
  destruct (mapM_success (outlineFrom fuel defs 0) (roots defs)) as [os ->]; [|by eexists].
  intros r Hr. unfold roots in Hr. apply List.filter_In in Hr as [Hin Hroot].
  apply bool_decide_eq_true in Hroot.
  apply (outlineFrom_success defs Hlinks fuel 0); [by constructor | lia].
Qed.

Section OutlineProofs.
Context `{Host}.
Variable detailLevel : DetailLevel.
Variable defs : list Def.

Local Abbreviation attributesOf :=
  (fun x : nat * Def => (fst x, xmlAttributes detailLevel (snd x))).
Local Abbreviation fieldsOf :=
  (fun x : nat * Def => (fst x, jsonFields detailLevel (snd x))).
Local Abbreviation lineOf :=
  (fun x : nat * Def => markdownLine detailLevel (fst x) (snd x)).

Lemma xmlOutline_parameters k d :
  flat_map (xmlOutline k) (xmlParameters detailLevel d) = [].
Proof. unfold xmlParameters. by destruct detailLevel, (parameters d) as [[|p ps]|]. Qed.

Lemma xmlOutline_calls k d : flat_map (xmlOutline k) (xmlCalls detailLevel d) = [].
Proof. unfold xmlCalls. by destruct detailLevel, (calls d) as [[|c cs]|]. Qed.

(** The XML element of a definition shows the outline below it. *)
Lemma renderDefinitionXML_outline fuel k d :
  xmlOutline k <$> renderDefinitionXML fuel detailLevel defs d
  = map attributesOf <$> outlineFrom fuel defs k d.
Proof.
  revert k d. induction fuel as [|fuel IH]; intros k d; [done|].
  cbn [renderDefinitionXML outlineFrom]. rewrite childrenOf_namedChildren.
  pose proof (mapM_fmap_eq (renderDefinitionXML fuel detailLevel defs)
                (outlineFrom fuel defs (S k)) (xmlOutline (S k)) (map attributesOf)
                (namedChildren defs d) (fun c _ => IH (S k) c)) as Hm.
  destruct (mapM (renderDefinitionXML _ _ _) _) as [nested|],
           (mapM (outlineFrom _ _ _) _) as [below|]; cbn in Hm |- *; try done.
  injection Hm as Hm. f_equal. cbn [xmlOutline String.eqb Ascii.eqb Bool.eqb].
  cbn [map fst snd]. f_equal.
  rewrite !flat_map_app, xmlOutline_parameters, xmlOutline_calls. cbn [app].
  by rewrite flat_map_concat_map, Hm, concat_map_map.
Qed.

Lemma jsonFields_own d :
  Forall (fun field => String.eqb (fst field) "children" = false) (jsonFields detailLevel d).
Proof.
  unfold jsonFields, whenTruthy.
  repeat apply Forall_app_2; repeat apply Forall_cons_2; try apply Forall_nil_2; try done;
    destruct detailLevel; try apply Forall_nil_2;
    repeat apply Forall_app_2;
    repeat match goal with
           | |- Forall _ (match ?x with _ => _ end) => destruct x
           end;
    repeat apply Forall_cons_2; try apply Forall_nil_2; done.
Qed.

Lemma jsonFields_filter fs :
  Forall (fun field : string * Json => String.eqb (fst field) "children" = false) fs ->
  List.filter (fun field : string * Json => negb (String.eqb (fst field) "children")) fs = fs
  /\ forall k, flat_map (fun field : string * Json =>
                           if String.eqb (fst field) "children" then
                             match snd field with
                             | JArray items => flat_map (jsonOutline (S k)) items
                             | _ => []
                             end
                           else []) fs = [].
Proof.
  induction 1 as [|f fs Hf _ [IH1 IH2]]; [done|]. split.
  - cbn [List.filter]. by rewrite Hf, IH1.
  - intros k. cbn [flat_map]. by rewrite Hf, IH2.
Qed.

Lemma jsonOutline_object k d nested :
  jsonOutline k (JObject (jsonFields detailLevel d ++ [("children", JArray nested)]))
  = (k, jsonFields detailLevel d) :: flat_map (jsonOutline (S k)) nested.
Proof.
  destruct (jsonFields_filter _ (jsonFields_own d)) as [E1 E2].
  cbn [jsonOutline]. rewrite List.filter_app, flat_map_app, E1, E2.
  cbn [List.filter flat_map fst snd String.eqb Ascii.eqb Bool.eqb negb app].
  by rewrite !app_nil_r.
Qed.

Lemma jsonOutline_leaf k d :
  jsonOutline k (JObject (jsonFields detailLevel d)) = [(k, jsonFields detailLevel d)].
Proof.
  destruct (jsonFields_filter _ (jsonFields_own d)) as [E1 E2].
  cbn [jsonOutline]. by rewrite E1, E2.
Qed.

(** So does its JSON object, at the levels that show children. *)
Lemma createDefinitionObject_outline fuel k d :
  detailLevel <> minimal ->
  jsonOutline k <$> createDefinitionObject fuel detailLevel defs d
  = map fieldsOf <$> outlineFrom fuel defs k d.
Proof.
  intros Hdetail. revert k d. induction fuel as [|fuel IH]; intros k d; [done|].
  cbn [createDefinitionObject outlineFrom].
  assert (Hleaf : forall l, children d = l -> optList l = [] ->
            jsonOutline k <$> Some (JObject (jsonFields detailLevel d))
            = map fieldsOf <$> (below ← mapM (outlineFrom fuel defs (S k))
                                             (namedChildren defs d);
                                Some ((k, d) :: concat below))).
  { intros l El Hl. unfold namedChildren. rewrite El, Hl.
    cbn [fmap option_fmap option_map]. by rewrite jsonOutline_leaf. }
  assert (Hnode : jsonOutline k <$>
                    (nested ← mapM (createDefinitionObject fuel detailLevel defs)
                                   (childrenOf defs d);
                     Some (JObject (jsonFields detailLevel d
                                    ++ [("children", JArray nested)])))
                  = map fieldsOf <$> (below ← mapM (outlineFrom fuel defs (S k))
                                                   (namedChildren defs d);
                                      Some ((k, d) :: concat below))).
  { rewrite childrenOf_namedChildren.
    pose proof (mapM_fmap_eq (createDefinitionObject fuel detailLevel defs)
                  (outlineFrom fuel defs (S k)) (jsonOutline (S k)) (map fieldsOf)
                  (namedChildren defs d) (fun c _ => IH (S k) c)) as Hm.
    destruct (mapM (createDefinitionObject _ _ _) _) as [nested|],
             (mapM (outlineFrom _ _ _) _) as [below|];
      cbn [fmap option_fmap option_map mbind option_bind] in Hm |- *; try done.
    injection Hm as Hm. f_equal. rewrite jsonOutline_object. cbn [map fst snd]. f_equal.
    by rewrite flat_map_concat_map, Hm, concat_map_map. }
  destruct detailLevel; [done | |];
    (destruct (children d) as [[|c cs]|] eqn:Ec;
     [by apply (Hleaf (Some [])) | exact Hnode | by apply (Hleaf None)]).
Qed.

(** The Markdown lines of a definition are the lines of the outline
    below it. *)
Lemma renderDefinitionMarkdown_outline fuel k d :
  renderDefinitionMarkdown fuel detailLevel defs k d
  = map lineOf <$> outlineFrom fuel defs k d.
Proof.
  revert k d. induction fuel as [|fuel IH]; intros k d; [done|].
  cbn [renderDefinitionMarkdown outlineFrom]. rewrite childrenOf_namedChildren.
  pose proof (mapM_fmap_eq (renderDefinitionMarkdown fuel detailLevel defs (S k))
                (outlineFrom fuel defs (S k)) (fun ls => ls) (map lineOf)
                (namedChildren defs d)) as Hm.
  rewrite List.map_id in Hm || idtac.
  assert (Hm' : (fun ls => map (fun l : list string => l) ls)
                  <$> mapM (renderDefinitionMarkdown fuel detailLevel defs (S k))
                           (namedChildren defs d)
                = map (map lineOf) <$> mapM (outlineFrom fuel defs (S k))
                                            (namedChildren defs d)).
  { apply Hm. intros c _. rewrite IH. by destruct (outlineFrom fuel defs (S k) c). }
  destruct (mapM (renderDefinitionMarkdown _ _ _ _) _) as [nested|],
           (mapM (outlineFrom _ _ _) _) as [below|]; cbn in Hm' |- *; try done.
  injection Hm' as Hm'. rewrite List.map_id in Hm'. f_equal. cbn [map fst snd]. f_equal.
  by rewrite Hm', concat_map_map.
Qed.

(** The three renderings of the roots of a list. *)
Lemma roots_rendered fuel o :
  outline fuel defs = Some o ->
  (exists rendered,
     mapM (renderDefinitionXML fuel detailLevel defs) (topLevelDefs defs) = Some rendered
     /\ flat_map (xmlOutline 0) rendered = map attributesOf o)
  /\ (detailLevel <> minimal ->
      exists objects,
        mapM (createDefinitionObject fuel detailLevel defs) (topLevelDefs defs)
        = Some objects
        /\ flat_map (jsonOutline 0) objects = map fieldsOf o)
  /\ (exists rendered,
        mapM (renderDefinitionMarkdown fuel detailLevel defs 0) (topLevelDefs defs)
        = Some rendered
        /\ concat rendered = map lineOf o).
Proof.
  unfold outline. rewrite topLevelDefs_roots.
  destruct (mapM (outlineFrom fuel defs 0) (roots defs)) as [below|] eqn:Hbelow;
    [|discriminate].
  cbn. intros [= <-]. split; [|split].
  - pose proof (mapM_fmap_eq (renderDefinitionXML fuel detailLevel defs)
                  (outlineFrom fuel defs 0) (xmlOutline 0) (map attributesOf)
                  (roots defs) (fun r _ => renderDefinitionXML_outline fuel 0 r)) as Hm.
    rewrite Hbelow in Hm.
    destruct (mapM (renderDefinitionXML _ _ _) _) as [rendered|]; [|done].
    cbn in Hm. injection Hm as Hm. exists rendered. split; [done|].
    by rewrite flat_map_concat_map, Hm, concat_map_map.
  - intros Hdetail.
    pose proof (mapM_fmap_eq (createDefinitionObject fuel detailLevel defs)
                  (outlineFrom fuel defs 0) (jsonOutline 0) (map fieldsOf)
                  (roots defs)
                  (fun r _ => createDefinitionObject_outline fuel 0 r Hdetail)) as Hm.
    rewrite Hbelow in Hm.
    destruct (mapM (createDefinitionObject _ _ _) _) as [objects|]; [|done].
    cbn in Hm. injection Hm as Hm. exists objects. split; [done|].
    by rewrite flat_map_concat_map, Hm, concat_map_map.
  - pose proof (mapM_fmap_eq (renderDefinitionMarkdown fuel detailLevel defs 0)
                  (outlineFrom fuel defs 0) (fun ls => ls) (map lineOf) (roots defs)) as Hm.
    rewrite Hbelow in Hm.
    destruct (mapM (renderDefinitionMarkdown _ _ _ _) _) as [rendered|].
    + cbn in Hm. exists rendered. split; [done|].
      assert (E : Some (map (fun ls : list string => ls) rendered)
                  = Some (map (map lineOf) below)).
      { apply Hm. intros r _. rewrite renderDefinitionMarkdown_outline.
        by destruct (outlineFrom fuel defs 0 r). }
      injection E as E. rewrite List.map_id in E. by rewrite E, concat_map_map.
    + cbn in Hm. exfalso.
      assert (E : @None (list (list string)) = Some (map (map lineOf) below)); [|done].
      apply Hm. intros r _. rewrite renderDefinitionMarkdown_outline.
      by destruct (outlineFrom fuel defs 0 r).
Qed.

End OutlineProofs.

(** In a list with consistent links a root is a definition whose
    [parentId] is absent: no [parentId] is the empty string. *)
Lemma isRoot_absent defs d :
  consistentLinks defs -> In d defs -> isRoot d <-> parentId d = None.
Proof.
  intros Hlinks Hd. unfold isRoot. split; [|by intros ->].
  destruct (parentId d) as [pid|] eqn:Hpid; [|done]. intros Hroot.
  destruct (links_parent defs Hlinks d pid Hd Hpid) as (p & Hp & Hid).
  pose proof (proj2 (links_ids defs Hlinks)) as Hids. rewrite Forall_forall in Hids.
  destruct (Hids p ltac:(by apply list_elem_of_In)) as [i Hi].
  apply nonEmptyString_Some in Hi as [Hi Hne].
  assert (i = pid) as -> by congruence.
  by rewrite (nonEmptyString_of_Some pid Hne) in Hroot.
Qed.

Section RenderingFromRoots.
Context `{Host}.

(** C9 (as amended): for a map in which the links of every list are
    consistent, and with a recursion depth of at least the length of
    every list, each renderer returns, and what it returns shows, file
    by file, the outline of the list: the definitions without
    [parentId] in stored order and, below each definition shown, the
    definitions that its [children] name, in stored order, one level
    deeper; so a definition is shown exactly when it hangs below a
    definition without [parentId]. This is so for the [Definition]
    elements of the XML document at every detail level, for the objects
    of the JSON value at the levels [standard] and [detailed], and for
    the lines of the Markdown text when every file that has definitions
    has one without [parentId]. At the level [minimal] the JSON value
    lists the definitions without [parentId] alone, with their type and
    name and without children. *)
Theorem rendering_from_roots (fuel : nat) (results : list (string * list Def))
    (detailLevel : DetailLevel) (directoryPath : string) :
  (forall path defs, In (path, defs) results ->
     consistentLinks defs /\ (length defs <= fuel)%nat) ->
  (forall path defs, In (path, defs) results ->
     exists o, outline fuel defs = Some o
               /\ forall depth d, In (depth, d) o <-> fromRoot defs depth d)
  /\ (exists files,
        formatResultsXML fuel results detailLevel
        = Some (Element "CodeScanResults" [] files)
        /\ Forall2 (fun entry file =>
                      exists content o,
                        file = Element "File" [("path", AttrString (fst entry))] content
                        /\ outline fuel (snd entry) = Some o
                        /\ flat_map (xmlOutline 0) content
                           = map (fun x => (fst x, xmlAttributes detailLevel (snd x))) o)
                   results files)
  /\ (detailLevel <> minimal ->
      exists fields,
        formatResultsJSON fuel results detailLevel = Some (JObject fields)
        /\ Forall2 (fun entry field =>
                      exists objects o,
                        field = (fst entry, JArray objects)
                        /\ outline fuel (snd entry) = Some o
                        /\ flat_map (jsonOutline 0) objects
                           = map (fun x => (fst x, jsonFields detailLevel (snd x))) o)
                   results fields)
  /\ formatResultsJSON fuel results minimal
     = Some (JObject
               (map (fun entry =>
                       (fst entry,
                        JArray (map (fun def => JObject [ ("type", JString (type def));
                                                          ("name", JString (name def)) ])
                                    (roots (snd entry)))))
                    results))
  /\ ((forall path defs, In (path, defs) results -> roots defs <> [] \/ defs = []) ->
      exists files,
        Forall2 (fun path pieces =>
                   exists defs o,
                     lookupKey results path = Some defs
                     /\ outline fuel defs = Some o
                     /\ pieces
                        = ("## File: `" +:+ backslashesToSlashes (relative directoryPath path)
                             +:+ "`" +:+ String newline (String newline EmptyString))
                            :: map (fun x => markdownLine detailLevel (fst x) (snd x)) o
                            ++ [String newline EmptyString])
                (sort byCodeUnits (map fst results)) files
        /\ formatResultsMarkdown fuel results detailLevel directoryPath
           = Some (join EmptyString
                     (("# Code Scan Results for " +:+ directoryPath
                         +:+ String newline (String newline EmptyString))
                        :: concat files ++ markdownMetadata results))).
Proof.
  intros Hmap.
  assert (Hout : forall path defs, In (path, defs) results ->
            exists o, outline fuel defs = Some o).
  { intros path defs Hin. destruct (Hmap path defs Hin) as [Hlinks Hlen].
    by apply outline_success. }
  split; [|split; [|split; [|split]]].
  - intros path defs Hin. destruct (Hout path defs Hin) as [o Ho].
    exists o. split; [done|]. by apply (outline_fromRoot fuel).
  - unfold formatResultsXML.
    destruct (mapM_exists
                (fun entry : string * list Def =>
                   rendered ← mapM (renderDefinitionXML fuel detailLevel (snd entry))
                                   (topLevelDefs (snd entry));
                   Some (Element "File" [("path", AttrString (fst entry))] rendered))
                (fun entry file =>
                   exists content o,
                     file = Element "File" [("path", AttrString (fst entry))] content
                     /\ outline fuel (snd entry) = Some o
                     /\ flat_map (xmlOutline 0) content
                        = map (fun x => (fst x, xmlAttributes detailLevel (snd x))) o)
                results) as (files & -> & Hfiles); [|by exists files].
    intros [path defs] Hin. cbn [fst snd]. destruct (Hout path defs Hin) as [o Ho].
    destruct (roots_rendered detailLevel defs fuel o Ho) as ((rendered & -> & E) & _).
    eexists. split; [reflexivity|]. by exists rendered, o.
  - intros Hdetail. unfold formatResultsJSON.
    destruct (mapM_exists
                (fun entry : string * list Def =>
                   objects ← mapM (createDefinitionObject fuel detailLevel (snd entry))
                                  (topLevelDefs (snd entry));
                   Some (fst entry, JArray objects))
                (fun entry field =>
                   exists objects o,
                     field = (fst entry, JArray objects)
                     /\ outline fuel (snd entry) = Some o
                     /\ flat_map (jsonOutline 0) objects
                        = map (fun x => (fst x, jsonFields detailLevel (snd x))) o)
                results) as (fields & -> & Hfields); [|by exists fields].
    intros [path defs] Hin. cbn [fst snd]. destruct (Hout path defs Hin) as [o Ho].
    destruct (roots_rendered detailLevel defs fuel o Ho)
      as (_ & Hjson & _). destruct (Hjson Hdetail) as (objects & -> & E).
    eexists. split; [reflexivity|]. by exists objects, o.
  - unfold formatResultsJSON.
    erewrite mapM_map; [reflexivity|].
    intros [path defs] Hin. cbn [fst snd]. rewrite topLevelDefs_roots.
    erewrite mapM_map; [reflexivity|].
    intros r Hr. unfold roots in Hr. apply List.filter_In in Hr as [Hr _].
    destruct (Hmap path defs Hin) as [_ Hlen].
    destruct fuel; [|reflexivity]. destruct defs; [destruct Hr | cbn in Hlen; lia].
  - intros Hroots. unfold formatResultsMarkdown, markdownPieces.
    destruct (mapM_exists
                (markdownFile fuel detailLevel directoryPath results)
                (fun path pieces =>
                   exists defs o,
                     lookupKey results path = Some defs
                     /\ outline fuel defs = Some o
                     /\ pieces
                        = ("## File: `" +:+ backslashesToSlashes (relative directoryPath path)
                             +:+ "`" +:+ String newline (String newline EmptyString))
                            :: map (fun x => markdownLine detailLevel (fst x) (snd x)) o
                            ++ [String newline EmptyString])
                (sort byCodeUnits (map fst results))) as (files & -> & Hfiles);
      [|by exists files].
    intros path Hpath. apply sort_In in Hpath.
    destruct (lookupKey_is_Some results path Hpath) as [defs Hdefs].
    pose proof (lookupKey_In _ _ _ Hdefs) as Hin.
    destruct (Hout path defs Hin) as [o Ho].
    destruct (roots_rendered detailLevel defs fuel o Ho)
      as (_ & _ & rendered & Hrendered & E).
    unfold markdownFile. rewrite Hdefs. cbn [default from_option]. unfold Datatypes.id.
    assert (Hbody : match topLevelDefs defs, defs with
                    | [], _ :: _ =>
                        rendered ← mapM (renderDefinitionMarkdown fuel detailLevel defs 1) defs;
                        Some (("  *(No top-level definitions found, listing all)*"
                                 +:+ String newline EmptyString) :: concat rendered)
                    | _, _ =>
                        rendered ← mapM (renderDefinitionMarkdown fuel detailLevel defs 0)
                                        (topLevelDefs defs);
                        Some (concat rendered)
                    end
                    = Some (map (fun x => markdownLine detailLevel (fst x) (snd x)) o)).
    { rewrite Hrendered. cbn [mbind option_bind]. rewrite E.
      destruct (Hroots path defs Hin) as [Hr | ->]; [|done].
      rewrite topLevelDefs_roots. by destruct (roots defs). }
    rewrite Hbody. cbn [mbind option_bind]. eexists. split; [reflexivity|].
    by exists defs, o.
Qed.

End RenderingFromRoots.

(** ** The survivors of the filter *)

Section SurvivorProofs.
Context `{RegExpEngine}.
Variable definitions : list Def.
Variable fo : FilterOptions.

(** The two ways an iteration of the closure loop ends: it drops the
    item it popped, or it replaces it by its parent, whose id it adds. *)
Lemma closureStep_cases st st' :
  closureStep definitions fo st = Some st' ->
  (exists current,
     itemsToAdd st = current :: itemsToAdd st'
     /\ entriesToInclude st' = entriesToInclude st)
  \/ (exists current rest cid pid parent,
        itemsToAdd st = current :: rest
        /\ nonEmptyString (id current) = Some cid
        /\ nonEmptyString (parentId current) = Some pid
        /\ findById definitions pid = Some parent
        /\ parentExcluded fo parent = false
        /\ entriesToInclude st' = {[ pid ]} ∪ entriesToInclude st
        /\ itemsToAdd st' = parent :: rest).
Proof.
  unfold closureStep.
  destruct (itemsToAdd st) as [|current rest]; [discriminate|].
  destruct (nonEmptyString (id current)) as [cid|] eqn:Hcid;
    [|intros [= <-]; left; by exists current].
  destruct (bool_decide _); [intros [= <-]; left; by exists current|].
  destruct (nonEmptyString (parentId current)) as [pid|] eqn:Hpid;
    [|intros [= <-]; left; by exists current].
  destruct (bool_decide _); [intros [= <-]; left; by exists current|].
  destruct (findById definitions pid) as [parent|] eqn:Hfind;
    [|intros [= <-]; left; by exists current].
  pose proof (findById_Some _ _ _ Hfind) as [_ Hidp].
  destruct (nonEmptyString (id parent)) as [parentsId|] eqn:Hparent;
    [|intros [= <-]; left; by exists current].
  destruct (parentExcluded fo parent) eqn:Hex; [intros [= <-]; left; by exists current|].
  intros [= <-]. right. exists current, rest, cid, pid, parent.
  apply nonEmptyString_Some in Hparent as [Hparent _].
  assert (parentsId = pid) as -> by congruence. auto 10.
Qed.

(** A kept chain goes on through a parent that is not excluded. *)
Lemma keptAncestorOf_snoc b d p :
  keptAncestorOf definitions fo b d -> parentOf definitions d p ->
  parentExcluded fo p = false -> keptAncestorOf definitions fo b p.
Proof.
  induction 1 as [b d Hbd Hex | b q d Hbq Hex _ IH]; intros Hdp Hexp.
  - eapply kept_further; eauto. by apply kept_parent.
  - eapply kept_further; eauto.
Qed.

Lemma closureStart_sound : closureSound definitions fo (closureStart definitions fo).
Proof.
  split; cbn [closureStart entriesToInclude itemsToAdd].
  - intros x Hx. left. by apply List.in_rev.
  - intros i Hi Hne. apply elem_of_idSet in Hi as (d & Hd & E).
    exists d. split; [by apply basicFilteredEntries_In in Hd as [? _]|].
    split; [done|]. left. split; [done|].
    rewrite E, nonEmptyString_of_Some by done. by eexists.
  - done.
Qed.

Lemma closureStep_sound st st' :
  closureSound definitions fo st -> closureStep definitions fo st = Some st' ->
  closureSound definitions fo st'.
Proof.
  intros [Hstack Hinc Hbasic] Hstep.
  apply closureStep_cases in Hstep
    as [(current & Hitems & Hsame)
       | (current & rest & cid & pid & parent & Hitems & Hcid & Hpid & Hfind & Hex
          & Hadd & Hpush)].
  - split.
    + intros x Hx. apply Hstack. rewrite Hitems. by right.
    + rewrite Hsame. exact Hinc.
    + by rewrite Hsame.
  - assert (Hparent : parentOf definitions current parent) by (exists pid; auto).
    assert (Hchain : exists b, selected definitions fo b
                               /\ keptAncestorOf definitions fo b parent).
    { destruct (Hstack current) as [Hb | (b & Hb & Hbc)]; [rewrite Hitems; by left | |].
      - exists current. split; [|by apply kept_parent].
        split; [done|]. rewrite Hcid. by eexists.
      - exists b. split; [done|]. by eapply keptAncestorOf_snoc. }
    pose proof (findById_Some _ _ _ Hfind) as [Hpin Hpid'].
    split.
    + rewrite Hpush. intros x [<- | Hx]; [by right|].
      apply Hstack. rewrite Hitems. by right.
    + rewrite Hadd. intros i Hi Hne. apply elem_of_union in Hi as [Hi | Hi]; [|eauto].
      apply elem_of_singleton in Hi as ->. exists parent. split; [done|].
      split; [done|]. by right.
    + rewrite Hadd. set_solver.
Qed.

Lemma closureLoop_sound fuel st :
  closureSound definitions fo st ->
  closureSound definitions fo (closureLoop fuel definitions fo st).
Proof.
  revert st. induction fuel as [|fuel IH]; intros st Hinv; simpl; [done|].
  destruct (closureStep definitions fo st) as [st'|] eqn:Hs; [|done].
  apply IH. by eapply closureStep_sound.
Qed.

Lemma closure_sound : closureSound definitions fo (closure definitions fo).
Proof. apply closureLoop_sound, closureStart_sound. Qed.

(** A match survives. *)
Lemma selected_survives d : selected definitions fo d -> survives definitions fo d.
Proof.
  intros [Hd [i Hi]]. pose proof closure_sound as [_ _ Hbasic].
  split; [by apply basicFilteredEntries_In in Hd as [? _]|].
  unfold included, survivorIds. rewrite Hi. apply bool_decide_eq_true.
  apply Hbasic, elem_of_idSet. exists d. split; [done|].
  by apply nonEmptyString_Some in Hi as [? _].
Qed.

Lemma keptAncestorOf_survives b d :
  uniqueIds definitions -> survives definitions fo b ->
  keptAncestorOf definitions fo b d -> survives definitions fo d.
Proof.
  intros Hu Hb Hchain. induction Hchain as [b p Hp Hex | b p a Hp Hex _ IH].
  - eapply survives_parent; eauto.
  - apply IH. eapply survives_parent; eauto.
Qed.

End SurvivorProofs.

Section SurvivorTheorems.
Context `{RegExpEngine}.

(** A survivor is a match or an ancestor that the walk reaches from
    one. *)
Lemma survives_justified (definitions : list Def) (fo : FilterOptions) (d : Def) :
  uniqueIds definitions -> survives definitions fo d -> justified definitions fo d.
Proof.
  intros Hu [Hd Hinc].
  unfold included, survivorIds in Hinc.
  destruct (nonEmptyString (id d)) as [i|] eqn:Hi; [|discriminate].
  apply bool_decide_eq_true in Hinc.
  pose proof (nonEmptyString_Some _ _ Hi) as [_ Hne].
  destruct (closure_sound definitions fo) as [_ Hincl _].
  destruct (Hincl i Hinc Hne) as (d' & Hd' & Hid' & Hj).
  by rewrite (uniqueIds_eq definitions d d' i Hu Hd Hd' Hi Hid').
Qed.

(** X5: in a list whose ids are distinct, the definitions that survive
    the selection are the matches, that is the definitions that pass the
    basic filter and carry an id, and the ancestors reached from a match
    along [parentId] through parents that the exclusion test accepts;
    nothing else survives. *)
Theorem survivors_characterised (definitions : list Def) (fo : FilterOptions) (d : Def) :
  uniqueIds definitions ->
  (survives definitions fo d <-> In d definitions /\ justified definitions fo d).
Proof.
  intros Hu. split.
  - intros Hs. split; [by destruct Hs | by apply survives_justified].
  - intros [Hd [Hsel | (b & Hb & Hchain)]].
    + by apply selected_survives.
    + eapply keptAncestorOf_survives; eauto. by apply selected_survives.
Qed.

(** X6: a definition that passes the basic filter and carries an id is
    in the filtered list, with its children and its parent link reduced
    to the definitions that are kept, whatever the other options and
    the other definitions are. *)
Theorem matches_are_kept (definitions : list Def) (fo : FilterOptions) (d : Def) :
  In d definitions -> isMeta d = false -> basicFilter fo d = true ->
  is_Some (nonEmptyString (id d)) ->
  survives definitions fo d
  /\ In (rebuild (finalIds definitions fo) d) (applyFiltersToDefinitions definitions fo).
Proof.
  intros Hd Hmeta Hbasic Hid.
  assert (Hs : survives definitions fo d).
  { apply selected_survives. split; [|done].
    unfold basicFilteredEntries, nonMetaEntries. rewrite !List.filter_In.
    by rewrite Hmeta. }
  split; [done|]. by apply survivor_materialised.
Qed.

(** X7: when no [excludeNamePattern] is given, or the one given is not a
    valid regular expression, the closure is complete: in a list whose
    ids are distinct every ancestor of a survivor survives, and a
    survivor keeps its [parentId] whenever the definition it names is in
    the list. *)
Theorem closure_complete_without_exclusion (definitions : list Def) (fo : FilterOptions) :
  uniqueIds definitions ->
  (nonEmptyString (excludeNamePattern fo) = None
   \/ exists pattern, nonEmptyString (excludeNamePattern fo) = Some pattern
                      /\ newRegExp pattern = None) ->
  (forall d a, survives definitions fo d -> ancestorOf definitions d a ->
               survives definitions fo a)
  /\ (forall d p, survives definitions fo d -> parentOf definitions d p ->
                  parentId (rebuild (finalIds definitions fo) d) = parentId d).
Proof.
  intros Hu Hpattern.
  assert (Hex : forall p, parentExcluded fo p = false).
  { intros p. unfold parentExcluded.
    destruct Hpattern as [-> | (pattern & -> & ->)]; reflexivity. }
  assert (Hall : forall d a, survives definitions fo d -> ancestorOf definitions d a ->
                             survives definitions fo a).
  { intros d a Hd Hchain. induction Hchain as [d p Hp | d p a Hp _ IH].
    - eapply survives_parent; eauto.
    - apply IH. eapply survives_parent; eauto. }
  split; [exact Hall|].
  intros d p Hd Hp.
  assert (Hps : survives definitions fo p) by (eapply Hall; [exact Hd | by constructor]).
  destruct Hp as (pid & Hpid & Hfind).
  rewrite parentId_rebuild, Hpid.
  rewrite bool_decide_eq_true_2; [done|].
  apply elem_of_idSet. exists p. split; [by apply keptEntries_survives|].
  by apply findById_Some in Hfind as [_ ?].
Qed.

End SurvivorTheorems.

(** ** The links of the hierarchy *)

Lemma uniqueIds_index (l : list Def) i j a b x :
  uniqueIds l -> l !! i = Some a -> l !! j = Some b ->
  nonEmptyString (id a) = Some x -> nonEmptyString (id b) = Some x -> i = j.
Proof.
  unfold uniqueIds. revert i j. induction l as [|d l IH]; intros i j Hnd Hi Hj Ea Eb;
    [discriminate|].
  cbn [omap list_omap] in Hnd.
  assert (Hmem : forall k y, l !! k = Some y -> nonEmptyString (id y) = Some x ->
                             x ∈ omap (fun d => nonEmptyString (id d)) l).
  { intros k y Hk Ey. apply list_elem_of_omap. exists y.
    split; [by eapply list_elem_of_lookup_2 | done]. }
  destruct i as [|i], j as [|j]; cbn in Hi, Hj; [done | | |].
  - injection Hi as ->. rewrite Ea in Hnd. apply NoDup_cons in Hnd as [Hni _].
    destruct Hni. eauto.
  - injection Hj as ->. rewrite Eb in Hnd. apply NoDup_cons in Hnd as [Hni _].
    destruct Hni. eauto.
  - f_equal. apply IH; auto.
    destruct (nonEmptyString (id d)); [by apply NoDup_cons in Hnd as [_ ?] | done].
Qed.

Lemma uniqueIds_sameButLinks l l' :
  Forall2 sameButLinks l l' -> uniqueIds l -> uniqueIds l'.
Proof.
  unfold uniqueIds. intros Hshape.
  assert (E : omap (fun d => nonEmptyString (id d)) l'
              = omap (fun d => nonEmptyString (id d)) l).
  { induction Hshape as [|a b l l' Hab _ IH]; [done|].
    cbn [omap list_omap]. apply sameButLinks_fields in Hab as (-> & _). by rewrite IH. }
  by rewrite E.
Qed.

Section LinkingChildren.
Context `{RegExpEngine} `{TreeSitter} `{Host}.
Variable rootNode : Parser.SyntaxNode.

Lemma findParent_lt defs d ancestors j :
  findParent defs d ancestors = Some j -> (j < length defs)%nat.
Proof.
  intros Hf. apply findParent_Some in Hf as (p & _ & _ & _ & Hp & _).
  by eapply lookup_lt_Some.
Qed.

(** The children of every element after one call of the callback. *)
Lemma linkParent_children defs0 defs i k d d' :
  Forall2 sameButLinks defs0 defs ->
  defs !! k = Some d -> linkParent rootNode defs i !! k = Some d' ->
  children d'
  = match defs0 !! i with
    | Some d0 =>
        if bool_decide (findParent defs0 d0 (ancestorsOf rootNode d0) = Some k)
        then Some (optList (children d) ++ pushedId d0)
        else children d
    | None => children d
    end.
Proof.
  intros Hshape Hk. unfold linkParent.
  destruct (defs !! i) as [def|] eqn:Hi.
  2: { intros Hd'. assert (d' = d) as -> by congruence.
       assert (defs0 !! i = None) as ->; [|done].
       apply lookup_ge_None. apply lookup_ge_None in Hi.
       by rewrite (Forall2_length _ _ _ Hshape). }
  pose proof (Forall2_lookup_r _ _ _ _ _ Hshape Hi) as (def0 & Hi0 & Hsame).
  rewrite Hi0.
  rewrite <- (findParent_ext defs0 defs def0 def _ Hshape Hsame).
  rewrite <- (ancestorsOf_sameButLinks rootNode def0 def Hsame).
  destruct (findParent defs0 def0 (ancestorsOf rootNode def0)) as [j|] eqn:Hfind.
  2: { intros Hd'. assert (d' = d) as -> by congruence. by rewrite bool_decide_eq_false_2. }
  destruct (defs !! j) as [parent|] eqn:Hj.
  2: { intros Hd'. assert (d' = d) as -> by congruence.
       rewrite bool_decide_eq_false_2; [done|]. intros [= ->]. congruence. }
  assert (Hlti : (i < length defs)%nat) by (by eapply lookup_lt_Some).
  assert (Hltj : (j < length defs)%nat) by (by eapply lookup_lt_Some).
  set (defs1 := <[i := set_parentId (id parent) def]> defs).
  assert (Hch1 : forall x y, defs1 !! x = Some y ->
            exists z, defs !! x = Some z /\ children y = children z).
  { intros x y Hy. unfold defs1 in Hy. destruct (decide (x = i)) as [-> | Hx].
    - rewrite list_lookup_insert_eq in Hy by done. injection Hy as <-. eauto.
    - rewrite list_lookup_insert_ne in Hy by done. eauto. }
  destruct (defs1 !! j) as [parent1|] eqn:Hj1.
  2: { apply lookup_ge_None in Hj1. unfold defs1 in Hj1. rewrite length_insert in Hj1. lia. }
  assert (Epush : match nonEmptyString (id def) with
                  | Some defId => [defId]
                  | None => []
                  end = pushedId def0).
  { unfold pushedId. apply sameButLinks_fields in Hsame as (-> & _). done. }
  rewrite Epush. intros Hd'.
  destruct (decide (j = k)) as [-> | Hjk].
  - rewrite list_lookup_insert_eq in Hd' by (unfold defs1; by rewrite length_insert).
    injection Hd' as <-. rewrite bool_decide_eq_true_2 by done. cbn.
    destruct (Hch1 k parent1 Hj1) as (z & Hz & ->).
    by assert (z = d) as -> by congruence.
  - rewrite list_lookup_insert_ne in Hd' by done.
    rewrite bool_decide_eq_false_2 by congruence.
    destruct (Hch1 k d' Hd') as (z & Hz & ->).
    by assert (z = d) as -> by congruence.
Qed.

Lemma linkParents_children_fold defs0 n a cur :
  (a + n <= length defs0)%nat ->
  Forall2 sameButLinks defs0 cur ->
  (forall k d0 d, defs0 !! k = Some d0 -> cur !! k = Some d ->
     children d = Some (optList (children d0)
                        ++ linkedChildren rootNode defs0 (take a defs0) k)) ->
  forall k d0 d, defs0 !! k = Some d0 ->
    fold_left (linkParent rootNode) (seq a n) cur !! k = Some d ->
    children d = Some (optList (children d0)
                       ++ linkedChildren rootNode defs0 (take (a + n) defs0) k).
Proof.
  revert a cur. induction n as [|n IH]; intros a cur Hlen Hshape Hch; cbn [seq fold_left].
  - rewrite Nat.add_0_r. exact Hch.
  - destruct (linkParent_spec rootNode defs0 cur a Hshape) as [Hshape' _].
    replace (a + S n)%nat with (S a + n)%nat by lia.
    apply IH; [lia | done |].
    intros k d0 d' Hk0 Hd'.
    destruct (cur !! k) as [d|] eqn:Hd.
    2: { apply lookup_ge_None in Hd. apply lookup_lt_Some in Hk0.
         rewrite <- (Forall2_length _ _ _ Hshape) in Hd. lia. }
    rewrite (linkParent_children defs0 cur a k d d' Hshape Hd Hd').
    destruct (defs0 !! a) as [da|] eqn:Ha.
    2: { apply lookup_ge_None in Ha. lia. }
    rewrite (take_S_r _ _ _ Ha). unfold linkedChildren.
    rewrite flat_map_app. cbn [flat_map]. rewrite app_nil_r.
    fold (linkedChildren rootNode defs0 (take a defs0) k).
    rewrite (Hch k d0 d Hk0 Hd). cbn [optList default from_option]. unfold Datatypes.id.
    case_bool_decide; [by rewrite <- app_assoc | by rewrite app_nil_r].
Qed.

(** The children of every definition after the loop: what it had, then
    the ids of the definitions that found it as their parent, in the
    order of the list. *)
Lemma linkParents_children defs0 k d0 d :
  Forall (fun d0 => is_Some (children d0)) defs0 ->
  defs0 !! k = Some d0 -> linkParents rootNode defs0 !! k = Some d ->
  children d = Some (optList (children d0) ++ linkedChildren rootNode defs0 defs0 k).
Proof.
  intros Hsome Hk0 Hd. unfold linkParents in Hd.
  replace (linkedChildren rootNode defs0 defs0 k)
    with (linkedChildren rootNode defs0 (take (0 + length defs0) defs0) k)
    by (cbn [Nat.add]; by rewrite firstn_all).
  apply (linkParents_children_fold defs0 (length defs0) 0 defs0); auto.
  - apply Forall2_same_length_lookup_2; [done|]. intros i x y Hx Hy.
    assert (x = y) as -> by congruence. apply sameButLinks_refl.
  - intros i x y Hx Hy. assert (x = y) as -> by congruence.
    cbn [take linkedChildren flat_map]. rewrite app_nil_r.
    rewrite Forall_forall in Hsome.
    destruct (Hsome y ltac:(by eapply list_elem_of_lookup_2)) as [c ->]. done.
Qed.

Lemma elem_of_linkedChildren defs0 processed k ci :
  ci ∈ linkedChildren rootNode defs0 processed k
  <-> exists d0, In d0 processed
                 /\ findParent defs0 d0 (ancestorsOf rootNode d0) = Some k
                 /\ nonEmptyString (id d0) = Some ci.
Proof.
  unfold linkedChildren. rewrite list_elem_of_In, List.in_flat_map. split.
  - intros (d0 & Hd0 & Hin). case_bool_decide as Hf; [|destruct Hin].
    unfold pushedId in Hin. destruct (nonEmptyString (id d0)) as [x|] eqn:E; [|destruct Hin].
    destruct Hin as [<- | []]. eauto.
  - intros (d0 & Hd0 & Hf & E). exists d0. split; [done|].
    rewrite bool_decide_eq_true_2 by done. unfold pushedId. rewrite E. by left.
Qed.

Lemma linkedChildren_NoDup defs0 processed k :
  NoDup (omap (fun d => nonEmptyString (id d)) processed) ->
  NoDup (linkedChildren rootNode defs0 processed k).
Proof.
  unfold linkedChildren. induction processed as [|d0 l IH]; [constructor|].
  cbn [omap list_omap flat_map]. intros Hnd.
  assert (Hl : NoDup (omap (fun d => nonEmptyString (id d)) l)).
  { destruct (nonEmptyString (id d0)); [by apply NoDup_cons in Hnd as [_ ?] | done]. }
  case_bool_decide; [|by apply IH].
  unfold pushedId. destruct (nonEmptyString (id d0)) as [x|] eqn:E; [|by apply IH].
  cbn [app]. apply NoDup_cons in Hnd as [Hni _]. apply NoDup_cons. split; [|by apply IH].
  intros Hx. apply Hni. fold (linkedChildren rootNode defs0 l k) in Hx.
  apply elem_of_linkedChildren in Hx as (c & Hc & _ & Ec).
  apply list_elem_of_omap. exists c. split; [by apply list_elem_of_In | done].
Qed.

(** Linking a list of fresh definitions, with distinct ids, makes its
    links consistent. *)
Lemma linkParents_consistent defs0 :
  uniqueIds defs0 ->
  Forall (fun d => is_Some (nonEmptyString (id d))) defs0 ->
  Forall (fun d => parentId d = None /\ children d = Some []) defs0 ->
  consistentLinks (linkParents rootNode defs0).
Proof.
  intros Hu Hids Hfresh.
  destruct (linkParents_spec rootNode defs0) as [Hshape Hpar].
  assert (Hsome : Forall (fun d0 => is_Some (children d0)) defs0).
  { eapply Forall_impl; [exact Hfresh|]. intros d [_ ->]. by eexists. }
  set (out := linkParents rootNode defs0) in *.
  (* every element of [out] with what it was *)
  assert (Hat : forall d, In d out ->
            exists k d0, out !! k = Some d /\ defs0 !! k = Some d0 /\ id d = id d0
                         /\ parentId d = linkedParentId rootNode defs0 d0
                         /\ children d = Some (linkedChildren rootNode defs0 defs0 k)
                         /\ parentId d0 = None
                         /\ exists i, nonEmptyString (id d0) = Some i).
  { intros d Hd. apply list_elem_of_In, list_elem_of_lookup in Hd as [k Hk].
    pose proof (Forall2_lookup_r _ _ _ _ _ Hshape Hk) as (d0 & Hk0 & Hsame).
    exists k, d0. split; [done|]. split; [done|].
    rewrite Forall_forall in Hfresh, Hids.
    pose proof (list_elem_of_lookup_2 _ _ _ Hk0) as Hin0.
    destruct (Hfresh d0 Hin0) as [Hp Hc].
    split; [by apply sameButLinks_fields in Hsame as (<- & _)|].
    split; [by apply Hpar with (k := k)|].
    split; [|split; [done | apply Hids, Hin0]].
    unfold out. rewrite (linkParents_children defs0 k d0 d Hsome Hk0 Hk), Hc. done. }
  assert (Hidx : forall i j a b x, defs0 !! i = Some a -> defs0 !! j = Some b ->
            nonEmptyString (id a) = Some x -> id b = Some x -> i = j).
  { intros i j a b x Hi Hj Ea Eb. eapply uniqueIds_index; eauto.
    rewrite Eb. apply nonEmptyString_of_Some. by apply nonEmptyString_Some in Ea as [_ ?]. }
  split.
  - split; [by eapply uniqueIds_sameButLinks|].
    apply Forall_forall. intros d Hd. apply list_elem_of_In in Hd.
    destruct (Hat d Hd) as (k & d0 & _ & _ & -> & _ & _ & _ & Hi). done.
  - intros c p ci Hc Hp Hci.
    destruct (Hat c Hc) as (i & c0 & Hi & Hi0 & Eic & Epc & _ & Hnone & xi & Hxi).
    destruct (Hat p Hp) as (j & p0 & Hj & Hj0 & Eip & _ & Ecp & _ & xj & Hxj).
    rewrite Ecp. cbn [optList default from_option]. unfold Datatypes.id.
    rewrite elem_of_linkedChildren.
    rewrite Epc. unfold linkedParentId. rewrite Hnone.
    assert (xi = ci) as ->.
    { apply nonEmptyString_Some in Hxi as [Hxi _]. congruence. }
    split.
    + intros Hpar'. exists c0. split; [by eapply list_elem_of_In, list_elem_of_lookup_2|].
      split; [|done].
      destruct (findParent defs0 c0 (ancestorsOf rootNode c0)) as [j'|] eqn:Hfind.
      2: { rewrite Eip in Hpar'. apply nonEmptyString_Some in Hxj as [Hxj _]. congruence. }
      f_equal.
      pose proof (findParent_lt _ _ _ _ Hfind) as Hlt.
      destruct (lookup_lt_is_Some_2 defs0 j' Hlt) as [q0 Hq0].
      rewrite Hq0 in Hpar'. cbn in Hpar'.
      eapply (Hidx j' j q0 p0 xj); eauto.
      * rewrite Hpar', Eip. done.
      * by apply nonEmptyString_Some in Hxj as [? _].
    + intros (c1 & Hc1 & Hfind & Hid1).
      apply list_elem_of_In, list_elem_of_lookup in Hc1 as [i' Hi'].
      assert (i' = i) as ->.
      { eapply (Hidx i' i c1 c0 ci); eauto.
        by apply nonEmptyString_Some in Hxi as [? _]. }
      assert (c1 = c0) as -> by congruence.
      rewrite Hfind, Hj0. cbn. congruence.
  - intros p Hp. destruct (Hat p Hp) as (j & p0 & _ & _ & _ & _ & -> & _).
    cbn [optList default from_option]. unfold Datatypes.id.
    apply linkedChildren_NoDup. exact Hu.
  - intros p ci Hp Hci. destruct (Hat p Hp) as (j & p0 & _ & _ & _ & _ & Ecp & _).
    rewrite Ecp in Hci. cbn [optList default from_option] in Hci.
    unfold Datatypes.id in Hci.
    apply elem_of_linkedChildren in Hci as (c0 & Hc0 & _ & Hid0).
    apply list_elem_of_In, list_elem_of_lookup in Hc0 as [i Hi0].
    destruct (Forall2_lookup_l _ _ _ _ _ Hshape Hi0) as (c & Hi & Hsame).
    exists c. split; [by eapply list_elem_of_In, list_elem_of_lookup_2|].
    apply sameButLinks_fields in Hsame as (<- & _).
    by apply nonEmptyString_Some in Hid0 as [? _].
  - intros c pid Hc Hpid.
    destruct (Hat c Hc) as (i & c0 & _ & _ & _ & Epc & _ & Hnone & _).
    rewrite Epc in Hpid. unfold linkedParentId in Hpid. rewrite Hnone in Hpid.
    destruct (findParent defs0 c0 (ancestorsOf rootNode c0)) as [j|] eqn:Hfind;
      [|discriminate].
    pose proof (findParent_lt _ _ _ _ Hfind) as Hlt.
    destruct (lookup_lt_is_Some_2 defs0 j Hlt) as [q0 Hq0].
    rewrite Hq0 in Hpid. cbn in Hpid.
    destruct (Forall2_lookup_l _ _ _ _ _ Hshape Hq0) as (q & Hq & Hsame).
    exists q. split; [by eapply list_elem_of_In, list_elem_of_lookup_2|].
    apply sameButLinks_fields in Hsame as (<- & _). done.
Qed.

End LinkingChildren.

Lemma filter_all {A} (f : A -> bool) (l : list A) :
  (forall x, In x l -> f x = true) -> List.filter f l = l.
Proof.
  induction l as [|x l IH]; intros Hf; simpl; [done|].
  rewrite (Hf x) by (by left). f_equal. apply IH. intros y Hy. apply Hf. by right.
Qed.

Lemma set_children_same d c : children d = Some c -> set_children (Some c) d = d.
Proof. destruct d. cbn. by intros ->. Qed.

Section UnfilteredProofs.
Context `{RegExpEngine}.

(** When every definition of a list whose links are consistent
    survives, the filter changes nothing in it, apart from the order. *)
Lemma applyFilters_all_survive out fo :
  consistentLinks out ->
  (forall d, In d out -> isMeta d = false) ->
  (forall d, In d out -> survives out fo d) ->
  applyFiltersToDefinitions out fo = sort byStartLine out.
Proof.
  intros [[Hu Hids] _ _ Hchildren Hparent] Hmeta Hall.
  rewrite applyFiltersToDefinitions_unsorted. f_equal. unfold unsorted.
  assert (Hnometa : metaEntries out = []).
  { unfold metaEntries. apply filter_none. exact Hmeta. }
  rewrite Hnometa. cbn [map app].
  assert (Hkept : keptEntries out fo = out).
  { unfold keptEntries. apply filter_all. intros d Hd. by apply (Hall d Hd). }
  unfold finalIds. rewrite Hkept.
  transitivity (map (fun d => d) out); [|apply List.map_id].
  apply map_ext_in. intros d Hd. unfold rebuild.
  assert (Hc : match children d with
               | Some c =>
                   set_children
                     (Some (List.filter (fun childId => bool_decide (childId ∈ idSet out)) c)) d
               | None => d
               end = d).
  { destruct (children d) as [c|] eqn:Ec; [|done].
    rewrite filter_all; [by apply set_children_same|].
    intros ci Hci. apply bool_decide_eq_true, elem_of_idSet.
    apply (Hchildren d ci Hd). rewrite Ec. by apply list_elem_of_In. }
  rewrite Hc.
  destruct (nonEmptyString (parentId d)) as [pid|] eqn:Hpid; [|done].
  rewrite bool_decide_eq_true_2; [done|].
  apply elem_of_idSet. apply (Hparent d pid Hd).
  by apply nonEmptyString_Some in Hpid as [? _].
Qed.

(** A filter that every definition passes changes nothing in a list
    whose links are consistent, apart from the order. *)
Lemma applyFilters_all_pass out fo :
  consistentLinks out ->
  (forall d, In d out -> isMeta d = false) ->
  (forall d, In d out -> basicFilter fo d = true) ->
  applyFiltersToDefinitions out fo = sort byStartLine out.
Proof.
  intros Hlinks Hmeta Hpass. apply applyFilters_all_survive; [done | done |].
  intros d Hd. apply (selected_survives out fo d). split.
  - unfold basicFilteredEntries, nonMetaEntries. rewrite !List.filter_In.
    by rewrite (Hmeta d Hd), (Hpass d Hd).
  - destruct Hlinks as [[_ Hids] _ _ _ _].
    rewrite Forall_forall in Hids. by apply Hids, list_elem_of_In.
Qed.

End UnfilteredProofs.

Section PipelineLinks.
Context `{RegExpEngine} `{TreeSitter} `{Host}.

(** What the pipeline returns: a lone error definition, or definitions
    with consistent links. *)
Lemma hierarchy_links_consistent_aux (code filePath : string) (out : list Def) :
  parseCodeWithTreeSitter code filePath = inl out ->
  (exists n, out = [errorDefinition n])
  \/ ((forall d, In d out -> isMeta d = false) /\ consistentLinks out).
Proof.
  intros Hparse.
  apply parseCodeWithTreeSitter_parsed in Hparse
    as [n -> | language rootNode langQueries Hlang Hroot Hq ->]; [left; by exists n|].
  right.
  destruct (extractDefinitions_extractInv language langQueries code rootNode _ Hq)
    as (Hex & Hu & Hids).
  split.
  - intros d Hd.
    destruct (linkParents_spec rootNode
                (extractDefinitions language langQueries code rootNode)) as [Hshape _].
    apply list_elem_of_In, list_elem_of_lookup in Hd as [k Hk].
    pose proof (Forall2_lookup_r _ _ _ _ _ Hshape Hk) as (d0 & Hk0 & Hsame).
    rewrite Forall_forall in Hex.
    destruct (Hex d0 ltac:(by eapply list_elem_of_lookup_2)) as (_ & _ & _ & Hnm).
    apply sameButLinks_fields in Hsame as (_ & Et & _).
    unfold isMeta in *. congruence.
  - apply linkParents_consistent; [done | done |].
    eapply Forall_impl; [exact Hex|]. by intros d (? & ? & _).
Qed.

(** X8: the hierarchy that the per-file pipeline returns is consistent.
    Unless the result is a lone error definition, ids are distinct and
    present; a definition is listed among the [children] of the
    definition that its [parentId] names, and of no other; no id is
    listed twice; and every id listed, and every [parentId], is the id
    of a definition of the result. *)
Theorem hierarchy_links_consistent (code filePath : string) (out : list Def) :
  parseCodeWithTreeSitter code filePath = inl out ->
  (exists n, out = [errorDefinition n])
  \/ ((forall d, In d out -> isMeta d = false) /\ consistentLinks out).
Proof. apply hierarchy_links_consistent_aux. Qed.

(** X9: with no filter option set, the filter returns the definitions of
    a file as the pipeline made them, with every field and every link,
    sorted by [startLine]. *)
Theorem unfiltered_result_only_sorted (code filePath : string) (out : list Def) :
  parseCodeWithTreeSitter code filePath = inl out ->
  applyFiltersToDefinitions out noFilter = sort byStartLine out.
Proof.
  intros Hparse.
  destruct (hierarchy_links_consistent_aux code filePath out Hparse)
    as [[n ->] | [Hmeta Hlinks]]; [reflexivity|].
  apply applyFilters_all_pass; [done | done |]. intros d _. reflexivity.
Qed.

End PipelineLinks.

(** ** updateParentChildRelationships *)

Lemma firstSeen_fold l : fold_left Set_add l [] = firstSeen l.
Proof.
  rewrite fold_Set_add. cbn [app]. apply filter_all. intros y _. reflexivity.
Qed.

Lemma firstSeen_snoc l x : firstSeen (l ++ [x]) = Set_add (firstSeen l) x.
Proof. by rewrite <- !firstSeen_fold, fold_left_app. Qed.

Lemma sameButLinks_eq a b :
  sameButLinks a b -> parentId a = parentId b -> children a = children b -> a = b.
Proof.
  unfold sameButLinks, unlinked. destruct a, b. cbn. intros [= -> -> -> -> -> -> -> -> -> -> -> -> -> ->].
  by intros -> ->.
Qed.

(** The index the map holds for an id: the last one that carries it. *)
Lemma idToIndexMap_snoc l d :
  idToIndexMap (l ++ [d])
  = match id d with
    | Some i => <[ i := length l ]> (idToIndexMap l)
    | None => idToIndexMap l
    end.
Proof.
  unfold idToIndexMap. rewrite imap_app, fold_left_app. cbn.
  by rewrite Nat.add_0_r.
Qed.

Lemma idToIndexMap_Some l i j :
  idToIndexMap l !! i = Some j ->
  exists d, l !! j = Some d /\ id d = Some i.
Proof.
  induction l as [|d l IH] using rev_ind;
    [unfold idToIndexMap; cbn; by rewrite lookup_empty|].
  rewrite idToIndexMap_snoc.
  assert (Hold : idToIndexMap l !! i = Some j ->
                 exists d0, (l ++ [d]) !! j = Some d0 /\ id d0 = Some i).
  { intros Hj. destruct (IH Hj) as (d0 & Hd0 & E). exists d0.
    split; [by apply lookup_app_l_Some | done]. }
  destruct (id d) as [k|] eqn:Ek; [|done].
  destruct (decide (k = i)) as [-> | Hk].
  - rewrite lookup_insert_eq. intros [= <-]. exists d.
    split; [|done]. rewrite lookup_app_r by done. by rewrite Nat.sub_diag.
  - by rewrite lookup_insert_ne.
Qed.

Lemma idToIndexMap_is_Some l d i :
  In d l -> id d = Some i -> is_Some (idToIndexMap l !! i).
Proof.
  induction l as [|d' l IH] using rev_ind; [intros []|].
  rewrite idToIndexMap_snoc. intros Hd E.
  apply List.in_app_or in Hd as [Hd | [<- | []]].
  - destruct (id d') as [k|]; [|by apply IH].
    destruct (decide (k = i)) as [-> | Hk];
      [rewrite lookup_insert_eq; by eexists | rewrite lookup_insert_ne by done; by apply IH].
  - rewrite E, lookup_insert_eq. by eexists.
Qed.

Lemma idToIndexMap_sameButLinks l l' :
  Forall2 sameButLinks l l' -> idToIndexMap l' = idToIndexMap l.
Proof.
  intros Hshape. unfold idToIndexMap. f_equal.
  apply list_eq. intros k. rewrite !list_lookup_imap.
  destruct (l !! k) as [a|] eqn:Ha.
  - destruct (Forall2_lookup_l _ _ _ _ _ Hshape Ha) as (b & -> & Hab). cbn.
    by apply sameButLinks_fields in Hab as (-> & _).
  - assert (l' !! k = None) as ->; [|done].
    apply lookup_ge_None. apply lookup_ge_None in Ha.
    by rewrite <- (Forall2_length _ _ _ Hshape).
Qed.

Section RelinkProofs.
Variable defs0 : list Def.
Local Abbreviation M := (idToIndexMap defs0).

Lemma relinkStep_relinked a cur :
  (a < length defs0)%nat -> relinked defs0 a cur ->
  exists cur', relinkStep (idToIndexMap defs0) cur a = Some cur' /\ relinked defs0 (S a) cur'.
Proof.
  intros Ha [Hshape Hinv]. unfold relinkStep.
  destruct (lookup_lt_is_Some_2 defs0 a Ha) as [d0a Hd0a].
  destruct (Forall2_lookup_l _ _ _ _ _ Hshape Hd0a) as (def & Hdef & Hsame).
  rewrite Hdef.
  destruct (Hinv a d0a def Hd0a Hdef) as [Hpa _].
  rewrite bool_decide_eq_false_2 in Hpa by lia.
  pose proof (sameButLinks_fields _ _ Hsame) as (Eid & _).
  (* the children of the next state, for a step that touches none *)
  assert (Hchildren : forall k,
            contribution M k d0a = [] ->
            relinkedChildren M (take (S a) defs0) k = relinkedChildren M (take a defs0) k).
  { intros k Hk. unfold relinkedChildren. rewrite (take_S_r _ _ _ Hd0a), flat_map_app.
    cbn [flat_map]. by rewrite Hk, !app_nil_r. }
  rewrite Hpa.
  destruct (nonEmptyString (parentId d0a)) as [pid|] eqn:Hpid.
  2: { exists cur. split; [done|]. split; [done|]. intros k d0 d Hk0 Hk.
       destruct (Hinv k d0 d Hk0 Hk) as [Hp Hc]. split.
       - rewrite Hp. destruct (decide (k = a)) as [-> | Hka].
         + assert (d0 = d0a) as -> by congruence.
           repeat case_bool_decide; try lia. unfold keptParentId. by rewrite Hpid.
         + repeat case_bool_decide; try lia; done.
       - rewrite Hc, Hchildren; [done|]. unfold contribution. by rewrite Hpid. }
  destruct (M !! pid) as [j|] eqn:Hj.
  - destruct (idToIndexMap_Some _ _ _ Hj) as (p0 & Hp0 & _).
    destruct (Forall2_lookup_l _ _ _ _ _ Hshape Hp0) as (parent & Hparent & Hpsame).
    rewrite Hparent. cbn. eexists. split; [reflexivity|].
    assert (Hltj : (j < length cur)%nat) by (by eapply lookup_lt_Some).
    split.
    + rewrite <- (list_insert_id defs0 j p0 Hp0). apply Forall2_insert; [done|].
      eapply sameButLinks_trans; [exact Hpsame | apply sameButLinks_set_children].
    + intros k d0 d Hk0 Hk.
      destruct (decide (k = j)) as [-> | Hkj].
      * rewrite list_lookup_insert_eq in Hk by done. injection Hk as <-. cbn.
        assert (d0 = p0) as -> by congruence.
        destruct (Hinv j p0 parent Hp0 Hparent) as [Hp Hc]. split.
        -- rewrite Hp. destruct (decide (j = a)) as [-> | Hja].
           ++ assert (p0 = d0a) as -> by congruence.
              repeat case_bool_decide; try lia. unfold keptParentId.
              by rewrite Hpid, Hj.
           ++ repeat case_bool_decide; try lia; done.
        -- rewrite Hc. cbn [optList default from_option]. unfold Datatypes.id.
           unfold relinkedChildren. rewrite (take_S_r _ _ _ Hd0a), flat_map_app.
           cbn [flat_map]. rewrite app_nil_r.
           assert (Hcontrib : contribution M j d0a = pushedId d0a).
           { unfold contribution. by rewrite Hpid, bool_decide_eq_true_2. }
           rewrite Hcontrib. unfold pushedId. rewrite Eid.
           destruct (nonEmptyString (id def)) as [defId|];
             [by rewrite firstSeen_snoc | by rewrite app_nil_r].
      * rewrite list_lookup_insert_ne in Hk by done.
        destruct (Hinv k d0 d Hk0 Hk) as [Hp Hc]. split.
        -- rewrite Hp. destruct (decide (k = a)) as [-> | Hka].
           ++ assert (d0 = d0a) as -> by congruence.
              repeat case_bool_decide; try lia. unfold keptParentId.
              by rewrite Hpid, Hj.
           ++ repeat case_bool_decide; try lia; done.
        -- rewrite Hc, Hchildren; [done|]. unfold contribution.
           rewrite Hpid, bool_decide_eq_false_2; [done | congruence].
  - eexists. split; [reflexivity|].
    assert (Hlta : (a < length cur)%nat) by (by eapply lookup_lt_Some).
    split.
    + rewrite <- (list_insert_id defs0 a d0a Hd0a). apply Forall2_insert; [done|].
      eapply sameButLinks_trans; [exact Hsame | apply sameButLinks_set_parentId].
    + intros k d0 d Hk0 Hk.
      assert (Hnone : relinkedChildren M (take (S a) defs0) k
                      = relinkedChildren M (take a defs0) k).
      { apply Hchildren. unfold contribution.
        rewrite Hpid, bool_decide_eq_false_2; [done | congruence]. }
      destruct (decide (k = a)) as [-> | Hka].
      * rewrite list_lookup_insert_eq in Hk by done. injection Hk as <-. cbn.
        assert (d0 = d0a) as -> by congruence.
        destruct (Hinv a d0a def Hd0a Hdef) as [_ Hc]. split.
        -- repeat case_bool_decide; try lia. unfold keptParentId. by rewrite Hpid, Hj.
        -- by rewrite Hc, Hnone.
      * rewrite list_lookup_insert_ne in Hk by done.
        destruct (Hinv k d0 d Hk0 Hk) as [Hp Hc]. split.
        -- rewrite Hp. repeat case_bool_decide; try lia; done.
        -- by rewrite Hc, Hnone.
Qed.

Lemma relink_fold n a cur :
  (a + n <= length defs0)%nat -> relinked defs0 a cur ->
  exists out,
    fold_left (fun state index =>
                 definitions ← state; relinkStep (idToIndexMap defs0) definitions index)
              (seq a n) (Some cur) = Some out
    /\ relinked defs0 (a + n) out.
Proof.
  revert a cur. induction n as [|n IH]; intros a cur Hlen Hinv; cbn [seq fold_left].
  - exists cur. by rewrite Nat.add_0_r.
  - destruct (relinkStep_relinked a cur) as (cur' & Hstep & Hinv'); [lia | done |].
    cbn. rewrite Hstep. replace (a + S n)%nat with (S a + n)%nat by lia.
    apply IH; [lia | done].
Qed.

(** The function returns, and what it returns. *)
Lemma updateParentChildRelationships_spec :
  exists out,
    updateParentChildRelationships defs0 = Some out
    /\ Forall2 sameButLinks defs0 out
    /\ forall k d0 d, defs0 !! k = Some d0 -> out !! k = Some d ->
         parentId d = keptParentId (idToIndexMap defs0) d0
         /\ children d = Some (relinkedChildren (idToIndexMap defs0) defs0 k).
Proof.
  unfold updateParentChildRelationships. rewrite length_map.
  destruct (relink_fold (length defs0) 0 (map (set_children (Some [])) defs0))
    as (out & Hout & Hshape & Hinv); [lia | |].
  - split.
    + apply Forall2_same_length_lookup_2; [by rewrite length_map|].
      intros i x y Hx Hy. rewrite list_lookup_fmap, Hx in Hy. injection Hy as <-.
      apply sameButLinks_set_children.
    + intros k d0 d Hk0 Hk. rewrite list_lookup_fmap, Hk0 in Hk. injection Hk as <-.
      split; [by rewrite bool_decide_eq_false_2 by lia|]. reflexivity.
  - exists out. split; [done|]. split; [done|].
    intros k d0 d Hk0 Hk. destruct (Hinv k d0 d Hk0 Hk) as [Hp Hc].
    cbn [Nat.add] in Hp, Hc. rewrite firstn_all in Hc.
    apply lookup_lt_Some in Hk0. by rewrite bool_decide_eq_true_2 in Hp by lia.
Qed.

End RelinkProofs.

Lemma flat_map_Forall2 {A B C} (R : A -> B -> Prop) (f : A -> list C) (g : B -> list C) l l' :
  Forall2 R l l' -> (forall x y, R x y -> f x = g y) -> flat_map f l = flat_map g l'.
Proof.
  intros Hl Hfg. induction Hl as [|x y l l' Hxy _ IH]; [done|].
  cbn [flat_map]. by rewrite (Hfg x y Hxy), IH.
Qed.

Lemma elem_of_relinkedChildren M defs j ci :
  ci ∈ relinkedChildren M defs j
  <-> exists d0 pid, In d0 defs /\ nonEmptyString (parentId d0) = Some pid
                     /\ M !! pid = Some j /\ nonEmptyString (id d0) = Some ci.
Proof.
  unfold relinkedChildren. rewrite list_elem_of_In, firstSeen_In, List.in_flat_map. split.
  - intros (d0 & Hd0 & Hin). unfold contribution in Hin.
    destruct (nonEmptyString (parentId d0)) as [pid|] eqn:Hpid; [|destruct Hin].
    case_bool_decide as Hj; [|destruct Hin]. unfold pushedId in Hin.
    destruct (nonEmptyString (id d0)) as [x|] eqn:E; [|destruct Hin].
    destruct Hin as [<- | []]. eauto 10.
  - intros (d0 & pid & Hd0 & Hpid & Hj & E). exists d0. split; [done|].
    unfold contribution. rewrite Hpid, bool_decide_eq_true_2 by done.
    unfold pushedId. rewrite E. by left.
Qed.

Section RelinkTheorems.

(** X10: [updateParentChildRelationships] returns for every array, with
    the same definitions in the same order, changed in [parentId] and
    [children] alone; every definition then has a [children] array,
    without duplicates; a [parentId] that names an id of the array is
    kept, and one that names none is removed. *)
Theorem relinking_returns (definitions : list Def) :
  exists out,
    updateParentChildRelationships definitions = Some out
    /\ Forall2 sameButLinks definitions out
    /\ length out = length definitions
    /\ (forall p, In p out -> exists c, children p = Some c /\ NoDup c)
    /\ (forall k d0 d pid,
          definitions !! k = Some d0 -> out !! k = Some d ->
          nonEmptyString (parentId d0) = Some pid ->
          ((exists p, In p definitions /\ id p = Some pid) -> parentId d = Some pid)
          /\ ((forall p, In p definitions -> id p <> Some pid) -> parentId d = None))
    /\ (forall k d0 d,
          definitions !! k = Some d0 -> out !! k = Some d ->
          nonEmptyString (parentId d0) = None -> parentId d = parentId d0).
Proof.
  destruct (updateParentChildRelationships_spec definitions) as (out & Hout & Hshape & Hspec).
  exists out. split; [done|]. split; [done|].
  split; [symmetry; by eapply Forall2_length|]. split; [|split].
  - intros p Hp. apply list_elem_of_In, list_elem_of_lookup in Hp as [k Hk].
    destruct (Forall2_lookup_r _ _ _ _ _ Hshape Hk) as (p0 & Hk0 & _).
    destruct (Hspec k p0 p Hk0 Hk) as [_ Hc]. eexists. split; [exact Hc|].
    apply NoDup_ListNoDup, firstSeen_NoDup.
  - intros k d0 d pid Hk0 Hk Hpid. destruct (Hspec k d0 d Hk0 Hk) as [Hp _].
    rewrite Hp. unfold keptParentId. rewrite Hpid.
    pose proof (nonEmptyString_Some _ _ Hpid) as [Epid _].
    destruct (idToIndexMap definitions !! pid) as [j|] eqn:Hj.
    + split; [done|]. intros Hnone.
      destruct (idToIndexMap_Some _ _ _ Hj) as (p & Hp' & E).
      destruct (Hnone p); [by eapply list_elem_of_In, list_elem_of_lookup_2 | done].
    + split; [|done]. intros (p & Hp' & E).
      destruct (idToIndexMap_is_Some definitions p pid Hp' E) as [j Hj']. congruence.
  - intros k d0 d Hk0 Hk Hpid. destruct (Hspec k d0 d Hk0 Hk) as [Hp _].
    rewrite Hp. unfold keptParentId. by rewrite Hpid.
Qed.

(** X11: after [updateParentChildRelationships] the links agree. Every
    [parentId] left names a definition of the array, every id listed
    among [children] is the id of a definition whose [parentId] names an
    id of the array, and, when the ids of the array are distinct, a
    definition is listed by the definition that its [parentId] names
    and by no other. *)
Theorem relinking_makes_links_agree (definitions : list Def) :
  exists out,
    updateParentChildRelationships definitions = Some out
    /\ (forall c pid, In c out -> nonEmptyString (parentId c) = Some pid ->
          exists p, In p out /\ id p = Some pid)
    /\ (forall p ci, In p out -> ci ∈ optList (children p) ->
          exists c pid, In c out /\ id c = Some ci /\ parentId c = Some pid
                        /\ exists q, In q out /\ id q = Some pid)
    /\ (uniqueIds definitions ->
        forall c p ci pi, In c out -> In p out ->
          nonEmptyString (id c) = Some ci -> nonEmptyString (id p) = Some pi ->
          (parentId c = id p <-> ci ∈ optList (children p))).
Proof.
  destruct (updateParentChildRelationships_spec definitions) as (out & Hout & Hshape & Hspec).
  exists out. split; [done|].
  set (M := idToIndexMap definitions).
  (* every element of [out] with what it was *)
  assert (Hat : forall d, In d out ->
            exists k d0, out !! k = Some d /\ definitions !! k = Some d0 /\ id d = id d0
                         /\ parentId d = keptParentId M d0
                         /\ children d = Some (relinkedChildren M definitions k)).
  { intros d Hd. apply list_elem_of_In, list_elem_of_lookup in Hd as [k Hk].
    destruct (Forall2_lookup_r _ _ _ _ _ Hshape Hk) as (d0 & Hk0 & Hsame).
    destruct (Hspec k d0 d Hk0 Hk) as [Hp Hc]. exists k, d0.
    by apply sameButLinks_fields in Hsame as (<- & _). }
  assert (Hfrom : forall k d0, definitions !! k = Some d0 ->
            exists d, out !! k = Some d /\ In d out /\ id d = id d0
                      /\ parentId d = keptParentId M d0).
  { intros k d0 Hk0. destruct (Forall2_lookup_l _ _ _ _ _ Hshape Hk0) as (d & Hk & Hsame).
    destruct (Hspec k d0 d Hk0 Hk) as [Hp _]. exists d. split; [done|].
    split; [by eapply list_elem_of_In, list_elem_of_lookup_2|].
    by apply sameButLinks_fields in Hsame as (<- & _). }
  assert (Hkept : forall d0 pid, keptParentId M d0 = Some pid -> pid <> EmptyString ->
            nonEmptyString (parentId d0) = Some pid /\ is_Some (M !! pid)).
  { intros d0 pid Hk Hne. unfold keptParentId in Hk.
    destruct (nonEmptyString (parentId d0)) as [x|] eqn:Hx.
    - destruct (M !! x) eqn:Hm; [|discriminate].
      pose proof (nonEmptyString_Some _ _ Hx) as [Hx' _].
      assert (x = pid) as -> by congruence.
      split; [done | by eexists].
    - rewrite Hk in Hx. by rewrite nonEmptyString_of_Some in Hx. }
  split; [|split].
  - intros c pid Hc Hpid. destruct (Hat c Hc) as (k & c0 & _ & _ & _ & Hp & _).
    pose proof (nonEmptyString_Some _ _ Hpid) as [Epid Hne]. rewrite Hp in Epid.
    destruct (Hkept c0 pid Epid Hne) as [_ [j Hj]].
    destruct (idToIndexMap_Some _ _ _ Hj) as (p0 & Hp0 & E).
    destruct (Hfrom j p0 Hp0) as (p & _ & Hpin & Eid & _).
    exists p. split; [done | congruence].
  - intros p ci Hp Hci. destruct (Hat p Hp) as (j & p0 & _ & _ & _ & _ & Hc).
    rewrite Hc in Hci. cbn [optList default from_option] in Hci. unfold Datatypes.id in Hci.
    apply elem_of_relinkedChildren in Hci as (c0 & pid & Hc0 & Hpid & Hj & Hid).
    apply list_elem_of_In, list_elem_of_lookup in Hc0 as [i Hi0].
    destruct (Hfrom i c0 Hi0) as (c & _ & Hcin & Eid & Epar).
    destruct (idToIndexMap_Some _ _ _ Hj) as (q0 & Hq0 & Eq0).
    destruct (Hfrom j q0 Hq0) as (q & _ & Hqin & Eidq & _).
    exists c, pid. split; [done|].
    split; [rewrite Eid; by apply nonEmptyString_Some in Hid as [? _]|].
    split; [|exists q; split; [done | congruence]].
    rewrite Epar. unfold keptParentId. fold M. rewrite Hpid, Hj.
    by apply nonEmptyString_Some in Hpid as [? _].
  - intros Hu c p ci pi Hc Hp Hci Hpi.
    destruct (Hat c Hc) as (i & c0 & _ & Hi0 & Eic & Epc & _).
    destruct (Hat p Hp) as (j & p0 & _ & Hj0 & Eip & _ & Ecp).
    rewrite Ecp. cbn [optList default from_option]. unfold Datatypes.id.
    rewrite elem_of_relinkedChildren.
    pose proof (nonEmptyString_Some _ _ Hpi) as [Epi Hpine].
    split.
    + intros Hpar. exists c0, pi.
      split; [by eapply list_elem_of_In, list_elem_of_lookup_2|].
      rewrite Epc, Epi in Hpar. destruct (Hkept c0 pi Hpar Hpine) as [Hpid [j' Hj']].
      split; [done|]. split; [|by rewrite <- Eic].
      destruct (idToIndexMap_Some _ _ _ Hj') as (q0 & Hq0 & Eq0).
      assert (j' = j) as ->; [|done].
      eapply (uniqueIds_index definitions j' j q0 p0 pi); eauto.
      * rewrite Eq0. by apply nonEmptyString_of_Some.
      * by rewrite <- Eip.
    + intros (c1 & pid & Hc1 & Hpid & Hj & Hid1).
      apply list_elem_of_In, list_elem_of_lookup in Hc1 as [i' Hi'].
      assert (i' = i) as ->.
      { eapply (uniqueIds_index definitions i' i c1 c0 ci); eauto. by rewrite <- Eic. }
      assert (c1 = c0) as -> by congruence.
      rewrite Epc. unfold keptParentId. fold M. rewrite Hpid, Hj.
      destruct (idToIndexMap_Some _ _ _ Hj) as (q0 & Hq0 & Eq0).
      assert (q0 = p0) as -> by congruence.
      rewrite Eip, Eq0. by apply nonEmptyString_Some in Hpid as [? _].
Qed.

(** X12: [updateParentChildRelationships] is idempotent: applied to its
    own result it returns it unchanged. *)
Theorem relinking_idempotent (definitions : list Def) :
  exists out,
    updateParentChildRelationships definitions = Some out
    /\ updateParentChildRelationships out = Some out.
Proof.
  destruct (updateParentChildRelationships_spec definitions) as (out & Hout & Hshape & Hspec).
  exists out. split; [done|].
  destruct (updateParentChildRelationships_spec out) as (out2 & Hout2 & Hshape2 & Hspec2).
  rewrite Hout2. f_equal.
  rewrite (idToIndexMap_sameButLinks _ _ Hshape) in Hspec2.
  set (M := idToIndexMap definitions) in *.
  assert (Hrel : Forall2 (fun x y => id x = id y /\ parentId y = keptParentId M x)
                         definitions out).
  { apply Forall2_same_length_lookup_2; [by eapply Forall2_length|].
    intros k x y Hx Hy. destruct (Hspec k x y Hx Hy) as [Hp _]. split; [|done].
    destruct (Forall2_lookup_l _ _ _ _ _ Hshape Hx) as (y' & Hy' & Hsame).
    assert (y' = y) as -> by congruence.
    by apply sameButLinks_fields in Hsame as (? & _). }
  assert (Hkeep : forall x y, parentId y = keptParentId M x -> keptParentId M y = parentId y).
  { intros x y Hy. unfold keptParentId in *.
    destruct (nonEmptyString (parentId x)) as [pid|] eqn:Hpid.
    - destruct (M !! pid) eqn:Hm.
      + rewrite Hy, Hpid, Hm. done.
      + by rewrite Hy.
    - by rewrite Hy, Hpid. }
  assert (Hcontrib : forall j, flat_map (contribution M j) out
                               = flat_map (contribution M j) definitions).
  { intros j. symmetry. eapply flat_map_Forall2; [exact Hrel|].
    intros x y [Eid Hy]. unfold contribution, pushedId. rewrite Eid, Hy.
    unfold keptParentId.
    destruct (nonEmptyString (parentId x)) as [pid|] eqn:Hpid.
    - destruct (M !! pid) eqn:Hm; [by rewrite Hpid, Hm|].
      cbn. rewrite bool_decide_eq_false_2; [done | congruence].
    - by rewrite Hpid. }
  apply list_eq_same_length with (n := length out);
    [done | symmetry; by eapply Forall2_length |].
  intros k y2 y _ Hy2 Hy.
  destruct (Forall2_lookup_r _ _ _ _ _ Hshape Hy) as (x & Hx & _).
  destruct (Hspec k x y Hx Hy) as [Hp Hc].
  destruct (Hspec2 k y y2 Hy Hy2) as [Hp2 Hc2].
  symmetry. apply sameButLinks_eq.
  - destruct (Forall2_lookup_l _ _ _ _ _ Hshape2 Hy) as (y2' & Hy2' & Hsame).
    by assert (y2' = y2) as -> by congruence.
  - rewrite Hp2. symmetry. by eapply Hkeep.
  - rewrite Hc, Hc2. unfold relinkedChildren. by rewrite Hcontrib.
Qed.

End RelinkTheorems.

(** ** escapeRegExp *)

Lemma append_cons c s t : String c s +:+ t = String c (s +:+ t).
Proof. reflexivity. Qed.

Lemma append_nil t : EmptyString +:+ t = t.
Proof. reflexivity. Qed.

Lemma append_assoc a b c : (a +:+ b) +:+ c = a +:+ (b +:+ c).
Proof. induction a as [|x a IH]; [done|]. by rewrite !append_cons, IH. Qed.

Lemma escapeRegExp_app s t : escapeRegExp (s +:+ t) = escapeRegExp s +:+ escapeRegExp t.
Proof.
  induction s as [|c s IH]; [done|]. rewrite append_cons. cbn [escapeRegExp].
  destruct (bool_decide (c ∈ regExpSpecials)); rewrite ?append_cons; by rewrite IH.
Qed.

Lemma readLiteral_escapeRegExp s : readLiteral (escapeRegExp s) = Some s.
Proof.
  induction s as [|c s IH]; [done|]. cbn [escapeRegExp].
  destruct (bool_decide (c ∈ regExpSpecials)) eqn:Hc.
  - cbn [readLiteral]. rewrite Ascii.eqb_refl, Hc, IH. done.
  - cbn [readLiteral]. rewrite Hc, IH.
    destruct (Ascii.eqb_spec c "\"%char) as [-> | _]; [|done].
    apply bool_decide_eq_false in Hc. destruct Hc. unfold regExpSpecials. set_solver.
Qed.

Lemma escapeRegExp_length s :
  String.length (escapeRegExp s)
  = (String.length s
     + length (List.filter (fun c => bool_decide (c ∈ regExpSpecials)) (chars s)))%nat.
Proof.
  unfold chars. induction s as [|c s IH]; [done|]. cbn [escapeRegExp list_ascii_of_string
                                                        List.filter String.length].
  destruct (bool_decide (c ∈ regExpSpecials)); cbn [String.length length]; lia.
Qed.

Lemma escapeRegExp_plain s :
  escapeRegExp s = s <-> forall c, In c (chars s) -> c ∉ regExpSpecials.
Proof.
  split.
  - intros E c Hc Hs. pose proof (escapeRegExp_length s) as Hlen. rewrite E in Hlen.
    assert (Hin : In c (List.filter (fun c => bool_decide (c ∈ regExpSpecials)) (chars s))).
    { apply List.filter_In. split; [done | by apply bool_decide_eq_true]. }
    destruct (List.filter _ (chars s)); [destruct Hin | cbn in Hlen; lia].
  - unfold chars. induction s as [|c s IH]; [done|]. cbn [list_ascii_of_string escapeRegExp].
    intros Hall. rewrite bool_decide_eq_false_2 by (apply Hall; by left).
    f_equal. apply IH. intros x Hx. apply Hall. by right.
Qed.

(** ** The options of the command line *)

Lemma string_includes_comma t :
  string_includes t "," = true <-> In ","%char (chars t).
Proof.
  unfold string_includes, indexOf, chars.
  induction t as [|c t IH]; cbn [String.index list_ascii_of_string In].
  - split; [discriminate | tauto].
  - cbn [String.prefix]. destruct (Ascii.ascii_dec "," c) as [<- | Hne].
    + split; [intros _; by left | intros _; by destruct t].
    + destruct (String.index 0 "," t) as [n|].
      * split; [intros _; right; by apply IH | done].
      * split; [discriminate|]. intros [E | Hin]; [congruence|].
        apply IH in Hin. discriminate.
Qed.

Lemma split_without c s : ~ In c (chars s) -> split c s = [s].
Proof.
  unfold chars. induction s as [|a s IH]; [done|]. cbn [list_ascii_of_string In split].
  intros Hno. destruct (Ascii.eqb_spec a c) as [-> | Hne]; [tauto|].
  rewrite IH by tauto. done.
Qed.

Lemma split_parts c s v : In v (split c s) -> ~ In c (chars v).
Proof.
  unfold chars. revert v. induction s as [|a s IH]; cbn [split]; intros v.
  - intros [<- | []]. tauto.
  - destruct (Ascii.eqb_spec a c) as [-> | Hne].
    + intros [<- | Hv]; [cbn; tauto | by apply IH].
    + destruct (split c s) as [|x xs] eqn:Hs.
      * intros [<- | []]. cbn. tauto.
      * intros [<- | Hv]; [|apply IH; by right].
        cbn [list_ascii_of_string In]. intros [E | Hx]; [congruence|].
        by apply (IH x); [left|].
Qed.

Lemma split_nonempty c s : split c s <> [].
Proof.
  destruct s as [|a s]; cbn [split]; [done|].
  destruct (Ascii.eqb a c); [done|]. by destruct (split c s).
Qed.

Lemma concat_split c s : String.concat (String c EmptyString) (split c s) = s.
Proof.
  induction s as [|a s IH]; [done|]. cbn [split].
  destruct (Ascii.eqb_spec a c) as [-> | Hne].
  - pose proof (split_nonempty c s).
    destruct (split c s) as [|x xs]; [done|]. cbn [String.concat] in *.
    by rewrite append_cons, append_nil, IH.
  - destruct (split c s) as [|x xs] eqn:Hs; [by apply split_nonempty in Hs|].
    destruct xs as [|y ys]; [cbn [String.concat] in *; by rewrite IH|].
    change (String.concat (String c EmptyString) (String a x :: y :: ys))
      with (String a x +:+ String c EmptyString
            +:+ String.concat (String c EmptyString) (y :: ys)).
    change (String.concat (String c EmptyString) (x :: y :: ys))
      with (x +:+ String c EmptyString
            +:+ String.concat (String c EmptyString) (y :: ys)) in IH.
    by rewrite append_cons, IH.
Qed.

Lemma concat_app sep l1 l2 :
  l1 <> [] -> l2 <> [] ->
  String.concat sep (l1 ++ l2) = String.concat sep l1 +:+ sep +:+ String.concat sep l2.
Proof.
  intros H1 H2. induction l1 as [|x l1 IH]; [done|].
  destruct l1 as [|y l1].
  - cbn [app String.concat]. by destruct l2.
  - cbn [app String.concat] in *. rewrite IH by done.
    by rewrite !append_assoc.
Qed.

Lemma commaSeparated_split values : commaSeparated values = flat_map (split ",") values.
Proof.
  unfold commaSeparated. apply flat_map_ext. intros t.
  destruct (string_includes t ",") eqn:Ht; [done|].
  rewrite split_without; [done|]. intros Hin. apply string_includes_comma in Hin. congruence.
Qed.

Section StringTheorems.

(** X13: [escapeRegExp] escapes every character that is special in a
    regular expression and nothing else: the pattern it returns is made
    of plain characters and of escaped special characters, and read
    literally it is the string given; so two strings never give the same
    pattern, the pattern of a concatenation is the concatenation of the
    patterns, and a string is returned unchanged exactly when it holds
    no special character. *)
Theorem escapeRegExp_literal (s : string) :
  readLiteral (escapeRegExp s) = Some s
  /\ (forall t, escapeRegExp s = escapeRegExp t -> s = t)
  /\ (forall t, escapeRegExp (s +:+ t) = escapeRegExp s +:+ escapeRegExp t)
  /\ (escapeRegExp s = s <-> forall c, In c (chars s) -> c ∉ regExpSpecials)
  /\ String.length (escapeRegExp s)
     = (String.length s
        + length (List.filter (fun c => bool_decide (c ∈ regExpSpecials)) (chars s)))%nat.
Proof.
  split; [apply readLiteral_escapeRegExp|]. split.
  - intros t E. apply (f_equal readLiteral) in E.
    rewrite !readLiteral_escapeRegExp in E. congruence.
  - split; [intros t; apply escapeRegExp_app|].
    split; [apply escapeRegExp_plain | apply escapeRegExp_length].
Qed.

(** X14: the lists of the command line are split at commas and at
    nothing else: no value of the result holds a comma, the values
    joined by commas are the ones given joined by commas, values
    without a comma are kept as they are, and one option holding
    comma-separated values stands for the same list as the values given
    one by one. *)
Theorem comma_separated_values (values : list string) :
  (forall v, In v (commaSeparated values) -> ~ In ","%char (chars v))
  /\ join "," (commaSeparated values) = join "," values
  /\ commaSeparated (commaSeparated values) = commaSeparated values
  /\ ((forall v, In v values -> ~ In ","%char (chars v)) ->
      commaSeparated values = values
      /\ (values <> [] -> commaSeparated [join "," values] = values)).
Proof.
  assert (Hkeep : forall l, (forall v, In v l -> ~ In ","%char (chars v)) ->
                            commaSeparated l = l).
  { intros l Hl. rewrite commaSeparated_split.
    induction l as [|v l IH]; [done|]. cbn [flat_map].
    rewrite split_without by (apply Hl; by left). cbn [app]. f_equal.
    apply IH. intros x Hx. apply Hl. by right. }
  assert (Hparts : forall v, In v (commaSeparated values) -> ~ In ","%char (chars v)).
  { intros v. rewrite commaSeparated_split, List.in_flat_map.
    intros (t & _ & Hv). by eapply split_parts. }
  assert (Hjoin : forall l, join "," (commaSeparated l) = join "," l).
  { intros l. rewrite commaSeparated_split. unfold join.
    induction l as [|t l IH]; [done|]. cbn [flat_map].
    destruct l as [|u l].
    - cbn [flat_map]. rewrite app_nil_r. apply concat_split.
    - rewrite concat_app; [|apply split_nonempty|].
      + rewrite IH, concat_split. done.
      + cbn [flat_map]. pose proof (split_nonempty "," u).
        destruct (split "," u); [done | done]. }
  split; [exact Hparts|]. split; [apply Hjoin|]. split; [by apply Hkeep|].
  intros Hvalues. split; [by apply Hkeep|]. intros Hne.
  rewrite commaSeparated_split. cbn [flat_map]. rewrite app_nil_r.
  unfold join. clear Hparts. induction values as [|v l IH]; [done|].
  destruct l as [|u l].
  - cbn [String.concat]. apply split_without, Hvalues. by left.
  - cbn [String.concat].
    assert (Hsplit : forall a b, ~ In ","%char (chars a) ->
              split "," (a +:+ "," +:+ b) = a :: split "," b).
    { intros a b. unfold chars. induction a as [|c a IHa]; [done|].
      rewrite append_cons. cbn [list_ascii_of_string In split]. intros Hno.
      destruct (Ascii.eqb_spec c ","%char) as [-> | _]; [tauto|].
      rewrite IHa by tauto. done. }
    rewrite Hsplit by (apply Hvalues; by left). f_equal.
    apply IH; [|done]. intros x Hx. apply Hvalues. by right.
Qed.

End StringTheorems.

(** ** Filtered lists and what is rendered of them *)

Lemma truthy_nonEmptyString s : truthy s = true <-> is_Some (nonEmptyString s).
Proof.
  destruct s as [s|]; cbn; [destruct (String.eqb s EmptyString); cbn|];
    split; intros Hx; try done; try (by eexists); by destruct Hx.
Qed.

Lemma uniqueIds_Permutation l l' : Permutation l l' -> uniqueIds l -> uniqueIds l'.
Proof.
  unfold uniqueIds. intros Hp. by rewrite Hp.
Qed.

Lemma uniqueIds_filter (f : Def -> bool) l : uniqueIds l -> uniqueIds (List.filter f l).
Proof.
  unfold uniqueIds. induction l as [|d l IH]; [done|]. cbn [omap list_omap List.filter].
  intros Hnd.
  assert (Hl : NoDup (omap (fun d => nonEmptyString (id d)) l)).
  { destruct (nonEmptyString (id d)); [by apply NoDup_cons in Hnd as [_ ?] | done]. }
  destruct (f d); [|by apply IH]. cbn [omap list_omap].
  destruct (nonEmptyString (id d)) as [i|] eqn:E; [|by apply IH].
  apply NoDup_cons in Hnd as [Hni _]. apply NoDup_cons. split; [|by apply IH].
  intros Hi. apply Hni. apply list_elem_of_omap in Hi as (x & Hx & Ex).
  apply list_elem_of_omap. exists x. split; [|done].
  apply list_elem_of_In. apply list_elem_of_In, List.filter_In in Hx. tauto.
Qed.

Lemma uniqueIds_rebuild F l : uniqueIds l -> uniqueIds (map (rebuild F) l).
Proof.
  unfold uniqueIds. intros Hu.
  assert (E : omap (fun d => nonEmptyString (id d)) (map (rebuild F) l)
              = omap (fun d => nonEmptyString (id d)) l).
  { clear Hu. induction l as [|d l IH]; [done|]. cbn [map omap list_omap].
    rewrite id_rebuild. destruct (nonEmptyString (id d)); by rewrite IH. }
  by rewrite E.
Qed.

Section FilteredLists.
Context `{RegExpEngine}.
Variable definitions : list Def.
Variable fo : FilterOptions.
Hypothesis links : consistentLinks definitions.
Hypothesis no_meta : forall d, In d definitions -> isMeta d = false.

Local Abbreviation final := (applyFiltersToDefinitions definitions fo).
Local Abbreviation F := (finalIds definitions fo).

Lemma final_In e :
  In e final <-> exists d, survives definitions fo d /\ e = rebuild F d.
Proof.
  split.
  - intros He. apply final_nonMeta_origin; [done|].
    rewrite applyFiltersToDefinitions_unsorted, sort_In in He. unfold unsorted in He.
    assert (Hnometa : metaEntries definitions = []).
    { unfold metaEntries. apply filter_none. exact no_meta. }
    rewrite Hnometa in He. cbn [map app] in He.
    apply List.in_map_iff in He as (d & <- & Hd).
    rewrite isMeta_rebuild. apply no_meta. apply keptEntries_survives in Hd. by destruct Hd.
  - intros (d & Hd & ->). by apply survivor_materialised.
Qed.

Lemma final_unsorted : final = sort byStartLine (map (rebuild F) (keptEntries definitions fo)).
Proof.
  rewrite applyFiltersToDefinitions_unsorted. unfold unsorted.
  assert (Hnometa : metaEntries definitions = []).
  { unfold metaEntries. apply filter_none. exact no_meta. }
  by rewrite Hnometa.
Qed.

Lemma final_uniqueIds : uniqueIds final.
Proof.
  rewrite final_unsorted.
  eapply uniqueIds_Permutation; [symmetry; apply sort_Permutation|].
  apply uniqueIds_rebuild, uniqueIds_filter. by destruct links as [[? _] _ _ _ _].
Qed.

Lemma survives_id d : survives definitions fo d -> exists i, nonEmptyString (id d) = Some i /\ i ∈ F.
Proof.
  intros Hd. pose proof Hd as [Hin Hinc]. unfold included in Hinc.
  destruct (nonEmptyString (id d)) as [i|] eqn:Hi; [|discriminate].
  exists i. split; [done|]. apply elem_of_idSet. exists d.
  split; [by apply keptEntries_survives | by apply nonEmptyString_Some in Hi as [? _]].
Qed.

Lemma finalIds_survivor i :
  i ∈ F -> exists d, survives definitions fo d /\ id d = Some i.
Proof.
  intros Hi. apply elem_of_idSet in Hi as (d & Hd & E).
  exists d. split; [by apply keptEntries_survives | done].
Qed.

Lemma final_ids e : In e final -> is_Some (nonEmptyString (id e)).
Proof.
  intros He. apply final_In in He as (d & Hd & ->). rewrite id_rebuild.
  destruct (survives_id d Hd) as (i & -> & _). by eexists.
Qed.

Lemma rebuilt_children d :
  optList (children (rebuild F d))
  = List.filter (fun childId => bool_decide (childId ∈ F)) (optList (children d)).
Proof. rewrite children_rebuild. by destruct (children d). Qed.

(** The parent link of a rebuilt survivor is the one it had, and names
    a survivor. *)
Lemma rebuilt_parent d pid :
  survives definitions fo d -> parentId (rebuild F d) = Some pid ->
  parentId d = Some pid /\ exists p, survives definitions fo p /\ id p = Some pid.
Proof.
  intros Hd Hpid. destruct links as [[Hu Hids] _ _ _ Hparent].
  rewrite parentId_rebuild in Hpid.
  destruct (nonEmptyString (parentId d)) as [q|] eqn:Hq.
  - pose proof (nonEmptyString_Some _ _ Hq) as [Eq _].
    case_bool_decide as HqF; [|discriminate].
    assert (q = pid) as -> by congruence. split; [done|]. by apply finalIds_survivor.
  - exfalso. destruct Hd as [Hdin _].
    destruct (Hparent d pid Hdin Hpid) as (p & Hp & Eid).
    rewrite Forall_forall in Hids.
    assert (Hp' : p ∈ definitions) by (by apply list_elem_of_In).
    destruct (Hids p Hp') as [x Hx].
    rewrite Hpid in Hq. rewrite Eid in Hx.
    apply nonEmptyString_Some in Hx as [[= ->] Hne].
    by rewrite nonEmptyString_of_Some in Hq.
Qed.

Lemma kept_parent_link d p :
  survives definitions fo d -> survives definitions fo p ->
  parentId d = id p -> parentId (rebuild F d) = parentId d.
Proof.
  intros Hd Hp E. rewrite parentId_rebuild.
  destruct (nonEmptyString (parentId d)) as [q|] eqn:Hq; [|done].
  rewrite bool_decide_eq_true_2; [done|].
  destruct (survives_id p Hp) as (i & Hi & HiF).
  rewrite <- E, Hq in Hi. congruence.
Qed.

(** The filter keeps the links consistent. *)
Lemma final_links : consistentLinks final.
Proof.
  pose proof links as [[Hu Hids] Hboth Honce Hchildren Hparent].
  split.
  - split; [apply final_uniqueIds|]. apply Forall_forall. intros e He.
    by apply final_ids, list_elem_of_In.
  - intros c p ci Hc Hp Hci.
    apply final_In in Hc as (dc & Hdc & ->). apply final_In in Hp as (dp & Hdp & ->).
    rewrite id_rebuild in Hci. rewrite rebuilt_children, id_rebuild.
    rewrite list_elem_of_In, List.filter_In, <- list_elem_of_In, bool_decide_eq_true.
    destruct (survives_id dc Hdc) as (i & Hi & HiF).
    assert (i = ci) as -> by (apply nonEmptyString_Some in Hi as [? _]; congruence).
    destruct (survives_id dp Hdp) as (pi & Hpi & _).
    pose proof (nonEmptyString_Some _ _ Hpi) as [Epi _].
    pose proof Hdc as [Hdcin _]. pose proof Hdp as [Hdpin _].
    split.
    + intros Hpar. rewrite Epi in Hpar.
      destruct (rebuilt_parent dc pi Hdc Hpar) as [Hparc _].
      split; [|done]. apply (Hboth dc dp ci Hdcin Hdpin Hci). congruence.
    + intros [Hin _]. apply (Hboth dc dp ci Hdcin Hdpin Hci) in Hin.
      by rewrite (kept_parent_link dc dp).
  - intros p Hp. apply final_In in Hp as (dp & [Hdpin _] & ->).
    rewrite rebuilt_children. apply NoDup_ListNoDup, List.NoDup_filter, NoDup_ListNoDup.
    by apply Honce.
  - intros p ci Hp Hci. apply final_In in Hp as (dp & Hdp & ->).
    rewrite rebuilt_children in Hci.
    apply list_elem_of_In, List.filter_In in Hci as [_ HciF].
    apply bool_decide_eq_true in HciF.
    destruct (finalIds_survivor ci HciF) as (c & Hc & Eid).
    exists (rebuild F c). split; [by apply survivor_materialised | by rewrite id_rebuild].
  - intros c pid Hc Hpid. apply final_In in Hc as (dc & Hdc & ->).
    destruct (rebuilt_parent dc pid Hdc Hpid) as [_ (p & Hp & Eid)].
    exists (rebuild F p). split; [by apply survivor_materialised | by rewrite id_rebuild].
Qed.

Lemma findById_final d i :
  survives definitions fo d -> nonEmptyString (id d) = Some i ->
  findById final i = Some (rebuild F d).
Proof.
  intros Hd Hi. apply findById_unique; [apply final_uniqueIds | |by rewrite id_rebuild].
  by apply survivor_materialised.
Qed.

(** A survivor whose parent survives is found among the children of the
    parent, before the filter and after it. *)
Lemma kept_child d p :
  survives definitions fo d -> survives definitions fo p -> parentId d = id p ->
  In d (childrenOf definitions p)
  /\ In (rebuild F d) (childrenOf final (rebuild F p)).
Proof.
  intros Hd Hp E. pose proof links as [[Hu _] Hboth _ _ _].
  destruct (survives_id d Hd) as (i & Hi & HiF).
  pose proof (nonEmptyString_Some _ _ Hi) as [Ei _].
  pose proof Hd as [Hdin _]. pose proof Hp as [Hpin _].
  assert (Hlisted : i ∈ optList (children p)) by (by apply (Hboth d p i)).
  unfold childrenOf. split.
  - apply list_elem_of_In, list_elem_of_omap. exists i. split; [done|].
    by apply findById_unique.
  - apply list_elem_of_In, list_elem_of_omap. exists i. split.
    + rewrite rebuilt_children. apply list_elem_of_In, List.filter_In.
      split; [by apply list_elem_of_In | by apply bool_decide_eq_true].
    + by apply findById_final.
Qed.

Section Nesting.
Variable n : nat.
Variable rank : Def -> nat.
Hypothesis rank_bound : forall d, In d definitions -> (rank d < n)%nat.
Hypothesis rank_children :
  forall p d, In p definitions -> In d (childrenOf definitions p) -> (rank d < rank p)%nat.

(** Every definition of the filtered list hangs below a definition
    without [parentId]. *)
Lemma final_reachable d : survives definitions fo d -> reachable final (rebuild F d).
Proof.
  assert (Hall : forall m d, survives definitions fo d -> (n - rank d <= m)%nat ->
                             reachable final (rebuild F d)).
  { induction m as [|m IH]; intros x Hx Hm.
    - pose proof (rank_bound x ltac:(by destruct Hx)). lia.
    - destruct (parentId (rebuild F x)) as [pid|] eqn:Hpid.
      + destruct (rebuilt_parent x pid Hx Hpid) as [Hpar (p & Hp & Eid)].
        assert (E : parentId x = id p) by congruence.
        destruct (kept_child x p Hx Hp E) as [Hbefore Hafter].
        apply reachable_child with (p := rebuild F p); [|done].
        apply IH; [done|].
        pose proof (rank_children p x ltac:(by destruct Hp) Hbefore).
        pose proof (rank_bound p ltac:(by destruct Hp)). lia.
      + apply reachable_root. unfold topLevelDefs. apply List.filter_In.
        split; [by apply survivor_materialised | by rewrite Hpid]. }
  intros Hd. by apply (Hall (n - rank d)%nat).
Qed.

Lemma rankOf_rebuild d :
  survives definitions fo d -> rankOf definitions rank (rebuild F d) = rank d.
Proof.
  intros Hd. unfold rankOf. rewrite id_rebuild.
  destruct (survives_id d Hd) as (i & Hi & _). rewrite Hi.
  rewrite (findById_unique definitions d i); [done | | by destruct Hd | done].
  by destruct links as [[? _] _ _ _ _].
Qed.

Lemma final_nests : nestsWithin n final.
Proof.
  exists (rankOf definitions rank). split.
  - intros e He. apply final_In in He as (d & Hd & ->). rewrite rankOf_rebuild by done.
    apply rank_bound. by destruct Hd.
  - intros p c Hp Hc. apply final_In in Hp as (dp & Hdp & ->).
    unfold childrenOf in Hc. apply list_elem_of_In, list_elem_of_omap in Hc as (ci & Hci & Hfind).
    rewrite rebuilt_children in Hci. apply list_elem_of_In, List.filter_In in Hci as [Hci HciF].
    apply bool_decide_eq_true in HciF.
    destruct (finalIds_survivor ci HciF) as (dc & Hdc & Eid).
    destruct (survives_id dc Hdc) as (i & Hi & _).
    assert (i = ci) as -> by (apply nonEmptyString_Some in Hi as [? _]; congruence).
    rewrite (findById_final dc ci Hdc Hi) in Hfind. injection Hfind as <-.
    rewrite !rankOf_rebuild by done.
    apply rank_children; [by destruct Hdp|].
    unfold childrenOf. apply list_elem_of_In, list_elem_of_omap. exists ci.
    split; [by apply list_elem_of_In|].
    apply findById_unique; [by destruct links as [[? _] _ _ _ _] | by destruct Hdc | done].
Qed.

End Nesting.
End FilteredLists.

Section FilteredTheorems.
Context `{RegExpEngine} `{Host}.

(** X15: the filter keeps the hierarchy consistent. Applied to a list
    without error entries whose links are consistent, it returns a list
    whose links are consistent: ids are distinct and present, a
    definition is listed by the definition its [parentId] names and by
    no other, and every id listed and every parent named belongs to a
    definition that was kept. *)
Theorem filter_keeps_links_consistent (definitions : list Def) (fo : FilterOptions) :
  consistentLinks definitions ->
  (forall d, In d definitions -> isMeta d = false) ->
  consistentLinks (applyFiltersToDefinitions definitions fo).
Proof. intros Hlinks Hmeta. by apply final_links. Qed.

(** X16: nothing that the filter keeps is lost in the output. For a list
    without error entries whose links are consistent and nest within the
    depth allowed, every definition of the filtered list hangs below a
    definition without [parentId], the filtered list nests within the
    same depth, and the XML document of the filtered list holds the
    element of every definition of it, at every detail level. *)
Theorem filtered_definitions_are_rendered (definitions : list Def) (fo : FilterOptions)
    (depth : nat) (path : string) (detailLevel : DetailLevel) :
  consistentLinks definitions ->
  (forall d, In d definitions -> isMeta d = false) ->
  nestsWithin depth definitions ->
  let final := applyFiltersToDefinitions definitions fo in
  (forall e, In e final -> reachable final e)
  /\ nestsWithin depth final
  /\ exists doc,
       formatResultsXML depth [(path, final)] detailLevel = Some doc
       /\ forall e, In e final ->
            exists fuel element,
              renderDefinitionXML fuel detailLevel final e = Some element
              /\ In element (xmlElements doc).
Proof.
  intros Hlinks Hmeta (rank & Hbound & Hrank). cbv zeta.
  assert (Hreach : forall e, In e (applyFiltersToDefinitions definitions fo) ->
                             reachable (applyFiltersToDefinitions definitions fo) e).
  { intros e He. apply (final_In definitions fo Hmeta) in He as (d & Hd & ->).
    by eapply final_reachable. }
  assert (Hnest : nestsWithin depth (applyFiltersToDefinitions definitions fo))
    by (by eapply final_nests).
  split; [done|]. split; [done|].
  destruct (formatResultsXML_reachable depth
              [(path, applyFiltersToDefinitions definitions fo)] detailLevel)
    as (doc & Hdoc & Hall).
  { intros p defs [[= <- <-] | []]. exact Hnest. }
  exists doc. split; [done|]. intros e He.
  apply (Hall path _ e); [by left | by apply Hreach].
Qed.

End FilteredTheorems.

(** ** The filter applied twice *)

(** The sort leaves a list that is in order as it is. *)
Lemma sort_sorted_same {A} (key : A -> Z) (l : list A) :
  StronglySorted (fun a b => key a <= key b) l -> sort (byKey key) l = l.
Proof.
  induction 1 as [|x l Hl IH Hx]; [done|].
  cbn [sort foldr]. fold (sort (byKey key) l). rewrite IH.
  destruct l as [|y l']; [done|]. cbn [sort_insert].
  apply Forall_cons in Hx as [Hxy _]. unfold byKey.
  destruct (0 <? key x - key y) eqn:E; [|done]. apply Z.ltb_lt in E. lia.
Qed.

Section RebuiltFields.
Context `{RegExpEngine}.

(** The filter conditions read nothing that the rebuilding changes. *)
Lemma rebuild_sameButLinks F d : sameButLinks d (rebuild F d).
Proof.
  unfold rebuild.
  destruct (children d) as [c|].
  - eapply sameButLinks_trans; [apply sameButLinks_set_children|].
    destruct (nonEmptyString _) as [p|]; [|apply sameButLinks_refl].
    destruct (bool_decide _); [apply sameButLinks_refl | apply sameButLinks_set_parentId].
  - destruct (nonEmptyString _) as [p|]; [|apply sameButLinks_refl].
    destruct (bool_decide _); [apply sameButLinks_refl | apply sameButLinks_set_parentId].
Qed.

Lemma basicFilter_sameButLinks fo a b :
  sameButLinks a b -> basicFilter fo a = basicFilter fo b.
Proof.
  intros Hab. destruct a, b. unfold sameButLinks, unlinked in Hab. cbn in Hab.
  injection Hab as -> -> -> -> -> -> -> -> -> -> -> -> -> ->. reflexivity.
Qed.

Lemma parentExcluded_sameButLinks fo a b :
  sameButLinks a b -> parentExcluded fo a = parentExcluded fo b.
Proof.
  intros Hab. destruct a, b. unfold sameButLinks, unlinked in Hab. cbn in Hab.
  injection Hab as -> -> -> -> -> -> -> -> -> -> -> -> -> ->. reflexivity.
Qed.

End RebuiltFields.

Section FilterTwice.
Context `{RegExpEngine}.
Variable definitions : list Def.
Variable fo : FilterOptions.
Hypothesis links : consistentLinks definitions.
Hypothesis no_meta : forall d, In d definitions -> isMeta d = false.

Local Abbreviation final := (applyFiltersToDefinitions definitions fo).
Local Abbreviation F := (finalIds definitions fo).

Lemma final_no_meta e : In e final -> isMeta e = false.
Proof.
  intros He. apply (final_In definitions fo no_meta) in He as (d & [Hd _] & ->).
  rewrite isMeta_rebuild. by apply no_meta.
Qed.

(** A match of the list is a match of the filtered list. *)
Lemma final_selected d :
  survives definitions fo d -> selected definitions fo d -> selected final fo (rebuild F d).
Proof.
  intros Hd [Hb Hid]. split; [|by rewrite id_rebuild].
  apply basicFilteredEntries_In in Hb as (Hin & Hm & Hbasic).
  unfold basicFilteredEntries, nonMetaEntries. rewrite !List.filter_In.
  split; [split|].
  - by apply survivor_materialised.
  - by rewrite isMeta_rebuild, Hm.
  - by rewrite <- (basicFilter_sameButLinks fo d _ (rebuild_sameButLinks F d)).
Qed.

(** A chain of kept parents between survivors is a chain of the
    filtered list. *)
Lemma final_keptAncestorOf b d :
  survives definitions fo b -> keptAncestorOf definitions fo b d ->
  keptAncestorOf final fo (rebuild F b) (rebuild F d).
Proof.
  pose proof links as [[Hu _] _ _ _ _].
  assert (Hstep : forall x p, survives definitions fo x -> parentOf definitions x p ->
            parentExcluded fo p = false ->
            survives definitions fo p
            /\ parentOf final (rebuild F x) (rebuild F p)
            /\ parentExcluded fo (rebuild F p) = false).
  { intros x p Hx Hxp Hex.
    assert (Hp : survives definitions fo p) by (by eapply survives_parent).
    split; [done|]. split.
    - destruct Hxp as (pid & Hpid & Hfind).
      apply findById_Some in Hfind as [Hpin Hpi].
      pose proof (nonEmptyString_Some _ _ Hpid) as [Epid Hne].
      exists pid. split.
      + rewrite (kept_parent_link definitions fo x p Hx Hp) by congruence. done.
      + apply (findById_final definitions fo links no_meta p pid Hp).
        rewrite Hpi. by apply nonEmptyString_of_Some.
    - by rewrite <- (parentExcluded_sameButLinks fo p _ (rebuild_sameButLinks F p)). }
  intros Hb Hchain. induction Hchain as [x p Hxp Hex | x p a Hxp Hex _ IH].
  - destruct (Hstep x p Hb Hxp Hex) as (_ & ? & ?). by apply kept_parent.
  - destruct (Hstep x p Hb Hxp Hex) as (Hp & ? & ?).
    eapply kept_further; [done | done |]. by apply IH.
Qed.

(** Every definition of the filtered list survives a second pass. *)
Lemma final_survives e : In e final -> survives final fo e.
Proof.
  pose proof links as [[Hu _] _ _ _ _].
  intros He. apply (final_In definitions fo no_meta) in He as (d & Hd & ->).
  destruct (survives_justified definitions fo d Hu Hd) as [Hsel | (b & Hb & Hchain)].
  - apply selected_survives. by apply final_selected.
  - assert (Hbs : survives definitions fo b) by (by apply selected_survives).
    apply (keptAncestorOf_survives final fo (rebuild F b)).
    + by apply final_uniqueIds.
    + apply selected_survives. by apply final_selected.
    + by apply final_keptAncestorOf.
Qed.

Lemma final_sorted : StronglySorted (fun a b => startLine a <= startLine b) final.
Proof. rewrite applyFiltersToDefinitions_unsorted. apply (sort_sorted startLine). Qed.

Lemma applyFilters_twice : applyFiltersToDefinitions final fo = final.
Proof.
  rewrite (applyFilters_all_survive final fo).
  - apply (sort_sorted_same startLine), final_sorted.
  - by apply final_links.
  - apply final_no_meta.
  - apply final_survives.
Qed.

End FilterTwice.

Section FilterTwiceTheorem.
Context `{RegExpEngine} `{TreeSitter} `{Host}.

(** X22: the filter is idempotent on a hierarchy. Applied to a list
    without error entries whose links are consistent, and then to its
    own result with the same options, it returns that result unchanged:
    a second pass removes nothing, not even the ancestors that were
    kept without matching, cuts no link and keeps the order. This holds
    for every list that the per-file pipeline returns. *)
Theorem filter_idempotent (definitions : list Def) (fo : FilterOptions) :
  (consistentLinks definitions -> (forall d, In d definitions -> isMeta d = false) ->
   applyFiltersToDefinitions (applyFiltersToDefinitions definitions fo) fo
   = applyFiltersToDefinitions definitions fo)
  /\ (forall code filePath,
        parseCodeWithTreeSitter code filePath = inl definitions ->
        applyFiltersToDefinitions (applyFiltersToDefinitions definitions fo) fo
        = applyFiltersToDefinitions definitions fo).
Proof.
  split; [apply applyFilters_twice|].
  intros code filePath Hparse.
  destruct (hierarchy_links_consistent_aux code filePath definitions Hparse)
    as [[n ->] | [Hmeta Hlinks]]; [|by apply applyFilters_twice].
  by rewrite !applyFilters_error.
Qed.

End FilterTwiceTheorem.

(** ** Definitions on the same lines *)

Lemma isParentOf_iff d A p :
  isParentOf d A p = true <-> id p <> id d /\ matchesNode A p.
Proof.
  unfold isParentOf, matchesNode.
  rewrite !andb_true_iff, negb_true_iff, bool_decide_eq_false.
  rewrite !Z.eqb_eq, includes_true, list_elem_of_In. tauto.
Qed.

Lemma isParentOf_false d A p :
  isParentOf d A p = false -> matchesNode A p -> id p = id d.
Proof.
  intros Hf Hm. destruct (decide (id p = id d)) as [|Hne]; [done|].
  assert (isParentOf d A p = true) by (apply isParentOf_iff; done). congruence.
Qed.

Lemma findParent_skip defs d pre rest :
  (forall A' q, In A' pre -> In q defs -> isParentOf d A' q = false) ->
  findParent defs d (pre ++ rest) = findParent defs d rest.
Proof.
  induction pre as [|A pre IH]; intros Hpre; [done|].
  cbn [app findParent].
  destruct (list_find _ defs) as [[k q]|] eqn:Hf.
  - apply list_find_Some in Hf as (Hk & Hq & _).
    rewrite (Hpre A q) in Hq; [done | by left | by eapply list_elem_of_In, list_elem_of_lookup_2].
  - apply IH. intros A' q HA' Hq. apply Hpre; [by right | done].
Qed.

Section TwinSearch.
Variable rootNode : Parser.SyntaxNode.
Variable defs0 : list Def.
Hypothesis ids_unique : uniqueIds defs0.
Hypothesis ids_present : Forall (fun d => is_Some (nonEmptyString (id d))) defs0.

Lemma same_id_index i j a b :
  defs0 !! i = Some a -> defs0 !! j = Some b -> id a = id b -> i = j.
Proof.
  intros Hi Hj E.
  pose proof ids_present as Hids. rewrite Forall_forall in Hids.
  destruct (Hids a (list_elem_of_lookup_2 _ _ _ Hi)) as [x Hx].
  eapply uniqueIds_index; eauto. by rewrite <- E.
Qed.

(** A definition whose parent spans the same lines: the parent finds a
    parent on these lines too, and that one finds the parent back. *)
Lemma twin_search i j d0 p0 :
  defs0 !! i = Some d0 -> defs0 !! j = Some p0 ->
  findParent defs0 d0 (ancestorsOf rootNode d0) = Some j ->
  sameSpan d0 p0 -> In (type d0) plausibleParentTypes ->
  exists k q0,
    defs0 !! k = Some q0
    /\ findParent defs0 p0 (ancestorsOf rootNode p0) = Some k
    /\ findParent defs0 q0 (ancestorsOf rootNode q0) = Some j
    /\ sameSpan p0 q0.
Proof.
  intros Hi Hj Hfind [Hs He] Hplausible.
  destruct (findParent_Some _ _ _ _ Hfind)
    as (p & pre & A & post & Hj' & Hanc & Hpre & HA & Hfirst).
  assert (p = p0) as -> by congruence. clear Hj'.
  apply isParentOf_iff in HA as [Hne Hmp].
  assert (Hmd : matchesNode A d0).
  { destruct Hmp as (? & ? & _). repeat split; [congruence | congruence | done]. }
  assert (Hnone : forall A' r, In A' pre -> In r defs0 -> ~ matchesNode A' r).
  { intros A' r HA' Hr Hm.
    assert (r = d0) as ->.
    { pose proof (isParentOf_false _ _ _ (Hpre A' r HA' Hr) Hm) as E.
      apply list_elem_of_In, list_elem_of_lookup in Hr as [m Hmr].
      assert (m = i) by (by eapply same_id_index). congruence. }
    assert (Hp : isParentOf d0 A' p0 = true).
    { apply isParentOf_iff. split; [done|].
      destruct Hm as (? & ? & _), Hmp as (_ & _ & ?).
      repeat split; [congruence | congruence | done]. }
    rewrite (Hpre A' p0 HA') in Hp; [done|].
    by eapply list_elem_of_In, list_elem_of_lookup_2. }
  assert (Hsearch : forall x0, startLine x0 = startLine d0 ->
            findParent defs0 x0 (ancestorsOf rootNode x0)
            = findParent defs0 x0 (A :: post)).
  { intros x0 Ex.
    assert (ancestorsOf rootNode x0 = ancestorsOf rootNode d0) as ->
      by (unfold ancestorsOf; by rewrite Ex).
    rewrite Hanc. apply findParent_skip. intros A' q HA' Hq.
    destruct (isParentOf x0 A' q) eqn:E; [|done].
    apply isParentOf_iff in E as [_ E]. by destruct (Hnone A' q HA' Hq). }
  assert (Hstart : forall x0, matchesNode A x0 -> startLine x0 = startLine d0).
  { intros x0 (? & _). destruct Hmd as (? & _). congruence. }
  (* the parent of [p0] *)
  destruct (list_find (fun q => isParentOf p0 A q = true) defs0) as [[k q0]|] eqn:Hfp.
  2: { apply list_find_None in Hfp. rewrite Forall_forall in Hfp.
       destruct (Hfp d0 (list_elem_of_lookup_2 _ _ _ Hi)).
       apply isParentOf_iff. split; [congruence | done]. }
  apply list_find_Some in Hfp as (Hk & HAq & Hbefore_k).
  apply isParentOf_iff in HAq as [Hneq Hmq].
  (* the parent of [q0] *)
  destruct (list_find (fun r => isParentOf q0 A r = true) defs0) as [[k' r0]|] eqn:Hfq.
  2: { apply list_find_None in Hfq. rewrite Forall_forall in Hfq.
       destruct (Hfq p0 (list_elem_of_lookup_2 _ _ _ Hj)).
       apply isParentOf_iff. split; [congruence | done]. }
  pose proof Hfq as Hfq'.
  apply list_find_Some in Hfq' as (Hk' & HAr & Hbefore_k').
  apply isParentOf_iff in HAr as [Hner Hmr].
  assert (k' = j) as ->.
  { destruct (lt_eq_lt_dec k' j) as [[Hlt | ->] | Hgt]; [exfalso | done | exfalso].
    - pose proof (isParentOf_false _ _ _ (Hfirst k' r0 Hlt Hk') Hmr) as E.
      assert (k' = i) by (by eapply same_id_index). subst k'.
      assert (Hkk : k <> i).
      { intros ->. assert (q0 = r0) by congruence. subst. done. }
      destruct (lt_eq_lt_dec k i) as [[Hlt' | ->] | Hgt']; [| done |].
      + assert (Hkj : (k < j)%nat) by lia.
        pose proof (isParentOf_false _ _ _ (Hfirst k q0 Hkj Hk) Hmq) as E'.
        apply Hkk. exact (same_id_index k i q0 d0 Hk Hi E').
      + destruct (Hbefore_k i r0 Hk' Hgt'). apply isParentOf_iff. split; [|done].
        intros E'. assert (i = j) by (by eapply same_id_index). lia.
    - destruct (Hbefore_k' j p0 Hj Hgt). apply isParentOf_iff. split; [congruence | done]. }
  exists k, q0. split; [done|]. split; [|split].
  - rewrite Hsearch by (by rewrite (Hstart p0 Hmp)). cbn [findParent].
    destruct (list_find (fun q => isParentOf p0 A q = true) defs0) as [[k1 q1]|] eqn:Hf1.
    + apply list_find_Some in Hf1 as (Hk1 & HA1 & Hb1).
      f_equal. destruct (lt_eq_lt_dec k1 k) as [[Hlt | ->] | Hgt]; [exfalso | done | exfalso].
      * apply (Hbefore_k k1 q1 Hk1 Hlt). exact HA1.
      * destruct (Hb1 k q0 Hk Hgt). apply isParentOf_iff. done.
    + apply list_find_None in Hf1. rewrite Forall_forall in Hf1.
      destruct (Hf1 q0 (list_elem_of_lookup_2 _ _ _ Hk)). apply isParentOf_iff. done.
  - rewrite Hsearch by (by apply Hstart). cbn [findParent]. by rewrite Hfq.
  - destruct Hmp as (? & ? & _), Hmq as (? & ? & _). split; congruence.
Qed.

End TwinSearch.

(** In a list with consistent links a definition that is reached has its
    parent reached. *)
Lemma parent_reachable out x y :
  consistentLinks out -> reachable out x -> parentOf out x y -> reachable out y.
Proof.
  intros [[Hu Hids] Hboth _ _ _] Hx (pid & Hpid & Hy).
  destruct Hx as [x Hroot | p x Hp Hx].
  - unfold topLevelDefs in Hroot. apply List.filter_In in Hroot as [_ Ht].
    apply negb_true_iff in Ht.
    assert (truthy (parentId x) = true) by (apply truthy_nonEmptyString; by eexists).
    congruence.
  - assert (p = y) as <-; [|done].
    pose proof (reachable_In _ _ Hp) as Hpin.
    unfold childrenOf in Hx.
    apply list_elem_of_In, list_elem_of_omap in Hx as (ci & Hci & Hf).
    apply findById_Some in Hf as [Hxin Hxi].
    apply (Hboth x p ci Hxin Hpin Hxi) in Hci.
    apply findById_Some in Hy as [Hyin Hyi].
    apply nonEmptyString_Some in Hpid as [Epid Hne].
    symmetry. eapply uniqueIds_eq; [exact Hu | exact Hyin | exact Hpin | | ].
    + rewrite Hyi. by apply nonEmptyString_of_Some.
    + congruence.
Qed.

Lemma parent_lists_child out x y :
  consistentLinks out -> In x out -> parentOf out x y -> In x (childrenOf out y).
Proof.
  intros [[Hu Hids] Hboth _ _ _] Hx (pid & Hpid & Hy).
  rewrite Forall_forall in Hids.
  destruct (Hids x ltac:(by apply list_elem_of_In)) as [xi Hxi].
  pose proof (nonEmptyString_Some _ _ Hxi) as [Exi _].
  pose proof (findById_Some _ _ _ Hy) as [Hyin Hyi].
  apply nonEmptyString_Some in Hpid as [Epid _].
  unfold childrenOf. apply list_elem_of_In, list_elem_of_omap. exists xi. split.
  - apply (Hboth x y xi Hx Hyin Exi). congruence.
  - by apply findById_unique.
Qed.

(** Two definitions that are each other's parent are not reached. *)
Lemma mutual_parents_unreachable out x y :
  consistentLinks out -> parentOf out x y -> parentOf out y x -> ~ reachable out x.
Proof.
  intros Hlinks Hxy Hyx Hx. revert y Hxy Hyx.
  induction Hx as [x Hroot | p x Hp IH Hx]; intros y Hxy Hyx.
  - destruct Hxy as (pid & Hpid & _).
    unfold topLevelDefs in Hroot. apply List.filter_In in Hroot as [_ Ht].
    apply negb_true_iff in Ht.
    assert (truthy (parentId x) = true) by (apply truthy_nonEmptyString; by eexists).
    congruence.
  - assert (Hy : reachable out y).
    { eapply parent_reachable; [done | | exact Hxy]. by eapply reachable_child. }
    assert (p = y) as ->.
    { destruct Hlinks as [[Hu Hids] Hboth _ _ _].
      destruct Hxy as (pid & Hpid & Hfy).
      pose proof (reachable_In _ _ Hp) as Hpin.
      unfold childrenOf in Hx.
      apply list_elem_of_In, list_elem_of_omap in Hx as (ci & Hci & Hf).
      apply findById_Some in Hf as [Hxin Hxi].
      apply (Hboth x p ci Hxin Hpin Hxi) in Hci.
      apply findById_Some in Hfy as [Hyin Hyi].
      apply nonEmptyString_Some in Hpid as [Epid Hne].
      symmetry. eapply uniqueIds_eq; [exact Hu | exact Hyin | exact Hpin | | ].
      + rewrite Hyi. by apply nonEmptyString_of_Some.
      + congruence. }
    by apply (IH x).
Qed.

Lemma ancestor_reachable out x a :
  consistentLinks out -> ancestorOf out x a -> reachable out x -> reachable out a.
Proof.
  intros Hlinks Ha. induction Ha as [d p Hp | d p a Hp _ IH]; intros Hd.
  - by eapply parent_reachable.
  - apply IH. by eapply parent_reachable.
Qed.

Section Twins.
Context `{RegExpEngine} `{TreeSitter} `{Host}.

(** X17: in the result of the per-file pipeline, a definition [d] of a
    kind that can be a parent whose parent [p] spans the same lines as
    [d] is under a pair of definitions, [p] and some [q] on these lines,
    that are each other's parent and child.  None of them is a root or
    is reached from a root, and neither is a definition that has [d]
    among its ancestors. *)
Theorem same_span_parents_form_a_cycle (code filePath : string) (out : list Def)
    (d p : Def) :
  parseCodeWithTreeSitter code filePath = inl out ->
  In d out -> parentOf out d p -> sameSpan d p ->
  In (type d) plausibleParentTypes ->
  exists q,
    parentOf out p q /\ parentOf out q p /\ sameSpan p q
    /\ In p (childrenOf out q) /\ In q (childrenOf out p)
    /\ topLevelDefs out <> out
    /\ (forall x, x = d \/ x = p \/ x = q \/ ancestorOf out x d -> ~ reachable out x).
Proof.
  intros Hparse Hd Hdp Hspan Hplausible.
  pose proof (hierarchy_links_consistent_aux code filePath out Hparse) as Hcons.
  apply parseCodeWithTreeSitter_parsed in Hparse
    as [n -> | language rootNode langQueries Hlang Hroot Hq ->].
  { destruct Hdp as (pid & Hpid & _). destruct Hd as [<- | []]. discriminate. }
  destruct Hcons as [[n Hn] | [_ Hlinks]].
  { rewrite Hn in Hd. destruct Hdp as (pid & Hpid & _). destruct Hd as [<- | []].
    discriminate. }
  destruct (extractDefinitions_extractInv language langQueries code rootNode _ Hq)
    as (Hex & Hu & Hids).
  set (defs0 := extractDefinitions language langQueries code rootNode) in *.
  destruct (linkParents_spec rootNode defs0) as [Hshape Hpar].
  set (out := linkParents rootNode defs0) in *.
  pose proof Hlinks as [[Hu' Hids'] _ _ _ _].
  assert (Hfresh : forall k d0, defs0 !! k = Some d0 -> parentId d0 = None).
  { intros k d0 Hk. rewrite Forall_forall in Hex.
    by destruct (Hex d0 (list_elem_of_lookup_2 _ _ _ Hk)) as (? & _). }
  (* from a link of [out] to the search that made it, and back *)
  assert (Hto : forall i x x0 y, out !! i = Some x -> defs0 !! i = Some x0 ->
            parentOf out x y ->
            exists j y0, defs0 !! j = Some y0 /\ out !! j = Some y
                         /\ findParent defs0 x0 (ancestorsOf rootNode x0) = Some j).
  { intros i x x0 y Hi Hi0 (pid & Hpid & Hy).
    apply nonEmptyString_Some in Hpid as [Epid Hne].
    apply findById_Some in Hy as [Hyin Hyi].
    rewrite (Hpar i x0 x Hi0 Hi) in Epid. unfold linkedParentId in Epid.
    destruct (findParent defs0 x0 (ancestorsOf rootNode x0)) as [j|] eqn:Hfind.
    2: { rewrite (Hfresh i x0 Hi0) in Epid. discriminate. }
    pose proof (findParent_lt _ _ _ _ Hfind) as Hlt.
    apply lookup_lt_is_Some in Hlt as [y0 Hj0].
    rewrite Hj0 in Epid. cbn in Epid.
    pose proof (Forall2_lookup_l _ _ _ _ _ Hshape Hj0) as (y' & Hj & Hsame).
    exists j, y0. split; [done|]. split; [|done].
    rewrite Hj. f_equal.
    apply sameButLinks_fields in Hsame as (Eid & _).
    eapply uniqueIds_eq; [exact Hu' | by eapply list_elem_of_In, list_elem_of_lookup_2
                         | exact Hyin | | exact Hyi].
    rewrite <- Eid, Epid. by apply nonEmptyString_of_Some. }
  assert (Hfrom : forall i j x x0 y, out !! i = Some x -> defs0 !! i = Some x0 ->
            out !! j = Some y ->
            findParent defs0 x0 (ancestorsOf rootNode x0) = Some j ->
            parentOf out x y).
  { intros i j x x0 y Hi Hi0 Hj Hfind.
    pose proof (Forall2_lookup_r _ _ _ _ _ Hshape Hj) as (y0 & Hj0 & Hsame).
    apply sameButLinks_fields in Hsame as (Eid & _).
    rewrite Forall_forall in Hids'.
    destruct (Hids' y (list_elem_of_lookup_2 _ _ _ Hj)) as [pid Hpid].
    exists pid. split.
    - rewrite (Hpar i x0 x Hi0 Hi). unfold linkedParentId. rewrite Hfind, Hj0. cbn.
      by rewrite Eid.
    - apply findById_unique; [done | by eapply list_elem_of_In, list_elem_of_lookup_2 | done]. }
  assert (Hspans : forall i x x0, out !! i = Some x -> defs0 !! i = Some x0 ->
            startLine x = startLine x0 /\ endLine x = endLine x0 /\ type x = type x0).
  { intros i x x0 Hi Hi0.
    pose proof (Forall2_lookup_lr _ _ _ _ _ _ Hshape Hi0 Hi) as Hsame.
    apply sameButLinks_fields in Hsame as (_ & Et & Es & Ee & _). auto. }
  pose proof Hd as Hd'.
  apply list_elem_of_In, list_elem_of_lookup in Hd' as [i Hi].
  pose proof (Forall2_lookup_r _ _ _ _ _ Hshape Hi) as (d0 & Hi0 & _).
  destruct (Hto i d d0 p Hi Hi0 Hdp) as (j & p0 & Hj0 & Hj & Hfind).
  destruct (Hspans i d d0 Hi Hi0) as (Eds & Ede & Edt).
  destruct (Hspans j p p0 Hj Hj0) as (Eps & Epe & Ept).
  destruct (twin_search rootNode defs0 Hu Hids i j d0 p0 Hi0 Hj0 Hfind)
    as (k & q0 & Hk0 & Hfp & Hfq & Hspq).
  { destruct Hspan. split; congruence. }
  { by rewrite <- Edt. }
  pose proof (Forall2_lookup_l _ _ _ _ _ Hshape Hk0) as (q & Hk & _).
  destruct (Hspans k q q0 Hk Hk0) as (Eqs & Eqe & Eqt).
  assert (Hpq : parentOf out p q) by (by eapply (Hfrom j k)).
  assert (Hqp : parentOf out q p) by (by eapply (Hfrom k j)).
  assert (Hpin : In p out) by (by eapply list_elem_of_In, list_elem_of_lookup_2).
  assert (Hqin : In q out) by (by eapply list_elem_of_In, list_elem_of_lookup_2).
  assert (Hp_un : ~ reachable out p) by (by eapply mutual_parents_unreachable).
  exists q. split; [done|]. split; [done|]. split.
  { destruct Hspq. split; congruence. }
  split; [by apply parent_lists_child|]. split; [by apply parent_lists_child|]. split.
  { intros E. apply Hp_un. apply reachable_root. by rewrite E. }
  intros x [-> | [-> | [-> | Hx]]] Hr.
  - apply Hp_un. by eapply parent_reachable.
  - done.
  - by eapply (mutual_parents_unreachable out q p).
  - apply Hp_un. eapply parent_reachable; [done | | exact Hdp].
    by eapply ancestor_reachable.
Qed.

End Twins.

Lemma mapM_None_In {A B} (f : A -> option B) (l : list A) x :
  In x l -> f x = None -> mapM f l = None.
Proof.
  intros Hx Hf. destruct (mapM f l) as [k|] eqn:E; [|done].
  destruct (mapM_In f l k x E Hx) as (y & Hy & _). congruence.
Qed.

Section CycleProofs.
Context `{RegExpEngine} `{TreeSitter} `{Host}.

(** The recursion of the Markdown renderer on two definitions that list
    each other ends at no depth. *)
Lemma renderDefinitionMarkdown_cycle fuel detailLevel definitions a b :
  In b (childrenOf definitions a) -> In a (childrenOf definitions b) ->
  forall indent,
    renderDefinitionMarkdown fuel detailLevel definitions indent a = None
    /\ renderDefinitionMarkdown fuel detailLevel definitions indent b = None.
Proof.
  intros Hab Hba. induction fuel as [|fuel IH]; intros indent; [done|].
  cbn [renderDefinitionMarkdown].
  rewrite (mapM_None_In _ _ b Hab (proj2 (IH (S indent)))).
  rewrite (mapM_None_In _ _ a Hba (proj1 (IH (S indent)))).
  done.
Qed.

(** X18: when the definitions of a file have no top-level definition and
    two of them list each other as children, the Markdown formatter,
    which then lists all definitions, returns at no recursion depth.
    The XML and the JSON formatter, when they return, show the file
    without any definition. *)
Theorem markdown_fallback_cycle_never_returns (fuel : nat)
    (results : list (string * list Def)) (detailLevel : DetailLevel)
    (directoryPath path : string) (defs : list Def) (a b : Def) :
  lookupKey results path = Some defs ->
  topLevelDefs defs = [] -> In a defs ->
  In b (childrenOf defs a) -> In a (childrenOf defs b) ->
  formatResultsMarkdown fuel results detailLevel directoryPath = None
  /\ (forall doc, formatResultsXML fuel results detailLevel = Some doc ->
        In (Element "File" [("path", AttrString path)] []) (xmlElements doc))
  /\ (forall output, formatResultsJSON fuel results detailLevel = Some output ->
        exists fields, output = JObject fields /\ In (path, JArray []) fields).
Proof.
  intros Hdefs Htop Ha Hab Hba.
  pose proof (lookupKey_In _ _ _ Hdefs) as Hin.
  split; [|split].
  - unfold formatResultsMarkdown, markdownPieces.
    rewrite (mapM_None_In _ _ path); [done | |].
    + apply sort_In. apply List.in_map_iff. by exists (path, defs).
    + unfold markdownFile. rewrite Hdefs. cbn [default from_option].
      unfold Datatypes.id. rewrite Htop. destruct defs as [|d ds]; [destruct Ha|].
      rewrite (mapM_None_In _ _ a Ha); [done|].
      by apply (renderDefinitionMarkdown_cycle fuel detailLevel (d :: ds) a b).
  - intros doc Hdoc. unfold formatResultsXML in Hdoc.
    destruct (mapM _ results) as [files|] eqn:Hfiles; [|discriminate].
    injection Hdoc as <-.
    destruct (mapM_In _ _ _ _ Hfiles Hin) as (file & Hfile & Hfin).
    cbn [fst snd] in Hfile. rewrite Htop in Hfile. cbn in Hfile. injection Hfile as <-.
    cbn [xmlElements]. right. apply in_flat_map. eexists. split; [exact Hfin|].
    apply xmlElements_self.
  - intros output Hout. unfold formatResultsJSON in Hout.
    destruct (mapM _ results) as [fields|] eqn:Hfields; [|discriminate].
    injection Hout as <-. exists fields. split; [done|].
    destruct (mapM_In _ _ _ _ Hfields Hin) as (field & Hfield & Hfin).
    cbn [fst snd] in Hfield. rewrite Htop in Hfield. cbn in Hfield. by injection Hfield as <-.
Qed.

End CycleProofs.

(** ** A file without a root *)

Section WithoutRoot.
Context `{Host}.

(** In a list with consistent links in which every definition has a
    parent, whatever the depth allowed, the recursion of the Markdown
    renderer is deeper on one definition at least. *)
Lemma renderDefinitionMarkdown_without_root fuel detailLevel defs d :
  consistentLinks defs -> roots defs = [] -> In d defs ->
  exists a, In a defs
            /\ forall indent, renderDefinitionMarkdown fuel detailLevel defs indent a = None.
Proof.
  intros Hlinks Hroots Hd. induction fuel as [|fuel (a & Ha & Hnone)].
  - by exists d.
  - assert (Hpar : exists p, parentOf defs a p) .
    { destruct (nonEmptyString (parentId a)) as [pid|] eqn:Hpid.
      - pose proof (nonEmptyString_Some _ _ Hpid) as [Epid Hne].
        destruct (links_parent defs Hlinks a pid Ha Epid) as (p & Hp & Hid).
        exists p, pid. split; [done|].
        apply findById_unique; [exact (proj1 (links_ids defs Hlinks)) | done |].
        rewrite Hid. by apply nonEmptyString_of_Some.
      - assert (In a (roots defs)) as Hr; [|rewrite Hroots in Hr; destruct Hr].
        apply List.filter_In. split; [done|]. by apply bool_decide_eq_true. }
    destruct Hpar as [p Hp].
    pose proof (parent_lists_child defs a p Hlinks Ha Hp) as Hchild.
    exists p. split.
    + destruct Hp as (pid & _ & Hfind). by apply findById_Some in Hfind as [? _].
    + intros indent. cbn [renderDefinitionMarkdown].
      by rewrite (mapM_None_In _ _ a Hchild (Hnone (S indent))).
Qed.

(** The Markdown formatter does not return, at any depth, for a map that
    holds a file with definitions, consistent links and no definition
    without [parentId]: it then starts from every definition of the
    file, and the parents never end. *)
Lemma markdown_without_root_never_returns fuel results detailLevel directoryPath path defs :
  lookupKey results path = Some defs ->
  consistentLinks defs -> defs <> [] -> roots defs = [] ->
  formatResultsMarkdown fuel results detailLevel directoryPath = None.
Proof.
  intros Hdefs Hlinks Hne Hroots.
  pose proof (lookupKey_In _ _ _ Hdefs) as Hin.
  unfold formatResultsMarkdown, markdownPieces.
  rewrite (mapM_None_In _ _ path); [done | |].
  - apply sort_In. apply List.in_map_iff. by exists (path, defs).
  - unfold markdownFile. rewrite Hdefs. cbn [default from_option].
    unfold Datatypes.id. rewrite topLevelDefs_roots, Hroots.
    destruct defs as [|d ds]; [done|].
    destruct (renderDefinitionMarkdown_without_root fuel detailLevel (d :: ds) d
                Hlinks Hroots ltac:(by left)) as (a & Ha & Hnone).
    by rewrite (mapM_None_In _ _ a Ha (Hnone 1%nat)).
Qed.

End WithoutRoot.

(** ** File discovery *)

Lemma setAdd_In files f x : In x (setAdd files f) <-> In x files \/ x = f.
Proof.
  unfold setAdd, includes. case_bool_decide as Hf.
  - split; [auto|]. intros [? | ->]; [done | by apply list_elem_of_In].
  - rewrite in_app_iff. cbn. naive_solver.
Qed.

Lemma setAdd_NoDup files f : List.NoDup files -> List.NoDup (setAdd files f).
Proof.
  intros Hnd. unfold setAdd, includes. case_bool_decide as Hf; [done|].
  apply NoDup_ListNoDup. apply NoDup_app. split; [by apply NoDup_ListNoDup|]. split.
  - intros x Hx Hx'. apply list_elem_of_singleton in Hx'. by subst.
  - apply NoDup_singleton.
Qed.

Lemma setAdd_old files f : List.NoDup files -> In f files -> setAdd files f = files.
Proof.
  intros _ Hf. unfold setAdd, includes. rewrite bool_decide_eq_true_2; [done|].
  by apply list_elem_of_In.
Qed.

Lemma fold_setAdd_In (g : string -> string) found files x :
  In x (fold_left (fun files f => setAdd files (g f)) found files)
  <-> In x files \/ exists m, In m found /\ x = g m.
Proof.
  revert files. induction found as [|m found IH]; intros files; cbn [fold_left].
  - split; [auto | intros [? | (? & [] & _)]; done].
  - rewrite IH, setAdd_In. split.
    + intros [[? | ->] | (m' & Hm' & ->)]; [by left | right; exists m; by split; [left|] |].
      right. exists m'. by split; [right|].
    + intros [? | (m' & [<- | Hm'] & ->)]; [by left; left | by left; right |].
      right. by exists m'.
Qed.

Lemma fold_setAdd_NoDup (g : string -> string) found files :
  List.NoDup files -> List.NoDup (fold_left (fun files f => setAdd files (g f)) found files).
Proof.
  revert files. induction found as [|m found IH]; intros files Hnd; cbn [fold_left]; [done|].
  by apply IH, setAdd_NoDup.
Qed.

Lemma setOf_In values x : In x (setOf values) <-> In x values.
Proof.
  unfold setOf. rewrite (fold_setAdd_In (fun f => f)). split.
  - intros [[] | (m & Hm & ->)]. done.
  - intros Hx. right. by exists x.
Qed.

Lemma setOf_NoDup values : List.NoDup (setOf values).
Proof. unfold setOf. apply (fold_setAdd_NoDup (fun f => f)). constructor. Qed.

(** A set is not changed by making a set of it. *)
Lemma fold_setAdd_fresh values files :
  List.NoDup (files ++ values) -> fold_left setAdd values files = files ++ values.
Proof.
  revert files. induction values as [|v values IH]; intros files Hnd; cbn [fold_left].
  - by rewrite app_nil_r.
  - assert (Hv : ~ In v files).
    { apply NoDup_ListNoDup, NoDup_app in Hnd as (_ & Hdisj & _).
      intros Hv. apply (Hdisj v); [by apply list_elem_of_In | by left]. }
    assert (E : setAdd files v = files ++ [v]).
    { unfold setAdd, includes. rewrite bool_decide_eq_false_2; [done|].
      by rewrite list_elem_of_In. }
    rewrite E, IH; rewrite <- app_assoc; done.
Qed.

Lemma setOf_set values : List.NoDup values -> setOf values = values.
Proof. intros Hnd. unfold setOf. by rewrite fold_setAdd_fresh. Qed.

Lemma filterThrowing_inl keep xs kept :
  filterThrowing keep xs = inl kept ->
  kept = List.filter (fun x => bool_decide (keep x = inl true)) xs
  /\ forall x, In x xs -> exists b, keep x = inl b.
Proof.
  revert kept. induction xs as [|x xs IH]; intros kept; cbn [filterThrowing List.filter].
  - intros [= <-]. split; [done | intros ? []].
  - destruct (keep x) as [b|m] eqn:Hx; [|discriminate].
    destruct (filterThrowing keep xs) as [kept'|m]; [|discriminate].
    intros [= <-]. destruct (IH kept' eq_refl) as [-> Hall]. split.
    + destruct b; [by rewrite bool_decide_eq_true_2 | by rewrite bool_decide_eq_false_2].
    + intros y [<- | Hy]; [by exists b | by apply Hall].
Qed.

Lemma filterThrowing_inr keep xs message :
  filterThrowing keep xs = inr message -> exists x, In x xs /\ keep x = inr message.
Proof.
  induction xs as [|x xs IH]; cbn [filterThrowing]; [discriminate|].
  destruct (keep x) as [b|m] eqn:Hx.
  - destruct (filterThrowing keep xs) as [kept'|m]; [discriminate|].
    intros [= <-]. destruct (IH eq_refl) as (y & Hy & Hky). exists y. split; [by right | done].
  - intros [= <-]. exists x. split; [by left | done].
Qed.

Lemma someThrowing_false test xs :
  someThrowing test xs = inl false <-> forall x, In x xs -> test x = inl false.
Proof.
  induction xs as [|x xs IH]; cbn [someThrowing].
  - split; [intros _ ? [] | done].
  - destruct (test x) as [[|]|m] eqn:Hx.
    + split; [discriminate|]. intros Hall. specialize (Hall x (or_introl eq_refl)). congruence.
    + rewrite IH. split.
      * intros Hall y [<- | Hy]; [done | by apply Hall].
      * intros Hall y Hy. apply Hall. by right.
    + split; [discriminate|]. intros Hall. specialize (Hall x (or_introl eq_refl)). congruence.
Qed.

Lemma someThrowing_inr test xs message :
  someThrowing test xs = inr message -> exists x, In x xs /\ test x = inr message.
Proof.
  induction xs as [|x xs IH]; cbn [someThrowing]; [discriminate|].
  destruct (test x) as [[|]|m] eqn:Hx; [discriminate | |].
  - intros Hm. destruct (IH Hm) as (y & Hy & Hty). exists y. split; [by right | done].
  - intros [= <-]. exists x. split; [by left | done].
Qed.

Section DiscoveryProofs.
Context `{RegExpEngine} `{TreeSitter} `{Host} `{FileSystem}.

Lemma addAll_NoDup files found : List.NoDup files -> List.NoDup (addAll files found).
Proof. apply fold_setAdd_NoDup. Qed.

Lemma globFallback_NoDup targetDir files includePath :
  List.NoDup files -> List.NoDup (globFallback targetDir files includePath).
Proof.
  intros Hnd. unfold globFallback.
  destruct (_ || _); [|done]. destruct (fg _ _); [by apply addAll_NoDup | done].
Qed.

Lemma includeRestrictive_NoDup targetDir files includePath :
  List.NoDup files -> List.NoDup (includeRestrictive targetDir files includePath).
Proof.
  intros Hnd. unfold includeRestrictive.
  destruct (stat _) as [[| |]|]; [by apply setAdd_NoDup | | done | by apply globFallback_NoDup].
  destruct (fg _ _); [by apply addAll_NoDup | by apply globFallback_NoDup].
Qed.

Lemma fold_NoDup (step : list string -> string -> list string) paths files :
  (forall files p, List.NoDup files -> List.NoDup (step files p)) ->
  List.NoDup files -> List.NoDup (fold_left step paths files).
Proof.
  intros Hstep. revert files. induction paths as [|p paths IH]; intros files Hnd; cbn; [done|].
  by apply IH, Hstep.
Qed.

(** Without include paths the files are the matches of the file
    patterns, normalized, each one once: the loop that adds include
    paths to them has nothing to run on. *)
Lemma discoverFiles_standard targetDir filePatterns fo :
  nonEmpty (includePaths fo) = false ->
  discoverFiles targetDir filePatterns fo
  = match fg (map (fun p => backslashesToSlashes (joinPath targetDir p)) (setOf filePatterns))
             (Some targetDir) with
    | Some globMatches => inl (setOf (map normalize globMatches))
    | None => inr "File globbing failed."
    end.
Proof.
  intros Hne. unfold discoverFiles.
  assert (E : forall found files,
            addAll files found = fold_left setAdd (map normalize found) files).
  { intros found. unfold addAll. induction found as [|m found IH]; intros files; cbn; [done|].
    by rewrite IH. }
  destruct (includePaths fo) as [[|p ps]|]; [| discriminate |];
    cbn [optList default from_option List.filter fold_left];
    (destruct (fg _ _) as [globMatches|]; [|done]);
    f_equal; rewrite E; fold (setOf (map normalize globMatches));
    apply setOf_set, setOf_NoDup.
Qed.

Lemma discoverFiles_NoDup targetDir filePatterns fo files :
  discoverFiles targetDir filePatterns fo = inl files -> List.NoDup files.
Proof.
  destruct (nonEmpty (includePaths fo)) eqn:Hne.
  - unfold discoverFiles. destruct (includePaths fo) as [[|p ps]|]; try discriminate.
    intros [= <-].
    apply (fold_NoDup (includeRestrictive targetDir) (p :: ps) []);
      [apply includeRestrictive_NoDup | constructor].
  - rewrite discoverFiles_standard by done.
    destruct (fg _ _); [|discriminate]. intros [= <-]. apply setOf_NoDup.
Qed.

(** What the two filters of [filesToFilter] leave. *)
Lemma filesToFilter_inl directory filePatterns fo files :
  filesToFilter directory filePatterns fo = inl files ->
  let targetDir := targetDirOf directory in
  access targetDir = true
  /\ exists found,
       discoverFiles targetDir filePatterns fo = inl found
       /\ (forall f, In f files <->
             In f found
             /\ ignores (ignoreRules (findUp ".gitignore" targetDir))
                        (outputKey targetDir f) = inl false
             /\ forall pattern, In pattern (optList (excludePaths fo)) ->
                                minimatch (outputKey targetDir f) pattern = inl false)
       /\ List.NoDup files.
Proof.
  unfold filesToFilter. cbv zeta. set (targetDir := targetDirOf directory).
  intros Hfiles.
  destruct (access targetDir); [|discriminate]. split; [done|].
  destruct (discoverFiles targetDir filePatterns fo) as [found|] eqn:Hfound; [|discriminate].
  exists found. split; [done|].
  destruct (filterThrowing _ found) as [kept|] eqn:Hkept; [|discriminate].
  apply filterThrowing_inl in Hkept as [Hkept _].
  pose proof (discoverFiles_NoDup _ _ _ _ Hfound) as Hnd.
  assert (Hk : forall f, In f kept <->
             In f found /\ ignores (ignoreRules (findUp ".gitignore" targetDir))
                                   (outputKey targetDir f) = inl false).
  { intros f. rewrite Hkept, List.filter_In. unfold getIgnoreFilter, outputKey.
    rewrite bool_decide_eq_true.
    destruct (ignores _ _) as [[|]|]; cbn; naive_solver. }
  assert (Hkept_nd : List.NoDup kept) by (rewrite Hkept; by apply List.NoDup_filter).
  destruct (optList (excludePaths fo)) as [|e es] eqn:Hpatterns.
  - cbn in Hfiles. injection Hfiles as <-. split; [|done].
    intros f. rewrite Hk. split; [|tauto].
    intros [? ?]. split; [done|]. split; [done|]. intros ? [].
  - cbn [length Nat.ltb Nat.leb] in Hfiles.
    apply filterThrowing_inl in Hfiles as [-> _]. split; [|by apply List.NoDup_filter].
    intros f. rewrite List.filter_In, Hk, bool_decide_eq_true.
    unfold notExcluded. cbv zeta. fold (outputKey targetDir f).
    rewrite <- someThrowing_false.
    destruct (someThrowing _ (e :: es)) as [[|]|]; cbn; naive_solver.
Qed.

(** What makes [filesToFilter] fail. *)
Lemma filesToFilter_inr directory filePatterns fo message :
  filesToFilter directory filePatterns fo = inr message ->
  let targetDir := targetDirOf directory in
  let rules := ignoreRules (findUp ".gitignore" targetDir) in
  (access targetDir = false /\ message = "Directory not found: " +:+ targetDir)
  \/ (access targetDir = true /\ nonEmpty (includePaths fo) = false
      /\ fg (map (fun p => backslashesToSlashes (joinPath targetDir p))
                 (setOf filePatterns)) (Some targetDir) = None
      /\ message = "File globbing failed.")
  \/ (exists found f,
        discoverFiles targetDir filePatterns fo = inl found /\ In f found
        /\ ignores rules (outputKey targetDir f) = inr message)
  \/ (exists found f pattern,
        discoverFiles targetDir filePatterns fo = inl found /\ In f found
        /\ In pattern (optList (excludePaths fo))
        /\ minimatch (outputKey targetDir f) pattern = inr message).
Proof.
  unfold filesToFilter. cbv zeta. set (targetDir := targetDirOf directory).
  intros Hfiles.
  destruct (access targetDir); [|injection Hfiles as <-; by left].
  destruct (discoverFiles targetDir filePatterns fo) as [found|m] eqn:Hfound.
  2: { injection Hfiles as ->. right. left. split; [done|].
       destruct (nonEmpty (includePaths fo)) eqn:Hne.
       - exfalso. unfold discoverFiles in Hfound.
         by destruct (includePaths fo) as [[|p ps]|].
       - rewrite (discoverFiles_standard targetDir filePatterns fo Hne) in Hfound.
         destruct (fg _ _); [discriminate|]. by injection Hfound as <-. }
  destruct (filterThrowing _ found) as [kept|m] eqn:Hkept.
  - right. right. right.
    apply filterThrowing_inl in Hkept as [Hkept _].
    destruct (0 <? _)%nat; [|discriminate].
    apply filterThrowing_inr in Hfiles as (f & Hf & Hm).
    unfold notExcluded in Hm. cbv zeta in Hm. fold (outputKey targetDir f) in Hm.
    destruct (someThrowing _ _) as [b|m] eqn:Hsome; [discriminate|].
    injection Hm as ->.
    apply someThrowing_inr in Hsome as (pattern & Hp & Hpm).
    exists found, f, pattern. split; [done|]. split; [|done].
    rewrite Hkept in Hf. by apply List.filter_In in Hf as [? _].
  - injection Hfiles as ->. right. right. left.
    apply filterThrowing_inr in Hkept as (f & Hf & Hm).
    unfold getIgnoreFilter in Hm. fold (outputKey targetDir f) in Hm.
    destruct (ignores _ _) as [b|m] eqn:Hi; [discriminate|]. injection Hm as ->.
    by exists found, f.
Qed.

End DiscoveryProofs.

Lemma commaSeparated_nonEmpty values :
  nonEmpty (Some (commaSeparated values)) = nonEmpty (Some values).
Proof.
  destruct values as [|v vs]; [done|]. unfold commaSeparated. cbn [flat_map nonEmpty].
  destruct (string_includes v ","); [|done].
  pose proof (split_nonempty "," v) as Hs. by destruct (split "," v).
Qed.

Section DiscoveryTheorems.
Context `{RegExpEngine} `{TreeSitter} `{Host} `{FileSystem}.

(** X19: a scan that returns shows no file that is ignored or excluded.
    The files it parses are distinct, and every key of the map that the
    renderer is given is a path that the ignore rules, those of the
    [.gitignore] found and the two the program adds, do not ignore, and
    that matches none of the [excludePaths] patterns. *)
Theorem scan_shows_no_excluded_file (fuel : nat) (directory : string)
    (filePatterns : list string) (outputFormat : OutputFormat)
    (detailLevel : DetailLevel) (fo : FilterOptions) (output : ScanOutput) :
  performScanOf fuel directory filePatterns outputFormat detailLevel fo
  = Some (inl output) ->
  let targetDir := targetDirOf directory in
  exists files,
    filesToFilter directory filePatterns fo = inl files
    /\ List.NoDup files
    /\ formatResults fuel (scanFiles targetDir files fo) outputFormat detailLevel directory
       = Some output
    /\ forall k defs, In (k, defs) (scanFiles targetDir files fo) ->
         ignores (ignoreRules (findUp ".gitignore" targetDir)) k = inl false
         /\ forall pattern, In pattern (optList (excludePaths fo)) ->
                            minimatch k pattern = inl false.
Proof.
  intros Hscan targetDir. unfold performScanOf in Hscan.
  destruct (filesToFilter directory filePatterns fo) as [files|] eqn:Hfiles; [|by injection Hscan].
  exists files. split; [done|].
  destruct (filesToFilter_inl _ _ _ _ Hfiles) as (_ & found & _ & Hin & Hnd).
  split; [done|]. split.
  - unfold performScan in Hscan. fold targetDir in Hscan.
    destruct (formatResults _ _ _ _ _) as [o|]; [|discriminate].
    cbn in Hscan. by injection Hscan as ->.
  - intros k defs Hk. apply scanFiles_In in Hk as (f & Hf & -> & _).
    apply Hin in Hf as (_ & ? & ?). done.
Qed.

(** X20: include paths never add to the file patterns. When
    [includePaths] holds a path the files do not depend on the file
    patterns; when it holds none, the files discovered are the matches
    of the patterns, normalized, each one once. From the command line,
    [includePaths] holds a path as soon as [--include-paths] has a
    value. *)
Theorem include_paths_never_add (directory : string) (filePatterns : list string)
    (fo : FilterOptions) :
  (nonEmpty (includePaths fo) = true ->
     forall filePatterns',
       filesToFilter directory filePatterns' fo = filesToFilter directory filePatterns fo)
  /\ (nonEmpty (includePaths fo) = false ->
        discoverFiles (targetDirOf directory) filePatterns fo
        = match fg (map (fun p => backslashesToSlashes (joinPath (targetDirOf directory) p))
                        (setOf filePatterns))
                   (Some (targetDirOf directory)) with
          | Some globMatches => inl (setOf (map normalize globMatches))
          | None => inr "File globbing failed."
          end)
  /\ (forall argv, fo = cliFilterOptions argv ->
        nonEmpty (includePaths fo) = nonEmpty (argv_include_paths argv)).
Proof.
  split; [|split].
  - intros Hne filePatterns'. unfold filesToFilter, discoverFiles.
    by destruct (includePaths fo) as [[|p ps]|].
  - apply discoverFiles_standard.
  - intros argv ->. cbn [cliFilterOptions includePaths].
    destruct (argv_include_paths argv) as [values|]; [|done].
    apply commaSeparated_nonEmpty.
Qed.

(** X21: how a scan fails. It fails with [Directory not found] when the
    directory is not accessible, and with [File globbing failed.] when
    no include path is given and the glob library rejects the file
    patterns. Every error thrown before the results are formatted is one
    of these two, or the exception of the ignore library on the relative
    path of a file discovered, or the exception of the match library on
    such a path and an exclude pattern: a missing include path, a glob
    that fails in restrictive mode and a file that cannot be read or
    parsed do not make the scan fail. A scan in which none of these is
    thrown has found its files, and its outcome is the outcome of the
    formatter on their results: the output, or a recursion of the
    renderer that does not end. *)
Theorem scan_failures (fuel : nat) (directory : string) (filePatterns : list string)
    (outputFormat : OutputFormat) (detailLevel : DetailLevel) (fo : FilterOptions) :
  let targetDir := targetDirOf directory in
  let rules := ignoreRules (findUp ".gitignore" targetDir) in
  let globPatterns :=
    map (fun p => backslashesToSlashes (joinPath targetDir p)) (setOf filePatterns) in
  let result := performScanOf fuel directory filePatterns outputFormat detailLevel fo in
  (access targetDir = false ->
     result = Some (inr ("Directory not found: " +:+ targetDir)))
  /\ (access targetDir = true -> nonEmpty (includePaths fo) = false ->
      fg globPatterns (Some targetDir) = None ->
      result = Some (inr "File globbing failed."))
  /\ (forall message, result = Some (inr message) ->
        (access targetDir = false /\ message = "Directory not found: " +:+ targetDir)
        \/ (access targetDir = true /\ nonEmpty (includePaths fo) = false
            /\ fg globPatterns (Some targetDir) = None
            /\ message = "File globbing failed.")
        \/ (exists found f,
              discoverFiles targetDir filePatterns fo = inl found /\ In f found
              /\ ignores rules (outputKey targetDir f) = inr message)
        \/ (exists found f pattern,
              discoverFiles targetDir filePatterns fo = inl found /\ In f found
              /\ In pattern (optList (excludePaths fo))
              /\ minimatch (outputKey targetDir f) pattern = inr message))
  /\ ((exists message, result = Some (inr message))
      \/ exists files,
           filesToFilter directory filePatterns fo = inl files
           /\ match formatResults fuel (scanFiles targetDir files fo)
                                  outputFormat detailLevel directory with
              | Some output => result = Some (inl output)
              | None => result = None
              end).
Proof.
  intros targetDir rules globPatterns result. subst result. unfold performScanOf.
  split; [|split; [|split]]; cycle 3.
  { destruct (filesToFilter directory filePatterns fo) as [files|m] eqn:Hfiles.
    - right. exists files. split; [done|]. unfold performScan. fold targetDir.
      by destruct (formatResults _ _ _ _ _).
    - left. by exists m. }
  - intros Haccess. unfold filesToFilter. cbv zeta. fold targetDir. by rewrite Haccess.
  - intros Haccess Hne Hfg. unfold filesToFilter. cbv zeta. fold targetDir.
    rewrite Haccess, (discoverFiles_standard targetDir filePatterns fo Hne).
    fold globPatterns. by rewrite Hfg.
  - intros message Hm.
    destruct (filesToFilter directory filePatterns fo) as [files|m] eqn:Hfiles.
    { destruct (performScan _ _ _ _ _ _ _); discriminate. }
    injection Hm as ->. by apply filesToFilter_inr in Hfiles.
Qed.

End DiscoveryTheorems.

(** * Examples *)

Section Examples.
#[local] Existing Instance Example.literalEngine.
#[local] Existing Instance Example.host.
#[local] Existing Instance Example.treeSitter.

(** ** Ancestor closure *)

Lemma uniqueIds_nested : uniqueIds Example.nested.
Proof. unfold uniqueIds. apply (bool_decide_unpack _). vm_compute. exact I. Qed.

Lemma nameUnmatched_plain fo p pattern :
  nonEmptyString (excludeNamePattern fo) = Some pattern ->
  modifier p = None -> Example.occursIn pattern (name p) = false ->
  nameUnmatched fo p.
Proof.
  intros Hpat Hmod Hocc.
  assert (Hno : ~ excludePatternMatches fo (name p)).
  { intros (pattern' & regex & Hpat' & Hre & Ht).
    assert (pattern' = pattern) as -> by congruence.
    cbn in Hre. destruct (Example.plain pattern); [|discriminate].
    injection Hre as <-. cbn in Ht. congruence. }
  split; [done|]. intros n. unfold nameWithoutModifier. rewrite Hmod. cbn.
  by intros [= <-].
Qed.

(** With [includeTypes = ["method"]] and the pattern [Z], which matches
    no name, the method keeps its class and its namespace. *)
Lemma ancestor_closure_witness :
  uniqueIds Example.nested
  /\ survives Example.nested ExampleExclusion.onlyMethodsNotZ Example.nsN.
Proof.
  split; [exact uniqueIds_nested|].
  refine (proj1 (ancestor_closure Example.nested ExampleExclusion.onlyMethodsNotZ
                   uniqueIds_nested)
                Example.methodM Example.nsN _ _).
  - split; [simpl; tauto | vm_compute; reflexivity].
  - apply unmatched_further with (p := Example.classC).
    + split; [simpl; tauto|]. split; [by eexists | reflexivity].
    + by apply (nameUnmatched_plain _ _ "Z").
    + apply unmatched_parent.
      * split; [simpl; tauto|]. split; [by eexists | reflexivity].
      * by apply (nameUnmatched_plain _ _ "Z").
Defined.

(** C1 as stated fails: the method survives, the namespace is an ancestor
    of it whose name the pattern does not match, and the namespace does
    not survive, because the walk stopped at the excluded class between
    them. *)
Lemma ancestor_beyond_excluded_parent_dropped :
  survives Example.nested Example.onlyMethodsNotC Example.methodM
  /\ parentIn Example.nested Example.methodM Example.classC
  /\ parentIn Example.nested Example.classC Example.nsN
  /\ nameUnmatched Example.onlyMethodsNotC Example.nsN
  /\ ~ survives Example.nested Example.onlyMethodsNotC Example.nsN.
Proof.
  split; [|split; [|split; [|split]]].
  - split; [simpl; tauto | vm_compute; reflexivity].
  - split; [simpl; tauto|]. split; [by eexists | reflexivity].
  - split; [simpl; tauto|]. split; [by eexists | reflexivity].
  - by apply (nameUnmatched_plain _ _ "C").
  - intros [_ Hinc]. vm_compute in Hinc. discriminate.
Qed.

(** A class whose name the pattern matches is added by the closure all
    the same when its modifier does not make a regular expression: the
    exclusion test is then skipped. *)
Lemma matched_parent_with_invalid_modifier_added :
  excludePatternMatches Example.onlyMethodsNotC (name ExampleExclusion.classWithModifier)
  /\ nameWithoutModifier ExampleExclusion.classWithModifier = None
  /\ ~ In ExampleExclusion.classWithModifier
          (basicFilteredEntries ExampleExclusion.nestedWithModifier Example.onlyMethodsNotC)
  /\ survives ExampleExclusion.nestedWithModifier Example.onlyMethodsNotC
              ExampleExclusion.classWithModifier.
Proof.
  split; [|split; [|split]].
  - exists "C", (Some "C"). repeat split; vm_compute; reflexivity.
  - vm_compute; reflexivity.
  - vm_compute. intros [E | []]. discriminate.
  - split; [simpl; tauto | vm_compute; reflexivity].
Qed.

(** ** Two classes that start on one line *)

Lemma parseCodeWithTreeSitter_twoClasses :
  parseCodeWithTreeSitter Example.twoClasses "/work/two.js"
  = inl [Example.classADefinition; Example.classBDefinition].
Proof. vm_compute. reflexivity. Qed.

(** The two ids of the list are distinct. *)
Lemma pipeline_ids_distinct_witness :
  uniqueIds [Example.classADefinition; Example.classBDefinition].
Proof.
  exact (proj1 (pipeline_ids_distinct Example.twoClasses "/work/two.js"
                  [Example.classADefinition; Example.classBDefinition]
                  parseCodeWithTreeSitter_twoClasses)).
Defined.

(** The parent of [B] covers its start line. *)
Lemma hierarchy_soundness_witness :
  Parser.well_formed Example.twoClassesTree = true
  /\ exists p, In p [Example.classADefinition; Example.classBDefinition]
               /\ id p = Some "def-0"
               /\ startLine p <= startLine Example.classBDefinition <= endLine p.
Proof.
  split; [vm_compute; reflexivity|].
  destruct (hierarchy_soundness Example.twoClasses "/work/two.js"
              [Example.classADefinition; Example.classBDefinition]
              Parser.JavaScript Example.twoClassesTree
              parseCodeWithTreeSitter_twoClasses eq_refl eq_refl eq_refl
              Example.classBDefinition "def-0" (or_intror (or_introl eq_refl)) eq_refl)
    as (p & pre & A & post & Hp & Hid & _ & _ & _ & _ & _ & _ & Hstart & _).
  exists p. auto.
Defined.

(** C2, where the code departs from it: for the source
    [class A { } class B {], a line break, [}], the pipeline gives [B],
    on lines 1 to 2, the class [A], on line 1, as its parent, so the
    parent ends before the child does. The search for a parent starts at
    the node found at column 0 of the start line of [B], which is the
    node of [A]. *)
Lemma same_line_parent_ends_before_child :
  exists out d p,
    parseCodeWithTreeSitter Example.twoClasses "/work/two.js" = inl out
    /\ In d out /\ In p out
    /\ parentId d = id p /\ id p = Some "def-0"
    /\ startLine p <= startLine d
    /\ endLine p < endLine d.
Proof.
  exists [Example.classADefinition; Example.classBDefinition],
         Example.classBDefinition, Example.classADefinition.
  split; [exact parseCodeWithTreeSitter_twoClasses|].
  cbn. repeat split; auto; lia.
Qed.

(** ** A scan of three files *)


(** ** Rendering *)

Lemma nested_nestsWithin path defs :
  In (path, defs) Example.scanned -> nestsWithin 3 defs.
Proof.
  intros [[= _ <-] | []]. exists Example.height. split.
  - intros d [<- | [<- | [<- | []]]]; vm_compute; lia.
  - intros p d Hp Hd.
    destruct Hp as [<- | [<- | [<- | []]]]; vm_compute in Hd.
    + destruct Hd as [<- | []]. vm_compute. lia.
    + destruct Hd as [<- | []]. vm_compute. lia.
    + destruct Hd.
Qed.

Lemma reachable_methodM : reachable Example.nested Example.methodM.
Proof.
  apply reachable_child with (p := Example.classC).
  - apply reachable_child with (p := Example.nsN).
    + apply reachable_root. vm_compute. tauto.
    + vm_compute. tauto.
  - vm_compute. tauto.
Qed.

(** The links of the namespace, its class and the method of the class
    are consistent. *)
Lemma nested_links : consistentLinks Example.nested.
Proof.
  split.
  - split; [unfold uniqueIds; apply (bool_decide_unpack _); vm_compute; exact I|].
    repeat constructor; by eexists.
  - intros c p ci Hc Hp Hid.
    destruct Hc as [<- | [<- | [<- | []]]]; injection Hid as <-;
      destruct Hp as [<- | [<- | [<- | []]]]; cbn;
      (split; [intros E; first [discriminate E | set_solver]
              | intros E; first [reflexivity | exfalso; set_solver]]).
  - intros p [<- | [<- | [<- | []]]]; cbn; repeat constructor; set_solver.
  - intros p ci [<- | [<- | [<- | []]]] Hci; cbn in Hci.
    + exists Example.classC. split; [simpl; tauto|]. cbn. f_equal. set_solver.
    + exists Example.methodM. split; [simpl; tauto|]. cbn. f_equal. set_solver.
    + set_solver.
  - intros c pid [<- | [<- | [<- | []]]] Hpid; cbn in Hpid; try discriminate;
      injection Hpid as <-.
    + exists Example.nsN. split; [simpl; tauto | reflexivity].
    + exists Example.classC. split; [simpl; tauto | reflexivity].
Qed.

Lemma scanned_links path defs :
  In (path, defs) Example.scanned -> consistentLinks defs /\ (length defs <= 3)%nat.
Proof. intros [[= _ <-] | []]. split; [exact nested_links | simpl; lia]. Qed.

Lemma fromRoot_methodM : fromRoot Example.nested 2 Example.methodM.
Proof.
  apply fromRoot_child with (p := Example.classC).
  - apply fromRoot_child with (p := Example.nsN).
    + apply fromRoot_root; [simpl; tauto | reflexivity].
    + vm_compute. tauto.
  - vm_compute. tauto.
Qed.

(** The outline of the namespace, its class and the method of the class
    is made of the definitions found from the namespace, each at its
    depth. *)
Lemma rendering_from_roots_witness :
  (forall path defs, In (path, defs) Example.scanned ->
                     consistentLinks defs /\ (length defs <= 3)%nat)
  /\ exists o, outline 3 Example.nested = Some o
               /\ forall depth d, In (depth, d) o <-> fromRoot Example.nested depth d.
Proof.
  split; [exact scanned_links|].
  exact (proj1 (rendering_from_roots 3 Example.scanned standard "/work" scanned_links)
               "a.ts" Example.nested (or_introl eq_refl)).
Defined.

(** C9 as stated fails: the links of the list are consistent and the
    method is found from the namespace, two levels below it, and at the
    level [minimal] the JSON output holds the namespace and nothing of
    the class and the method. *)
Lemma json_minimal_omits_children :
  consistentLinks Example.nested
  /\ fromRoot Example.nested 2 Example.methodM
  /\ formatResultsJSON 3 Example.scanned minimal
     = Some (JObject [ ("a.ts", JArray [ JObject [ ("type", JString "namespace");
                                                   ("name", JString "N") ] ]) ]).
Proof.
  split; [exact nested_links|]. split; [exact fromRoot_methodM | vm_compute; reflexivity].
Qed.

(** ** The filter and the links *)

Lemma survivors_characterised_witness :
  uniqueIds Example.nested
  /\ (survives Example.nested Example.onlyMethods Example.nsN
      <-> In Example.nsN Example.nested
          /\ justified Example.nested Example.onlyMethods Example.nsN).
Proof.
  split; [exact uniqueIds_nested|].
  exact (survivors_characterised Example.nested Example.onlyMethods Example.nsN
           uniqueIds_nested).
Defined.

Lemma matches_are_kept_witness :
  survives Example.nested Example.onlyMethods Example.methodM
  /\ In (rebuild (finalIds Example.nested Example.onlyMethods) Example.methodM)
        (applyFiltersToDefinitions Example.nested Example.onlyMethods).
Proof.
  apply (matches_are_kept Example.nested Example.onlyMethods Example.methodM).
  - simpl; tauto.
  - reflexivity.
  - vm_compute; reflexivity.
  - vm_compute. by eexists.
Defined.

Lemma closure_complete_without_exclusion_witness :
  (forall d a, survives Example.nested Example.onlyMethods d ->
               ancestorOf Example.nested d a ->
               survives Example.nested Example.onlyMethods a)
  /\ (forall d p, survives Example.nested Example.onlyMethods d ->
                  parentOf Example.nested d p ->
                  parentId (rebuild (finalIds Example.nested Example.onlyMethods) d)
                  = parentId d).
Proof.
  apply (closure_complete_without_exclusion Example.nested Example.onlyMethods).
  - exact uniqueIds_nested.
  - left. reflexivity.
Defined.

Lemma hierarchy_links_consistent_witness :
  (exists n, [Example.classADefinition; Example.classBDefinition] = [errorDefinition n])
  \/ ((forall d, In d [Example.classADefinition; Example.classBDefinition] ->
                 isMeta d = false)
      /\ consistentLinks [Example.classADefinition; Example.classBDefinition]).
Proof.
  exact (hierarchy_links_consistent Example.twoClasses "/work/two.js" _
           parseCodeWithTreeSitter_twoClasses).
Defined.

Lemma unfiltered_result_only_sorted_witness :
  applyFiltersToDefinitions [Example.classADefinition; Example.classBDefinition] noFilter
  = sort byStartLine [Example.classADefinition; Example.classBDefinition].
Proof.
  exact (unfiltered_result_only_sorted Example.twoClasses "/work/two.js" _
           parseCodeWithTreeSitter_twoClasses).
Defined.

Lemma twoClasses_links :
  (forall d, In d [Example.classADefinition; Example.classBDefinition] -> isMeta d = false)
  /\ consistentLinks [Example.classADefinition; Example.classBDefinition].
Proof.
  destruct (hierarchy_links_consistent_aux Example.twoClasses "/work/two.js" _
              parseCodeWithTreeSitter_twoClasses) as [[n Hn] | Hlinks]; [discriminate | done].
Qed.

Lemma twoClasses_nestsWithin :
  nestsWithin 2 [Example.classADefinition; Example.classBDefinition].
Proof.
  exists (fun d => if String.eqb (name d) "A" then 1%nat else 0%nat). split.
  - intros d [<- | [<- | []]]; vm_compute; lia.
  - intros p d Hp Hd. destruct Hp as [<- | [<- | []]]; vm_compute in Hd.
    + destruct Hd as [<- | []]. vm_compute. lia.
    + destruct Hd.
Qed.

Lemma filter_keeps_links_consistent_witness :
  consistentLinks
    (applyFiltersToDefinitions [Example.classADefinition; Example.classBDefinition]
                               noFilter).
Proof.
  apply filter_keeps_links_consistent; [exact (proj2 twoClasses_links) |
                                        exact (proj1 twoClasses_links)].
Defined.

Lemma filtered_definitions_are_rendered_witness :
  let final := applyFiltersToDefinitions
                 [Example.classADefinition; Example.classBDefinition] noFilter in
  (forall e, In e final -> reachable final e)
  /\ nestsWithin 2 final
  /\ exists doc,
       formatResultsXML 2 [("two.js", final)] standard = Some doc
       /\ forall e, In e final ->
            exists fuel element,
              renderDefinitionXML fuel standard final e = Some element
              /\ In element (xmlElements doc).
Proof.
  apply (filtered_definitions_are_rendered
           [Example.classADefinition; Example.classBDefinition] noFilter 2 "two.js" standard).
  - exact (proj2 twoClasses_links).
  - exact (proj1 twoClasses_links).
  - exact twoClasses_nestsWithin.
Defined.

(** ** A scan from the directory *)

Section ExamplesDirectory.
#[local] Existing Instance ExampleFiles.fileSystem.

(** The text file is excluded by its path; the keys left are not
    excluded. *)
Lemma scan_shows_no_excluded_file_witness :
  exists output,
    performScanOf 3 "/work" ["**/*.js"] json standard ExampleFiles.withoutNotes
    = Some (inl output)
    /\ exists files,
         filesToFilter "/work" ["**/*.js"] ExampleFiles.withoutNotes = inl files
         /\ List.NoDup files
         /\ formatResults 3 (scanFiles (targetDirOf "/work") files ExampleFiles.withoutNotes)
                          json standard "/work" = Some output
         /\ forall k defs,
              In (k, defs) (scanFiles (targetDirOf "/work") files ExampleFiles.withoutNotes) ->
              ignores (ignoreRules (findUp ".gitignore" (targetDirOf "/work"))) k = inl false
              /\ forall pattern,
                   In pattern (optList (excludePaths ExampleFiles.withoutNotes)) ->
                   minimatch k pattern = inl false.
Proof.
  eexists. split; [vm_compute; reflexivity|].
  apply (scan_shows_no_excluded_file 3 "/work" ["**/*.js"] json standard
           ExampleFiles.withoutNotes).
  vm_compute. reflexivity.
Defined.

End ExamplesDirectory.

End Examples.

(** ** Two classes on one line *)

Section ExamplesOneLine.
#[local] Existing Instance Example.literalEngine.
#[local] Existing Instance Example.host.
#[local] Existing Instance ExampleOneLine.treeSitter.

Lemma parseCodeWithTreeSitter_oneLine :
  parseCodeWithTreeSitter ExampleOneLine.oneLine "/work/one.js"
  = inl [ExampleOneLine.classADefinition; ExampleOneLine.classBDefinition].
Proof. vm_compute. reflexivity. Qed.

(** Each of the two classes is the parent of the other, and neither is
    reached from a root. *)
Lemma same_span_parents_form_a_cycle_witness :
  exists q,
    let out := [ExampleOneLine.classADefinition; ExampleOneLine.classBDefinition] in
    parentOf out ExampleOneLine.classBDefinition q
    /\ parentOf out q ExampleOneLine.classBDefinition
    /\ sameSpan ExampleOneLine.classBDefinition q
    /\ In ExampleOneLine.classBDefinition (childrenOf out q)
    /\ In q (childrenOf out ExampleOneLine.classBDefinition)
    /\ topLevelDefs out <> out
    /\ (forall x, x = ExampleOneLine.classADefinition
                  \/ x = ExampleOneLine.classBDefinition \/ x = q
                  \/ ancestorOf out x ExampleOneLine.classADefinition ->
                  ~ reachable out x).
Proof.
  apply (same_span_parents_form_a_cycle ExampleOneLine.oneLine "/work/one.js"
           [ExampleOneLine.classADefinition; ExampleOneLine.classBDefinition]
           ExampleOneLine.classADefinition ExampleOneLine.classBDefinition).
  - exact parseCodeWithTreeSitter_oneLine.
  - simpl; tauto.
  - exists "def-1". split; vm_compute; reflexivity.
  - split; reflexivity.
  - vm_compute; tauto.
Defined.

(** The Markdown formatter does not return on them; the XML and the
    JSON formatter show an empty file. *)
Lemma markdown_fallback_cycle_never_returns_witness :
  formatResultsMarkdown 5 ExampleOneLine.scanned standard "/work" = None
  /\ (forall doc, formatResultsXML 5 ExampleOneLine.scanned standard = Some doc ->
        In (Element "File" [("path", AttrString "/work/one.js")] []) (xmlElements doc))
  /\ (forall output, formatResultsJSON 5 ExampleOneLine.scanned standard = Some output ->
        exists fields, output = JObject fields /\ In ("/work/one.js", JArray []) fields).
Proof.
  apply (markdown_fallback_cycle_never_returns 5 ExampleOneLine.scanned standard "/work"
           "/work/one.js"
           [ExampleOneLine.classADefinition; ExampleOneLine.classBDefinition]
           ExampleOneLine.classADefinition ExampleOneLine.classBDefinition).
  - reflexivity.
  - reflexivity.
  - simpl; tauto.
  - vm_compute; tauto.
  - vm_compute; tauto.
Defined.

End ExamplesOneLine.
